(** * gotetra: density deposition, line-of-sight helpers and bounds configuration

    A shallow embedding of the Go sources
      - density/interpolate.go  (NGP, CIC, CellCenter, MonteCarlo, Sobol),
      - los/geom/primitives.go  (Tetra.Orient, Pluecker edge tables),
      - los (WrapHalo, WrapXs),
      - io/config.go            (BoxConfig.CheckInit, ReadBoundsConfig),
    together with the properties stated about them.

    Go's [int] is a 64-bit two's complement integer: it is a [Z] and every
    arithmetic operation of the source is followed by [wrap_int].  Go's
    [float64] and [float32] are kept behind the interface [FloatOps], so that
    each function is written once, the way the source has it, and is then
    read with IEEE binary64 numbers (the kernel's primitive floats) or with
    exact rationals. *)

From Stdlib Require Import ZArith QArith Qround Qabs List Bool Lia Lqa.
From Stdlib Require String Ascii.
From Stdlib Require Import PrimFloat SpecFloat FloatOps FloatAxioms.
Import ListNotations.

Local Open Scope Z_scope.

(** ** Machine integers *)

Definition int_min : Z := - 2 ^ 63.
Definition int_max : Z := 2 ^ 63 - 1.

(** Two's complement reduction of a mathematical integer to Go's [int]. *)
Definition wrap_int (z : Z) : Z := (z + 2 ^ 63) mod 2 ^ 64 - 2 ^ 63.

Definition int_add (a b : Z) : Z := wrap_int (a + b).
Definition int_sub (a b : Z) : Z := wrap_int (a - b).
Definition int_mul (a b : Z) : Z := wrap_int (a * b).

Definition in_int (z : Z) : Prop := int_min <= z <= int_max.

(** [a / b] and [a % b]: truncated division; a zero divisor panics. *)
Definition int_quot (a b : Z) : option Z :=
  if b =? 0 then None else Some (wrap_int (Z.quot a b)).

Definition int_rem (a b : Z) : option Z :=
  if b =? 0 then None else Some (Z.rem a b).

(** ** Floating-point numbers *)

(** The operations the sources use on [float64] and [float32] values.  A
    [float32] is a [float64] that [f32] leaves unchanged: Go's widening
    conversion [float64(x)] is exact, and an operation on two [float32]
    operands is the same operation on their widenings followed by [f32]. *)
Class FloatOps (F : Type) : Type := {
  fadd : F -> F -> F;
  fsub : F -> F -> F;
  fmul : F -> F -> F;
  fdiv : F -> F -> F;
  fneg : F -> F;
  ffloor : F -> F;            (* math.Floor *)
  fltb : F -> F -> bool;      (* x < y *)
  fleb : F -> F -> bool;      (* x <= y *)
  feqb : F -> F -> bool;      (* x == y *)
  fofZ : Z -> F;              (* float64(n) for an int n *)
  ftoZ : F -> Z;              (* int(x) *)
  f32 : F -> F;               (* float32(x), kept as its exact widening *)
  fhalf : F;                  (* the literal 0.5 *)
  f0251 : F                   (* the literal 0.251 *)
}.

Declare Scope fl_scope.
Delimit Scope fl_scope with fl.
Infix "+" := fadd : fl_scope.
Infix "-" := fsub : fl_scope.
Infix "*" := fmul : fl_scope.
Infix "/" := fdiv : fl_scope.

(** *** IEEE binary64 *)

Module Binary64.

(** The integer part of a finite float, rounded towards minus infinity
    ([down = true]) or towards zero. *)
Definition to_Z_gen (down : bool) (x : float) : option Z :=
  match Prim2SF x with
  | S754_zero _ => Some 0
  | S754_finite s m e =>
      let mag_floor :=
        if 0 <=? e then Zpos m * 2 ^ e else Zpos m / 2 ^ (- e) in
      let exact :=
        if 0 <=? e then true else Zpos m mod 2 ^ (- e) =? 0 in
      Some (if s
            then if down && negb exact then - mag_floor - 1 else - mag_floor
            else mag_floor)
  | S754_infinity _ => None
  | S754_nan => None
  end.

(** [float64(n)]: the nearest binary64 number, ties to even. *)
Definition of_Z (n : Z) : float :=
  SF2Prim (binary_normalize prec emax n 0 false).

(** [math.Floor]: infinities, NaN and zeros are returned as they are. *)
Definition floor (x : float) : float :=
  match Prim2SF x with
  | S754_finite _ _ _ =>
      match to_Z_gen true x with
      | Some 0 => if PrimFloat.ltb x zero then neg_zero else zero
      | Some n => of_Z n
      | None => x
      end
  | _ => x
  end.

(** [int(x)]: truncation; a value that does not fit (or NaN) gives the
    "integer indefinite" value of the amd64 conversion. *)
Definition to_int (x : float) : Z :=
  match to_Z_gen false x with
  | Some n => if (int_min <=? n) && (n <=? int_max) then n else int_min
  | None => int_min
  end.

(** [float32(x)]: round to 24 bits of precision, exponent range of
    binary32. *)
Definition to_f32 (x : float) : float :=
  match Prim2SF x with
  | S754_finite s m e =>
      SF2Prim (binary_normalize 24 128 (if s then Zneg m else Zpos m) e s)
  | _ => x
  end.

#[global] Instance ops : FloatOps float := {|
  fadd := PrimFloat.add;
  fsub := PrimFloat.sub;
  fmul := PrimFloat.mul;
  fdiv := PrimFloat.div;
  fneg := PrimFloat.opp;
  ffloor := floor;
  fltb := PrimFloat.ltb;
  fleb := PrimFloat.leb;
  feqb := PrimFloat.eqb;
  fofZ := of_Z;
  ftoZ := to_int;
  f32 := to_f32;
  fhalf := 0x1p-1%float;
  f0251 := 0x1.010624dd2f1aap-2%float (* 0.251 *)
|}.

End Binary64.

(** *** Exact rational arithmetic *)

Module Exact.

Definition Qltb (x y : Q) : bool := negb (Qle_bool y x).

Definition trunc (x : Q) : Z :=
  if Qle_bool 0 x then Qfloor x else Qceiling x.

#[global] Instance ops : FloatOps Q := {|
  fadd := Qplus;
  fsub := Qminus;
  fmul := Qmult;
  fdiv := Qdiv;
  fneg := Qopp;
  ffloor := fun x => inject_Z (Qfloor x);
  fltb := Qltb;
  fleb := Qle_bool;
  feqb := Qeq_bool;
  fofZ := inject_Z;
  ftoZ := trunc;
  f32 := fun x => x;
  fhalf := 1 # 2;
  f0251 := 251 # 1000
|}.

End Exact.

(** ** Lists as arrays *)

(** [list_set i v l] is the Go assignment [l[i] = v] for an index in range
    (the callers check the range: Go panics outside it). *)
Fixpoint list_set {A : Type} (i : nat) (v : A) (l : list A) : list A :=
  match l, i with
  | [], _ => []
  | _ :: t, O => v :: t
  | h :: t, S i' => h :: list_set i' v t
  end.

(** [l[i]] for an integer index; Go panics outside the range. *)
Definition nth_int {A : Type} (l : list A) (i : Z) : option A :=
  if i <? 0 then None else nth_error l (Z.to_nat i).

(** [l[i] = v] for an integer index. *)
Definition set_int {A : Type} (l : list A) (i : Z) (v : A) : option (list A) :=
  if (0 <=? i) && (i <? Z.of_nat (length l))
  then Some (list_set (Z.to_nat i) v l)
  else None.

(** A loop [for _, x := range l { body }] over a state that a panic
    loses. *)
Fixpoint foldO {A S : Type} (l : list A) (body : A -> S -> option S) (s : S) :
    option S :=
  match l with
  | [] => Some s
  | x :: l' =>
      match body x s with
      | Some s' => foldO l' body s'
      | None => None
      end
  end.

(** The integers [lo, lo+1, ..., hi] of a loop [for x := lo; x <= hi; x++]. *)
Definition zrange (lo hi : Z) : list Z :=
  map (fun n => lo + Z.of_nat n) (seq 0 (Z.to_nat (hi + 1 - lo))).

(** ** The grid descriptor of package geom *)

Module RenderGeom.

(** Modelled from the spec: geom.Grid (render/geom/grid.go is not among
    the sources).  "Grid descriptor: (origin: integer triple, width:
    integer, volume: width^3).  A grid's cells are addressed by integer
    triples (i,j,k) with i in [origin.x, origin.x+width); the linear index
    is i + j*W + k*W^2 after translating by origin." *)
Record Grid : Type := {
  Origin : Z * Z * Z;
  Width : Z;
  Volume : Z
}.

(** Modelled from the spec: Grid.Init, "construction with non-positive
    width fails with InvalidArgument". *)
Definition Init (origin : Z * Z * Z) (width : Z) : option Grid :=
  if 0 <? width
  then Some {| Origin := origin; Width := width;
               Volume := width * width * width |}
  else None.

(** Modelled from the spec: the bounds check of idx_check. *)
Definition BoundsCheck (g : Grid) (i j k : Z) : bool :=
  let '(ox, oy, oz) := Origin g in
  (ox <=? i) && (i <? ox + Width g) &&
  (oy <=? j) && (j <? oy + Width g) &&
  (oz <=? k) && (k <? oz + Width g).

(** Modelled from the spec: Grid.Idx, the linear index after translating
    by the origin. *)
Definition Idx (g : Grid) (i j k : Z) : Z :=
  let '(ox, oy, oz) := Origin g in
  (i - ox) + (j - oy) * Width g + (k - oz) * (Width g * Width g).

(** Modelled from the spec: "idx_check(i,j,k) -> (index, in_bounds)
    translates by origin and returns the linear index plus a flag". *)
Definition IdxCheck (g : Grid) (i j k : Z) : Z * bool :=
  (Idx g i j k, BoundsCheck g i j k).

(** Modelled from the spec: "wrap(i,j,k) reduces into [0, BG.width) per
    axis using Euclidean modulo". *)
Definition Wrap (g : Grid) (i j k : Z) : Z * Z * Z :=
  (i mod Width g, j mod Width g, k mod Width g).

(** Modelled from the spec: geom.CellBounds, an "axis-aligned integer box
    in cell coordinates". *)
Record CellBounds : Type := {
  Min : Z * Z * Z;
  Max : Z * Z * Z
}.

End RenderGeom.

(** ** Package density *)

Module Density.

Import RenderGeom.

Section WithFloats.

Context {F : Type} {FO : FloatOps F}.
Local Open Scope fl_scope.

(** geom.Vec, [3]float32. *)
Definition Vec : Type := F * F * F.

(** A cell of the bounding grid. *)
Definition CellIdx : Type := Z * Z * Z.

(** The density arrays live in a store: a [Rhos] slice is a handle into
    it, so that two Grid values copied from one another share their
    array, as Go slices do. *)
Definition Heap : Type := list (list F).

Record Grid : Type := {
  Rhos : nat;
  BoxWidth : F;
  CellWidth : F;
  CellVolume : F;
  G : RenderGeom.Grid;
  BG : RenderGeom.Grid
}.

Record Cell : Type := {
  cWidth : Z;
  cX : Z;
  cY : Z;
  cZ : Z
}.

(** One executed statement [g.Rhos[idx] += frac]: the array, the cell of
    the bounding grid on whose behalf it was made, and the index. *)
Record WriteEv : Type := {
  wArray : nat;
  wCell : CellIdx;
  wIdx : Z
}.

(** What log.Printf received: the four results of ParticleManager.Get. *)
Definition Diag : Type := list (option Vec).

(** The state an Interpolate call runs in.  A computation returns [None]
    when the Go code panics. *)
Record State : Type := {
  heap : Heap;
  writes : list WriteEv;
  diags : list Diag
}.

Definition M : Type := State -> option State.

(** Sequencing of [for _, x := range l { body }]. *)
Fixpoint forM {A : Type} (l : list A) (body : A -> M) : M :=
  fun st =>
    match l with
    | [] => Some st
    | x :: l' =>
        match body x st with
        | Some st' => forM l' body st'
        | None => None
        end
    end.

(** [rhos[idx] += frac] on the array [r], made for the cell [c]. *)
Definition rhos_add (r : nat) (c : CellIdx) (idx : Z) (frac : F) : M :=
  fun st =>
    match nth_error (heap st) r with
    | Some a =>
        if (0 <=? idx) && (idx <? Z.of_nat (length a)) then
          match nth_error a (Z.to_nat idx) with
          | Some old =>
              Some {| heap :=
                        list_set r (list_set (Z.to_nat idx) (old + frac) a)
                                 (heap st);
                      writes := writes st ++
                                [{| wArray := r; wCell := c; wIdx := idx |}];
                      diags := diags st |}
          | None => None
          end
        else None
    | None => None
    end.

(** Grid.Init; [rhos] is the handle of the slice that is passed in. *)
Definition Grid_Init (h : Heap) (boxWidth : F) (gridWidth : Z) (rhos : nat)
    (c : Cell) : option Grid :=
  match nth_error h rhos with
  | None => None
  | Some a =>
      if negb (Z.of_nat (length a) =?
               int_mul (int_mul (cWidth c) (cWidth c)) (cWidth c))
      then None  (* panic("Length of rhos doesn't match cell width.") *)
      else
        match RenderGeom.Init (int_mul (cX c) (cWidth c),
                               int_mul (cY c) (cWidth c),
                               int_mul (cZ c) (cWidth c)) (cWidth c),
              RenderGeom.Init (0, 0, 0)%Z (int_mul (cWidth c) gridWidth)
        with
        | Some g, Some bg =>
            let cw := boxWidth / fofZ (int_mul (cWidth c) gridWidth) in
            Some {| Rhos := rhos;
                    BoxWidth := boxWidth;
                    CellWidth := cw;
                    CellVolume := cw * cw * cw;
                    G := g;
                    BG := bg |}
        | _, _ => None
        end
  end.

Definition cellPoints (x y z cw : F) : F * F * F :=
  (ffloor (x / cw), ffloor (y / cw), ffloor (z / cw)).

Definition nbrs (g : Grid) (i : Z) : Z * Z :=
  if i =? -1 then (int_sub (Width (BG g)) 1, 0%Z)
  else if int_add i 1 =? Width (BG g) then (i, 0%Z)
  else (i, int_add i 1).

Definition incr (g : Grid) (i j k : Z) (frac : F) : M :=
  fun st =>
    match IdxCheck (G g) i j k with
    | (idx, true) => rhos_add (Rhos g) (i, j, k) idx frac st
    | (_, false) => Some st
    end.

(** ngp.Interpolate.  [gs[0]] panics on an empty slice.  The [continue]
    in the inner loop is its last statement and changes nothing. *)
Definition ngp_Interpolate (gs : list Grid) (mass : F) (ids : list Z)
    (xs : list Vec) : M :=
  fun st =>
    match gs with
    | [] => None
    | g0 :: _ =>
        let frac := mass / CellVolume g0 in
        forM xs (fun pt =>
          let '(xp, yp, zp) := pt in
          let '(xc, yc, zc) := cellPoints xp yp zp (CellWidth g0) in
          let i := ftoZ xc in
          let j := ftoZ yc in
          let k := ftoZ zc in
          forM gs (fun g st' =>
            match IdxCheck (G g) i j k with
            | (idx, true) => rhos_add (Rhos g) (i, j, k) idx frac st'
            | (_, false) => Some st'
            end)) st
    end.

(** The eight shares of cic.Interpolate for one point, in the order of
    the source: 000, 100, 010, 110, 001, 101, 011, 111. *)
Definition cic_overs (g0 : Grid) (mass : F) (pt : Vec) :
    list (Z * Z * Z * F) :=
  let frac := mass / CellVolume g0 in
  let cw := CellWidth g0 in
  let cw2 := CellWidth g0 / fofZ 2 in
  let '(px, py, pz) := pt in
  let xp := px - cw2 in
  let yp := py - cw2 in
  let zp := pz - cw2 in
  let '(xc, yc, zc) := cellPoints xp yp zp (CellWidth g0) in
  let dx := (xp / cw) - xc in
  let dy := (yp / cw) - yc in
  let dz := (zp / cw) - zc in
  let tx := fofZ 1 - dx in
  let ty := fofZ 1 - dy in
  let tz := fofZ 1 - dz in
  let '(i0, i1) := nbrs g0 (ftoZ xc) in
  let '(j0, j1) := nbrs g0 (ftoZ yc) in
  let '(k0, k1) := nbrs g0 (ftoZ zc) in
  [ (i0, j0, k0, tx * ty * tz * frac);
    (i1, j0, k0, dx * ty * tz * frac);
    (i0, j1, k0, tx * dy * tz * frac);
    (i1, j1, k0, dx * dy * tz * frac);
    (i0, j0, k1, tx * ty * dz * frac);
    (i1, j0, k1, dx * ty * dz * frac);
    (i0, j1, k1, tx * dy * dz * frac);
    (i1, j1, k1, dx * dy * dz * frac) ].

(** cic.Interpolate. *)
Definition cic_Interpolate (gs : list Grid) (mass : F) (ids : list Z)
    (xs : list Vec) : M :=
  fun st =>
    match gs with
    | [] => None
    | g0 :: _ =>
        forM xs (fun pt =>
          let overs := cic_overs g0 mass pt in
          forM gs (fun g =>
            forM overs (fun o =>
              let '(i, j, k, over) := o in incr g i j k over))) st
    end.

(** *** Tetrahedron-based interpolators *)

(** The interface Interpolator, as its one method; the receivers that keep
    state of their own (mcarlo, sobol) return it next to the result. *)
Definition Interpolator : Type :=
  list Grid -> F -> list Z -> list Vec -> M.

Inductive PointSelectorFlag : Type := Flat | PropToCells.

(** catalog.ParticleManager, read through Get: the position of the particle
    with the given id, or nothing (a nil pointer). *)
Definition ParticleManager : Type := Z -> option Vec.

Section Tetrahedra.

(** What package geom (tetra.go, tetra_idxs.go, grid.go) and package rand
    provide; their sources are not part of this development, so they are
    taken as they come. *)
Variable Tetra : Type.
Variable Tetra_zero : Tetra.                         (* geom.Tetra{} *)
Variable Tetra_Init : Vec -> Vec -> Vec -> Vec -> F -> Tetra.
Variable CellBoundsAt : Tetra -> F -> CellBounds.
Variable Volume : Tetra -> F.
Variable Contains : Tetra -> Vec -> bool.
Variable MinMaxLeg : Tetra -> F * F.
Variable Distribute : Tetra -> list F -> list F -> list F -> list Vec.
Variable Gen : Type.
Variable RandomSample : Tetra -> Gen -> nat -> Gen * list Vec.
Variable TetraIdxs_Init : Z -> Z -> Z -> Z -> Z * Z * Z * Z.
Variable Intersect : RenderGeom.Grid -> CellBounds -> RenderGeom.Grid -> bool.

Record cellCenter : Type := {
  cc_man : ParticleManager;
  cc_countWidth : Z
}.

Record mcarlo : Type := {
  mc_subIntr : Interpolator;
  mc_man : ParticleManager;
  mc_countWidth : Z;
  mc_steps : Z;
  mc_gen : Gen;
  mc_pointSelect : PointSelectorFlag;
  mc_tet : Tetra;
  mc_randBuf : list F;
  mc_vecBuf : list Vec
}.

Record sobol : Type := {
  sb_subIntr : Interpolator;
  sb_man : ParticleManager;
  sb_countWidth : Z;
  sb_xs : list F;
  sb_ys : list F;
  sb_zs : list F;
  sb_vecBuf : list Vec
}.

(** A loop that carries a value next to the state. *)
Fixpoint foldM {A B : Type} (l : list A)
    (body : A -> B -> State -> option (B * State)) (b : B) (st : State) :
    option (B * State) :=
  match l with
  | [] => Some (b, st)
  | x :: l' =>
      match body x b st with
      | Some (b', st') => foldM l' body b' st'
      | None => None
      end
  end.

(** log.Printf("Tetrahedron [%v %v %v %v] not in manager.\n", ...). *)
Definition log_missing (p0 p1 p2 p3 : option Vec) (st : State) : State :=
  {| heap := heap st; writes := writes st;
     diags := diags st ++ [[p0; p1; p2; p3]] |}.

(** What a callee leaves in a slice it was handed: as many elements as the
    slice has. *)
Definition into_slice {A : Type} (old new : list A) : list A :=
  firstn (length old) (new ++ skipn (length new) old).

Definition maxInt (x y : Z) : Z := if y <? x then x else y.
Definition minInt (x y : Z) : Z := if x <? y then x else y.

(** The cells visited by the three nested loops of intrTetra, x fastest. *)
Definition loop_cells (minX maxX minY maxY minZ maxZ : Z) : list CellIdx :=
  flat_map (fun z =>
    flat_map (fun y =>
      map (fun x => (x, y, z)) (zrange minX maxX)) (zrange minY maxY))
    (zrange minZ maxZ).

(** cellCenter.intrTetra; the receiver's [tet] is the tetrahedron that
    Interpolate has just initialised.  Returns (misses, hits). *)
Definition intrTetra (tet : Tetra) (mass : F) (g : Grid) (cb : CellBounds)
    (st : State) : option (Z * Z * State) :=
  let '(cminX, cminY, cminZ) := Min cb in
  let '(cmaxX, cmaxY, cmaxZ) := Max cb in
  let '(ox, oy, oz) := Origin (G g) in
  let w := Width (G g) in
  let minX := maxInt cminX ox in
  let maxX := minInt cmaxX (int_sub (int_add ox w) 1) in
  let minY := maxInt cminY oy in
  let maxY := minInt cmaxY (int_sub (int_add oy w) 1) in
  let minZ := maxInt cminZ oz in
  let maxZ := minInt cmaxZ (int_sub (int_add oz w) 1) in
  let frac := mass * CellVolume g / Volume tet in
  foldM (loop_cells minX maxX minY maxY minZ maxZ)
    (fun c mh st' =>
       let '(x, y, z) := c in
       let '(misses, hits) := mh in
       let '(xIdx, yIdx, zIdx) := Wrap (BG g) x y z in
       let vBuf := (f32 ((fofZ xIdx + fhalf) * CellWidth g),
                    f32 ((fofZ yIdx + fhalf) * CellWidth g),
                    f32 ((fofZ zIdx + fhalf) * CellWidth g)) in
       if Contains tet vBuf then
         let idx := Idx (G g) xIdx yIdx zIdx in
         match rhos_add (Rhos g) (xIdx, yIdx, zIdx) idx frac st' with
         | Some st'' => Some ((misses, int_add hits 1), st'')
         | None => None
         end
       else Some ((int_add misses 1, hits), st'))
    (0, 0)%Z st.

(** The six directions of [for dir := 0; dir < 6; dir++]. *)
Definition dirs : list Z := [0; 1; 2; 3; 4; 5]%Z.

(** The body of the two loops of cellCenter.Interpolate, for one id and
    one dir. *)
Definition cellCenter_step (intr : cellCenter) (gs : list Grid) (mass : F)
    (id dir : Z) : M :=
  fun st =>
    let '(a0, a1, a2, a3) := TetraIdxs_Init id (cc_countWidth intr) 1 dir in
    match cc_man intr a0, cc_man intr a1, cc_man intr a2, cc_man intr a3 with
    | Some p0, Some p1, Some p2, Some p3 =>
        match gs with
        | [] => None
        | g0 :: _ =>
            let tet := Tetra_Init p0 p1 p2 p3 (BoxWidth g0) in
            let cb := CellBoundsAt tet (CellWidth g0) in
            forM gs (fun g st' =>
              if Intersect (G g) cb (BG g) then
                match intrTetra tet (mass / fofZ 6) g cb st' with
                | Some (_, st'') => Some st''
                | None => None
                end
              else Some st') st
        end
    | p0, p1, p2, p3 => Some (log_missing p0 p1 p2 p3 st)
    end.

Definition cellCenter_Interpolate (intr : cellCenter) (gs : list Grid)
    (mass : F) (ids : list Z) (xs : list Vec) : M :=
  forM ids (fun id => forM dirs (fun dir => cellCenter_step intr gs mass id dir)).

(** The point selectors, of type pointSelector. *)
Definition flat (intr : mcarlo) (cb : CellBounds) : Z := mc_steps intr.

Definition propToCell (intr : mcarlo) (cb : CellBounds) : Z :=
  let '(min, _) := MinMaxLeg (mc_tet intr) in
  if fleb f0251 min then mc_steps intr else 0%Z.

Definition pointSelect (intr : mcarlo) (cb : CellBounds) : Z :=
  match mc_pointSelect intr with
  | Flat => flat intr cb
  | PropToCells => propToCell intr cb
  end.

(** MonteCarlo(man, countWidth, gen, steps, flag); make panics on a
    negative length. *)
Definition MonteCarlo (man : ParticleManager) (countWidth : Z) (gen : Gen)
    (steps : Z) (flag : PointSelectorFlag) : option mcarlo :=
  if steps <? 0 then None
  else Some {| mc_subIntr := ngp_Interpolate;
               mc_man := man;
               mc_countWidth := countWidth;
               mc_steps := steps;
               mc_gen := gen;
               mc_pointSelect := flag;
               mc_tet := Tetra_zero;
               mc_randBuf := repeat (fofZ 0) (Z.to_nat (int_mul steps 3));
               mc_vecBuf := repeat (fofZ 0, fofZ 0, fofZ 0) (Z.to_nat steps) |}.

(** The loop that fills [intersectGs[0:intersectNum]]: the Grid values are
    copied, their Rhos still name the arrays of [gs]. *)
Definition intersecting (cb : CellBounds) (gs : list Grid) : list Grid :=
  fold_left (fun acc g => if Intersect (G g) cb (BG g) then acc ++ [g] else acc)
            gs [].

(** The body of the two loops of mcarlo.Interpolate, for one id and one
    dir. *)
Definition mcarlo_step (gs : list Grid) (mass : F) (id dir : Z)
    (intr : mcarlo) (st : State) : option (mcarlo * State) :=
  let '(a0, a1, a2, a3) := TetraIdxs_Init id (mc_countWidth intr) 1 dir in
  match mc_man intr a0, mc_man intr a1, mc_man intr a2, mc_man intr a3 with
  | Some p0, Some p1, Some p2, Some p3 =>
      match gs with
      | [] => None
      | g0 :: _ =>
          let tet := Tetra_Init p0 p1 p2 p3 (BoxWidth g0) in
          let intr1 :=
            {| mc_subIntr := mc_subIntr intr; mc_man := mc_man intr;
               mc_countWidth := mc_countWidth intr; mc_steps := mc_steps intr;
               mc_gen := mc_gen intr; mc_pointSelect := mc_pointSelect intr;
               mc_tet := tet; mc_randBuf := mc_randBuf intr;
               mc_vecBuf := mc_vecBuf intr |} in
          let cb := CellBoundsAt tet (CellWidth g0) in
          let pts := pointSelect intr1 cb in
          if pts =? 0 then Some (intr1, st)
          else
            let ptMass := mass / fofZ pts / fofZ 6 in
            if (0 <=? pts) && (pts <=? Z.of_nat (length (mc_vecBuf intr1))) &&
               (0 <=? int_mul 3 pts) &&
               (int_mul 3 pts <=? Z.of_nat (length (mc_randBuf intr1)))
            then
              let n := Z.to_nat pts in
              let '(gen', vs) := RandomSample tet (mc_gen intr1) n in
              let vecs := into_slice (firstn n (mc_vecBuf intr1)) vs in
              let intr2 :=
                {| mc_subIntr := mc_subIntr intr; mc_man := mc_man intr;
                   mc_countWidth := mc_countWidth intr;
                   mc_steps := mc_steps intr;
                   mc_gen := gen'; mc_pointSelect := mc_pointSelect intr;
                   mc_tet := tet; mc_randBuf := mc_randBuf intr;
                   mc_vecBuf := vecs ++ skipn n (mc_vecBuf intr1) |} in
              match mc_subIntr intr (intersecting cb gs) ptMass [] vecs st with
              | Some st' => Some (intr2, st')
              | None => None
              end
            else None
      end
  | p0, p1, p2, p3 => Some (intr, log_missing p0 p1 p2 p3 st)
  end.

Definition mcarlo_Interpolate (intr : mcarlo) (gs : list Grid) (mass : F)
    (ids : list Z) (xs : list Vec) (st : State) : option (mcarlo * State) :=
  foldM ids (fun id => foldM dirs (fun dir => mcarlo_step gs mass id dir))
        intr st.

(** The body of the two loops of sobol.Interpolate. *)
Definition sobol_step (gs : list Grid) (ptMass : F) (id dir : Z)
    (intr : sobol) (st : State) : option (sobol * State) :=
  let '(a0, a1, a2, a3) := TetraIdxs_Init id (sb_countWidth intr) 1 dir in
  match sb_man intr a0, sb_man intr a1, sb_man intr a2, sb_man intr a3 with
  | Some p0, Some p1, Some p2, Some p3 =>
      match gs with
      | [] => None
      | g0 :: _ =>
          let tet := Tetra_Init p0 p1 p2 p3 (BoxWidth g0) in
          let vecs :=
            into_slice (sb_vecBuf intr)
                       (Distribute tet (sb_xs intr) (sb_ys intr) (sb_zs intr)) in
          let intr' :=
            {| sb_subIntr := sb_subIntr intr; sb_man := sb_man intr;
               sb_countWidth := sb_countWidth intr;
               sb_xs := sb_xs intr; sb_ys := sb_ys intr; sb_zs := sb_zs intr;
               sb_vecBuf := vecs |} in
          let cb := CellBoundsAt tet (CellWidth g0) in
          match sb_subIntr intr (intersecting cb gs) ptMass [] vecs st with
          | Some st' => Some (intr', st')
          | None => None
          end
      end
  | p0, p1, p2, p3 => Some (intr, log_missing p0 p1 p2 p3 st)
  end.

Definition sobol_Interpolate (intr : sobol) (gs : list Grid) (mass : F)
    (ids : list Z) (xs : list Vec) (st : State) : option (sobol * State) :=
  let ptMass := mass / fofZ (Z.of_nat (length (sb_xs intr))) / fofZ 6 in
  foldM ids (fun id => foldM dirs (fun dir => sobol_step gs ptMass id dir))
        intr st.

End Tetrahedra.

End WithFloats.

End Density.

(** ** Package los/geom: primitives.go *)

Module LosGeom.

Section WithFloats.

Context {F : Type} {FO : FloatOps F}.
Local Open Scope fl_scope.

(** The [float32] operations: the operation on the widened operands,
    rounded once (no fused multiply-add, as on amd64). *)
Definition add32 (x y : F) : F := f32 (x + y).
Definition sub32 (x y : F) : F := f32 (x - y).
Definition mul32 (x y : F) : F := f32 (x * y).
Definition div32 (x y : F) : F := f32 (x / y).

(** Vec, [3]float32. *)
Definition Vec : Type := F * F * F.

Definition vx (v : Vec) : F := fst (fst v).
Definition vy (v : Vec) : F := snd (fst v).
Definition vz (v : Vec) : F := snd v.

Record PluckerVec : Type := {
  U : Vec;
  V : Vec
}.

(** Tetra, [4]Vec. *)
Definition Tetra : Type := Vec * Vec * Vec * Vec.

(** [t[i]]; Go panics for an index outside 0..3. *)
Definition vertex (t : Tetra) (i : nat) : option Vec :=
  let '(a, b, c, d) := t in nth_error [a; b; c; d] i.

Definition tetraIdxs : list (list nat) :=
  [ [3; 2; 1];
    [2; 3; 0];
    [1; 0; 3];
    [0; 1; 2] ]%nat.

Definition VertexIdx (face vertex : nat) : option nat :=
  match nth_error tetraIdxs face with
  | Some row => nth_error row vertex
  | None => None
  end.

(** The scalar that Orient compares with zero: the dot product of
    [n = -(v x w)] with [t[3] - t[0]], accumulated from 0 in [float32]. *)
Definition orient_dot (t : Tetra) : F :=
  let '(t0, t1, t2, t3) := t in
  let v0 := sub32 (vx t1) (vx t0) in
  let v1 := sub32 (vy t1) (vy t0) in
  let v2 := sub32 (vz t1) (vz t0) in
  let w0 := sub32 (vx t2) (vx t0) in
  let w1 := sub32 (vy t2) (vy t0) in
  let w2 := sub32 (vz t2) (vz t0) in
  let n0 := add32 (mul32 (fneg v1) w2) (mul32 v2 w1) in
  let n1 := add32 (mul32 (fneg v2) w0) (mul32 v0 w2) in
  let n2 := add32 (mul32 (fneg v0) w1) (mul32 v1 w0) in
  let dot0 := add32 (fofZ 0) (mul32 n0 (sub32 (vx t3) (vx t0))) in
  let dot1 := add32 dot0 (mul32 n1 (sub32 (vy t3) (vy t0))) in
  add32 dot1 (mul32 n2 (sub32 (vz t3) (vz t0))).

Definition Orient (t : Tetra) (dir : Z) : Tetra :=
  let '(t0, t1, t2, t3) := t in
  let dot := orient_dot t in
  if (fltb dot (fofZ 0) && (dir =? -1)%Z) || (fltb (fofZ 0) dot && (dir =? 1)%Z)
  then (t1, t0, t2, t3)
  else t.

Section Plucker.

(** math.Sqrt. *)
Variable fsqrt : F -> F.

Definition InitFromSegment (P1 P2 : Vec) : PluckerVec :=
  let u0 := sub32 (vx P2) (vx P1) in
  let u1 := sub32 (vy P2) (vy P1) in
  let u2 := sub32 (vz P2) (vz P1) in
  let sum0 := add32 (fofZ 0) (mul32 u0 u0) in
  let sum1 := add32 sum0 (mul32 u1 u1) in
  let sum2 := add32 sum1 (mul32 u2 u2) in
  let sum := f32 (fsqrt sum2) in
  let U0 := div32 u0 sum in
  let U1 := div32 u1 sum in
  let U2 := div32 u2 sum in
  {| U := (U0, U1, U2);
     V := (add32 (mul32 (fneg (vy P1)) U2) (mul32 (vz P1) U1),
           add32 (mul32 (fneg (vz P1)) U0) (mul32 (vx P1) U2),
           add32 (mul32 (fneg (vx P1)) U1) (mul32 (vy P1) U0)) |}.

(** PluckerTetra, [6]PluckerVec. *)
Definition PluckerTetra : Type := list PluckerVec.

Definition pluckerTetraEdges : list (list nat) :=
  [ [5; 3; 4];
    [5; 2; 1];
    [0; 2; 4];
    [0; 3; 1] ]%nat.

Definition pluckerTetraFlips : list (list bool) :=
  [ [true; true; false];
    [false; true; false];
    [true; false; true];
    [false; false; true] ].

Definition PluckerTetra_Init (t : Tetra) : PluckerTetra :=
  let '(t0, t1, t2, t3) := t in
  [ InitFromSegment t0 t1;
    InitFromSegment t0 t2;
    InitFromSegment t0 t3;
    InitFromSegment t1 t2;
    InitFromSegment t1 t3;
    InitFromSegment t2 t3 ].

Definition EdgeIdx (face edge : nat) : option (nat * bool) :=
  match nth_error pluckerTetraEdges face, nth_error pluckerTetraFlips face with
  | Some er, Some fr =>
      match nth_error er edge, nth_error fr edge with
      | Some idx, Some flip => Some (idx, flip)
      | _, _ => None
      end
  | _, _ => None
  end.

(** The raw ordering of the edges named in the comment on PluckerTetra:
    {0-1, 0-2, 0-3, 1-2, 1-3, 2-3}. *)
Definition raw_edges : list (nat * nat) :=
  [ (0, 1); (0, 2); (0, 3); (1, 2); (1, 3); (2, 3) ]%nat.

End Plucker.

(** PluckerVec.Init. *)
Definition PluckerVec_Init (P L : Vec) : PluckerVec :=
  {| U := L;
     V := (add32 (mul32 (fneg (vy P)) (vz L)) (mul32 (vz P) (vy L)),
           add32 (mul32 (fneg (vz P)) (vx L)) (mul32 (vx P) (vz L)),
           add32 (mul32 (fneg (vx P)) (vy L)) (mul32 (vy P) (vx L))) |}.

(** AnchoredPluckerVec: the embedded PluckerVec and the origin P. *)
Record AnchoredPluckerVec : Type := {
  pv : PluckerVec;
  P : Vec
}.

(** AnchoredPluckerVec.Init. *)
Definition AnchoredPluckerVec_Init (P0 L : Vec) : AnchoredPluckerVec :=
  {| pv := PluckerVec_Init P0 L; P := P0 |}.

(** AnchoredPluckerVec.InitFromSegment. *)
Definition AnchoredPluckerVec_InitFromSegment (fsqrt : F -> F) (P1 P2 : Vec) :
    AnchoredPluckerVec :=
  {| pv := InitFromSegment fsqrt P1 P2; P := P1 |}.

(** The summand of Dot for one coordinate [sel]:
    [p1.U[i]*p2.V[i] + p1.V[i]*p2.U[i]]. *)
Definition dot_term (p1 p2 : PluckerVec) (sel : Vec -> F) : F :=
  add32 (mul32 (sel (U p1)) (sel (V p2))) (mul32 (sel (V p1)) (sel (U p2))).

(** PluckerVec.Dot: the sum is returned as it is when [flip] holds and
    negated otherwise. *)
Definition Dot (p1 p2 : PluckerVec) (flip : bool) : F :=
  let sum0 := add32 (fofZ 0) (dot_term p1 p2 vx) in
  let sum1 := add32 sum0 (dot_term p1 p2 vy) in
  let sum2 := add32 sum1 (dot_term p1 p2 vz) in
  if flip then sum2 else fneg sum2.

(** PluckerVec.SignDot. *)
Definition SignDot (p1 p2 : PluckerVec) (flip : bool) : F * Z :=
  let dot := Dot p1 p2 flip in
  if feqb dot (fofZ 0) then (dot, 0%Z)
  else if fltb (fofZ 0) dot then (dot, 1%Z)
  else (dot, (-1)%Z).

(** TetraFaceBary. *)
Record TetraFaceBary : Type := {
  w : Vec;
  face : Z
}.

(** [v[dim]]; Go panics for an index outside 0..2. *)
Definition coord (v : Vec) (dim : nat) : option F :=
  nth_error [vx v; vy v; vz v] dim.

(** [t[t.VertexIdx(face, vertex)]] and its coordinate [dim]. *)
Definition face_vertex (t : Tetra) (f : Z) (n : nat) : option Vec :=
  if (f <? 0)%Z then None
  else
    match VertexIdx (Z.to_nat f) n with
    | Some i => vertex t i
    | None => None
    end.

Definition face_coord (t : Tetra) (f : Z) (n dim : nat) : option F :=
  match face_vertex t f n with
  | Some v => coord v dim
  | None => None
  end.

(** The loop [for dim = 0; dim < 3; dim++ { if ap.U[dim] != 0 { break } }]:
    the first coordinate of the direction that is not zero, or 3. *)
Definition first_dim (u : Vec) : nat :=
  if negb (feqb (vx u) (fofZ 0)) then 0%nat
  else if negb (feqb (vy u) (fofZ 0)) then 1%nat
  else if negb (feqb (vz u) (fofZ 0)) then 2%nat
  else 3%nat.

(** Tetra.Distance; [None] is the index panic. *)
Definition Distance (t : Tetra) (ap : AnchoredPluckerVec)
    (bary : TetraFaceBary) : option F :=
  let sum := add32 (add32 (add32 (fofZ 0) (vx (w bary))) (vy (w bary)))
                   (vz (w bary)) in
  let u0 := div32 (vx (w bary)) sum in
  let u1 := div32 (vy (w bary)) sum in
  let u2 := div32 (vz (w bary)) sum in
  let dim := first_dim (U (pv ap)) in
  match face_coord t (face bary) 0 dim,
        face_coord t (face bary) 1 dim,
        face_coord t (face bary) 2 dim,
        coord (P ap) dim, coord (U (pv ap)) dim with
  | Some p0, Some p1, Some p2, Some pd, Some ud =>
      Some (div32 (sub32 (add32 (add32 (mul32 u0 p0) (mul32 u1 p1))
                                (mul32 u2 p2)) pd) ud)
  | _, _, _, _, _ => None
  end.

End WithFloats.

End LosGeom.

(** ** Package los: WrapHalo and WrapXs *)

Module Los.

Section WithFloats.

Context {F : Type} {FO : FloatOps F}.
Local Open Scope fl_scope.

Definition Vec : Type := F * F * F.

(** Modelled from the spec: io.SheetHeader, "SheetHeader {SegmentWidth,
    GridWidth, TotalWidth, Count, Origin, ...}" (render/io is not among the
    sources); TotalWidth is a float64, Origin a vector of float32. *)
Record SheetHeader : Type := {
  SegmentWidth : Z;
  GridWidth : Z;
  TotalWidth : F;
  Count : Z;
  Origin : Vec
}.

(** Modelled from the spec: HaloProfiles, "HaloProfile {C, R,
    SphereIntersect, Count, Density}": a bounding sphere with centre C and
    radius R, and the profile data, which the functions here do not read. *)
Record HaloProfiles (Profile : Type) : Type := {
  C : Vec;
  R : F;
  profile : Profile
}.
Arguments C {Profile} _.
Arguments R {Profile} _.
Arguments profile {Profile} _.

(** The body of [for j := 0; j < 3; j++] on one vector: [upd c o] is the
    coordinate after the step for a coordinate [c] and origin [o]. *)
Definition on_axes (upd : F -> F -> F) (v origin : Vec) : Vec :=
  let '(v0, v1, v2) := v in
  let '(o0, o1, o2) := origin in
  (upd v0 o0, upd v1 o1, upd v2 o2).

Definition WrapHalo {Profile : Type} (hps : list (HaloProfiles Profile))
    (hd : SheetHeader) : list (HaloProfiles Profile) :=
  let tw := f32 (TotalWidth hd) in
  map (fun h =>
         {| C := on_axes (fun c o =>
                            if fltb (f32 (c + R h)) o then f32 (c + tw) else c)
                         (C h) (Origin hd);
            R := R h;
            profile := profile h |})
      hps.

Definition WrapXs (xs : list Vec) (hd : SheetHeader) : list Vec :=
  let tw := f32 (TotalWidth hd) in
  map (fun x =>
         on_axes (fun c o => if fltb c o then f32 (c + tw) else c)
                 x (Origin hd))
      xs.

(** [v[j]] for j = 0, 1, 2. *)
Definition axis (v : Vec) (j : nat) : F :=
  let '(v0, v1, v2) := v in
  match j with
  | O => v0
  | S O => v1
  | _ => v2
  end.

(** coords and index, on int64. *)
Definition coords (idx cells : Z) : option (Z * Z * Z) :=
  match int_rem idx cells with
  | None => None
  | Some x =>
      match int_rem idx (int_mul cells cells) with
      | None => None
      | Some r =>
          match int_quot r cells with
          | None => None
          | Some y =>
              match int_quot idx (int_mul cells cells) with
              | None => None
              | Some z => Some (x, y, z)
              end
          end
      end
  end.

Definition index (x y z cells : Z) : Z :=
  int_add (int_add x (int_mul y cells)) (int_mul (int_mul z cells) cells).

(** What packages render/geom and los/geom provide beyond primitives.go:
    TetraIdxs.Init, which names the four particles of a tetrahedron, and
    the volume of a tetrahedron.  Their sources are not part of this
    development, so they are taken as they come. *)
Variable TetraIdxs_Init : Z -> Z -> Z -> Z -> Z * Z * Z * Z.
Variable Volume : (@LosGeom.Tetra F) -> F.

(** unpackTetra: the four positions named by [idxs]. *)
Definition unpackTetra (idxs : Z * Z * Z * Z) (xs : list Vec) :
    option (@LosGeom.Tetra F) :=
  let '(i0, i1, i2, i3) := idxs in
  match nth_int xs i0, nth_int xs i1, nth_int xs i2, nth_int xs i3 with
  | Some a, Some b, Some c, Some d => Some (a, b, c, d)
  | _, _, _, _ => None
  end.

(** The body of the loop over [dir] in UnpackTetrahedra. *)
Definition unpack_dir (xs : list Vec) (hd : SheetHeader)
    (readIdx writeIdx dir : Z) (tsBuf : list (@LosGeom.Tetra F)) :
    option (list (@LosGeom.Tetra F)) :=
  let tIdx := int_add (int_mul 6 writeIdx) dir in
  match unpackTetra (TetraIdxs_Init readIdx (int_add (GridWidth hd) 1) 1 dir)
                    xs with
  | Some t => set_int tsBuf tIdx (LosGeom.Orient t 1)
  | None => None
  end.

(** UnpackTetrahedra: the buffer as the call leaves it. *)
Definition UnpackTetrahedra (xs : list Vec) (hd : SheetHeader)
    (tsBuf : list (@LosGeom.Tetra F)) : option (list (@LosGeom.Tetra F)) :=
  let n := int_mul (int_mul (SegmentWidth hd) (SegmentWidth hd))
                   (SegmentWidth hd) in
  foldO (zrange 0 (n - 1))
    (fun writeIdx ts =>
       match coords writeIdx (SegmentWidth hd) with
       | None => None
       | Some (x, y, z) =>
           let readIdx := index x y z (SegmentWidth hd) in
           foldO [0; 1; 2; 3; 4; 5]%Z
                 (fun dir => unpack_dir xs hd readIdx writeIdx dir) ts
       end)
    tsBuf.

(** TetraDensity: [rhos] as the call leaves it. *)
Definition TetraDensity (hd : SheetHeader) (ts : list (@LosGeom.Tetra F))
    (rhos : list F) : option (list F) :=
  let tw := TotalWidth hd in
  let unitTetRho := (tw * tw * tw) / (fofZ 6 * fofZ (Count hd)) in
  foldO (seq 0 (length ts))
    (fun i rs =>
       match nth_error ts i with
       | Some t => set_int rs (Z.of_nat i) (unitTetRho / Volume t)
       | None => None
       end)
    rhos.

End WithFloats.

Arguments C {F Profile} _.
Arguments R {F Profile} _.
Arguments profile {F Profile} _.
Arguments Build_HaloProfiles {F Profile} _ _ _.

End Los.

(** ** Package io: the bounds configuration *)

Module Config.

Import String.

Section WithFloats.

Context {F : Type} {FO : FloatOps F}.

(** strings.ToUpper. *)
Variable ToUpper : string -> string.

(** The value of fmt.Errorf: the format and what it is applied to. *)
Inductive fmt_arg : Type :=
| ArgS (s : string)
| ArgF (x : F).

Record error : Type := Errorf {
  err_format : string;
  err_args : list fmt_arg
}.

Record BallConfig : Type := {
  ball_X : F; ball_Y : F; ball_Z : F; ball_Radius : F;
  ball_RadiusMultiplier : F;
  ball_Name : string
}.

Record BoxConfig : Type := {
  X : F; Y : F; Z : F;
  XWidth : F; YWidth : F; ZWidth : F;
  ProjectionAxis : string;
  Name : string
}.

Definition set_ProjectionAxis (box : BoxConfig) (s : string) : BoxConfig :=
  {| X := X box; Y := Y box; Z := Z box;
     XWidth := XWidth box; YWidth := YWidth box; ZWidth := ZWidth box;
     ProjectionAxis := s; Name := Name box |}.

Definition set_Name (box : BoxConfig) (s : string) : BoxConfig :=
  {| X := X box; Y := Y box; Z := Z box;
     XWidth := XWidth box; YWidth := YWidth box; ZWidth := ZWidth box;
     ProjectionAxis := ProjectionAxis box; Name := s |}.

(** [s != t] on strings. *)
Definition sneq (s t : string) : bool := negb (String.eqb s t).

(** BoxConfig.CheckInit: the receiver as the call leaves it, and the
    returned error ([None] is nil). *)
Definition BoxConfig_CheckInit (box : BoxConfig) (name : string)
    (totalWidth : F) : BoxConfig * option error :=
  if fleb (XWidth box) (fofZ 0) then
    (box, Some (Errorf "Need to specify a positive XWidth for Box '%s'"
                       [ArgS name]))
  else if fleb (YWidth box) (fofZ 0) then
    (box, Some (Errorf "Need to specify a positive YWidth for Box '%s'"
                       [ArgS name]))
  else if fleb (ZWidth box) (fofZ 0) then
    (box, Some (Errorf "Need to specify a positive ZWidth for Box '%s'"
                       [ArgS name]))
  else if fleb totalWidth (X box) || fltb (X box) (fofZ 0) then
    (box, Some (Errorf
       "X origin of Box '%s' must be in range [0, %g), but is %g"
       [ArgS name; ArgF totalWidth; ArgF (X box)]))
  else if fleb totalWidth (Y box) || fltb (Y box) (fofZ 0) then
    (box, Some (Errorf
       "Y origin of Box '%s' must be in range [0, %g), but is %g"
       [ArgS name; ArgF totalWidth; ArgF (Y box)]))
  else if fleb totalWidth (Z box) || fltb (Z box) (fofZ 0) then
    (box, Some (Errorf
       "Z origin of Box '%s' must be in range [0, %g), but is %g"
       [ArgS name; ArgF totalWidth; ArgF (Z box)]))
  else
    let tmp := ProjectionAxis box in
    let box1 := set_ProjectionAxis box (ToUpper (ProjectionAxis box)) in
    if sneq (ProjectionAxis box1) "" ||
       sneq (ProjectionAxis box1) "X" ||
       sneq (ProjectionAxis box1) "Y" ||
       sneq (ProjectionAxis box1) "Z"
    then
      (box1, Some (Errorf
         "ProjectionAxis of Box '%s' must be one of [X | Y | Z]. '%s' is not recognized."
         [ArgS (Name box1); ArgS tmp]))
    else (set_Name box1 name, None).

(** BallConfig.CheckInit. *)
Definition BallConfig_CheckInit (ball : BallConfig) (name : string)
    (totalWidth : F) : BallConfig * option error :=
  if feqb (ball_Radius ball) (fofZ 0) then
    (ball, Some (Errorf "Need to specify a positive radius for Ball '%s'."
                        [ArgS name]))
  else if fleb totalWidth (ball_X ball) || fltb (ball_X ball) (fofZ 0) then
    (ball, Some (Errorf
       "X center of Ball '%s' must be in range [0, %g), but is %g"
       [ArgS name; ArgF totalWidth; ArgF (ball_X ball)]))
  else if fleb totalWidth (ball_Y ball) || fltb (ball_Y ball) (fofZ 0) then
    (ball, Some (Errorf
       "Y center of Ball '%s' must be in range [0, %g), but is %g"
       [ArgS name; ArgF totalWidth; ArgF (ball_Y ball)]))
  else if fleb totalWidth (ball_Z ball) || fltb (ball_Z ball) (fofZ 0) then
    (ball, Some (Errorf
       "Z center of Ball '%s' must be in range [0, %g), but is %g"
       [ArgS name; ArgF totalWidth; ArgF (ball_Z ball)]))
  else
    let named m :=
      {| ball_X := ball_X ball; ball_Y := ball_Y ball; ball_Z := ball_Z ball;
         ball_Radius := ball_Radius ball;
         ball_RadiusMultiplier := m; ball_Name := name |} in
    if feqb (ball_RadiusMultiplier ball) (fofZ 0) then
      (named (fofZ 1), None)
    else if fltb (ball_RadiusMultiplier ball) (fofZ 0) then
      (named (ball_RadiusMultiplier ball),
       Some (Errorf "Ball '%s' given a negative radius multiplier, %g."
                    [ArgS name; ArgF (ball_RadiusMultiplier ball)]))
    else (named (ball_RadiusMultiplier ball), None).

(** BallConfig.Box. *)
Definition BallConfig_Box (ball : BallConfig) (totalWidth : F) : BoxConfig :=
  let rad := fmul (ball_Radius ball) (ball_RadiusMultiplier ball) in
  let lo c :=
    if fltb rad c then fsub c rad else fadd (fsub c rad) totalWidth in
  {| X := lo (ball_X ball); Y := lo (ball_Y ball); Z := lo (ball_Z ball);
     XWidth := fmul (fofZ 2) rad;
     YWidth := fmul (fofZ 2) rad;
     ZWidth := fmul (fofZ 2) rad;
     ProjectionAxis := "";
     Name := ball_Name ball |}.

(** BoxConfig.IsProjection. *)
Definition IsProjection (box : BoxConfig) : bool := sneq (ProjectionAxis box) "".

(** BoundsConfig: the two maps, each as its entries in the order in which
    the range loop of ReadBoundsConfig visits them. *)
Record BoundsConfig : Type := {
  Ball : list (string * BallConfig);
  Box : list (string * BoxConfig)
}.

(** gcfg.ReadFileInto(&bc, fname): what it leaves in [bc], and its error. *)
Variable ReadFileInto : string -> BoundsConfig * option error.

(** [for name, ball := range bc.Ball { ... }], appending to [boxes]. *)
Fixpoint range_balls (balls : list (string * BallConfig)) (totalWidth : F)
    (boxes : list BoxConfig) : list BoxConfig + error :=
  match balls with
  | [] => inl boxes
  | (name, ball) :: rest =>
      match BallConfig_CheckInit ball name totalWidth with
      | (_, Some err) => inr err
      | (ball', None) =>
          range_balls rest totalWidth (boxes ++ [BallConfig_Box ball' totalWidth])
      end
  end.

(** [for name, box := range bc.Box { ... }], appending to [boxes]. *)
Fixpoint range_boxes (bxs : list (string * BoxConfig)) (totalWidth : F)
    (boxes : list BoxConfig) : list BoxConfig + error :=
  match bxs with
  | [] => inl boxes
  | (name, box) :: rest =>
      match BoxConfig_CheckInit box name totalWidth with
      | (_, Some err) => inr err
      | (box', None) => range_boxes rest totalWidth (boxes ++ [box'])
      end
  end.

(** ReadBoundsConfig: [inl boxes] is the return (boxes, nil), [inr err] the
    return (nil, err). *)
Definition ReadBoundsConfig (fname : string) (totalWidth : F) :
    list BoxConfig + error :=
  match ReadFileInto fname with
  | (_, Some err) => inr err
  | (bc, None) =>
      match range_balls (Ball bc) totalWidth [] with
      | inr err => inr err
      | inl boxes => range_boxes (Box bc) totalWidth boxes
      end
  end.

End WithFloats.

End Config.

(** ** Package density, the revision that interpolates onto one grid *)

Module DensitySingle.

Import RenderGeom.

Section WithFloats.

Context {F : Type} {FO : FloatOps F}.
Local Open Scope fl_scope.

Record cic : Type := {
  cic_g : Grid;
  cic_bg : Grid;
  cic_cellWidth : F;
  cic_cellVolume : F;
  cic_rhos : nat
}.

Record ngp : Type := {
  ngp_g : Grid;
  ngp_cellWidth : F;
  ngp_cellVolume : F;
  ngp_rhos : nat
}.

(** Flag, an int. *)
Definition CloudInCell : Z := 0.
Definition NearestGridPoint : Z := 1.

(** The two implementations of the interface Interpolator. *)
Inductive Interpolator : Type :=
| of_cic (intr : cic)
| of_ngp (intr : ngp).

(** Bounds; geom.NewGrid is Grid.Init on a new value. *)
Definition Bounds (cells gridWidth gx gy gz : Z) : option (Grid * Grid) :=
  match RenderGeom.Init (int_mul gx cells, int_mul gy cells, int_mul gz cells)
                        cells,
        RenderGeom.Init (0, 0, 0)%Z (int_mul cells gridWidth) with
  | Some g, Some bg => Some (g, bg)
  | _, _ => None
  end.

(** NewInterpolator; [rhos] is the handle of the slice in the store [h],
    the particle manager is not used. *)
Definition NewInterpolator (h : @Density.Heap F) (flag : Z) (g bg : Grid)
    (width : F) (rhos : nat) : option Interpolator :=
  match nth_error h rhos with
  | None => None
  | Some a =>
      if negb (Volume g =? Z.of_nat (length a)) then None
      else
        let cellWidth := width / fofZ (Width g) in
        let cellVolume := cellWidth * cellWidth * cellWidth in
        if flag =? CloudInCell then
          Some (of_cic {| cic_g := g; cic_bg := bg; cic_cellWidth := cellWidth;
                          cic_cellVolume := cellVolume; cic_rhos := rhos |})
        else if flag =? NearestGridPoint then
          Some (of_ngp {| ngp_g := g; ngp_cellWidth := cellWidth;
                          ngp_cellVolume := cellVolume; ngp_rhos := rhos |})
        else None  (* panic(fmt.Sprintf("Unknown flag %d", flag)) *)
  end.

(** ngp.Interpolate. *)
Definition ngp_Interpolate (intr : ngp) (mass : F) (ids : list Z)
    (xs : list (@Density.Vec F)) : @Density.M F :=
  let frac := mass / ngp_cellVolume intr in
  Density.forM xs (fun pt =>
    let '(xp, yp, zp) := pt in
    let '(xc, yc, zc) := Density.cellPoints xp yp zp (ngp_cellWidth intr) in
    let i := ftoZ xc in
    let j := ftoZ yc in
    let k := ftoZ zc in
    fun st =>
      match IdxCheck (ngp_g intr) i j k with
      | (idx, true) => Density.rhos_add (ngp_rhos intr) (i, j, k) idx frac st
      | (_, false) => Some st
      end).

Definition nbrs (intr : cic) (i : Z) : Z * Z :=
  if i =? -1 then (int_sub (Width (cic_bg intr)) 1, 0%Z)
  else if int_add i 1 =? Width (cic_bg intr) then (i, 0%Z)
  else (i, int_add i 1).

Definition incr (intr : cic) (i j k : Z) (frac : F) : @Density.M F :=
  fun st =>
    match IdxCheck (cic_g intr) i j k with
    | (idx, true) => Density.rhos_add (cic_rhos intr) (i, j, k) idx frac st
    | (_, false) => Some st
    end.

(** cic.Interpolate: the eight calls of incr, in the order of the source. *)
Definition cic_Interpolate (intr : cic) (mass : F) (ids : list Z)
    (xs : list (@Density.Vec F)) : @Density.M F :=
  let frac := mass / cic_cellVolume intr in
  let cw := cic_cellWidth intr in
  let cw2 := cic_cellWidth intr / fofZ 2 in
  Density.forM xs (fun pt =>
    let '(px, py, pz) := pt in
    let xp := px - cw2 in
    let yp := py - cw2 in
    let zp := pz - cw2 in
    let '(xc, yc, zc) := Density.cellPoints xp yp zp (cic_cellWidth intr) in
    let dx := (xp / cw) - xc in
    let dy := (yp / cw) - yc in
    let dz := (zp / cw) - zc in
    let tx := fofZ 1 - dx in
    let ty := fofZ 1 - dy in
    let tz := fofZ 1 - dz in
    let '(i0, i1) := nbrs intr (ftoZ xc) in
    let '(j0, j1) := nbrs intr (ftoZ yc) in
    let '(k0, k1) := nbrs intr (ftoZ zc) in
    Density.forM
      [ (i0, j0, k0, tx * ty * tz * frac);
        (i1, j0, k0, dx * ty * tz * frac);
        (i0, j1, k0, tx * dy * tz * frac);
        (i1, j1, k0, dx * dy * tz * frac);
        (i0, j0, k1, tx * ty * dz * frac);
        (i1, j0, k1, dx * ty * dz * frac);
        (i0, j1, k1, tx * dy * dz * frac);
        (i1, j1, k1, dx * dy * dz * frac) ]
      (fun o => let '(i, j, k, over) := o in incr intr i j k over)).

(** The method Interpolate of the interface. *)
Definition Interpolate (intr : Interpolator) (mass : F) (ids : list Z)
    (xs : list (@Density.Vec F)) : @Density.M F :=
  match intr with
  | of_cic c => cic_Interpolate c mass ids xs
  | of_ngp n => ngp_Interpolate n mass ids xs
  end.

End WithFloats.

End DensitySingle.

(** ** Package analyze: Smooth *)

Module Analyze.

Section WithFloats.

Context {F : Type} {FO : FloatOps F}.
Local Open Scope fl_scope.

(** What package math/interpolate provides: the kernels, their two
    constructors, and Kernel.ConvolveAt(ys, intr.Extension, out), which
    reads the slice [ys] and writes the slice [out], both given by their
    handles in the store; [None] is a panic.  Its source is not part of
    this development, so it is taken as it comes. *)
Variable Kernel : Type.
Variable NewSavGolKernel : Z -> Z -> Kernel.
Variable NewSavGolDerivKernel : F -> Z -> Z -> Z -> Kernel.
Variable ConvolveAt :
  Kernel -> list (list F) -> nat -> nat -> option (list (list F)).

(** The package-level maps [kernels] and [derivKernels]. *)
Record Kernels : Type := {
  kernels : Z -> option Kernel;
  derivKernels : Z -> option Kernel
}.

(** [make(map[int]*intr.Kernel)], twice. *)
Definition no_kernels : Kernels :=
  {| kernels := fun _ => None; derivKernels := fun _ => None |}.

(** [m[k] = v]. *)
Definition map_set (m : Z -> option Kernel) (k : Z) (v : Kernel) :
    Z -> option Kernel :=
  fun k' => if k' =? k then Some v else m k'.

(** smoothParams: each slice is nil or a handle in the store. *)
Record smoothParams : Type := {
  vals : option nat;
  derivs : option nat
}.

Definition SmoothOption : Type := smoothParams -> smoothParams.

Definition loadOptions (p : smoothParams) (opts : list SmoothOption) :
    smoothParams :=
  fold_left (fun p opt => opt p) opts p.

Definition Vals (v : option nat) : SmoothOption :=
  fun p => {| vals := v; derivs := derivs p |}.

Definition Derivs (d : option nat) : SmoothOption :=
  fun p => {| vals := vals p; derivs := d |}.

(** getSmoothingKernel: the two kernels (a pointer that the map does not
    hold is nil) and the maps as the call leaves them. *)
Definition getSmoothingKernel (window : Z) (dx : F) (ks : Kernels) :
    option Kernel * option Kernel * Kernels :=
  match kernels ks window with
  | Some k => (Some k, derivKernels ks window, ks)
  | None =>
      let k := NewSavGolKernel 4 window in
      let kd := NewSavGolDerivKernel dx 1 4 window in
      (Some k, Some kd,
       {| kernels := map_set (kernels ks) window k;
          derivKernels := map_set (derivKernels ks) window kd |})
  end.

(** The state Smooth runs in: the store of slices and the two maps. *)
Record State : Type := {
  heap : list (list F);
  cache : Kernels
}.

(** [(xs[0] - xs[len(xs) - 1]) / float64(len(xs) - 1)]; the index panics
    on an empty slice. *)
Definition smooth_dx (xs : list F) : option F :=
  match nth_error xs 0, nth_error xs (length xs - 1) with
  | Some first, Some last =>
      Some ((first - last) / fofZ (int_sub (Z.of_nat (length xs)) 1))
  | _, _ => None
  end.

(** [if s == nil { s = make([]float64, n) }]: the slice and the store. *)
Definition or_make (s : option nat) (n : nat) (h : list (list F)) :
    nat * list (list F) :=
  match s with
  | Some v => (v, h)
  | None => (length h, h ++ [repeat (fofZ 0) n])
  end.

(** Smooth, for [xs] given by its elements and [ys] by its handle (it may
    be the slice handed over with Vals or Derivs): the three results and
    the state, or a panic. *)
Definition Smooth (xs : list F) (ys : nat) (window : Z)
    (opts : list SmoothOption) (st : State) :
    option (option nat * option nat * bool * State) :=
  match nth_error (heap st) ys with
  | None => None
  | Some ysv =>
      if negb (Nat.eqb (length xs) (length ysv)) then None
      else if Z.of_nat (length xs) <=? window then Some (None, None, false, st)
      else
        let p := loadOptions {| vals := None; derivs := None |} opts in
        let '(vs, h1) := or_make (vals p) (length xs) (heap st) in
        let '(ds, h2) := or_make (derivs p) (length xs) h1 in
        match smooth_dx xs with
        | None => None
        | Some dx =>
            match getSmoothingKernel window dx (cache st) with
            | (Some k, Some kd, ks) =>
                match ConvolveAt k h2 ys vs with
                | None => None
                | Some h3 =>
                    match ConvolveAt kd h3 ys ds with
                    | None => None
                    | Some h4 =>
                        Some (Some vs, Some ds, true,
                              {| heap := h4; cache := ks |})
                    end
                end
            | _ => None   (* a method called on a nil kernel *)
            end
        end
  end.

End WithFloats.

End Analyze.

(** ** Package mat: LU factorisation *)

Module Mat.

Section WithFloats.

Context {F : Type} {FO : FloatOps F}.
Local Open Scope fl_scope.

(** math.Abs. *)
Variable fabs : F -> F.

Record Matrix : Type := {
  Vals : list F;
  Width : Z;
  Height : Z
}.

Record LUFactors : Type := {
  lu : Matrix;
  pivot : list Z;
  d : F
}.

Definition NewMatrix (vals : list F) (width height : Z) : option Matrix :=
  if width <=? 0 then None          (* panic("width must be positive.") *)
  else if height <=? 0 then None    (* panic("height must be positive.") *)
  else if negb (int_mul width height =? Z.of_nat (length vals)) then None
  else Some {| Vals := vals; Width := width; Height := height |}.

(** NewLUFactors; make panics on a negative length. *)
Definition NewLUFactors (n : Z) : option LUFactors :=
  if (int_mul n n <? 0) || (n <? 0) then None
  else Some {| lu := {| Vals := repeat (fofZ 0) (Z.to_nat (int_mul n n));
                        Width := n; Height := n |};
               pivot := repeat 0%Z (Z.to_nat n);
               d := fofZ 1 |}.

(** findMaxRow. *)
Definition findMaxRow (n : Z) (m : list F) (col : Z) : option Z :=
  option_map snd
    (foldO (zrange col (n - 1))
       (fun i acc =>
          let '(max, maxRow) := acc in
          match nth_int m (int_add (int_mul i n) col) with
          | Some x =>
              let val := fabs x in
              if fltb max val then Some (val, i) else Some (max, maxRow)
          | None => None
          end)
       (fneg (fofZ 1), 0%Z)).

(** swapRows. *)
Definition swapRows (i1 i2 n : Z) (l : list F) : option (list F) :=
  let i1Offset := int_mul n i1 in
  let i2Offset := int_mul n i2 in
  foldO (zrange 0 (n - 1))
    (fun j l =>
       let idx1 := int_add i1Offset j in
       let idx2 := int_add i2Offset j in
       match nth_int l idx1, nth_int l idx2 with
       | Some a, Some b =>
           match set_int l idx1 b with
           | Some l1 => set_int l1 idx2 a
           | None => None
           end
       | _, _ => None
       end)
    l.

(** [copy(dst, src)]: the destination afterwards. *)
Definition copy_slice {A : Type} (dst src : list A) : list A :=
  firstn (length dst) (src ++ skipn (length src) dst).

(** The loop [for i := 0; i < n; i++ { luf.pivot[i] = i }]. *)
Definition init_pivot (n : Z) (pv : list Z) : option (list Z) :=
  foldO (zrange 0 (n - 1)) (fun i p => set_int p i i) pv.

(** The loop that swaps rows: the array [l], the pivot and the sign as
    one step for the column [k] leaves them.  The row is looked for in
    [mat], the values of the matrix that is being factored. *)
Definition pivot_step (n : Z) (mat : list F) (k : Z)
    (s : list F * list Z * F) : option (list F * list Z * F) :=
  let '(l, pv, sign) := s in
  match findMaxRow n mat k with
  | None => None
  | Some maxRow =>
      match nth_int pv k, nth_int pv maxRow with
      | Some pk, Some pm =>
          match set_int pv k pm with
          | Some pv1 =>
              match set_int pv1 maxRow pk with
              | Some pv2 =>
                  if negb (k =? maxRow) then
                    match swapRows k maxRow n l with
                    | Some l' => Some (l', pv2, fneg sign)
                    | None => None
                    end
                  else Some (l, pv2, sign)
              | None => None
              end
          | None => None
          end
      | _, _ => None
      end
  end.

(** The innermost loop of the elimination,
    [lu[iOffset + j] -= tmp * lu[kOffset + j]]. *)
Definition elim_row (n k kOffset iOffset : Z) (tmp : F) (l : list F) :
    option (list F) :=
  foldO (zrange (int_add k 1) (n - 1))
    (fun j l =>
       match nth_int l (int_add iOffset j), nth_int l (int_add kOffset j) with
       | Some a, Some b => set_int l (int_add iOffset j) (a - tmp * b)
       | _, _ => None
       end)
    l.

(** The body of the loop over [k] of the elimination. *)
Definition elim_step (n k : Z) (l : list F) : option (list F) :=
  let kOffset := int_mul k n in
  foldO (zrange (int_add k 1) (n - 1))
    (fun i l =>
       let iOffset := int_mul i n in
       match nth_int l (int_add iOffset k), nth_int l (int_add kOffset k) with
       | Some a, Some b =>
           match set_int l (int_add iOffset k) (a / b) with
           | Some l1 =>
               match nth_int l1 (int_add iOffset k) with
               | Some tmp => elim_row n k kOffset iOffset tmp l1
               | None => None
               end
           | None => None
           end
       | _, _ => None
       end)
    l.

(** Matrix.LUFactorsAt, for factors whose slices share no memory with
    [m.Vals], as those that LU allocates. *)
Definition LUFactorsAt (m : Matrix) (luf : LUFactors) : option LUFactors :=
  if negb (Width (lu luf) =? Width m) || negb (Height (lu luf) =? Height m)
  then None
  else
    let n := Width m in
    match init_pivot n (pivot luf) with
    | None => None
    | Some pv0 =>
        let l0 := copy_slice (Vals (lu luf)) (Vals m) in
        match foldO (zrange 0 (n - 1)) (pivot_step n (Vals m))
                    (l0, pv0, fofZ 1) with
        | None => None
        | Some (l1, pv1, sign) =>
            match foldO (zrange 0 (n - 1)) (elim_step n) l1 with
            | None => None
            | Some l2 =>
                Some {| lu := {| Vals := l2; Width := Width (lu luf);
                                 Height := Height (lu luf) |};
                        pivot := pv1;
                        d := sign |}
            end
        end
    end.

(** Matrix.LU. *)
Definition LU (m : Matrix) : option LUFactors :=
  if negb (Width m =? Height m) then None   (* panic("m is non-square.") *)
  else
    match NewLUFactors (Width m) with
    | Some luf => LUFactorsAt m luf
    | None => None
    end.

(** forwardSubst, on [ys]. *)
Definition forwardSubst (n : Z) (pv : list Z) (l bs ys : list F) :
    option (list F) :=
  match foldO (zrange 0 (n - 1))
          (fun i ys =>
             match nth_int pv i, nth_int bs i with
             | Some p, Some b => set_int ys p b
             | _, _ => None
             end) ys with
  | None => None
  | Some ys1 =>
      foldO (zrange 0 (n - 1))
        (fun i ys =>
           match foldO (zrange 0 (i - 1))
                   (fun j sum =>
                      match nth_int l (int_add (int_mul i n) j), nth_int ys j with
                      | Some a, Some y => Some (sum + a * y)
                      | _, _ => None
                      end) (fofZ 0) with
           | Some sum =>
               match nth_int ys i with
               | Some y => set_int ys i (y - sum)
               | None => None
               end
           | None => None
           end) ys1
  end.

(** backSubst, called with [ys] and [xs] the same slice. *)
Definition backSubst (n : Z) (l xs : list F) : option (list F) :=
  foldO (rev (zrange 0 (n - 1)))
    (fun i xs =>
       match foldO (zrange (int_add i 1) (n - 1))
               (fun j sum =>
                  match nth_int l (int_add (int_mul i n) j), nth_int xs j with
                  | Some a, Some x => Some (sum + a * x)
                  | _, _ => None
                  end) (fofZ 0) with
       | Some sum =>
           match nth_int xs i, nth_int l (int_add (int_mul i n) i) with
           | Some y, Some p => set_int xs i ((y - sum) / p)
           | _, _ => None
           end
       | None => None
       end) xs.

(** LUFactors.SolveVector, for [bs] and [xs] that are the same slice or
    share no memory: [xs] as the call leaves it.  When they are the same
    slice, [bs] is copied first, so the two cases run alike; [&bs[0]]
    panics on an empty slice. *)
Definition SolveVector (luf : LUFactors) (bs xs : list F) : option (list F) :=
  let n := Width (lu luf) in
  if negb (n =? Z.of_nat (length bs)) then None
  else if negb (n =? Z.of_nat (length xs)) then None
  else
    match bs with
    | [] => None
    | _ :: _ =>
        match forwardSubst n (pivot luf) (Vals (lu luf)) bs xs with
        | Some ys => backSubst n (Vals (lu luf)) ys
        | None => None
        end
    end.

(** LUFactors.Determinant. *)
Definition Determinant (luf : LUFactors) : option F :=
  let n := Width (lu luf) in
  foldO (zrange 0 (Width (lu luf) - 1))
    (fun i acc =>
       match nth_int (Vals (lu luf)) (int_add (int_mul i n) i) with
       | Some x => Some (acc * x)
       | None => None
       end)
    (d luf).

(** The body of the loop over the columns of SolveMatrix: the column [j]
    of [xs] is copied to [col], solved in place and copied back. *)
Definition solve_column (luf : LUFactors) (n j : Z) (s : list F * list F) :
    option (list F * list F) :=
  let '(xs, col) := s in
  match foldO (zrange 0 (n - 1))
          (fun i col =>
             match nth_int xs (int_add (int_mul i n) j) with
             | Some v => set_int col i v
             | None => None
             end) col with
  | None => None
  | Some col1 =>
      match SolveVector luf col1 col1 with
      | None => None
      | Some col2 =>
          match foldO (zrange 0 (n - 1))
                  (fun i xs =>
                     match nth_int col2 i with
                     | Some v => set_int xs (int_add (int_mul i n) j) v
                     | None => None
                     end) xs with
          | Some xs' => Some (xs', col2)
          | None => None
          end
      end
  end.

(** LUFactors.SolveMatrix: [x] as the call leaves it.  Of [b] only the
    width and the height are read. *)
Definition SolveMatrix (luf : LUFactors) (b x : Matrix) : option Matrix :=
  let n := Width (lu luf) in
  if negb (Width b =? Height b) then None       (* panic *)
  else if negb (Width x =? Height x) then None  (* panic *)
  else if negb (n =? Width b) then None         (* panic *)
  else if negb (n =? Width x) then None         (* panic *)
  else if n <? 0 then None                      (* make panics *)
  else
    match foldO (zrange 0 (n - 1)) (solve_column luf n)
                (Vals x, repeat (fofZ 0) (Z.to_nat n)) with
    | Some (xs, _) =>
        Some {| Vals := xs; Width := Width x; Height := Height x |}
    | None => None
    end.

(** LUFactors.Invert: [out] as the call leaves it. *)
Definition Invert (luf : LUFactors) (out : Matrix) : option Matrix :=
  let n := Width (lu luf) in
  if negb (Width out =? Height out) then None   (* panic *)
  else if negb (n =? Width out) then None       (* panic *)
  else
    let zeros := map (fun _ => fofZ 0) (Vals out) in
    match foldO (zrange 0 (n - 1))
            (fun i vs => set_int vs (int_add (int_mul i n) i) (fofZ 1))
            zeros with
    | Some vs =>
        let out' := {| Vals := vs; Width := Width out; Height := Height out |} in
        SolveMatrix luf out' out'
    | None => None
    end.

End WithFloats.

End Mat.

(** * Properties *)

(** ** Arithmetic and arrays *)

Example b64_floor_1 : Binary64.floor 1.5%float = 1%float.
Proof. vm_compute. reflexivity. Qed.
Example b64_floor_2 : Binary64.floor (-0.25)%float = (-1)%float.
Proof. vm_compute. reflexivity. Qed.
Example b64_floor_3 : Binary64.to_int (Binary64.floor (-0.25)%float) = -1.
Proof. vm_compute. reflexivity. Qed.
Example b64_f32_1 :
  Binary64.to_f32 0x1.999999999999ap-4%float = 0x1.99999ap-4%float.
Proof. vm_compute. reflexivity. Qed.
Example b64_ofZ : Binary64.of_Z 6 = 6%float.
Proof. vm_compute. reflexivity. Qed.

Lemma list_set_length {A} (i : nat) (v : A) (l : list A) :
  length (list_set i v l) = length l.
Proof.
  revert i; induction l as [|h t IH]; intros [|i]; simpl; auto.
Qed.

Lemma list_set_nth_eq {A} (i : nat) (v : A) (l : list A) :
  (i < length l)%nat -> nth_error (list_set i v l) i = Some v.
Proof.
  revert i; induction l as [|h t IH]; intros [|i] H; simpl in *;
    try lia; auto.
  apply IH; lia.
Qed.

Lemma list_set_nth_neq {A} (i j : nat) (v : A) (l : list A) :
  i <> j -> nth_error (list_set i v l) j = nth_error l j.
Proof.
  revert i j; induction l as [|h t IH]; intros [|i] [|j] H; simpl;
    try congruence; auto.
Qed.

Lemma in_zrange (lo hi x : Z) : In x (zrange lo hi) <-> lo <= x <= hi.
Proof.
  unfold zrange. rewrite in_map_iff. split.
  - intros (n & <- & Hn). apply in_seq in Hn. lia.
  - intros H. exists (Z.to_nat (x - lo)). split; [lia|].
    apply in_seq. lia.
Qed.

(** ** The bounds configuration *)

Section ConfigFacts.

Import String.
Import Config.

Context {F : Type} {FO : FloatOps F}.
Variable ToUpper : string -> string.
Variable ReadFileInto : string -> @BoundsConfig F * option (@error F).

(** No string differs from none of "", "X", "Y" and "Z": the condition
    that guards the ProjectionAxis error holds for every string. *)
Lemma projection_axis_test_true (s : string) :
  sneq s "" || sneq s "X" || sneq s "Y" || sneq s "Z" = true.
Proof.
  unfold sneq.
  destruct (String.eqb_spec s "") as [-> | _]; [reflexivity | ].
  reflexivity.
Qed.

(** CheckInit never returns nil, whatever the box. *)
Lemma BoxConfig_CheckInit_errors (box : BoxConfig) (name : string)
    (totalWidth : F) :
  exists err, snd (BoxConfig_CheckInit ToUpper box name totalWidth) = Some err.
Proof.
  unfold BoxConfig_CheckInit.
  repeat match goal with
         | |- context [if ?c then _ else _] =>
             lazymatch c with
             | orb (orb (orb (sneq _ _) _) _) _ => fail
             | _ => destruct c; [simpl; eauto | ]
             end
         end.
  cbv zeta. rewrite projection_axis_test_true. simpl. eauto.
Qed.

(** The loop over the Box sections fails as soon as there is a section. *)
Lemma range_boxes_errors (bxs : list (string * BoxConfig)) (totalWidth : F)
    (boxes : list BoxConfig) :
  bxs <> [] ->
  exists err, range_boxes ToUpper bxs totalWidth boxes = inr err.
Proof.
  destruct bxs as [ | [name box] rest]; [congruence | intros _].
  simpl.
  destruct (BoxConfig_CheckInit_errors box name totalWidth) as [err Herr].
  destruct (BoxConfig_CheckInit ToUpper box name totalWidth) as [box' r].
  simpl in Herr. subst r. eauto.
Qed.

(** C10: a box whose widths pass [XWidth <= 0], [YWidth <= 0],
    [ZWidth <= 0] and whose origin passes the three range tests makes
    CheckInit return the ProjectionAxis error, whatever ProjectionAxis is
    (the empty string and "X", "Y", "Z" included), leaving the upper-cased
    axis in the box and its Name as it was; and ReadBoundsConfig returns an
    error whenever the file it read has a Box section. *)
Theorem CheckInit_rejects_every_projection_axis
    (box : BoxConfig) (name fname : string) (totalWidth : F) :
  fleb (XWidth box) (fofZ 0) = false ->
  fleb (YWidth box) (fofZ 0) = false ->
  fleb (ZWidth box) (fofZ 0) = false ->
  fleb totalWidth (X box) || fltb (X box) (fofZ 0) = false ->
  fleb totalWidth (Y box) || fltb (Y box) (fofZ 0) = false ->
  fleb totalWidth (Z box) || fltb (Z box) (fofZ 0) = false ->
  BoxConfig_CheckInit ToUpper box name totalWidth =
    (set_ProjectionAxis box (ToUpper (ProjectionAxis box)),
     Some (Errorf
       "ProjectionAxis of Box '%s' must be one of [X | Y | Z]. '%s' is not recognized."
       [ArgS (Name box); ArgS (ProjectionAxis box)]))
  /\ (Box (fst (ReadFileInto fname)) <> [] ->
      exists err, ReadBoundsConfig ToUpper ReadFileInto fname totalWidth = inr err).
Proof.
  intros HX HY HZ Hx Hy Hz. split.
  - unfold BoxConfig_CheckInit.
    rewrite HX, HY, HZ, Hx, Hy, Hz. cbv zeta.
    rewrite projection_axis_test_true. reflexivity.
  - intros Hbox. unfold ReadBoundsConfig.
    destruct (ReadFileInto fname) as [bc [err | ]]; [eauto | ].
    simpl in Hbox.
    destruct (range_balls (Ball bc) totalWidth []) as [boxes | err]; [ | eauto].
    apply range_boxes_errors; assumption.
Qed.

End ConfigFacts.

Section ConfigExamples.

Import String.

(** strings.ToUpper on ASCII letters, for the examples. *)
Fixpoint upper_ascii (s : String.string) : String.string :=
  match s with
  | String.EmptyString => String.EmptyString
  | String.String c s' =>
      let n := Ascii.nat_of_ascii c in
      String.String
        (if (97 <=? n)%nat && (n <=? 122)%nat
         then Ascii.ascii_of_nat (n - 32) else c)
        (upper_ascii s')
  end.

(** A unit box at the origin of a box of width 8, projected along "x". *)
Definition example_box : @Config.BoxConfig float :=
  {| Config.X := 0%float; Config.Y := 0%float; Config.Z := 0%float;
     Config.XWidth := 1%float; Config.YWidth := 1%float;
     Config.ZWidth := 1%float;
     Config.ProjectionAxis := "x"%string; Config.Name := ""%string |}.

Definition example_bounds_file (fname : String.string) :
    @Config.BoundsConfig float * option (@Config.error float) :=
  ({| Config.Ball := []; Config.Box := [("b"%string, example_box)] |}, None).

Lemma CheckInit_rejects_every_projection_axis_witness :
  Config.BoxConfig_CheckInit (FO := Binary64.ops) upper_ascii example_box
      "b"%string 8%float =
    (Config.set_ProjectionAxis example_box "X"%string,
     Some (Config.Errorf
       "ProjectionAxis of Box '%s' must be one of [X | Y | Z]. '%s' is not recognized."%string
       [Config.ArgS ""%string; Config.ArgS "x"%string]))
  /\ (Config.Box (fst (example_bounds_file "bounds.txt"%string)) <> [] ->
      exists err,
        Config.ReadBoundsConfig (FO := Binary64.ops) upper_ascii
          example_bounds_file "bounds.txt"%string 8%float = inr err).
Proof.
  apply (CheckInit_rejects_every_projection_axis (FO := Binary64.ops)
           upper_ascii example_bounds_file example_box "b"%string
           "bounds.txt"%string 8%float);
    vm_compute; reflexivity.
Defined.

End ConfigExamples.

(** ** The Pluecker edge tables *)

Section PluckerFacts.

Import LosGeom.

Context {F : Type} {FO : FloatOps F}.
Variable fsqrt : F -> F.

(** C9: for a face [f] and a position [e] on it, the entry [(idx, flip)]
    of the edge tables names the raw edge [(r1, r2)] that joins the face's
    vertices [a] at [e] and [b] at [(e+1) mod 3]; the vector stored at
    [idx] by Init is the segment vector from [t[r1]] to [t[r2]]; and
    [flip] holds exactly when the raw edge runs from [b] to [a], against
    the direction in which the face is walked. *)
Theorem plucker_edge_tables_consistent (t : Tetra) (f e : nat) :
  (f < 4)%nat -> (e < 3)%nat ->
  exists idx flip a b r1 r2 p1 p2,
    EdgeIdx f e = Some (idx, flip) /\
    VertexIdx f e = Some a /\
    VertexIdx f ((e + 1) mod 3) = Some b /\
    nth_error raw_edges idx = Some (r1, r2) /\
    vertex t r1 = Some p1 /\
    vertex t r2 = Some p2 /\
    nth_error (PluckerTetra_Init fsqrt t) idx =
      Some (InitFromSegment fsqrt p1 p2) /\
    ((r1, r2) = (a, b) \/ (r1, r2) = (b, a)) /\
    (flip = true <-> (r1, r2) = (b, a)).
Proof.
  intros Hf He.
  destruct t as [[[t0 t1] t2] t3].
  assert (Hfc : (f = 0 \/ f = 1 \/ f = 2 \/ f = 3)%nat) by lia.
  assert (Hec : (e = 0 \/ e = 1 \/ e = 2)%nat) by lia.
  destruct Hfc as [-> | [-> | [-> | ->]]];
    destruct Hec as [-> | [-> | ->]];
    cbn;
    do 8 eexists;
    repeat (split; [reflexivity | ]);
    (split; [ (left; reflexivity) || (right; reflexivity) | ]);
    split; (reflexivity || congruence || discriminate).
Qed.

End PluckerFacts.

Lemma plucker_edge_tables_consistent_witness :
  exists idx flip a b r1 r2 p1 p2,
    LosGeom.EdgeIdx 2 0 = Some (idx, flip) /\
    LosGeom.VertexIdx 2 0 = Some a /\
    LosGeom.VertexIdx 2 ((0 + 1) mod 3) = Some b /\
    nth_error LosGeom.raw_edges idx = Some (r1, r2) /\
    LosGeom.vertex
      ((0, 0, 0), (1, 0, 0), (0, 1, 0), (0, 0, 1))%float r1 = Some p1 /\
    LosGeom.vertex
      ((0, 0, 0), (1, 0, 0), (0, 1, 0), (0, 0, 1))%float r2 = Some p2 /\
    nth_error
      (LosGeom.PluckerTetra_Init (FO := Binary64.ops) PrimFloat.sqrt
         ((0, 0, 0), (1, 0, 0), (0, 1, 0), (0, 0, 1))%float) idx =
      Some (LosGeom.InitFromSegment (FO := Binary64.ops) PrimFloat.sqrt p1 p2) /\
    ((r1, r2) = (a, b) \/ (r1, r2) = (b, a)) /\
    (flip = true <-> (r1, r2) = (b, a)).
Proof.
  apply (plucker_edge_tables_consistent (FO := Binary64.ops) PrimFloat.sqrt
           ((0, 0, 0), (1, 0, 0), (0, 1, 0), (0, 0, 1))%float 2%nat 0%nat);
    lia.
Defined.

(** ** The periodic shift of sheet data *)

Section WrapFacts.

Import Los.

Context {F : Type} {FO : FloatOps F}.
Local Open Scope fl_scope.

Lemma axis_on_axes (upd : F -> F -> F) (v o : Vec) (j : nat) :
  axis (on_axes upd v o) j = upd (axis v j) (axis o j).
Proof.
  destruct v as [[v0 v1] v2], o as [[o0 o1] o2].
  destruct j as [ | [ | j]]; reflexivity.
Qed.

(** WrapXs shifts a coordinate exactly when it is below the origin. *)
Lemma WrapXs_axis (xs : list Vec) (hd : SheetHeader) (i j : nat) :
  option_map (fun v => axis v j) (nth_error (WrapXs xs hd) i) =
  option_map (fun v =>
                if fltb (axis v j) (axis (Origin hd) j)
                then f32 (axis v j + f32 (TotalWidth hd))
                else axis v j)
             (nth_error xs i).
Proof.
  unfold WrapXs. rewrite nth_error_map.
  destruct (nth_error xs i) as [v | ]; simpl; [ | reflexivity].
  rewrite axis_on_axes. reflexivity.
Qed.

(** C8, as the code has it: WrapXs adds (the float32 of) TotalWidth to
    exactly the coordinates [xs[i][j]] that are below [Origin[j]]; WrapHalo
    adds it to exactly the centre coordinates [C[j]] for which
    [C[j] + R] is below [Origin[j]], and keeps the radius and everything
    else in the halo; both keep the number of elements. *)
Theorem Wrap_shifts_below_origin {Profile : Type}
    (xs : list Vec) (hps : list (HaloProfiles Profile)) (hd : SheetHeader)
    (i j : nat) :
  length (WrapXs xs hd) = length xs /\
  option_map (fun v => axis v j) (nth_error (WrapXs xs hd) i) =
    option_map (fun v =>
                  if fltb (axis v j) (axis (Origin hd) j)
                  then f32 (axis v j + f32 (TotalWidth hd))
                  else axis v j)
               (nth_error xs i) /\
  length (WrapHalo hps hd) = length hps /\
  option_map (fun h => (axis (C h) j, R h, profile h))
             (nth_error (WrapHalo hps hd) i) =
    option_map (fun h =>
                  (if fltb (f32 (axis (C h) j + R h)) (axis (Origin hd) j)
                   then f32 (axis (C h) j + f32 (TotalWidth hd))
                   else axis (C h) j,
                   R h, profile h))
               (nth_error hps i).
Proof.
  split; [unfold WrapXs; apply length_map | ].
  split; [apply WrapXs_axis | ].
  split; [unfold WrapHalo; apply length_map | ].
  unfold WrapHalo. rewrite nth_error_map.
  destruct (nth_error hps i) as [h | ]; simpl; [ | reflexivity].
  rewrite axis_on_axes. reflexivity.
Qed.

End WrapFacts.

(** A halo of radius 1 centred half a unit below the origin on the first
    axis, in a sheet of total width 8 with its origin at 0. *)
Definition example_halo : Los.HaloProfiles (F := float) unit :=
  {| Los.C := (-0.5, 2, 2)%float; Los.R := 1%float; Los.profile := tt |}.

Definition example_header : Los.SheetHeader (F := float) :=
  {| Los.SegmentWidth := 4; Los.GridWidth := 4; Los.TotalWidth := 8%float;
     Los.Count := 64; Los.Origin := (0, 0, 0)%float |}.

(** The centre coordinate -0.5 is below the origin 0, and WrapHalo leaves
    it where it is: -0.5 + 1 is not below 0.  WrapXs moves the same
    coordinate to 7.5. *)
Lemma WrapHalo_keeps_center_below_origin :
  fltb (Los.axis (Los.C example_halo) 0) (Los.axis (Los.Origin example_header) 0)
    = true /\
  map (fun h => Los.C h) (Los.WrapHalo [example_halo] example_header)
    = [(-0.5, 2, 2)%float] /\
  Los.WrapXs [Los.C example_halo] example_header = [(7.5, 2, 2)%float].
Proof. vm_compute. repeat split. Qed.

(** ** Orientation of a tetrahedron *)

Section OrientFacts.

Import LosGeom.

(** The tetrahedron with its first two vertices exchanged. *)
Definition swap01 {F : Type} (t : @Tetra F) : @Tetra F :=
  let '(t0, t1, t2, t3) := t in (t1, t0, t2, t3).

(** The scalar triple product of [(v1 - v0, v2 - v0, v3 - v0)], six times
    the signed volume, over the rationals. *)
Definition triple (t : @Tetra Q) : Q :=
  let '((x0, y0, z0), (x1, y1, z1), (x2, y2, z2), (x3, y3, z3)) := t in
  ((x1 - x0) * ((y2 - y0) * (z3 - z0) - (z2 - z0) * (y3 - y0))
   + (y1 - y0) * ((z2 - z0) * (x3 - x0) - (x2 - x0) * (z3 - z0))
   + (z1 - z0) * ((x2 - x0) * (y3 - y0) - (y2 - y0) * (x3 - x0)))%Q.

(** Orient only ever exchanges the first two vertices, in any arithmetic. *)
Lemma Orient_cases {F : Type} {FO : FloatOps F} (t : Tetra) (dir : Z) :
  Orient t dir = t \/ Orient t dir = swap01 t.
Proof.
  destruct t as [[[t0 t1] t2] t3]. unfold Orient.
  destruct (_ || _); [right | left]; reflexivity.
Qed.

Lemma Qltb_true (x y : Q) : Exact.Qltb x y = true <-> (x < y)%Q.
Proof.
  unfold Exact.Qltb. rewrite negb_true_iff.
  split; intros H.
  - apply Qnot_le_lt. intros Hle. apply Qle_bool_iff in Hle. congruence.
  - destruct (Qle_bool y x) eqn:E; [ | reflexivity].
    apply Qle_bool_iff in E. apply Qle_not_lt in E. contradiction.
Qed.

Lemma Qltb_false (x y : Q) : Exact.Qltb x y = false <-> (y <= x)%Q.
Proof.
  unfold Exact.Qltb. rewrite negb_false_iff. apply Qle_bool_iff.
Qed.

(** Without rounding, the scalar that Orient tests is the triple product
    with its sign changed. *)
Lemma orient_dot_exact (t : @Tetra Q) :
  (orient_dot (FO := Exact.ops) t == - triple t)%Q.
Proof.
  destruct t as [[[[[x0 y0] z0] [[x1 y1] z1]] [[x2 y2] z2]] [[x3 y3] z3]].
  unfold orient_dot, triple, add32, sub32, mul32, vx, vy, vz; simpl.
  ring.
Qed.

Lemma triple_swap01 (t : @Tetra Q) : (triple (swap01 t) == - triple t)%Q.
Proof.
  destruct t as [[[[[x0 y0] z0] [[x1 y1] z1]] [[x2 y2] z2]] [[x3 y3] z3]].
  unfold triple, swap01. ring.
Qed.

Lemma Orient_pos_exact (t : @Tetra Q) :
  Orient (FO := Exact.ops) t 1 = if Exact.Qltb (triple t) 0 then swap01 t else t.
Proof.
  pose proof (orient_dot_exact t) as Hd.
  destruct t as [[[t0 t1] t2] t3]. unfold Orient.
  set (d := orient_dot (t0, t1, t2, t3)) in *. clearbody d.
  set (tr := triple (t0, t1, t2, t3)) in *. clearbody tr.
  change (fltb d (fofZ 0)) with (Exact.Qltb d 0).
  change (fltb (fofZ 0) d) with (Exact.Qltb 0 d).
  change ((1 =? -1)%Z) with false. change ((1 =? 1)%Z) with true.
  rewrite andb_false_r, andb_true_r. simpl orb.
  destruct (Exact.Qltb tr 0) eqn:E.
  - apply Qltb_true in E.
    assert (H : Exact.Qltb 0 d = true) by (apply Qltb_true; lra).
    rewrite H. reflexivity.
  - apply Qltb_false in E.
    assert (H : Exact.Qltb 0 d = false) by (apply Qltb_false; lra).
    rewrite H. reflexivity.
Qed.

Lemma Orient_neg_exact (t : @Tetra Q) :
  Orient (FO := Exact.ops) t (-1) =
    if Exact.Qltb 0 (triple t) then swap01 t else t.
Proof.
  pose proof (orient_dot_exact t) as Hd.
  destruct t as [[[t0 t1] t2] t3]. unfold Orient.
  set (d := orient_dot (t0, t1, t2, t3)) in *. clearbody d.
  set (tr := triple (t0, t1, t2, t3)) in *. clearbody tr.
  change (fltb d (fofZ 0)) with (Exact.Qltb d 0).
  change (fltb (fofZ 0) d) with (Exact.Qltb 0 d).
  change ((-1 =? -1)%Z) with true. change ((-1 =? 1)%Z) with false.
  rewrite andb_false_r, andb_true_r, orb_false_r.
  destruct (Exact.Qltb 0 tr) eqn:E.
  - apply Qltb_true in E.
    assert (H : Exact.Qltb d 0 = true) by (apply Qltb_true; lra).
    rewrite H. reflexivity.
  - apply Qltb_false in E.
    assert (H : Exact.Qltb d 0 = false) by (apply Qltb_false; lra).
    rewrite H. reflexivity.
Qed.

Lemma swap01_involutive {F : Type} (t : @Tetra F) : swap01 (swap01 t) = t.
Proof. destruct t as [[[t0 t1] t2] t3]. reflexivity. Qed.

End OrientFacts.

Lemma Orient_pos_triple (t : @LosGeom.Tetra Q) :
  ~ (triple t == 0)%Q -> (0 < triple (LosGeom.Orient (FO := Exact.ops) t 1))%Q.
Proof.
  intros Hnz. rewrite Orient_pos_exact.
  destruct (Exact.Qltb (triple t) 0) eqn:E.
  - apply Qltb_true in E. rewrite triple_swap01. lra.
  - apply Qltb_false in E.
    destruct (Qlt_le_dec 0 (triple t)) as [Hlt | Hle]; [assumption | ].
    exfalso. apply Hnz. apply Qle_antisym; assumption.
Qed.

Lemma Orient_neg_triple (t : @LosGeom.Tetra Q) :
  ~ (triple t == 0)%Q -> (triple (LosGeom.Orient (FO := Exact.ops) t (-1)) < 0)%Q.
Proof.
  intros Hnz. rewrite Orient_neg_exact.
  destruct (Exact.Qltb 0 (triple t)) eqn:E.
  - apply Qltb_true in E. rewrite triple_swap01. lra.
  - apply Qltb_false in E.
    destruct (Qlt_le_dec (triple t) 0) as [Hlt | Hle]; [assumption | ].
    exfalso. apply Hnz. apply Qle_antisym; assumption.
Qed.

(** On a positively oriented tetrahedron: exchanging the first two vertices
    and orienting again, or orienting to -1 and then to +1, gives it back. *)
Lemma Orient_restores_positive (t : @LosGeom.Tetra Q) :
  (0 < triple t)%Q ->
  LosGeom.Orient (FO := Exact.ops) (swap01 t) 1 = t /\
  LosGeom.Orient (FO := Exact.ops) (LosGeom.Orient (FO := Exact.ops) t (-1)) 1 = t.
Proof.
  intros Hpos.
  assert (Hswap : LosGeom.Orient (FO := Exact.ops) (swap01 t) 1 = t).
  { rewrite Orient_pos_exact.
    assert (H : Exact.Qltb (triple (swap01 t)) 0 = true).
    { apply Qltb_true. rewrite triple_swap01. lra. }
    rewrite H. apply swap01_involutive. }
  split; [exact Hswap | ].
  rewrite Orient_neg_exact.
  assert (H : Exact.Qltb 0 (triple t) = true) by (apply Qltb_true; exact Hpos).
  rewrite H. exact Hswap.
Qed.

(** C6, without rounding: for a tetrahedron whose triple product is not
    zero, Orient(+1) and Orient(-1) change at most the order of the first
    two vertices and leave the triple product positive, respectively
    negative; after Orient(+1), exchanging the first two vertices and
    calling Orient(+1) again restores the vertex order, and so does
    Orient(-1) followed by Orient(+1).  The sequence Orient(+1);
    Orient(-1); Orient(+1) therefore ends in the order that Orient(+1)
    alone gives, which is the order it started from exactly when the
    tetrahedron was positively oriented. *)
Theorem Orient_sign_and_round_trip (t : @LosGeom.Tetra Q) :
  ~ (triple t == 0)%Q ->
  (LosGeom.Orient (FO := Exact.ops) t 1 = t \/
   LosGeom.Orient (FO := Exact.ops) t 1 = swap01 t) /\
  (LosGeom.Orient (FO := Exact.ops) t (-1) = t \/
   LosGeom.Orient (FO := Exact.ops) t (-1) = swap01 t) /\
  (0 < triple (LosGeom.Orient (FO := Exact.ops) t 1))%Q /\
  (triple (LosGeom.Orient (FO := Exact.ops) t (-1)) < 0)%Q /\
  LosGeom.Orient (FO := Exact.ops)
    (swap01 (LosGeom.Orient (FO := Exact.ops) t 1)) 1 =
    LosGeom.Orient (FO := Exact.ops) t 1 /\
  LosGeom.Orient (FO := Exact.ops)
    (LosGeom.Orient (FO := Exact.ops)
       (LosGeom.Orient (FO := Exact.ops) t 1) (-1)) 1 =
    LosGeom.Orient (FO := Exact.ops) t 1 /\
  ((0 < triple t)%Q -> LosGeom.Orient (FO := Exact.ops) t 1 = t) /\
  ((triple t < 0)%Q -> LosGeom.Orient (FO := Exact.ops) t 1 = swap01 t).
Proof.
  intros Hnz.
  pose proof (Orient_pos_triple t Hnz) as Hpos.
  destruct (Orient_restores_positive _ Hpos) as [Hswap Hseq].
  repeat split.
  - apply Orient_cases.
  - apply Orient_cases.
  - exact Hpos.
  - apply Orient_neg_triple; exact Hnz.
  - exact Hswap.
  - exact Hseq.
  - intros H. rewrite Orient_pos_exact.
    assert (E : Exact.Qltb (triple t) 0 = false) by (apply Qltb_false; lra).
    rewrite E. reflexivity.
  - intros H. rewrite Orient_pos_exact.
    assert (E : Exact.Qltb (triple t) 0 = true) by (apply Qltb_true; exact H).
    rewrite E. reflexivity.
Qed.

(** The unit corner tetrahedron with its first two vertices exchanged: its
    triple product is -1. *)
Definition corner_tetra_neg : @LosGeom.Tetra Q :=
  ((1, 0, 0), (0, 0, 0), (0, 1, 0), (0, 0, 1))%Q.

Lemma Orient_sign_and_round_trip_witness :
  ~ (triple corner_tetra_neg == 0)%Q /\
  (0 < triple (LosGeom.Orient (FO := Exact.ops) corner_tetra_neg 1))%Q /\
  LosGeom.Orient (FO := Exact.ops)
    (LosGeom.Orient (FO := Exact.ops)
       (LosGeom.Orient (FO := Exact.ops) corner_tetra_neg 1) (-1)) 1 =
    LosGeom.Orient (FO := Exact.ops) corner_tetra_neg 1.
Proof.
  assert (Hnz : ~ (triple corner_tetra_neg == 0)%Q)
    by (vm_compute; discriminate).
  split; [exact Hnz | ].
  destruct (Orient_sign_and_round_trip corner_tetra_neg Hnz)
    as (_ & _ & Hpos & _ & _ & Hseq & _).
  split; [exact Hpos | exact Hseq].
Defined.

(** The same tetrahedron in float32 coordinates (all values and all
    intermediate results are exact). *)
Definition corner_tetra_neg32 : @LosGeom.Tetra float :=
  ((1, 0, 0), (0, 0, 0), (0, 1, 0), (0, 0, 1))%float.

(** Orient(+1); Orient(-1); Orient(+1) does not return this tetrahedron in
    its vertex order: the first two vertices come out exchanged. *)
Lemma Orient_sequence_not_identity :
  LosGeom.orient_dot corner_tetra_neg32 = 1%float /\
  LosGeom.Orient (LosGeom.Orient (LosGeom.Orient corner_tetra_neg32 1) (-1)) 1
    = ((0, 0, 0), (1, 0, 0), (0, 1, 0), (0, 0, 1))%float /\
  LosGeom.Orient (LosGeom.Orient (LosGeom.Orient corner_tetra_neg32 1) (-1)) 1
    <> corner_tetra_neg32.
Proof.
  split; [vm_compute; reflexivity | ].
  split; [vm_compute; reflexivity | ].
  intros H.
  apply (f_equal (fun t : @LosGeom.Tetra float =>
                    PrimFloat.eqb (fst (fst (fst (fst (fst t))))) 1%float)) in H.
  vm_compute in H. discriminate H.
Qed.

(** ** Deposition: what a call may write *)

Section FrameFacts.

Import RenderGeom Density.

Context {F : Type} {FO : FloatOps F}.

Local Abbreviation Grid := (@Density.Grid F).
Local Abbreviation Heap := (@Density.Heap F).
Local Abbreviation State := (@Density.State F).
Local Abbreviation M := (@Density.M F).
Local Abbreviation Vec := (@Density.Vec F).
Local Abbreviation Diag := (@Density.Diag F).

(** Element [i] of the array [r] of the store. *)
Definition cell_val (h : Heap) (r i : nat) : option F :=
  match nth_error h r with
  | Some a => nth_error a i
  | None => None
  end.

(** The lengths of the arrays of the store. *)
Definition shape (h : Heap) : list nat := map (@length F) h.

(** A write made on behalf of a cell inside the window of one of [gs],
    into that grid's array, at the index of that cell. *)
Definition write_ok (gs : list Grid) (w : WriteEv) : Prop :=
  exists g, In g gs /\ wArray w = Rhos g /\
    let '(i, j, k) := wCell w in
    BoundsCheck (G g) i j k = true /\ wIdx w = Idx (G g) i j k.

Definition touched (ws : list WriteEv) (r i : nat) : Prop :=
  exists w, In w ws /\ wArray w = r /\ wIdx w = Z.of_nat i.

(** [st'] comes from [st] by writes that are all made for cells inside the
    windows of [gs]; every array element that no such write names is as it
    was, and no array changed its length. *)
Definition frame_step (gs : list Grid) (st st' : State) : Prop :=
  exists ws,
    writes st' = writes st ++ ws /\
    Forall (write_ok gs) ws /\
    (forall r i, ~ touched ws r i ->
                 cell_val (heap st') r i = cell_val (heap st) r i) /\
    shape (heap st') = shape (heap st).

Definition frames (gs : list Grid) (m : M) : Prop :=
  forall st st', m st = Some st' -> frame_step gs st st'.

Definition framesB {B : Type} (gs : list Grid)
    (m : State -> option (B * State)) : Prop :=
  forall st b st', m st = Some (b, st') -> frame_step gs st st'.

Lemma frame_step_refl (gs : list Grid) (st : State) : frame_step gs st st.
Proof.
  exists []. rewrite app_nil_r. repeat split; auto.
Qed.

Lemma frame_step_diag (gs : list Grid) (st : State) (d : Diag) :
  frame_step gs st
    {| heap := heap st; writes := writes st; diags := diags st ++ [d] |}.
Proof.
  exists []. simpl. rewrite app_nil_r. repeat split; auto.
Qed.

Lemma frame_step_trans (gs : list Grid) (st1 st2 st3 : State) :
  frame_step gs st1 st2 -> frame_step gs st2 st3 -> frame_step gs st1 st3.
Proof.
  intros (ws1 & Hw1 & Hok1 & Hv1 & Hs1) (ws2 & Hw2 & Hok2 & Hv2 & Hs2).
  exists (ws1 ++ ws2). repeat split.
  - rewrite Hw2, Hw1, app_assoc. reflexivity.
  - apply Forall_app; split; assumption.
  - intros r i Hnt. rewrite Hv2, Hv1; [reflexivity | | ].
    + intros (w & Hin & Hr & Hi). apply Hnt. exists w.
      split; [apply in_or_app; left; assumption | auto].
    + intros (w & Hin & Hr & Hi). apply Hnt. exists w.
      split; [apply in_or_app; right; assumption | auto].
  - congruence.
Qed.

Lemma frame_step_mono (gs gs' : list Grid) (st st' : State) :
  incl gs gs' -> frame_step gs st st' -> frame_step gs' st st'.
Proof.
  intros Hincl (ws & Hw & Hok & Hv & Hs).
  exists ws. repeat split; auto.
  eapply Forall_impl; [ | exact Hok].
  intros w (g & Hin & Hrest). exists g. split; [apply Hincl | ]; assumption.
Qed.

Lemma frames_forM {A : Type} (gs : list Grid) (l : list A) (body : A -> M) :
  (forall x, In x l -> frames gs (body x)) -> frames gs (forM l body).
Proof.
  induction l as [ | x l IH]; intros Hbody st st' Hrun; simpl in Hrun.
  - injection Hrun as <-. apply frame_step_refl.
  - destruct (body x st) as [st1 | ] eqn:E; [ | discriminate].
    eapply frame_step_trans.
    + eapply Hbody; [left; reflexivity | exact E].
    + eapply IH; [ | exact Hrun].
      intros y Hy. apply Hbody. right; assumption.
Qed.

Lemma framesB_foldM {A B : Type} (gs : list Grid) (l : list A)
    (body : A -> B -> State -> option (B * State)) (b : B) :
  (forall x b', In x l -> framesB gs (body x b')) ->
  framesB gs (foldM l body b).
Proof.
  revert b. induction l as [ | x l IH]; intros b Hbody st b1 st' Hrun;
    simpl in Hrun.
  - injection Hrun as <- <-. apply frame_step_refl.
  - destruct (body x b st) as [[b2 st2] | ] eqn:E; [ | discriminate].
    eapply frame_step_trans.
    + eapply Hbody; [left; reflexivity | exact E].
    + eapply IH; [ | exact Hrun].
      intros y b' Hy. apply Hbody. right; assumption.
Qed.

Lemma shape_list_set (h : Heap) (r : nat) (a a' : list F) :
  nth_error h r = Some a -> length a' = length a ->
  shape (list_set r a' h) = shape h.
Proof.
  unfold shape. revert r.
  induction h as [ | a0 h IH]; intros [ | r] E Hl; simpl in *;
    try discriminate; auto.
  - injection E as ->. rewrite Hl. reflexivity.
  - f_equal. apply IH; assumption.
Qed.

(** The one statement that writes: allowed when it is made for a cell of
    the window, at that cell's index. *)
Lemma rhos_add_frames (gs : list Grid) (g : Grid) (i j k : Z) (frac : F) :
  In g gs -> BoundsCheck (G g) i j k = true ->
  frames gs (rhos_add (Rhos g) (i, j, k) (Idx (G g) i j k) frac).
Proof.
  intros Hin Hb st st' Hrun. unfold rhos_add in Hrun.
  destruct (nth_error (heap st) (Rhos g)) as [a | ] eqn:Ea; [ | discriminate].
  destruct (_ && _) eqn:Hrange; [ | discriminate].
  destruct (nth_error a _) as [old | ] eqn:Eold; [ | discriminate].
  injection Hrun as <-.
  exists [{| wArray := Rhos g; wCell := (i, j, k); wIdx := Idx (G g) i j k |}].
  simpl. repeat split.
  - constructor; [ | constructor]. exists g. simpl. auto.
  - intros r n Hnt. unfold cell_val.
    destruct (Nat.eq_dec (Rhos g) r) as [<- | Hne].
    + rewrite list_set_nth_eq, Ea
        by (apply nth_error_Some; congruence).
      apply list_set_nth_neq. intros <-.
      apply Hnt. eexists. split; [left; reflexivity | ]. simpl.
      split; [reflexivity | ].
      apply andb_prop in Hrange. destruct Hrange as [H0 _].
      apply Z.leb_le in H0. lia.
    + rewrite list_set_nth_neq by assumption. reflexivity.
  - apply shape_list_set with (a := a); [assumption | ].
    apply list_set_length.
Qed.

Lemma incr_frames (gs : list Grid) (g : Grid) (i j k : Z) (frac : F) :
  In g gs -> frames gs (incr g i j k frac).
Proof.
  intros Hin st st' Hrun. unfold incr, IdxCheck in Hrun.
  destruct (BoundsCheck (G g) i j k) eqn:Hb.
  - eapply rhos_add_frames; eassumption.
  - injection Hrun as <-. apply frame_step_refl.
Qed.

Lemma ngp_frames (gs : list Grid) (mass : F) (ids : list Z) (xs : list Vec) :
  frames gs (ngp_Interpolate gs mass ids xs).
Proof.
  intros st st' Hrun. unfold ngp_Interpolate in Hrun.
  destruct gs as [ | g0 gs0] eqn:Egs; [discriminate | ]. rewrite <- Egs in *.
  revert Hrun. apply frames_forM. intros [[xp yp] zp] _.
  destruct (cellPoints xp yp zp (CellWidth g0)) as [[xc yc] zc].
  apply frames_forM. intros g Hg s s' Hs. unfold IdxCheck in Hs.
  destruct (BoundsCheck (G g) _ _ _) eqn:Hb.
  - eapply rhos_add_frames; eassumption.
  - injection Hs as <-. apply frame_step_refl.
Qed.

Lemma cic_frames (gs : list Grid) (mass : F) (ids : list Z) (xs : list Vec) :
  frames gs (cic_Interpolate gs mass ids xs).
Proof.
  intros st st' Hrun. unfold cic_Interpolate in Hrun.
  destruct gs as [ | g0 gs0] eqn:Egs; [discriminate | ]. rewrite <- Egs in *.
  revert Hrun. apply frames_forM. intros pt _.
  apply frames_forM. intros g Hg.
  apply frames_forM. intros [[[i j] k] over] _.
  apply incr_frames. assumption.
Qed.

End FrameFacts.

Lemma wrap_int_id (z : Z) : in_int z -> wrap_int z = z.
Proof.
  unfold in_int, int_min, int_max, wrap_int. intros H.
  rewrite Z.mod_small; lia.
Qed.

Section TetraFrameFacts.

Import RenderGeom Density.

Context {F : Type} {FO : FloatOps F}.

Local Abbreviation Grid := (@Density.Grid F).
Local Abbreviation State := (@Density.State F).
Local Abbreviation Vec := (@Density.Vec F).

Variable Tetra : Type.
Variable Tetra_Init : Vec -> Vec -> Vec -> Vec -> F -> Tetra.
Variable CellBoundsAt : Tetra -> F -> CellBounds.
Variable Volume : Tetra -> F.
Variable Contains : Tetra -> Vec -> bool.
Variable MinMaxLeg : Tetra -> F * F.
Variable Distribute : Tetra -> list F -> list F -> list F -> list Vec.
Variable Gen : Type.
Variable RandomSample : Tetra -> Gen -> nat -> Gen * list Vec.
Variable TetraIdxs_Init : Z -> Z -> Z -> Z -> Z * Z * Z * Z.
Variable Intersect : RenderGeom.Grid -> CellBounds -> RenderGeom.Grid -> bool.

(** The window of the grid lies inside its bounding grid, whose width is an
    [int]: what Grid.Init sets up for a cell position inside the bounding
    grid. *)
Definition window_in_bg (g : Grid) : Prop :=
  let '(ox, oy, oz) := Origin (G g) in
  0 <= Width (G g) /\
  0 <= ox /\ ox + Width (G g) <= Width (BG g) /\
  0 <= oy /\ oy + Width (G g) <= Width (BG g) /\
  0 <= oz /\ oz + Width (G g) <= Width (BG g) /\
  Width (BG g) <= int_max.

Lemma in_loop_cells (x y z minX maxX minY maxY minZ maxZ : Z) :
  In (x, y, z) (loop_cells minX maxX minY maxY minZ maxZ) <->
  minX <= x <= maxX /\ minY <= y <= maxY /\ minZ <= z <= maxZ.
Proof.
  unfold loop_cells. rewrite in_flat_map. split.
  - intros (z' & Hz & H). apply in_flat_map in H.
    destruct H as (y' & Hy & H). apply in_map_iff in H.
    destruct H as (x' & E & Hx). injection E as -> -> ->.
    apply in_zrange in Hx, Hy, Hz. auto.
  - intros (Hx & Hy & Hz). exists z. split; [apply in_zrange; assumption | ].
    apply in_flat_map. exists y. split; [apply in_zrange; assumption | ].
    apply in_map_iff. exists x. split; [reflexivity | ].
    apply in_zrange; assumption.
Qed.

Lemma clamp_in_window (c cmin cmax o w bw : Z) :
  0 <= w -> 0 <= o -> o + w <= bw -> bw <= int_max ->
  maxInt cmin o <= c <= minInt cmax (int_sub (int_add o w) 1) ->
  c mod bw = c /\ o <= c < o + w.
Proof.
  intros Hw Ho Hbw Hmax Hc.
  assert (E : int_sub (int_add o w) 1 = o + w - 1).
  { unfold int_sub, int_add.
    rewrite (wrap_int_id (o + w)) by (unfold in_int, int_min, int_max in *; lia).
    apply wrap_int_id. unfold in_int, int_min, int_max in *. lia. }
  rewrite E in Hc. unfold maxInt, minInt in Hc.
  destruct (o <? cmin) eqn:E1; destruct (cmax <? o + w - 1) eqn:E2;
    rewrite ?Z.ltb_lt, ?Z.ltb_ge in *;
    (split; [apply Z.mod_small | ]; lia).
Qed.

(** The loops of intrTetra only reach cells of the window: the writes it
    makes through Idx are writes for cells of the window. *)
Lemma intrTetra_frames (gs : list Grid) (tet : Tetra) (mass : F) (g : Grid)
    (cb : CellBounds) :
  In g gs -> window_in_bg g ->
  framesB gs (intrTetra Tetra Volume Contains tet mass g cb).
Proof.
  intros Hin Hwin. unfold intrTetra, window_in_bg in *.
  destruct (Min cb) as [[cminX cminY] cminZ].
  destruct (Max cb) as [[cmaxX cmaxY] cmaxZ].
  destruct (Origin (G g)) as [[ox oy] oz] eqn:Eo.
  destruct Hwin as (Hw & Hox & Hbx & Hoy & Hby & Hoz & Hbz & Hmax).
  apply framesB_foldM. intros [[x y] z] [misses hits] Hc st b st' Hrun.
  apply in_loop_cells in Hc. destruct Hc as (Hx & Hy & Hz).
  destruct (clamp_in_window x cminX cmaxX ox _ _ Hw Hox Hbx Hmax Hx) as [Ex Rx].
  destruct (clamp_in_window y cminY cmaxY oy _ _ Hw Hoy Hby Hmax Hy) as [Ey Ry].
  destruct (clamp_in_window z cminZ cmaxZ oz _ _ Hw Hoz Hbz Hmax Hz) as [Ez Rz].
  unfold Wrap in Hrun. rewrite Ex, Ey, Ez in Hrun.
  destruct (Contains tet _).
  - destruct (rhos_add _ _ _ _ st) as [st'' | ] eqn:E; [ | discriminate].
    injection Hrun as _ <-.
    eapply rhos_add_frames; [exact Hin | | exact E].
    unfold BoundsCheck. rewrite Eo.
    repeat (apply andb_true_intro; split);
      (apply Z.leb_le || apply Z.ltb_lt); lia.
  - injection Hrun as _ <-. apply frame_step_refl.
Qed.

Lemma framesB_foldM_inv {A B : Type} (P : B -> Prop) (gs : list Grid)
    (l : list A) (body : A -> B -> State -> option (B * State)) :
  (forall x b st b' st', In x l -> P b -> body x b st = Some (b', st') ->
                         frame_step gs st st' /\ P b') ->
  forall b st b' st', P b -> foldM l body b st = Some (b', st') ->
                      frame_step gs st st' /\ P b'.
Proof.
  induction l as [ | x l IH]; intros Hbody b st b1 st' Hb Hrun; simpl in Hrun.
  - injection Hrun as <- <-. split; [apply frame_step_refl | assumption].
  - destruct (body x b st) as [[b2 st2] | ] eqn:E; [ | discriminate].
    destruct (Hbody x b st b2 st2 (or_introl eq_refl) Hb E) as [H1 Hb2].
    destruct (IH (fun y c s c' s' Hy => Hbody y c s c' s' (or_intror Hy))
                 b2 st2 b1 st' Hb2 Hrun) as [H2 Hb1].
    split; [eapply frame_step_trans; eassumption | assumption].
Qed.

(** The slice handed to the sub-interpolator holds the grids that passed
    the Intersect test, in the order of [gs]. *)
Lemma intersecting_filter (cb : CellBounds) (gs : list Grid) :
  intersecting Intersect cb gs =
  filter (fun g => Intersect (G g) cb (BG g)) gs.
Proof.
  unfold intersecting.
  assert (H : forall acc,
             fold_left (fun acc g =>
                          if Intersect (G g) cb (BG g) then acc ++ [g] else acc)
                       gs acc =
             acc ++ filter (fun g => Intersect (G g) cb (BG g)) gs).
  { induction gs as [ | g gs IH]; intros acc; simpl.
    - rewrite app_nil_r. reflexivity.
    - destruct (Intersect (G g) cb (BG g)); rewrite IH.
      + rewrite <- app_assoc. reflexivity.
      + reflexivity. }
  apply (H []).
Qed.

Lemma intersecting_incl (cb : CellBounds) (gs : list Grid) :
  incl (intersecting Intersect cb gs) gs.
Proof.
  rewrite intersecting_filter. intros g Hg.
  apply filter_In in Hg. apply Hg.
Qed.

(** A sub-interpolator that only writes for cells of the windows of the
    grids it is given. *)
Definition sub_frames (sub : @Interpolator F) : Prop :=
  forall gs mass ids xs, frames gs (sub gs mass ids xs).

Lemma cellCenter_step_frames (intr : cellCenter) (gs : list Grid) (mass : F)
    (id dir : Z) :
  (forall g, In g gs -> window_in_bg g) ->
  frames gs (cellCenter_step Tetra Tetra_Init CellBoundsAt Volume Contains
               TetraIdxs_Init Intersect intr gs mass id dir).
Proof.
  intros Hwin st st' Hrun. unfold cellCenter_step in Hrun.
  destruct (TetraIdxs_Init id (cc_countWidth intr) 1 dir) as [[[a0 a1] a2] a3].
  destruct (cc_man intr a0) as [p0 | ];
    [ | injection Hrun as <-; apply frame_step_diag].
  destruct (cc_man intr a1) as [p1 | ];
    [ | injection Hrun as <-; apply frame_step_diag].
  destruct (cc_man intr a2) as [p2 | ];
    [ | injection Hrun as <-; apply frame_step_diag].
  destruct (cc_man intr a3) as [p3 | ];
    [ | injection Hrun as <-; apply frame_step_diag].
  destruct gs as [ | g0 gs0] eqn:Egs; [discriminate | ]. rewrite <- Egs in *.
  revert Hrun. apply frames_forM. intros g Hg s s' Hs.
  destruct (Intersect (G g) _ (BG g)).
  - destruct (intrTetra _ _ _ _ _ g _ s) as [[mh s''] | ] eqn:E;
      [ | discriminate].
    injection Hs as <-.
    eapply intrTetra_frames; [exact Hg | apply Hwin; exact Hg | exact E].
  - injection Hs as <-. apply frame_step_refl.
Qed.

Lemma mcarlo_step_frames (gs : list Grid) (mass : F) (id dir : Z)
    (intr intr' : mcarlo Tetra Gen) (st st' : State) :
  sub_frames (mc_subIntr _ _ intr) ->
  mcarlo_step Tetra Tetra_Init CellBoundsAt MinMaxLeg Gen RandomSample
    TetraIdxs_Init Intersect gs mass id dir intr st = Some (intr', st') ->
  frame_step gs st st' /\ sub_frames (mc_subIntr _ _ intr').
Proof.
  intros Hsub Hrun. unfold mcarlo_step in Hrun.
  destruct (TetraIdxs_Init id (mc_countWidth _ _ intr) 1 dir)
    as [[[a0 a1] a2] a3].
  destruct (mc_man _ _ intr a0) as [p0 | ];
    [ | injection Hrun as <- <-; split; [apply frame_step_diag | exact Hsub]].
  destruct (mc_man _ _ intr a1) as [p1 | ];
    [ | injection Hrun as <- <-; split; [apply frame_step_diag | exact Hsub]].
  destruct (mc_man _ _ intr a2) as [p2 | ];
    [ | injection Hrun as <- <-; split; [apply frame_step_diag | exact Hsub]].
  destruct (mc_man _ _ intr a3) as [p3 | ];
    [ | injection Hrun as <- <-; split; [apply frame_step_diag | exact Hsub]].
  destruct gs as [ | g0 gs0] eqn:Egs; [discriminate | ]. rewrite <- Egs in *.
  cbv zeta in Hrun.
  destruct (_ =? 0) in Hrun.
  - injection Hrun as <- <-. split; [apply frame_step_refl | exact Hsub].
  - destruct (_ && _) in Hrun; [ | discriminate].
    destruct (RandomSample _ _ _) as [gen' vs] in Hrun.
    destruct (mc_subIntr _ _ intr _ _ _ _ st) as [st1 | ] eqn:E;
      [ | discriminate].
    injection Hrun as <- <-. split; [ | exact Hsub].
    eapply frame_step_mono; [apply intersecting_incl | ].
    eapply Hsub. exact E.
Qed.

Lemma sobol_step_frames (gs : list Grid) (ptMass : F) (id dir : Z)
    (intr intr' : sobol) (st st' : State) :
  sub_frames (sb_subIntr intr) ->
  sobol_step Tetra Tetra_Init CellBoundsAt Distribute TetraIdxs_Init Intersect
    gs ptMass id dir intr st = Some (intr', st') ->
  frame_step gs st st' /\ sub_frames (sb_subIntr intr').
Proof.
  intros Hsub Hrun. unfold sobol_step in Hrun.
  destruct (TetraIdxs_Init id (sb_countWidth intr) 1 dir)
    as [[[a0 a1] a2] a3].
  destruct (sb_man intr a0) as [p0 | ];
    [ | injection Hrun as <- <-; split; [apply frame_step_diag | exact Hsub]].
  destruct (sb_man intr a1) as [p1 | ];
    [ | injection Hrun as <- <-; split; [apply frame_step_diag | exact Hsub]].
  destruct (sb_man intr a2) as [p2 | ];
    [ | injection Hrun as <- <-; split; [apply frame_step_diag | exact Hsub]].
  destruct (sb_man intr a3) as [p3 | ];
    [ | injection Hrun as <- <-; split; [apply frame_step_diag | exact Hsub]].
  destruct gs as [ | g0 gs0] eqn:Egs; [discriminate | ]. rewrite <- Egs in *.
  cbv zeta in Hrun.
  destruct (sb_subIntr intr _ _ _ _ st) as [st1 | ] eqn:E; [ | discriminate].
  injection Hrun as <- <-. split; [ | exact Hsub].
  eapply frame_step_mono; [apply intersecting_incl | ].
  eapply Hsub. exact E.
Qed.

(** C2: every write of an Interpolate call, whatever the strategy, is made
    for a cell inside the window of one of the target grids, into that
    grid's array and at that cell's index; every other array element keeps
    its value.  A deposit addressed to a cell for which IdxCheck fails is
    dropped: [incr] returns the state as it was.  For CellCenter this rests
    on the clamping of the loops of intrTetra to the window, which lies
    inside the bounding grid. *)
Theorem deposition_writes_inside_windows
    (gs : list Grid) (mass : F) (ids : list Z) (xs : list Vec)
    (cc : cellCenter) (mc : mcarlo Tetra Gen) (sb : sobol) (st : State) :
  (forall g, In g gs -> window_in_bg g) ->
  mc_subIntr _ _ mc = ngp_Interpolate ->
  sb_subIntr sb = ngp_Interpolate ->
  (forall g i j k frac,
      snd (IdxCheck (G g) i j k) = false -> incr g i j k frac st = Some st) /\
  (forall st', ngp_Interpolate gs mass ids xs st = Some st' ->
               frame_step gs st st') /\
  (forall st', cic_Interpolate gs mass ids xs st = Some st' ->
               frame_step gs st st') /\
  (forall st',
      cellCenter_Interpolate Tetra Tetra_Init CellBoundsAt Volume Contains
        TetraIdxs_Init Intersect cc gs mass ids xs st = Some st' ->
      frame_step gs st st') /\
  (forall mc' st',
      mcarlo_Interpolate Tetra Tetra_Init CellBoundsAt MinMaxLeg Gen
        RandomSample TetraIdxs_Init Intersect mc gs mass ids xs st
        = Some (mc', st') ->
      frame_step gs st st') /\
  (forall sb' st',
      sobol_Interpolate Tetra Tetra_Init CellBoundsAt Distribute
        TetraIdxs_Init Intersect sb gs mass ids xs st = Some (sb', st') ->
      frame_step gs st st').
Proof.
  intros Hwin Hmc Hsb.
  assert (Hngp : sub_frames ngp_Interpolate)
    by (intros gs' m' ids' xs'; apply ngp_frames).
  repeat split.
  - intros g i j k frac Hout. unfold incr.
    destruct (IdxCheck (G g) i j k) as [idx ok]. simpl in Hout.
    subst ok. reflexivity.
  - intros st'. apply ngp_frames.
  - intros st'. apply cic_frames.
  - intros st'. unfold cellCenter_Interpolate.
    apply frames_forM. intros id _. apply frames_forM. intros dir _.
    apply cellCenter_step_frames. exact Hwin.
  - intros mc' st' Hrun. unfold mcarlo_Interpolate in Hrun.
    refine (proj1 (framesB_foldM_inv
                     (fun m => sub_frames (mc_subIntr _ _ m)) gs ids _ _
                     mc st mc' st' _ Hrun)).
    + intros id b s b' s' _ Hb Hs.
      refine (framesB_foldM_inv
                (fun m => sub_frames (mc_subIntr _ _ m)) gs dirs _ _
                b s b' s' Hb Hs).
      intros dir c t c' t' _ Hc Ht.
      eapply mcarlo_step_frames; eassumption.
    + rewrite Hmc. exact Hngp.
  - intros sb' st' Hrun. unfold sobol_Interpolate in Hrun.
    refine (proj1 (framesB_foldM_inv
                     (fun m => sub_frames (sb_subIntr m)) gs ids _ _
                     sb st sb' st' _ Hrun)).
    + intros id b s b' s' _ Hb Hs.
      refine (framesB_foldM_inv
                (fun m => sub_frames (sb_subIntr m)) gs dirs _ _
                b s b' s' Hb Hs).
      intros dir c t c' t' _ Hc Ht.
      eapply sobol_step_frames; eassumption.
    + rewrite Hsb. exact Hngp.
Qed.

End TetraFrameFacts.

(** ** Concrete scenes, in IEEE binary64 *)

(** A stand-in for package geom in the examples: every tetrahedron is the
    whole 4x4x4 box, of volume 1 and edge length 1, and random sampling
    returns the point (0.375, 0.375, 0.375) each time. *)
Module Toy.

Definition Tetra : Type := unit.
Definition Gen : Type := unit.
Definition Tetra_Init (p0 p1 p2 p3 : @Density.Vec float) (w : float) : Tetra :=
  tt.
Definition CellBoundsAt (t : Tetra) (cw : float) : RenderGeom.CellBounds :=
  {| RenderGeom.Min := (0, 0, 0); RenderGeom.Max := (3, 3, 3) |}.
Definition Volume (t : Tetra) : float := 1%float.
Definition Contains (t : Tetra) (v : @Density.Vec float) : bool := true.
Definition MinMaxLeg (t : Tetra) : float * float := (1, 1)%float.
Definition Distribute (t : Tetra) (xs ys zs : list float) :
    list (@Density.Vec float) :=
  map (fun x => (x, x, x)) xs.
Definition RandomSample (t : Tetra) (g : Gen) (n : nat) :
    Gen * list (@Density.Vec float) :=
  (g, repeat (0.375, 0.375, 0.375)%float n).
Definition TetraIdxs_Init (id countWidth skip dir : Z) : Z * Z * Z * Z :=
  (id, id + 1, id + 2, id + 3).
Definition Intersect (g : RenderGeom.Grid) (cb : RenderGeom.CellBounds)
    (bg : RenderGeom.Grid) : bool := true.

(** A particle manager that holds the particles 0..9, all at the origin. *)
Definition man : @Density.ParticleManager float :=
  fun id => if (0 <=? id) && (id <? 10) then Some (0, 0, 0)%float else None.

End Toy.

(** Scenario A: a bounding grid of width 4, one target grid covering it,
    box width 1, all densities zero. *)
Definition zeros (n : nat) : list float := repeat 0%float n.

Definition grid4_heap : @Density.Heap float := [zeros 64].

Definition grid4 : @Density.Grid float :=
  {| Density.Rhos := 0;
     Density.BoxWidth := 1%float;
     Density.CellWidth := 0.25%float;
     Density.CellVolume := 0.015625%float;
     Density.G := {| RenderGeom.Origin := (0, 0, 0); RenderGeom.Width := 4;
                     RenderGeom.Volume := 64 |};
     Density.BG := {| RenderGeom.Origin := (0, 0, 0); RenderGeom.Width := 4;
                      RenderGeom.Volume := 64 |} |}.

Definition grid4_state : @Density.State float :=
  {| Density.heap := grid4_heap; Density.writes := []; Density.diags := [] |}.

Example grid4_is_NewGrid :
  Density.Grid_Init grid4_heap 1%float 1 0
    {| Density.cWidth := 4; Density.cX := 0; Density.cY := 0;
       Density.cZ := 0 |} = Some grid4.
Proof. vm_compute. reflexivity. Qed.

Definition toy_cellCenter : Density.cellCenter :=
  {| Density.cc_man := Toy.man; Density.cc_countWidth := 4 |}.

Definition toy_mcarlo (flag : Density.PointSelectorFlag) :
    Density.mcarlo Toy.Tetra Toy.Gen :=
  {| Density.mc_subIntr := Density.ngp_Interpolate;
     Density.mc_man := Toy.man;
     Density.mc_countWidth := 4;
     Density.mc_steps := 2;
     Density.mc_gen := tt;
     Density.mc_pointSelect := flag;
     Density.mc_tet := tt;
     Density.mc_randBuf := zeros 6;
     Density.mc_vecBuf := repeat (0, 0, 0)%float 2 |}.

Example toy_mcarlo_is_MonteCarlo (flag : Density.PointSelectorFlag) :
  Density.MonteCarlo Toy.Tetra tt Toy.Gen Toy.man 4 tt 2 flag
    = Some (toy_mcarlo flag).
Proof. destruct flag; reflexivity. Qed.

Definition toy_sobol : @Density.sobol float :=
  {| Density.sb_subIntr := Density.ngp_Interpolate;
     Density.sb_man := Toy.man;
     Density.sb_countWidth := 4;
     Density.sb_xs := [0.5; 0.25]%float;
     Density.sb_ys := [0.5; 0.75]%float;
     Density.sb_zs := [0.5; 0.375]%float;
     Density.sb_vecBuf := repeat (0, 0, 0)%float 2 |}.

Lemma grid4_window_in_bg (g : @Density.Grid float) :
  In g [grid4] -> window_in_bg g.
Proof.
  intros [<- | []]. unfold window_in_bg, int_max. simpl. lia.
Qed.

Lemma deposition_writes_inside_windows_witness :
  (forall g, In g [grid4] -> window_in_bg g) /\
  (forall st',
      Density.cellCenter_Interpolate Toy.Tetra Toy.Tetra_Init Toy.CellBoundsAt
        Toy.Volume Toy.Contains Toy.TetraIdxs_Init Toy.Intersect
        toy_cellCenter [grid4] 6%float [0] [] grid4_state = Some st' ->
      frame_step [grid4] grid4_state st').
Proof.
  split; [exact grid4_window_in_bg | ].
  destruct (deposition_writes_inside_windows Toy.Tetra Toy.Tetra_Init
              Toy.CellBoundsAt Toy.Volume Toy.Contains Toy.MinMaxLeg
              Toy.Distribute Toy.Gen Toy.RandomSample Toy.TetraIdxs_Init
              Toy.Intersect [grid4] 6%float [0] [] toy_cellCenter
              (toy_mcarlo Density.Flat) toy_sobol grid4_state
              grid4_window_in_bg eq_refl eq_refl)
    as (_ & _ & _ & Hcc & _).
  exact Hcc.
Defined.

(** ** Deposition: what a call does write *)

Section DepositFacts.

Import RenderGeom Density.

Context {F : Type} {FO : FloatOps F}.

Local Abbreviation Grid := (@Density.Grid F).
Local Abbreviation Heap := (@Density.Heap F).
Local Abbreviation State := (@Density.State F).
Local Abbreviation Vec := (@Density.Vec F).

(** The grid's Rhos names an array of the store with one element per cell
    of its window (what Grid.Init checks). *)
Definition grid_ok (h : Heap) (g : Grid) : Prop :=
  exists a, nth_error h (Rhos g) = Some a /\
            Z.of_nat (length a) = Width (G g) * Width (G g) * Width (G g).

Lemma Idx_in_range (g : RenderGeom.Grid) (i j k : Z) :
  BoundsCheck g i j k = true ->
  0 <= Idx g i j k < Width g * Width g * Width g.
Proof.
  unfold BoundsCheck, Idx. destruct (Origin g) as [[ox oy] oz].
  rewrite !andb_true_iff, !Z.leb_le, !Z.ltb_lt.
  intros [[[[[H1 H2] H3] H4] H5] H6]. nia.
Qed.

Lemma shape_nth_error (h h' : Heap) (r : nat) (a : list F) :
  shape h' = shape h -> nth_error h r = Some a ->
  exists a', nth_error h' r = Some a' /\ length a' = length a.
Proof.
  unfold shape. intros Hs Hr.
  assert (E : nth_error (map (@length F) h') r = Some (length a)).
  { rewrite Hs. rewrite nth_error_map, Hr. reflexivity. }
  rewrite nth_error_map in E.
  destruct (nth_error h' r) as [a' | ]; [ | discriminate].
  exists a'. split; [reflexivity | ]. simpl in E. congruence.
Qed.

Lemma grid_ok_shape (h h' : Heap) (g : Grid) :
  shape h' = shape h -> grid_ok h g -> grid_ok h' g.
Proof.
  intros Hs (a & Ha & Hl).
  destruct (shape_nth_error h h' _ a Hs Ha) as (a' & Ha' & Hl').
  exists a'. split; [assumption | ]. rewrite Hl'. assumption.
Qed.

(** What [incr] does on a grid whose array is in place: it succeeds, logs
    one write when the cell is in the window, adds [frac] to the element of
    that cell and changes no other element. *)
Lemma incr_spec (g : Grid) (i j k : Z) (frac : F) (st : State) :
  grid_ok (heap st) g ->
  exists st',
    incr g i j k frac st = Some st' /\
    shape (heap st') = shape (heap st) /\
    diags st' = diags st /\
    (BoundsCheck (G g) i j k = false -> st' = st) /\
    (BoundsCheck (G g) i j k = true ->
     writes st' = writes st ++
       [{| wArray := Rhos g; wCell := (i, j, k); wIdx := Idx (G g) i j k |}] /\
     exists old,
       cell_val (heap st) (Rhos g) (Z.to_nat (Idx (G g) i j k)) = Some old /\
       cell_val (heap st') (Rhos g) (Z.to_nat (Idx (G g) i j k))
         = Some (fadd old frac)) /\
    (forall r n,
        ~ (BoundsCheck (G g) i j k = true /\ r = Rhos g /\
           n = Z.to_nat (Idx (G g) i j k)) ->
        cell_val (heap st') r n = cell_val (heap st) r n).
Proof.
  intros (a & Ha & Hl). unfold incr, IdxCheck.
  destruct (BoundsCheck (G g) i j k) eqn:Hb.
  - pose proof (Idx_in_range _ _ _ _ Hb) as Hr.
    unfold rhos_add. rewrite Ha.
    assert (Hrange : (0 <=? Idx (G g) i j k) &&
                     (Idx (G g) i j k <? Z.of_nat (length a)) = true).
    { apply andb_true_intro. rewrite Z.leb_le, Z.ltb_lt. lia. }
    rewrite Hrange.
    destruct (nth_error a (Z.to_nat (Idx (G g) i j k))) as [old | ] eqn:Eold.
    2:{ apply nth_error_None in Eold. lia. }
    eexists. split; [reflexivity | ]. simpl.
    assert (Hlt : (Z.to_nat (Idx (G g) i j k) < length a)%nat) by lia.
    repeat split.
    + apply shape_list_set with (a := a); [assumption | ].
      apply list_set_length.
    + discriminate.
    + exists old. unfold cell_val. rewrite Ha.
      split; [assumption | ].
      rewrite list_set_nth_eq by (apply nth_error_Some; congruence).
      apply list_set_nth_eq. assumption.
    + intros r n Hne. unfold cell_val.
      destruct (Nat.eq_dec (Rhos g) r) as [<- | Hr'].
      * rewrite list_set_nth_eq by (apply nth_error_Some; congruence).
        rewrite Ha. apply list_set_nth_neq. intros <-. apply Hne. auto.
      * rewrite list_set_nth_neq by assumption. reflexivity.
  - exists st. repeat split; auto; discriminate.
Qed.

(** One share offered to every grid in turn, as the loop over [gs] of
    ngp.Interpolate does: every grid whose window holds the cell gains
    [frac] there, and nothing else changes. *)
Lemma deposit_all_spec (i j k : Z) (frac : F) (gs : list Grid) (st : State) :
  (forall g, In g gs -> grid_ok (heap st) g) ->
  NoDup (map Rhos gs) ->
  exists st',
    forM gs (fun g => incr g i j k frac) st = Some st' /\
    shape (heap st') = shape (heap st) /\
    diags st' = diags st /\
    (forall g, In g gs -> BoundsCheck (G g) i j k = true ->
       exists old,
         cell_val (heap st) (Rhos g) (Z.to_nat (Idx (G g) i j k)) = Some old /\
         cell_val (heap st') (Rhos g) (Z.to_nat (Idx (G g) i j k))
           = Some (fadd old frac)) /\
    (forall r n,
        ~ (exists g, In g gs /\ BoundsCheck (G g) i j k = true /\
                     r = Rhos g /\ n = Z.to_nat (Idx (G g) i j k)) ->
        cell_val (heap st') r n = cell_val (heap st) r n).
Proof.
  revert st. induction gs as [ | g gs IH]; intros st Hok Hnd.
  - exists st. simpl. repeat split; auto. intros g [].
  - simpl in Hnd. apply NoDup_cons_iff in Hnd. destruct Hnd as [Hnotin Hnd].
    destruct (incr_spec g i j k frac st (Hok g (or_introl eq_refl)))
      as (st1 & Hrun1 & Hs1 & Hd1 & Hout1 & Hin1 & Hoth1).
    destruct (IH st1) as (st2 & Hrun2 & Hs2 & Hd2 & Hin2 & Hoth2).
    { intros g' Hg'. apply grid_ok_shape with (h := heap st); [assumption | ].
      apply Hok. right. assumption. }
    { assumption. }
    exists st2. simpl. rewrite Hrun1. split; [exact Hrun2 | ].
    split; [congruence | ]. split; [congruence | ]. split.
    + intros g' [<- | Hg'] Hb.
      * destruct (Hin1 Hb) as (_ & old & Hold & Hnew).
        exists old. split; [assumption | ].
        rewrite Hoth2; [assumption | ].
        intros (g2 & Hg2 & _ & Hr & _). apply Hnotin.
        rewrite Hr. apply in_map. assumption.
      * destruct (Hin2 g' Hg' Hb) as (old & Hold & Hnew).
        exists old. split; [ | assumption].
        rewrite <- Hold. symmetry. apply Hoth1.
        intros (_ & Hr & _). apply Hnotin.
        rewrite <- Hr. apply in_map. assumption.
    + intros r n Hnone. rewrite Hoth2, Hoth1; [reflexivity | | ].
      * intros (Hb & Hr & Hn). apply Hnone. exists g.
        split; [left; reflexivity | auto].
      * intros (g2 & Hg2 & Hrest). apply Hnone. exists g2.
        split; [right; assumption | exact Hrest].
Qed.

Lemma forM_ext {A : Type} (l : list A) (f g : A -> @M F) (st : State) :
  (forall x s, f x s = g x s) -> forM l f st = forM l g st.
Proof.
  intros H. revert st. induction l as [ | x l IH]; intros st; simpl.
  - reflexivity.
  - rewrite H. destruct (g x st); [apply IH | reflexivity].
Qed.

Lemma forM_single {A : Type} (x : A) (f : A -> @M F) (st : State) :
  forM [x] f st = f x st.
Proof. simpl. destruct (f x st); reflexivity. Qed.

(** The cell of a point: the floor of its coordinates over the cell width,
    converted to int. *)
Definition cell_of (cw : F) (pt : Vec) : Z * Z * Z :=
  let '(xp, yp, zp) := pt in
  let '(xc, yc, zc) := cellPoints xp yp zp cw in
  (ftoZ xc, ftoZ yc, ftoZ zc).

(** ngp.Interpolate, point by point and grid by grid, as deposits through
    [incr]. *)
Lemma ngp_as_incr (g0 : Grid) (gs : list Grid) (mass : F) (ids : list Z)
    (xs : list Vec) (st : State) :
  ngp_Interpolate (g0 :: gs) mass ids xs st =
  forM xs (fun pt =>
             let '(i, j, k) := cell_of (CellWidth g0) pt in
             forM (g0 :: gs) (fun g => incr g i j k (fdiv mass (CellVolume g0))))
       st.
Proof.
  unfold ngp_Interpolate. apply forM_ext. intros [[xp yp] zp] s.
  unfold cell_of.
  destruct (cellPoints xp yp zp (CellWidth g0)) as [[xc yc] zc].
  apply forM_ext. intros g s'. reflexivity.
Qed.

(** ngp.Interpolate in any arithmetic, with the cell as the code computes
    it: [cell_of] is int(math.Floor(p / cw)) on each axis. *)
Lemma ngp_deposit_generic (g0 : Grid) (gs : list Grid) (mass : F)
    (ids : list Z) (pt : Vec) (st : State) :
  (forall g, In g (g0 :: gs) -> grid_ok (heap st) g) ->
  NoDup (map Rhos (g0 :: gs)) ->
  (forall xs s,
      ngp_Interpolate (g0 :: gs) mass ids xs s =
      forM xs (fun p =>
                 let '(i, j, k) := cell_of (CellWidth g0) p in
                 forM (g0 :: gs)
                      (fun g => incr g i j k (fdiv mass (CellVolume g0)))) s) /\
  exists st',
    ngp_Interpolate (g0 :: gs) mass ids [pt] st = Some st' /\
    (forall g, In g (g0 :: gs) ->
       let '(i, j, k) := cell_of (CellWidth g0) pt in
       BoundsCheck (G g) i j k = true ->
       exists old,
         cell_val (heap st) (Rhos g) (Z.to_nat (Idx (G g) i j k)) = Some old /\
         cell_val (heap st') (Rhos g) (Z.to_nat (Idx (G g) i j k))
           = Some (fadd old (fdiv mass (CellVolume g0)))) /\
    (forall r n,
        ~ (exists g, In g (g0 :: gs) /\
             let '(i, j, k) := cell_of (CellWidth g0) pt in
             BoundsCheck (G g) i j k = true /\
             r = Rhos g /\ n = Z.to_nat (Idx (G g) i j k)) ->
        cell_val (heap st') r n = cell_val (heap st) r n).
Proof.
  intros Hok Hnd. split; [intros xs s; apply ngp_as_incr | ].
  rewrite ngp_as_incr, forM_single.
  destruct (cell_of (CellWidth g0) pt) as [[i j] k].
  destruct (deposit_all_spec i j k (fdiv mass (CellVolume g0)) (g0 :: gs) st
              Hok Hnd) as (st' & Hrun & _ & _ & Hin & Hout).
  exists st'. rewrite Hrun. repeat split; assumption.
Qed.

End DepositFacts.

(** Without rounding, the conversions of the code give the floor: int()
    truncates, and math.Floor has made the number whole before. *)
Lemma cell_of_floor (cw x y z : Q) :
  cell_of (FO := Exact.ops) cw (x, y, z) =
    (Qfloor (x / cw), Qfloor (y / cw), Qfloor (z / cw))%Q.
Proof.
  assert (H : forall q : Q, Exact.trunc (inject_Z (Qfloor q)) = Qfloor q).
  { intros q. unfold Exact.trunc.
    destruct (Qle_bool 0 (inject_Z (Qfloor q)));
      [apply Qfloor_Z | apply Qceiling_Z]. }
  unfold cell_of, Density.cellPoints. cbn [ftoZ ffloor fdiv Exact.ops].
  rewrite !H. reflexivity.
Qed.

(** C4: for one point, ngp.Interpolate succeeds on grids whose arrays are
    in place and distinct; every grid whose window holds the cell of the
    point gains frac = mass / gs[0].CellVolume in the element of that cell,
    and no other element of any array changes; for several points the call
    does this point after point.  The cell is
    int(math.Floor(p / gs[0].CellWidth)) on each axis in any arithmetic;
    without rounding it is (floor(p.x/cw), floor(p.y/cw), floor(p.z/cw))
    with cw = gs[0].CellWidth, the floor and not the truncation, also for
    negative coordinates, and the deposit is stated for that cell. *)
Theorem ngp_deposits_in_cell :
  (forall (F : Type) (FO : FloatOps F) (g0 : @Density.Grid F)
          (gs : list (@Density.Grid F)) (mass : F) (ids : list Z)
          (pt : @Density.Vec F) (st : @Density.State F),
     (forall g, In g (g0 :: gs) -> grid_ok (Density.heap st) g) ->
     NoDup (map Density.Rhos (g0 :: gs)) ->
     (forall xs s,
         Density.ngp_Interpolate (g0 :: gs) mass ids xs s =
         Density.forM xs (fun p =>
            let '(i, j, k) := cell_of (Density.CellWidth g0) p in
            Density.forM (g0 :: gs)
              (fun g => Density.incr g i j k
                          (fdiv mass (Density.CellVolume g0)))) s) /\
     exists st',
       Density.ngp_Interpolate (g0 :: gs) mass ids [pt] st = Some st' /\
       (forall g, In g (g0 :: gs) ->
          let '(i, j, k) := cell_of (Density.CellWidth g0) pt in
          RenderGeom.BoundsCheck (Density.G g) i j k = true ->
          exists old,
            cell_val (Density.heap st) (Density.Rhos g)
                     (Z.to_nat (RenderGeom.Idx (Density.G g) i j k)) = Some old /\
            cell_val (Density.heap st') (Density.Rhos g)
                     (Z.to_nat (RenderGeom.Idx (Density.G g) i j k))
              = Some (fadd old (fdiv mass (Density.CellVolume g0)))) /\
       (forall r n,
           ~ (exists g, In g (g0 :: gs) /\
                let '(i, j, k) := cell_of (Density.CellWidth g0) pt in
                RenderGeom.BoundsCheck (Density.G g) i j k = true /\
                r = Density.Rhos g /\
                n = Z.to_nat (RenderGeom.Idx (Density.G g) i j k)) ->
           cell_val (Density.heap st') r n = cell_val (Density.heap st) r n)) /\
  (forall cw x y z : Q,
     cell_of (FO := Exact.ops) cw (x, y, z) =
       (Qfloor (x / cw), Qfloor (y / cw), Qfloor (z / cw))%Q) /\
  (forall (g0 : @Density.Grid Q) (gs : list (@Density.Grid Q))
          (mass x y z : Q) (ids : list Z) (st : @Density.State Q),
     (forall g, In g (g0 :: gs) -> grid_ok (Density.heap st) g) ->
     NoDup (map Density.Rhos (g0 :: gs)) ->
     let i := Qfloor (x / Density.CellWidth g0)%Q in
     let j := Qfloor (y / Density.CellWidth g0)%Q in
     let k := Qfloor (z / Density.CellWidth g0)%Q in
     exists st',
       Density.ngp_Interpolate (FO := Exact.ops) (g0 :: gs) mass ids
                               [(x, y, z)] st = Some st' /\
       (forall g, In g (g0 :: gs) ->
          RenderGeom.BoundsCheck (Density.G g) i j k = true ->
          exists old,
            cell_val (Density.heap st) (Density.Rhos g)
                     (Z.to_nat (RenderGeom.Idx (Density.G g) i j k)) = Some old /\
            cell_val (Density.heap st') (Density.Rhos g)
                     (Z.to_nat (RenderGeom.Idx (Density.G g) i j k))
              = Some (old + mass / Density.CellVolume g0)%Q) /\
       (forall r n,
           ~ (exists g, In g (g0 :: gs) /\
                RenderGeom.BoundsCheck (Density.G g) i j k = true /\
                r = Density.Rhos g /\
                n = Z.to_nat (RenderGeom.Idx (Density.G g) i j k)) ->
           cell_val (Density.heap st') r n = cell_val (Density.heap st) r n)).
Proof.
  split; [ | split].
  - intros F FO g0 gs mass ids pt st Hok Hnd.
    apply ngp_deposit_generic; assumption.
  - apply cell_of_floor.
  - intros g0 gs mass x y z ids st Hok Hnd i j k.
    destruct (ngp_deposit_generic (FO := Exact.ops) g0 gs mass ids (x, y, z)
                st Hok Hnd) as (_ & st' & Hrun & Hin & Hout).
    rewrite cell_of_floor in Hin, Hout.
    exists st'. split; [exact Hrun | ]. split; [exact Hin | exact Hout].
Qed.

Lemma ngp_deposits_in_cell_witness :
  (forall g, In g [grid4] -> grid_ok grid4_heap g) /\
  NoDup (map Density.Rhos [grid4]) /\
  cell_of 0.25%float (0.375, 0.375, 0.375)%float = (1, 1, 1) /\
  RenderGeom.IdxCheck (Density.G grid4) 1 1 1 = (21, true) /\
  Density.ngp_Interpolate [grid4] 2%float [] [(0.375, 0.375, 0.375)%float]
      grid4_state =
    Some {| Density.heap := [list_set 21 128%float (zeros 64)];
            Density.writes :=
              [{| Density.wArray := 0; Density.wCell := (1, 1, 1);
                  Density.wIdx := 21 |}];
            Density.diags := [] |} /\
  cell_of 0.25%float (-0.125, 0.375, 0.375)%float = (-1, 1, 1) /\
  Density.ngp_Interpolate [grid4] 2%float [] [(-0.125, 0.375, 0.375)%float]
      grid4_state = Some grid4_state /\
  exists st',
    Density.ngp_Interpolate [grid4] 2%float [] [(0.375, 0.375, 0.375)%float]
      grid4_state = Some st' /\
    forall r n,
      ~ (exists g, In g [grid4] /\
           let '(i, j, k) :=
             cell_of (Density.CellWidth grid4) (0.375, 0.375, 0.375)%float in
           RenderGeom.BoundsCheck (Density.G g) i j k = true /\
           r = Density.Rhos g /\
           n = Z.to_nat (RenderGeom.Idx (Density.G g) i j k)) ->
      cell_val (Density.heap st') r n = cell_val grid4_heap r n.
Proof.
  assert (Hok : forall g, In g [grid4] -> grid_ok grid4_heap g).
  { intros g [<- | []]. exists (zeros 64). split; reflexivity. }
  assert (Hnd : NoDup (map Density.Rhos [grid4])).
  { constructor; [intros [] | constructor]. }
  split; [exact Hok | ]. split; [exact Hnd | ].
  split; [vm_compute; reflexivity | ].
  split; [vm_compute; reflexivity | ].
  split; [vm_compute; reflexivity | ].
  split; [vm_compute; reflexivity | ].
  split; [vm_compute; reflexivity | ].
  destruct ngp_deposits_in_cell as (Hgen & _ & _).
  destruct (Hgen float Binary64.ops grid4 [] 2%float []
              (0.375, 0.375, 0.375)%float grid4_state Hok Hnd)
    as (_ & st' & Hrun & _ & Hout).
  exists st'. split; [exact Hrun | exact Hout].
Defined.

(** ** Cloud in cell: neighbours and weights *)

(** The eight weights of cic.Interpolate for one point, before they are
    multiplied by [frac], with the cells they go to. *)
Definition cic_weights {F : Type} {FO : FloatOps F} (g0 : @Density.Grid F)
    (pt : @Density.Vec F) : list (Z * Z * Z * F) :=
  let cw := Density.CellWidth g0 in
  let cw2 := fdiv (Density.CellWidth g0) (fofZ 2) in
  let '(px, py, pz) := pt in
  let xp := fsub px cw2 in
  let yp := fsub py cw2 in
  let zp := fsub pz cw2 in
  let '(xc, yc, zc) := Density.cellPoints xp yp zp cw in
  let dx := fsub (fdiv xp cw) xc in
  let dy := fsub (fdiv yp cw) yc in
  let dz := fsub (fdiv zp cw) zc in
  let tx := fsub (fofZ 1) dx in
  let ty := fsub (fofZ 1) dy in
  let tz := fsub (fofZ 1) dz in
  let '(i0, i1) := Density.nbrs g0 (ftoZ xc) in
  let '(j0, j1) := Density.nbrs g0 (ftoZ yc) in
  let '(k0, k1) := Density.nbrs g0 (ftoZ zc) in
  [ (i0, j0, k0, fmul (fmul tx ty) tz);
    (i1, j0, k0, fmul (fmul dx ty) tz);
    (i0, j1, k0, fmul (fmul tx dy) tz);
    (i1, j1, k0, fmul (fmul dx dy) tz);
    (i0, j0, k1, fmul (fmul tx ty) dz);
    (i1, j0, k1, fmul (fmul dx ty) dz);
    (i0, j1, k1, fmul (fmul tx dy) dz);
    (i1, j1, k1, fmul (fmul dx dy) dz) ].

Lemma cic_overs_weights {F : Type} {FO : FloatOps F} (g0 : @Density.Grid F)
    (mass : F) (pt : @Density.Vec F) :
  Density.cic_overs g0 mass pt =
  map (fun o : Z * Z * Z * F =>
         (fst o, fmul (snd o) (fdiv mass (Density.CellVolume g0))))
      (cic_weights g0 pt).
Proof.
  unfold Density.cic_overs, cic_weights.
  destruct pt as [[px py] pz].
  destruct (Density.cellPoints _ _ _ _) as [[xc yc] zc].
  destruct (Density.nbrs g0 (ftoZ xc)) as [i0 i1].
  destruct (Density.nbrs g0 (ftoZ yc)) as [j0 j1].
  destruct (Density.nbrs g0 (ftoZ zc)) as [k0 k1].
  reflexivity.
Qed.

(** Scenario C: a bounding grid of width 2, one target grid covering it,
    box width 1, so that the cell width is 0.5. *)
Definition grid2 : @Density.Grid float :=
  {| Density.Rhos := 0;
     Density.BoxWidth := 1%float;
     Density.CellWidth := 0.5%float;
     Density.CellVolume := 0.125%float;
     Density.G := {| RenderGeom.Origin := (0, 0, 0); RenderGeom.Width := 2;
                     RenderGeom.Volume := 8 |};
     Density.BG := {| RenderGeom.Origin := (0, 0, 0); RenderGeom.Width := 2;
                      RenderGeom.Volume := 8 |} |}.

Definition grid2_state : @Density.State float :=
  {| Density.heap := [zeros 8]; Density.writes := []; Density.diags := [] |}.

Example grid2_is_NewGrid :
  Density.Grid_Init [zeros 8] 1%float 1 0
    {| Density.cWidth := 2; Density.cX := 0; Density.cY := 0;
       Density.cZ := 0 |} = Some grid2.
Proof. vm_compute. reflexivity. Qed.

(** The same grid in exact arithmetic. *)
Definition grid2_exact : @Density.Grid Q :=
  {| Density.Rhos := 0;
     Density.BoxWidth := 1%Q;
     Density.CellWidth := (1 # 2)%Q;
     Density.CellVolume := (1 # 8)%Q;
     Density.G := {| RenderGeom.Origin := (0, 0, 0); RenderGeom.Width := 2;
                     RenderGeom.Volume := 8 |};
     Density.BG := {| RenderGeom.Origin := (0, 0, 0); RenderGeom.Width := 2;
                      RenderGeom.Volume := 8 |} |}.

Example grid2_exact_is_NewGrid :
  Density.Grid_Init [repeat 0%Q 8] 1%Q 1 0
    {| Density.cWidth := 2; Density.cX := 0; Density.cY := 0;
       Density.cZ := 0 |} = Some grid2_exact.
Proof. vm_compute. reflexivity. Qed.

(** The eight cells of the 2x2x2 grid, in the order in which the point at
    the origin reaches them. *)
Definition all_cells2 : list (Z * Z * Z) :=
  [ (1, 1, 1); (0, 1, 1); (1, 0, 1); (0, 0, 1);
    (1, 1, 0); (0, 1, 0); (1, 0, 0); (0, 0, 0) ].

Lemma nbrs_cases {F : Type} (g : @Density.Grid F) (i : Z) :
  in_int i -> i < int_max ->
  in_int (RenderGeom.Width (Density.BG g)) ->
  int_min < RenderGeom.Width (Density.BG g) ->
  Density.nbrs g i =
    if i =? -1 then (RenderGeom.Width (Density.BG g) - 1, 0)
    else if i + 1 =? RenderGeom.Width (Density.BG g) then (i, 0)
    else (i, i + 1).
Proof.
  intros Hi Hmax Hw Hmin. unfold Density.nbrs, int_add, int_sub.
  rewrite (wrap_int_id (i + 1))
    by (unfold in_int, int_min, int_max in *; lia).
  rewrite (wrap_int_id (RenderGeom.Width (Density.BG g) - 1))
    by (unfold in_int, int_min, int_max in *; lia).
  reflexivity.
Qed.

Lemma cic_origin_exact (mass : Q) :
  map (fun o : Z * Z * Z * Q => fst o)
      (Density.cic_overs grid2_exact mass (0, 0, 0)%Q) = all_cells2 /\
  Forall (fun o : Z * Z * Z * Q => (snd o == mass / (1 # 8) / 8)%Q)
         (Density.cic_overs grid2_exact mass (0, 0, 0)%Q).
Proof.
  rewrite cic_overs_weights.
  set (ws := cic_weights grid2_exact (0, 0, 0)%Q).
  vm_compute in ws. subst ws.
  change (Density.CellVolume grid2_exact) with (1 # 8)%Q.
  change (@fmul Q Exact.ops) with Qmult.
  change (@fdiv Q Exact.ops) with Qdiv.
  cbn [map fst snd]. split; [reflexivity | ].
  repeat (apply Forall_cons; [cbv beta; cbn [snd]; field | ]).
  apply Forall_nil.
Qed.

(** C5: the neighbour pair of a cell coordinate [i] is (BG.Width-1, 0)
    for i = -1, (i, 0) for i+1 = BG.Width and (i, i+1) otherwise (for
    coordinates and widths that are ints, away from the two ends of the
    int range).  With a bounding grid of width 2, cell width 0.5 and the
    point (0, 0, 0): the shifted point falls in cell (-1,-1,-1), whose
    neighbours on each axis are (1, 0); the eight shares go to the eight
    cells of the grid, one each, and each is mass/cell_volume/8 (exactly,
    for every mass, over the rationals; and 1.0 in every cell for mass 1 in
    binary64, starting from zero densities). *)
Theorem cic_neighbours_wrap {F : Type} (g : @Density.Grid F) (i : Z)
    (mass : Q) :
  in_int i -> i < int_max ->
  in_int (RenderGeom.Width (Density.BG g)) ->
  int_min < RenderGeom.Width (Density.BG g) ->
  Density.nbrs g i =
    (if i =? -1 then (RenderGeom.Width (Density.BG g) - 1, 0)
     else if i + 1 =? RenderGeom.Width (Density.BG g) then (i, 0)
     else (i, i + 1)) /\
  Density.cellPoints (fsub 0%float (fdiv 0.5%float (fofZ 2)))
                     (fsub 0%float (fdiv 0.5%float (fofZ 2)))
                     (fsub 0%float (fdiv 0.5%float (fofZ 2)))
                     (Density.CellWidth grid2)
    = ((-1)%float, (-1)%float, (-1)%float) /\
  @ftoZ float _ (-1)%float = -1 /\
  Density.nbrs grid2 (-1) = (1, 0) /\
  map (fun o : Z * Z * Z * float => fst o)
      (Density.cic_overs grid2 1%float (0, 0, 0)%float) = all_cells2 /\
  option_map (fun st => Density.heap st)
    (Density.cic_Interpolate [grid2] 1%float [] [(0, 0, 0)%float] grid2_state)
    = Some [repeat (1 / 0.125 / 8)%float 8] /\
  map (fun o : Z * Z * Z * Q => fst o)
      (Density.cic_overs grid2_exact mass (0, 0, 0)%Q) = all_cells2 /\
  Forall (fun o : Z * Z * Z * Q => (snd o == mass / (1 # 8) / 8)%Q)
         (Density.cic_overs grid2_exact mass (0, 0, 0)%Q).
Proof.
  intros Hi Hmax Hw Hmin.
  split; [apply nbrs_cases; assumption | ].
  split; [vm_compute; reflexivity | ].
  split; [vm_compute; reflexivity | ].
  split; [vm_compute; reflexivity | ].
  split; [vm_compute; reflexivity | ].
  split; [vm_compute; reflexivity | ].
  apply cic_origin_exact.
Qed.

Lemma cic_neighbours_wrap_witness :
  in_int 1 /\ 1 < int_max /\
  in_int (RenderGeom.Width (Density.BG grid2)) /\
  int_min < RenderGeom.Width (Density.BG grid2) /\
  Density.nbrs grid2 1 = (1, 0).
Proof.
  assert (H1 : in_int 1) by (unfold in_int, int_min, int_max; lia).
  assert (H2 : 1 < int_max) by (unfold int_max; lia).
  assert (H3 : in_int (RenderGeom.Width (Density.BG grid2)))
    by (unfold in_int, int_min, int_max; simpl; lia).
  assert (H4 : int_min < RenderGeom.Width (Density.BG grid2))
    by (unfold int_min; simpl; lia).
  repeat (split; [assumption | ]).
  exact (proj1 (cic_neighbours_wrap grid2 1 1%Q H1 H2 H3 H4)).
Defined.

(** ** Loops as work lists *)

Section LoopFacts.

Context {F : Type}.

Local Abbreviation State := (@Density.State F).

(** The (id, dir) pairs in the order in which the two nested loops of the
    tetrahedron-based interpolators visit them. *)
Definition work (ids : list Z) : list (Z * Z) :=
  flat_map (fun id => map (fun dir => (id, dir)) Density.dirs) ids.

Lemma forM_app {A : Type} (l1 l2 : list A) (f : A -> @Density.M F)
    (st : State) :
  Density.forM (l1 ++ l2) f st =
  match Density.forM l1 f st with
  | Some st1 => Density.forM l2 f st1
  | None => None
  end.
Proof.
  revert st. induction l1 as [ | x l1 IH]; intros st; simpl.
  - reflexivity.
  - destruct (f x st); [apply IH | reflexivity].
Qed.

Lemma foldM_app {A B : Type} (l1 l2 : list A)
    (f : A -> B -> State -> option (B * State)) (b : B) (st : State) :
  Density.foldM (l1 ++ l2) f b st =
  match Density.foldM l1 f b st with
  | Some (b1, st1) => Density.foldM l2 f b1 st1
  | None => None
  end.
Proof.
  revert b st. induction l1 as [ | x l1 IH]; intros b st; simpl.
  - reflexivity.
  - destruct (f x b st) as [[b1 st1] | ]; [apply IH | reflexivity].
Qed.

Lemma forM_map {A C : Type} (g : C -> A) (l : list C) (f : A -> @Density.M F)
    (st : State) :
  Density.forM (map g l) f st = Density.forM l (fun c => f (g c)) st.
Proof.
  revert st. induction l as [ | x l IH]; intros st; simpl.
  - reflexivity.
  - destruct (f (g x) st); [apply IH | reflexivity].
Qed.

Lemma foldM_map {A B C : Type} (g : C -> A) (l : list C)
    (f : A -> B -> State -> option (B * State)) (b : B) (st : State) :
  Density.foldM (map g l) f b st = Density.foldM l (fun c => f (g c)) b st.
Proof.
  revert b st. induction l as [ | x l IH]; intros b st; simpl.
  - reflexivity.
  - destruct (f (g x) b st) as [[b1 st1] | ]; [apply IH | reflexivity].
Qed.

(** Two nested range loops are one loop over the work list. *)
Lemma forM_work (ids : list Z) (step : Z -> Z -> @Density.M F) (st : State) :
  Density.forM ids (fun id => Density.forM Density.dirs (step id)) st =
  Density.forM (work ids) (fun w => step (fst w) (snd w)) st.
Proof.
  unfold work. revert st. induction ids as [ | id ids IH]; intros st.
  - reflexivity.
  - cbn [flat_map Density.forM]. rewrite forM_app, forM_map. cbn [fst snd].
    destruct (Density.forM Density.dirs _ st); [apply IH | reflexivity].
Qed.

Lemma foldM_work {B : Type} (ids : list Z)
    (step : Z -> Z -> B -> State -> option (B * State)) (b : B) (st : State) :
  Density.foldM ids (fun id => Density.foldM Density.dirs (step id)) b st =
  Density.foldM (work ids) (fun w => step (fst w) (snd w)) b st.
Proof.
  unfold work. revert b st. induction ids as [ | id ids IH]; intros b st.
  - reflexivity.
  - cbn [flat_map Density.foldM].
    rewrite foldM_app, foldM_map. cbn [fst snd].
    destruct (Density.foldM Density.dirs _ b st) as [[b1 st1] | ];
      [apply IH | reflexivity].
Qed.

End LoopFacts.

(** ** Tetrahedra with a missing particle *)

Section MissingFacts.

Import RenderGeom Density.

Context {F : Type} {FO : FloatOps F}.

Local Abbreviation Grid := (@Density.Grid F).
Local Abbreviation State := (@Density.State F).
Local Abbreviation Vec := (@Density.Vec F).

Variable Tetra : Type.
Variable Tetra_Init : Vec -> Vec -> Vec -> Vec -> F -> Tetra.
Variable CellBoundsAt : Tetra -> F -> CellBounds.
Variable Volume : Tetra -> F.
Variable Contains : Tetra -> Vec -> bool.
Variable MinMaxLeg : Tetra -> F * F.
Variable Distribute : Tetra -> list F -> list F -> list F -> list Vec.
Variable Gen : Type.
Variable RandomSample : Tetra -> Gen -> nat -> Gen * list Vec.
Variable TetraIdxs_Init : Z -> Z -> Z -> Z -> Z * Z * Z * Z.
Variable Intersect : RenderGeom.Grid -> CellBounds -> RenderGeom.Grid -> bool.

(** At least one of the four particles of the tetrahedron (id, dir) is
    not in the manager. *)
Definition missing (man : @ParticleManager F) (countWidth id dir : Z) : Prop :=
  let '(a0, a1, a2, a3) := TetraIdxs_Init id countWidth 1 dir in
  man a0 = None \/ man a1 = None \/ man a2 = None \/ man a3 = None.

(** The state after the diagnostic for the tetrahedron (id, dir). *)
Definition skipped (man : @ParticleManager F) (countWidth id dir : Z)
    (st : State) : State :=
  let '(a0, a1, a2, a3) := TetraIdxs_Init id countWidth 1 dir in
  log_missing (man a0) (man a1) (man a2) (man a3) st.

Local Abbreviation cc_step :=
  (cellCenter_step Tetra Tetra_Init CellBoundsAt Volume Contains
     TetraIdxs_Init Intersect).
Local Abbreviation mc_step :=
  (mcarlo_step Tetra Tetra_Init CellBoundsAt MinMaxLeg Gen RandomSample
     TetraIdxs_Init Intersect).
Local Abbreviation sb_step :=
  (sobol_step Tetra Tetra_Init CellBoundsAt Distribute TetraIdxs_Init
     Intersect).

Lemma cellCenter_step_missing (intr : cellCenter) (gs : list Grid) (mass : F)
    (id dir : Z) (st : State) :
  missing (cc_man intr) (cc_countWidth intr) id dir ->
  cc_step intr gs mass id dir st =
    Some (skipped (cc_man intr) (cc_countWidth intr) id dir st).
Proof.
  unfold missing, skipped, cellCenter_step.
  destruct (TetraIdxs_Init id (cc_countWidth intr) 1 dir) as [[[a0 a1] a2] a3].
  intros H.
  destruct (cc_man intr a0), (cc_man intr a1), (cc_man intr a2),
    (cc_man intr a3); try reflexivity.
  destruct H as [H | [H | [H | H]]]; discriminate H.
Qed.

Lemma mcarlo_step_missing (gs : list Grid) (mass : F) (id dir : Z)
    (intr : mcarlo Tetra Gen) (st : State) :
  missing (mc_man _ _ intr) (mc_countWidth _ _ intr) id dir ->
  mc_step gs mass id dir intr st =
    Some (intr, skipped (mc_man _ _ intr) (mc_countWidth _ _ intr) id dir st).
Proof.
  unfold missing, skipped, mcarlo_step.
  destruct (TetraIdxs_Init id (mc_countWidth _ _ intr) 1 dir)
    as [[[a0 a1] a2] a3].
  intros H.
  destruct (mc_man _ _ intr a0), (mc_man _ _ intr a1), (mc_man _ _ intr a2),
    (mc_man _ _ intr a3); try reflexivity.
  destruct H as [H | [H | [H | H]]]; discriminate H.
Qed.

Lemma sobol_step_missing (gs : list Grid) (ptMass : F) (id dir : Z)
    (intr : sobol) (st : State) :
  missing (sb_man intr) (sb_countWidth intr) id dir ->
  sb_step gs ptMass id dir intr st =
    Some (intr, skipped (sb_man intr) (sb_countWidth intr) id dir st).
Proof.
  unfold missing, skipped, sobol_step.
  destruct (TetraIdxs_Init id (sb_countWidth intr) 1 dir) as [[[a0 a1] a2] a3].
  intros H.
  destruct (sb_man intr a0), (sb_man intr a1), (sb_man intr a2),
    (sb_man intr a3); try reflexivity.
  destruct H as [H | [H | [H | H]]]; discriminate H.
Qed.

(** A step never replaces the manager or the count width. *)
Lemma mcarlo_step_keeps (gs : list Grid) (mass : F) (id dir : Z)
    (intr intr' : mcarlo Tetra Gen) (st st' : State) :
  mc_step gs mass id dir intr st = Some (intr', st') ->
  mc_man _ _ intr' = mc_man _ _ intr /\
  mc_countWidth _ _ intr' = mc_countWidth _ _ intr.
Proof.
  unfold mcarlo_step.
  destruct (TetraIdxs_Init id (mc_countWidth _ _ intr) 1 dir)
    as [[[a0 a1] a2] a3].
  destruct (mc_man _ _ intr a0), (mc_man _ _ intr a1), (mc_man _ _ intr a2),
    (mc_man _ _ intr a3);
    try (intros H; injection H as <- _; split; reflexivity).
  destruct gs as [ | g0 gs0]; [discriminate | ]. cbv zeta.
  destruct (_ =? 0).
  - intros H; injection H as <- _; split; reflexivity.
  - destruct (_ && _); [ | discriminate].
    destruct (RandomSample _ _ _) as [gen' vs].
    destruct (mc_subIntr _ _ intr _ _ _ _ st); [ | discriminate].
    intros H; injection H as <- _; split; reflexivity.
Qed.

Lemma sobol_step_keeps (gs : list Grid) (ptMass : F) (id dir : Z)
    (intr intr' : sobol) (st st' : State) :
  sb_step gs ptMass id dir intr st = Some (intr', st') ->
  sb_man intr' = sb_man intr /\ sb_countWidth intr' = sb_countWidth intr.
Proof.
  unfold sobol_step.
  destruct (TetraIdxs_Init id (sb_countWidth intr) 1 dir) as [[[a0 a1] a2] a3].
  destruct (sb_man intr a0), (sb_man intr a1), (sb_man intr a2),
    (sb_man intr a3);
    try (intros H; injection H as <- _; split; reflexivity).
  destruct gs as [ | g0 gs0]; [discriminate | ]. cbv zeta.
  destruct (sb_subIntr intr _ _ _ _ st); [ | discriminate].
  intros H; injection H as <- _; split; reflexivity.
Qed.

Lemma skipped_state (man : @ParticleManager F) (countWidth id dir : Z)
    (st : State) :
  heap (skipped man countWidth id dir st) = heap st /\
  writes (skipped man countWidth id dir st) = writes st /\
  exists d, diags (skipped man countWidth id dir st) = diags st ++ [d].
Proof.
  unfold skipped.
  destruct (TetraIdxs_Init id countWidth 1 dir) as [[[a0 a1] a2] a3].
  simpl. eauto.
Qed.

Lemma mcarlo_run_keeps (gs : list Grid) (mass : F) (l : list (Z * Z))
    (intr intr' : mcarlo Tetra Gen) (st st' : State) :
  foldM l (fun w => mc_step gs mass (fst w) (snd w)) intr st
    = Some (intr', st') ->
  mc_man _ _ intr' = mc_man _ _ intr /\
  mc_countWidth _ _ intr' = mc_countWidth _ _ intr.
Proof.
  revert intr st. induction l as [ | w l IH]; intros intr st H; simpl in H.
  - injection H as <- _. split; reflexivity.
  - destruct (mc_step gs mass (fst w) (snd w) intr st) as [[i1 s1] | ] eqn:E;
      [ | discriminate].
    destruct (mcarlo_step_keeps _ _ _ _ _ _ _ _ E) as [E1 E2].
    destruct (IH _ _ H) as [E3 E4]. split; congruence.
Qed.

Lemma sobol_run_keeps (gs : list Grid) (ptMass : F) (l : list (Z * Z))
    (intr intr' : sobol) (st st' : State) :
  foldM l (fun w => sb_step gs ptMass (fst w) (snd w)) intr st
    = Some (intr', st') ->
  sb_man intr' = sb_man intr /\ sb_countWidth intr' = sb_countWidth intr.
Proof.
  revert intr st. induction l as [ | w l IH]; intros intr st H; simpl in H.
  - injection H as <- _. split; reflexivity.
  - destruct (sb_step gs ptMass (fst w) (snd w) intr st) as [[i1 s1] | ] eqn:E;
      [ | discriminate].
    destruct (sobol_step_keeps _ _ _ _ _ _ _ _ E) as [E1 E2].
    destruct (IH _ _ H) as [E3 E4]. split; congruence.
Qed.

(** A call all of whose tetrahedra lack a particle returns, and leaves
    the densities as they were. *)
Lemma cellCenter_all_missing (intr : cellCenter) (gs : list Grid) (mass : F)
    (l : list (Z * Z)) (st : State) :
  (forall w, In w l ->
             missing (cc_man intr) (cc_countWidth intr) (fst w) (snd w)) ->
  exists st',
    forM l (fun w => cc_step intr gs mass (fst w) (snd w)) st = Some st' /\
    heap st' = heap st /\ writes st' = writes st.
Proof.
  revert st. induction l as [ | w l IH]; intros st H; simpl.
  - eauto.
  - rewrite cellCenter_step_missing by (apply H; left; reflexivity).
    destruct (IH (skipped (cc_man intr) (cc_countWidth intr) (fst w) (snd w) st))
      as (st' & Hrun & Hh & Hw).
    { intros w' Hw'. apply H. right. assumption. }
    destruct (skipped_state (cc_man intr) (cc_countWidth intr)
                (fst w) (snd w) st) as (Eh & Ew & _).
    exists st'. split; [exact Hrun | split; congruence].
Qed.

Lemma mcarlo_all_missing (gs : list Grid) (mass : F) (l : list (Z * Z))
    (intr : mcarlo Tetra Gen) (st : State) :
  (forall w, In w l ->
             missing (mc_man _ _ intr) (mc_countWidth _ _ intr) (fst w) (snd w)) ->
  exists st',
    foldM l (fun w => mc_step gs mass (fst w) (snd w)) intr st
      = Some (intr, st') /\
    heap st' = heap st /\ writes st' = writes st.
Proof.
  revert st. induction l as [ | w l IH]; intros st H; simpl.
  - eauto.
  - rewrite mcarlo_step_missing by (apply H; left; reflexivity).
    destruct (IH (skipped (mc_man _ _ intr) (mc_countWidth _ _ intr)
                    (fst w) (snd w) st)) as (st' & Hrun & Hh & Hw).
    { intros w' Hw'. apply H. right. assumption. }
    destruct (skipped_state (mc_man _ _ intr) (mc_countWidth _ _ intr)
                (fst w) (snd w) st) as (Eh & Ew & _).
    exists st'. split; [exact Hrun | split; congruence].
Qed.

Lemma sobol_all_missing (gs : list Grid) (ptMass : F) (l : list (Z * Z))
    (intr : sobol) (st : State) :
  (forall w, In w l ->
             missing (sb_man intr) (sb_countWidth intr) (fst w) (snd w)) ->
  exists st',
    foldM l (fun w => sb_step gs ptMass (fst w) (snd w)) intr st
      = Some (intr, st') /\
    heap st' = heap st /\ writes st' = writes st.
Proof.
  revert st. induction l as [ | w l IH]; intros st H; simpl.
  - eauto.
  - rewrite sobol_step_missing by (apply H; left; reflexivity).
    destruct (IH (skipped (sb_man intr) (sb_countWidth intr)
                    (fst w) (snd w) st)) as (st' & Hrun & Hh & Hw).
    { intros w' Hw'. apply H. right. assumption. }
    destruct (skipped_state (sb_man intr) (sb_countWidth intr)
                (fst w) (snd w) st) as (Eh & Ew & _).
    exists st'. split; [exact Hrun | split; congruence].
Qed.

(** C3: let the tetrahedron (id, dir) of a CellCenter, MonteCarlo or Sobol
    call reference a particle that the manager does not hold.  Its step
    returns normally, leaves every density array and the write log as they
    were and emits one diagnostic.  The call as a whole is the work before
    (id, dir), the diagnostic, and the work after it: the remaining ids and
    dirs are processed, in the state and with the interpolator that the
    earlier ones left.  A call all of whose tetrahedra are in this case
    returns normally with the densities unchanged. *)
Theorem missing_tetra_is_skipped
    (cc : cellCenter) (mc : mcarlo Tetra Gen) (sb : sobol)
    (gs : list Grid) (mass : F) (ids : list Z) (xs : list Vec)
    (id dir : Z) (l1 l2 : list (Z * Z)) (st : State) :
  work ids = l1 ++ (id, dir) :: l2 ->
  missing (cc_man cc) (cc_countWidth cc) id dir ->
  missing (mc_man _ _ mc) (mc_countWidth _ _ mc) id dir ->
  missing (sb_man sb) (sb_countWidth sb) id dir ->
  (forall man cw,
      heap (skipped man cw id dir st) = heap st /\
      writes (skipped man cw id dir st) = writes st /\
      exists d, diags (skipped man cw id dir st) = diags st ++ [d]) /\
  cc_step cc gs mass id dir st =
    Some (skipped (cc_man cc) (cc_countWidth cc) id dir st) /\
  mc_step gs mass id dir mc st =
    Some (mc, skipped (mc_man _ _ mc) (mc_countWidth _ _ mc) id dir st) /\
  sb_step gs mass id dir sb st =
    Some (sb, skipped (sb_man sb) (sb_countWidth sb) id dir st) /\
  cellCenter_Interpolate Tetra Tetra_Init CellBoundsAt Volume Contains
      TetraIdxs_Init Intersect cc gs mass ids xs st =
    match forM l1 (fun w => cc_step cc gs mass (fst w) (snd w)) st with
    | Some st1 =>
        forM l2 (fun w => cc_step cc gs mass (fst w) (snd w))
             (skipped (cc_man cc) (cc_countWidth cc) id dir st1)
    | None => None
    end /\
  mcarlo_Interpolate Tetra Tetra_Init CellBoundsAt MinMaxLeg Gen RandomSample
      TetraIdxs_Init Intersect mc gs mass ids xs st =
    match foldM l1 (fun w => mc_step gs mass (fst w) (snd w)) mc st with
    | Some (mc1, st1) =>
        foldM l2 (fun w => mc_step gs mass (fst w) (snd w)) mc1
              (skipped (mc_man _ _ mc) (mc_countWidth _ _ mc) id dir st1)
    | None => None
    end /\
  sobol_Interpolate Tetra Tetra_Init CellBoundsAt Distribute TetraIdxs_Init
      Intersect sb gs mass ids xs st =
    match foldM l1 (fun w =>
                      sb_step gs (fdiv (fdiv mass
                                          (fofZ (Z.of_nat (length (sb_xs sb)))))
                                       (fofZ 6))
                              (fst w) (snd w)) sb st with
    | Some (sb1, st1) =>
        foldM l2 (fun w =>
                    sb_step gs (fdiv (fdiv mass
                                        (fofZ (Z.of_nat (length (sb_xs sb)))))
                                     (fofZ 6))
                            (fst w) (snd w)) sb1
              (skipped (sb_man sb) (sb_countWidth sb) id dir st1)
    | None => None
    end /\
  ((forall w, In w (work ids) ->
              missing (cc_man cc) (cc_countWidth cc) (fst w) (snd w)) ->
   exists st',
     cellCenter_Interpolate Tetra Tetra_Init CellBoundsAt Volume Contains
       TetraIdxs_Init Intersect cc gs mass ids xs st = Some st' /\
     heap st' = heap st /\ writes st' = writes st) /\
  ((forall w, In w (work ids) ->
              missing (mc_man _ _ mc) (mc_countWidth _ _ mc) (fst w) (snd w)) ->
   exists st',
     mcarlo_Interpolate Tetra Tetra_Init CellBoundsAt MinMaxLeg Gen
       RandomSample TetraIdxs_Init Intersect mc gs mass ids xs st
       = Some (mc, st') /\
     heap st' = heap st /\ writes st' = writes st) /\
  ((forall w, In w (work ids) ->
              missing (sb_man sb) (sb_countWidth sb) (fst w) (snd w)) ->
   exists st',
     sobol_Interpolate Tetra Tetra_Init CellBoundsAt Distribute
       TetraIdxs_Init Intersect sb gs mass ids xs st = Some (sb, st') /\
     heap st' = heap st /\ writes st' = writes st).
Proof.
  intros Hwork Hcc Hmc Hsb.
  split; [intros man cw; apply skipped_state | ].
  split; [apply cellCenter_step_missing; exact Hcc | ].
  split; [apply mcarlo_step_missing; exact Hmc | ].
  split; [apply sobol_step_missing; exact Hsb | ].
  split.
  { unfold cellCenter_Interpolate. rewrite forM_work, Hwork, forM_app.
    destruct (forM l1 _ st) as [st1 | ]; [ | reflexivity].
    cbn [forM fst snd]. rewrite cellCenter_step_missing by exact Hcc.
    reflexivity. }
  split.
  { unfold mcarlo_Interpolate. rewrite foldM_work, Hwork, foldM_app.
    destruct (foldM l1 _ mc st) as [[mc1 st1] | ] eqn:E; [ | reflexivity].
    destruct (mcarlo_run_keeps _ _ _ _ _ _ _ E) as [E1 E2].
    cbn [foldM fst snd]. rewrite mcarlo_step_missing
      by (rewrite E1, E2; exact Hmc).
    rewrite E1, E2. reflexivity. }
  split.
  { unfold sobol_Interpolate. rewrite foldM_work, Hwork, foldM_app.
    destruct (foldM l1 _ sb st) as [[sb1 st1] | ] eqn:E; [ | reflexivity].
    destruct (sobol_run_keeps _ _ _ _ _ _ _ E) as [E1 E2].
    cbn [foldM fst snd]. rewrite sobol_step_missing
      by (rewrite E1, E2; exact Hsb).
    rewrite E1, E2. reflexivity. }
  split.
  { intros Hall. unfold cellCenter_Interpolate. rewrite forM_work.
    apply cellCenter_all_missing. exact Hall. }
  split.
  { intros Hall. unfold mcarlo_Interpolate. rewrite foldM_work.
    apply mcarlo_all_missing. exact Hall. }
  intros Hall. unfold sobol_Interpolate. rewrite foldM_work.
  apply sobol_all_missing. exact Hall.
Qed.

End MissingFacts.

(** The manager of the examples holds the particles 0..9, and the
    tetrahedron (id, dir) uses the particles id..id+3: the tetrahedra of
    id 5 are complete, those of id 9 lack three particles. *)
Definition work_before_9_0 : list (Z * Z) := map (fun dir => (5, dir)) Density.dirs.
Definition work_after_9_0 : list (Z * Z) := [(9, 1); (9, 2); (9, 3); (9, 4); (9, 5)].

Lemma missing_tetra_is_skipped_witness :
  work [5; 9] = work_before_9_0 ++ (9, 0) :: work_after_9_0 /\
  missing Toy.TetraIdxs_Init Toy.man 4 9 0 /\
  Density.cellCenter_step Toy.Tetra Toy.Tetra_Init Toy.CellBoundsAt Toy.Volume
      Toy.Contains Toy.TetraIdxs_Init Toy.Intersect toy_cellCenter [grid4]
      6%float 9 0 grid4_state =
    Some (skipped Toy.TetraIdxs_Init Toy.man 4 9 0 grid4_state) /\
  Density.mcarlo_step Toy.Tetra Toy.Tetra_Init Toy.CellBoundsAt Toy.MinMaxLeg
      Toy.Gen Toy.RandomSample Toy.TetraIdxs_Init Toy.Intersect [grid4]
      6%float 9 0 (toy_mcarlo Density.Flat) grid4_state =
    Some (toy_mcarlo Density.Flat,
          skipped Toy.TetraIdxs_Init Toy.man 4 9 0 grid4_state).
Proof.
  assert (Hw : work [5; 9] = work_before_9_0 ++ (9, 0) :: work_after_9_0)
    by reflexivity.
  assert (Hm : missing Toy.TetraIdxs_Init Toy.man 4 9 0)
    by (unfold missing; simpl; right; left; reflexivity).
  split; [exact Hw | ]. split; [exact Hm | ].
  destruct (missing_tetra_is_skipped Toy.Tetra Toy.Tetra_Init Toy.CellBoundsAt
              Toy.Volume Toy.Contains Toy.MinMaxLeg Toy.Distribute Toy.Gen
              Toy.RandomSample Toy.TetraIdxs_Init Toy.Intersect
              toy_cellCenter (toy_mcarlo Density.Flat) toy_sobol
              [grid4] 6%float [5; 9] [] 9 0 work_before_9_0 work_after_9_0
              grid4_state Hw Hm Hm Hm)
    as (_ & Hcc & Hmc & _).
  split; [exact Hcc | exact Hmc].
Defined.

(** The whole CellCenter call on ids 5 and 9: the six tetrahedra of id 5
    deposit (each puts 1/64 into each of the 64 cells), the six of id 9
    are reported and skipped, and the call returns. *)
Example cellCenter_run_with_missing :
  option_map (fun st => (Density.heap st, length (Density.diags st)))
    (Density.cellCenter_Interpolate Toy.Tetra Toy.Tetra_Init Toy.CellBoundsAt
       Toy.Volume Toy.Contains Toy.TetraIdxs_Init Toy.Intersect toy_cellCenter
       [grid4] 6%float [5; 9] [] grid4_state)
  = Some ([repeat 0.09375%float 64], 6%nat).
Proof. vm_compute. reflexivity. Qed.

(** ** Monte Carlo: how many points, and where they go *)

(** The one law of the comparisons that the selector needs: a number that
    is less than another is not greater than or equal to it. *)
Class FloatOrder (F : Type) {FO : FloatOps F} : Prop :=
  flt_excludes_ge : forall x y : F, fltb x y = true -> fleb y x = false.

Lemma SFltb_excludes_ge (a b : spec_float) :
  SFltb a b = true -> SFleb b a = false.
Proof.
  unfold SFltb, SFleb, SFcompare.
  destruct a as [sa | sa | | sa ma ea], b as [sb | sb | | sb mb eb];
    try destruct sa; try destruct sb; simpl; try discriminate;
    try reflexivity.
  all: rewrite (Z.compare_antisym ea eb);
    destruct (ea ?= eb)%Z; simpl; try discriminate; try reflexivity.
  all: pose proof (Pos.compare_cont_antisym ma mb Eq) as H; simpl in H;
    rewrite <- H;
    destruct (Pos.compare_cont Eq ma mb); simpl; try discriminate; reflexivity.
Qed.

#[global] Instance binary64_order : @FloatOrder float Binary64.ops.
Proof.
  intros x y. change (PrimFloat.ltb x y = true -> PrimFloat.leb y x = false).
  rewrite ltb_spec, leb_spec. apply SFltb_excludes_ge.
Qed.

#[global] Instance exact_order : @FloatOrder Q Exact.ops.
Proof.
  intros x y. change (Exact.Qltb x y = true -> Qle_bool y x = false).
  unfold Exact.Qltb. destruct (Qle_bool y x); [discriminate | reflexivity].
Qed.

Lemma into_slice_length {A : Type} (old new : list A) :
  length (Density.into_slice old new) = length old.
Proof.
  unfold Density.into_slice.
  rewrite length_firstn, length_app, length_skipn. lia.
Qed.

Section SelectFacts.

Import RenderGeom Density.

Context {F : Type} {FO : FloatOps F} {FOrd : FloatOrder F}.

Local Abbreviation Grid := (@Density.Grid F).
Local Abbreviation State := (@Density.State F).
Local Abbreviation Vec := (@Density.Vec F).

Variable Tetra : Type.
Variable Tetra_Init : Vec -> Vec -> Vec -> Vec -> F -> Tetra.
Variable CellBoundsAt : Tetra -> F -> CellBounds.
Variable MinMaxLeg : Tetra -> F * F.
Variable Gen : Type.
Variable RandomSample : Tetra -> Gen -> nat -> Gen * list Vec.
Variable TetraIdxs_Init : Z -> Z -> Z -> Z -> Z * Z * Z * Z.
Variable Intersect : RenderGeom.Grid -> CellBounds -> RenderGeom.Grid -> bool.

Local Abbreviation Mc := (@Density.mcarlo F Tetra Gen).

(** The interpolator after [intr.tet.Init(...)]. *)
Definition with_tet (intr : Mc) (tet : Tetra) :
    Mc :=
  {| mc_subIntr := mc_subIntr _ _ intr; mc_man := mc_man _ _ intr;
     mc_countWidth := mc_countWidth _ _ intr; mc_steps := mc_steps _ _ intr;
     mc_gen := mc_gen _ _ intr; mc_pointSelect := mc_pointSelect _ _ intr;
     mc_tet := tet; mc_randBuf := mc_randBuf _ _ intr;
     mc_vecBuf := mc_vecBuf _ _ intr |}.

(** The points that RandomSample leaves in [vecBuf[0:n]]. *)
Definition sampled (intr : Mc) (tet : Tetra) (n : nat) :
    list Vec :=
  into_slice (firstn n (mc_vecBuf _ _ intr))
             (snd (RandomSample tet (mc_gen _ _ intr) n)).

Lemma pointSelect_cases (intr : Mc) (cb : CellBounds) :
  pointSelect Tetra MinMaxLeg Gen intr cb =
    match mc_pointSelect _ _ intr with
    | Flat => mc_steps _ _ intr
    | PropToCells =>
        if fleb f0251 (fst (MinMaxLeg (mc_tet _ _ intr)))
        then mc_steps _ _ intr else 0
    end.
Proof.
  unfold pointSelect, flat, propToCell.
  destruct (mc_pointSelect _ _ intr); [reflexivity | ].
  destruct (MinMaxLeg (mc_tet _ _ intr)) as [mn mx]. reflexivity.
Qed.

(** One tetrahedron whose four particles are present, with the buffers
    as MonteCarlo allocates them: how many points the selector returns, and
    what the body of the loops does with them. *)
Lemma mcarlo_tetra_selection (intr : Mc) (g0 : Grid) (gs : list Grid)
    (mass : F) (id dir a0 a1 a2 a3 : Z) (p0 p1 p2 p3 : Vec) (st : State) :
  TetraIdxs_Init id (mc_countWidth _ _ intr) 1 dir = (a0, a1, a2, a3) ->
  mc_man _ _ intr a0 = Some p0 -> mc_man _ _ intr a1 = Some p1 ->
  mc_man _ _ intr a2 = Some p2 -> mc_man _ _ intr a3 = Some p3 ->
  mc_subIntr _ _ intr = ngp_Interpolate ->
  0 <= mc_steps _ _ intr -> 3 * mc_steps _ _ intr <= int_max ->
  Z.of_nat (length (mc_vecBuf _ _ intr)) = mc_steps _ _ intr ->
  Z.of_nat (length (mc_randBuf _ _ intr)) = 3 * mc_steps _ _ intr ->
  let tet := Tetra_Init p0 p1 p2 p3 (BoxWidth g0) in
  let cb := CellBoundsAt tet (CellWidth g0) in
  let pts := pointSelect Tetra MinMaxLeg Gen (with_tet intr tet) cb in
  let step :=
    mcarlo_step Tetra Tetra_Init CellBoundsAt MinMaxLeg Gen RandomSample
      TetraIdxs_Init Intersect (g0 :: gs) mass id dir intr st in
  (mc_pointSelect _ _ intr = Flat -> pts = mc_steps _ _ intr) /\
  (mc_pointSelect _ _ intr = PropToCells ->
   fleb f0251 (fst (MinMaxLeg tet)) = true -> pts = mc_steps _ _ intr) /\
  (mc_pointSelect _ _ intr = PropToCells ->
   fleb f0251 (fst (MinMaxLeg tet)) = false -> pts = 0) /\
  (mc_pointSelect _ _ intr = PropToCells ->
   fltb (fst (MinMaxLeg tet)) f0251 = true -> pts = 0) /\
  (pts = 0 -> step = Some (with_tet intr tet, st)) /\
  (pts <> 0 ->
   pts = mc_steps _ _ intr /\
   length (sampled intr tet (Z.to_nat pts)) = Z.to_nat pts /\
   option_map snd step =
     ngp_Interpolate
       (filter (fun g => Intersect (G g) cb (BG g)) (g0 :: gs))
       (fdiv (fdiv mass (fofZ pts)) (fofZ 6)) []
       (sampled intr tet (Z.to_nat pts)) st).
Proof.
  intros Hidx H0 H1 H2 H3 Hsub Hsteps Hmax Hvec Hrand tet cb pts step.
  assert (Hpts : pts = match mc_pointSelect _ _ intr with
                       | Flat => mc_steps _ _ intr
                       | PropToCells =>
                           if fleb f0251 (fst (MinMaxLeg tet))
                           then mc_steps _ _ intr else 0
                       end).
  { unfold pts. rewrite pointSelect_cases. reflexivity. }
  split; [intros E; rewrite Hpts, E; reflexivity | ].
  split; [intros E E'; rewrite Hpts, E, E'; reflexivity | ].
  split; [intros E E'; rewrite Hpts, E, E'; reflexivity | ].
  split.
  { intros E E'. apply flt_excludes_ge in E'.
    rewrite Hpts, E, E'. reflexivity. }
  assert (Hstep : step =
            if pts =? 0 then Some (with_tet intr tet, st)
            else
              if (0 <=? pts) &&
                 (pts <=? Z.of_nat (length (mc_vecBuf _ _ intr))) &&
                 (0 <=? int_mul 3 pts) &&
                 (int_mul 3 pts <=? Z.of_nat (length (mc_randBuf _ _ intr)))
              then
                match mc_subIntr _ _ intr (intersecting Intersect cb (g0 :: gs))
                        (fdiv (fdiv mass (fofZ pts)) (fofZ 6)) []
                        (sampled intr tet (Z.to_nat pts)) st with
                | Some st' =>
                    Some ({| mc_subIntr := mc_subIntr _ _ intr;
                             mc_man := mc_man _ _ intr;
                             mc_countWidth := mc_countWidth _ _ intr;
                             mc_steps := mc_steps _ _ intr;
                             mc_gen :=
                               fst (RandomSample tet (mc_gen _ _ intr)
                                                 (Z.to_nat pts));
                             mc_pointSelect := mc_pointSelect _ _ intr;
                             mc_tet := tet;
                             mc_randBuf := mc_randBuf _ _ intr;
                             mc_vecBuf :=
                               sampled intr tet (Z.to_nat pts) ++
                               skipn (Z.to_nat pts) (mc_vecBuf _ _ intr) |},
                          st')
                | None => None
                end
              else None).
  { unfold step, mcarlo_step. rewrite Hidx, H0, H1, H2, H3. cbv zeta.
    fold tet. fold cb. fold (with_tet intr tet). fold pts.
    destruct (pts =? 0); [reflexivity | ].
    destruct (_ && _); [ | reflexivity].
    unfold sampled. cbn [mc_gen mc_vecBuf with_tet].
    destruct (RandomSample tet (mc_gen _ _ intr) (Z.to_nat pts)) as [gen' vs].
    reflexivity. }
  split.
  - intros E. rewrite Hstep, E. reflexivity.
  - intros Hne.
    assert (Epts : pts = mc_steps _ _ intr).
    { rewrite Hpts in *. destruct (mc_pointSelect _ _ intr); [reflexivity | ].
      destruct (fleb f0251 (fst (MinMaxLeg tet))); [reflexivity | ].
      contradiction Hne; reflexivity. }
    split; [exact Epts | ].
    split.
    + unfold sampled. rewrite into_slice_length, length_firstn. lia.
    + rewrite Hstep. apply Z.eqb_neq in Hne. rewrite Hne.
      assert (Emul : int_mul 3 pts = 3 * pts).
      { unfold int_mul. apply wrap_int_id.
        unfold in_int, int_min, int_max in *. lia. }
      rewrite Emul.
      assert (Hrange : (0 <=? pts) &&
                       (pts <=? Z.of_nat (length (mc_vecBuf _ _ intr))) &&
                       (0 <=? 3 * pts) &&
                       (3 * pts <=? Z.of_nat (length (mc_randBuf _ _ intr)))
                       = true).
      { rewrite !andb_true_iff, !Z.leb_le. lia. }
      rewrite Hrange, Hsub, intersecting_filter.
      destruct (ngp_Interpolate _ _ _ _ st); reflexivity.
Qed.

(** What the spec says mcarlo.Interpolate does with one tetrahedron,
    "select pts via a point-selector policy, sample pts uniformly
    distributed points inside the tetra, and forward them (with ptMass =
    mass / pts / 6) to the NGP sub-interpolator against only those target
    grids whose intersect test succeeded", with "Flat returns a fixed
    steps; PropToCells returns steps if the tetra's minimum edge >= 0.251
    box units and 0 otherwise", after the preamble that skips a tetrahedron
    with a missing particle after a diagnostic.  Of the interpolator only
    the generator goes from one tetrahedron to the next. *)
Definition mcarlo_tetra_spec (man : @ParticleManager F) (countWidth steps : Z)
    (flag : PointSelectorFlag) (gs : list Grid) (mass : F) (id dir : Z)
    (gen : Gen) (st : State) : option (Gen * State) :=
  let '(a0, a1, a2, a3) := TetraIdxs_Init id countWidth 1 dir in
  match man a0, man a1, man a2, man a3 with
  | Some p0, Some p1, Some p2, Some p3 =>
      match gs with
      | [] => None
      | g0 :: _ =>
          let tet := Tetra_Init p0 p1 p2 p3 (BoxWidth g0) in
          let cb := CellBoundsAt tet (CellWidth g0) in
          let pts :=
            match flag with
            | Flat => steps
            | PropToCells =>
                if fleb f0251 (fst (MinMaxLeg tet)) then steps else 0
            end in
          if pts =? 0 then Some (gen, st)
          else
            let '(gen', points) := RandomSample tet gen (Z.to_nat pts) in
            match ngp_Interpolate
                    (filter (fun g => Intersect (G g) cb (BG g)) gs)
                    (fdiv (fdiv mass (fofZ pts)) (fofZ 6)) [] points st with
            | Some st' => Some (gen', st')
            | None => None
            end
      end
  | p0, p1, p2, p3 => Some (gen, log_missing p0 p1 p2 p3 st)
  end.

(** The whole call in the spec's words: every id, every one of the six
    tetrahedra of its cell. *)
Definition mcarlo_spec (man : @ParticleManager F) (countWidth steps : Z)
    (flag : PointSelectorFlag) (gs : list Grid) (mass : F) (ids : list Z)
    (gen : Gen) (st : State) : option (Gen * State) :=
  foldM ids
    (fun id =>
       foldM dirs (mcarlo_tetra_spec man countWidth steps flag gs mass id))
    gen st.

(** An interpolator as MonteCarlo made it and as a call leaves it: NGP as
    the sub-interpolator, the settings of [intr0], the two buffers with
    [steps] and [3 * steps] elements. *)
Definition mc_ready (intr0 intr : Mc) : Prop :=
  mc_subIntr _ _ intr = ngp_Interpolate /\
  mc_man _ _ intr = mc_man _ _ intr0 /\
  mc_countWidth _ _ intr = mc_countWidth _ _ intr0 /\
  mc_steps _ _ intr = mc_steps _ _ intr0 /\
  mc_pointSelect _ _ intr = mc_pointSelect _ _ intr0 /\
  Z.of_nat (length (mc_vecBuf _ _ intr)) = mc_steps _ _ intr0 /\
  Z.of_nat (length (mc_randBuf _ _ intr)) = 3 * mc_steps _ _ intr0.

(** Two runs that agree: both panic, or both return, with interpolators
    that are ready, the same generator and the same state. *)
Definition mc_agree (intr0 : Mc) (code : option (Mc * State))
    (spec : option (Gen * State)) : Prop :=
  match code, spec with
  | Some (intr', st'), Some (gen', st'') =>
      mc_ready intr0 intr' /\ mc_gen _ _ intr' = gen' /\ st' = st''
  | None, None => True
  | _, _ => False
  end.

Lemma into_slice_exact {A : Type} (buf new : list A) (n : nat) :
  (n <= length buf)%nat -> length new = n ->
  into_slice (firstn n buf) new = new.
Proof.
  intros Hn Hnew. unfold into_slice.
  rewrite length_firstn, Nat.min_l by exact Hn.
  rewrite skipn_all2 by (rewrite length_firstn; lia).
  rewrite app_nil_r. apply firstn_all2. lia.
Qed.

Lemma mcarlo_step_agrees (intr0 intr : Mc) (gs : list Grid) (mass : F)
    (id dir : Z) (st : State) :
  (forall tet gen n, length (snd (RandomSample tet gen n)) = n) ->
  0 <= mc_steps _ _ intr0 -> 3 * mc_steps _ _ intr0 <= int_max ->
  mc_ready intr0 intr ->
  mc_agree intr0
    (mcarlo_step Tetra Tetra_Init CellBoundsAt MinMaxLeg Gen RandomSample
       TetraIdxs_Init Intersect gs mass id dir intr st)
    (mcarlo_tetra_spec (mc_man _ _ intr0) (mc_countWidth _ _ intr0)
       (mc_steps _ _ intr0) (mc_pointSelect _ _ intr0) gs mass id dir
       (mc_gen _ _ intr) st).
Proof.
  intros Hfill Hsteps Hmax (Hsub & Hman & Hcw & Hst & Hsel & Hvec & Hrand).
  unfold mcarlo_step, mcarlo_tetra_spec. rewrite Hcw, Hman.
  destruct (TetraIdxs_Init id (mc_countWidth _ _ intr0) 1 dir)
    as [[[a0 a1] a2] a3].
  assert (Hskip : forall p0 p1 p2 p3,
            mc_agree intr0 (Some (intr, log_missing p0 p1 p2 p3 st))
                     (Some (mc_gen _ _ intr, log_missing p0 p1 p2 p3 st))).
  { intros. cbn. repeat split; assumption. }
  destruct (mc_man _ _ intr0 a0) as [p0 | ]; [ | apply Hskip].
  destruct (mc_man _ _ intr0 a1) as [p1 | ]; [ | apply Hskip].
  destruct (mc_man _ _ intr0 a2) as [p2 | ]; [ | apply Hskip].
  destruct (mc_man _ _ intr0 a3) as [p3 | ]; [ | apply Hskip].
  destruct gs as [ | g0 gs]; [exact I | ].
  cbv zeta.
  set (tet := Tetra_Init p0 p1 p2 p3 (BoxWidth g0)).
  set (cb := CellBoundsAt tet (CellWidth g0)).
  fold (with_tet intr tet).
  rewrite pointSelect_cases. cbn [with_tet mc_pointSelect mc_steps mc_tet].
  rewrite Hsel, Hst.
  set (pts := match mc_pointSelect _ _ intr0 with
              | Flat => mc_steps _ _ intr0
              | PropToCells =>
                  if fleb f0251 (fst (MinMaxLeg tet))
                  then mc_steps _ _ intr0 else 0
              end).
  assert (Hpts : pts = 0 \/ pts = mc_steps _ _ intr0).
  { unfold pts. destruct (mc_pointSelect _ _ intr0); [right; reflexivity | ].
    destruct (fleb f0251 (fst (MinMaxLeg tet))); [right | left]; reflexivity. }
  destruct (Z.eqb_spec pts 0) as [E0 | E0].
  { cbn. repeat split; assumption. }
  destruct Hpts as [Hpts | Hpts]; [contradiction | ].
  assert (Emul : int_mul 3 pts = 3 * pts).
  { unfold int_mul. apply wrap_int_id.
    unfold in_int, int_min, int_max in *. lia. }
  rewrite Emul. cbn [mc_vecBuf mc_randBuf mc_gen mc_subIntr].
  assert (Hrange : (0 <=? pts) &&
                   (pts <=? Z.of_nat (length (mc_vecBuf _ _ intr))) &&
                   (0 <=? 3 * pts) &&
                   (3 * pts <=? Z.of_nat (length (mc_randBuf _ _ intr)))
                   = true).
  { rewrite !andb_true_iff, !Z.leb_le. lia. }
  rewrite Hrange.
  pose proof (Hfill tet (mc_gen _ _ intr) (Z.to_nat pts)) as Hlen.
  destruct (RandomSample tet (mc_gen _ _ intr) (Z.to_nat pts)) as [gen' vs].
  cbn [snd] in Hlen.
  rewrite (into_slice_exact (mc_vecBuf _ _ intr) vs (Z.to_nat pts))
    by (lia || exact Hlen).
  rewrite Hsub, intersecting_filter.
  destruct (ngp_Interpolate _ _ _ _ st) as [st' | ]; [ | exact I].
  unfold mc_agree, mc_ready.
  cbn [mc_subIntr mc_man mc_countWidth mc_steps mc_gen mc_pointSelect
       mc_vecBuf mc_randBuf].
  repeat split; try assumption; try reflexivity.
  rewrite length_app, length_skipn. lia.
Qed.

Lemma mcarlo_run_agrees {A : Type} (intr0 : Mc) (l : list A)
    (code : A -> Mc -> State -> option (Mc * State))
    (spec : A -> Gen -> State -> option (Gen * State)) :
  (forall x intr st, mc_ready intr0 intr ->
     mc_agree intr0 (code x intr st) (spec x (mc_gen _ _ intr) st)) ->
  forall intr st, mc_ready intr0 intr ->
    mc_agree intr0 (foldM l code intr st) (foldM l spec (mc_gen _ _ intr) st).
Proof.
  intros Hstep. induction l as [ | x l IH]; intros intr st Hr.
  - cbn [foldM mc_agree]. split; [exact Hr | split; reflexivity].
  - cbn [foldM]. specialize (Hstep x intr st Hr). unfold mc_agree in Hstep.
    destruct (code x intr st) as [[intr1 st1] | ],
             (spec x (mc_gen _ _ intr) st) as [[gen1 st1'] | ];
      try contradiction; [ | exact I].
    destruct Hstep as (Hr1 & <- & <-). apply IH, Hr1.
Qed.

(** C7: for an interpolator with the buffers as MonteCarlo allocates
    them and NGP as its sub-interpolator.  For a tetrahedron whose four
    particles are present: Flat selects [steps] points; PropToCells selects
    [steps] when [min >= 0.251] holds for the minimum edge length and 0
    when it does not, in particular when the minimum edge length is less
    than 0.251; with 0 points the body of the loops leaves the state as it
    was (nothing is deposited); otherwise the state it leaves is the one
    the NGP sub-interpolator leaves when it is called with the grids that
    passed the Intersect test against the cell bounds (in their order), the
    mass [mass / pts / 6], and the [pts] points that RandomSample left in
    the buffer.  For the whole call, when RandomSample fills the slice it
    is given: mcarlo.Interpolate panics exactly when the spec's description
    does, and otherwise leaves the state and the generator that the
    description leaves, for every list of ids. *)
Theorem mcarlo_point_selection (intr : Mc) :
  mc_subIntr _ _ intr = ngp_Interpolate ->
  0 <= mc_steps _ _ intr -> 3 * mc_steps _ _ intr <= int_max ->
  Z.of_nat (length (mc_vecBuf _ _ intr)) = mc_steps _ _ intr ->
  Z.of_nat (length (mc_randBuf _ _ intr)) = 3 * mc_steps _ _ intr ->
  (forall (g0 : Grid) (gs : list Grid) (mass : F) (id dir a0 a1 a2 a3 : Z)
          (p0 p1 p2 p3 : Vec) (st : State),
     TetraIdxs_Init id (mc_countWidth _ _ intr) 1 dir = (a0, a1, a2, a3) ->
     mc_man _ _ intr a0 = Some p0 -> mc_man _ _ intr a1 = Some p1 ->
     mc_man _ _ intr a2 = Some p2 -> mc_man _ _ intr a3 = Some p3 ->
     let tet := Tetra_Init p0 p1 p2 p3 (BoxWidth g0) in
     let cb := CellBoundsAt tet (CellWidth g0) in
     let pts := pointSelect Tetra MinMaxLeg Gen (with_tet intr tet) cb in
     let step :=
       mcarlo_step Tetra Tetra_Init CellBoundsAt MinMaxLeg Gen RandomSample
         TetraIdxs_Init Intersect (g0 :: gs) mass id dir intr st in
     (mc_pointSelect _ _ intr = Flat -> pts = mc_steps _ _ intr) /\
     (mc_pointSelect _ _ intr = PropToCells ->
      fleb f0251 (fst (MinMaxLeg tet)) = true -> pts = mc_steps _ _ intr) /\
     (mc_pointSelect _ _ intr = PropToCells ->
      fleb f0251 (fst (MinMaxLeg tet)) = false -> pts = 0) /\
     (mc_pointSelect _ _ intr = PropToCells ->
      fltb (fst (MinMaxLeg tet)) f0251 = true -> pts = 0) /\
     (pts = 0 -> step = Some (with_tet intr tet, st)) /\
     (pts <> 0 ->
      pts = mc_steps _ _ intr /\
      length (sampled intr tet (Z.to_nat pts)) = Z.to_nat pts /\
      option_map snd step =
        ngp_Interpolate
          (filter (fun g => Intersect (G g) cb (BG g)) (g0 :: gs))
          (fdiv (fdiv mass (fofZ pts)) (fofZ 6)) []
          (sampled intr tet (Z.to_nat pts)) st)) /\
  ((forall tet gen n, length (snd (RandomSample tet gen n)) = n) ->
   forall (gs : list Grid) (mass : F) (ids : list Z) (xs : list Vec)
          (st : State),
     option_map (fun r => (mc_gen _ _ (fst r), snd r))
       (mcarlo_Interpolate Tetra Tetra_Init CellBoundsAt MinMaxLeg Gen
          RandomSample TetraIdxs_Init Intersect intr gs mass ids xs st) =
     mcarlo_spec (mc_man _ _ intr) (mc_countWidth _ _ intr)
       (mc_steps _ _ intr) (mc_pointSelect _ _ intr) gs mass ids
       (mc_gen _ _ intr) st).
Proof.
  intros Hsub Hsteps Hmax Hvec Hrand. split.
  - intros g0 gs mass id dir a0 a1 a2 a3 p0 p1 p2 p3 st Hidx H0 H1 H2 H3.
    apply (mcarlo_tetra_selection intr g0 gs mass id dir a0 a1 a2 a3
             p0 p1 p2 p3 st); assumption.
  - intros Hfill gs mass ids xs st.
    assert (Hready : mc_ready intr intr) by (repeat split; assumption).
    pose proof (mcarlo_run_agrees intr ids
                  (fun id =>
                     foldM dirs
                       (fun dir =>
                          mcarlo_step Tetra Tetra_Init CellBoundsAt MinMaxLeg
                            Gen RandomSample TetraIdxs_Init Intersect
                            gs mass id dir))
                  (fun id =>
                     foldM dirs
                       (mcarlo_tetra_spec (mc_man _ _ intr)
                          (mc_countWidth _ _ intr) (mc_steps _ _ intr)
                          (mc_pointSelect _ _ intr) gs mass id))) as Hrun.
    unfold mcarlo_Interpolate, mcarlo_spec.
    specialize (Hrun
      (fun id i s Hr =>
         mcarlo_run_agrees intr dirs _ _
           (fun dir i' s' Hr' =>
              mcarlo_step_agrees intr i' gs mass id dir s' Hfill Hsteps Hmax Hr')
           i s Hr)
      intr st Hready).
    unfold mc_agree in Hrun.
    destruct (foldM ids _ intr st) as [[intr' st'] | ],
             (foldM ids _ (mc_gen _ _ intr) st) as [[gen' st''] | ];
      try contradiction; [ | reflexivity].
    destruct Hrun as (_ & <- & <-). reflexivity.
Qed.

End SelectFacts.

Lemma mcarlo_point_selection_witness :
  Toy.TetraIdxs_Init 5 (Density.mc_countWidth _ _ (toy_mcarlo Density.PropToCells))
                     1 0 = (5, 6, 7, 8) /\
  Toy.man 5 = Some (0, 0, 0)%float /\ Toy.man 8 = Some (0, 0, 0)%float /\
  fleb f0251 (fst (Toy.MinMaxLeg tt)) = true /\
  (forall tet gen n, length (snd (Toy.RandomSample tet gen n)) = n) /\
  Density.pointSelect Toy.Tetra Toy.MinMaxLeg Toy.Gen
    (with_tet Toy.Tetra Toy.Gen (toy_mcarlo Density.PropToCells) tt)
    (Toy.CellBoundsAt tt (Density.CellWidth grid4)) = 2 /\
  option_map snd
    (Density.mcarlo_step Toy.Tetra Toy.Tetra_Init Toy.CellBoundsAt
       Toy.MinMaxLeg Toy.Gen Toy.RandomSample Toy.TetraIdxs_Init Toy.Intersect
       [grid4] 6%float 5 0 (toy_mcarlo Density.PropToCells) grid4_state) =
  Density.ngp_Interpolate
    (filter (fun g => Toy.Intersect (Density.G g)
                        (Toy.CellBoundsAt tt (Density.CellWidth grid4))
                        (Density.BG g)) [grid4])
    (fdiv (fdiv 6%float (fofZ 2)) (fofZ 6)) []
    (sampled Toy.Tetra Toy.Gen Toy.RandomSample
             (toy_mcarlo Density.PropToCells) tt (Z.to_nat 2))
    grid4_state /\
  option_map (fun r => (Density.mc_gen _ _ (fst r), snd r))
    (Density.mcarlo_Interpolate Toy.Tetra Toy.Tetra_Init Toy.CellBoundsAt
       Toy.MinMaxLeg Toy.Gen Toy.RandomSample Toy.TetraIdxs_Init Toy.Intersect
       (toy_mcarlo Density.PropToCells) [grid4] 6%float [5] [] grid4_state) =
  mcarlo_spec Toy.Tetra Toy.Tetra_Init Toy.CellBoundsAt Toy.MinMaxLeg Toy.Gen
    Toy.RandomSample Toy.TetraIdxs_Init Toy.Intersect
    Toy.man 4 2 Density.PropToCells [grid4] 6%float [5] tt grid4_state /\
  option_map (fun r => Density.heap (snd r))
    (Density.mcarlo_Interpolate Toy.Tetra Toy.Tetra_Init Toy.CellBoundsAt
       Toy.MinMaxLeg Toy.Gen Toy.RandomSample Toy.TetraIdxs_Init Toy.Intersect
       (toy_mcarlo Density.PropToCells) [grid4] 6%float [5] [] grid4_state) =
  Some [list_set 21 384%float (zeros 64)].
Proof.
  assert (Hidx : Toy.TetraIdxs_Init 5
                   (Density.mc_countWidth _ _ (toy_mcarlo Density.PropToCells))
                   1 0 = (5, 6, 7, 8)) by reflexivity.
  assert (Hp : forall a, In a [5; 6; 7; 8] -> Toy.man a = Some (0, 0, 0)%float).
  { intros a [<- | [<- | [<- | [<- | []]]]]; reflexivity. }
  assert (Hleg : fleb f0251 (fst (Toy.MinMaxLeg tt)) = true)
    by (vm_compute; reflexivity).
  assert (Hfill : forall tet gen n,
            length (snd (Toy.RandomSample tet gen n)) = n).
  { intros tet gen n. apply repeat_length. }
  split; [exact Hidx | ].
  split; [apply Hp; simpl; auto | ].
  split; [apply Hp; simpl; auto | ].
  split; [exact Hleg | ].
  split; [exact Hfill | ].
  destruct (mcarlo_point_selection Toy.Tetra Toy.Tetra_Init Toy.CellBoundsAt
              Toy.MinMaxLeg Toy.Gen Toy.RandomSample Toy.TetraIdxs_Init
              Toy.Intersect (toy_mcarlo Density.PropToCells) eq_refl)
    as (Htetra & Hcall).
  - simpl. lia.
  - unfold int_max. simpl. lia.
  - reflexivity.
  - reflexivity.
  - destruct (Htetra grid4 [] 6%float 5 0 5 6 7 8
                (0, 0, 0)%float (0, 0, 0)%float (0, 0, 0)%float (0, 0, 0)%float
                grid4_state Hidx
                (Hp 5 (or_introl eq_refl))
                (Hp 6 (or_intror (or_introl eq_refl)))
                (Hp 7 (or_intror (or_intror (or_introl eq_refl))))
                (Hp 8 (or_intror (or_intror (or_intror (or_introl eq_refl))))))
      as (_ & Hsel & _ & _ & _ & Hrun).
    pose proof (Hsel eq_refl Hleg) as Hpts.
    split; [exact Hpts | ].
    cbv zeta in Hrun. rewrite Hpts in Hrun.
    destruct Hrun as (_ & _ & Hrun); [discriminate | ].
    split; [exact Hrun | ].
    split; [exact (Hcall Hfill [grid4] 6%float [5] [] grid4_state) | ].
    vm_compute. reflexivity.
Defined.

(** That step, evaluated: two points at (0.375, 0.375,
    0.375), each of mass 6/2/6 = 0.5, put 2 * 0.5/0.015625 = 64 into cell
    (1,1,1). *)
Example mcarlo_step_run :
  option_map (fun r => Density.heap (snd r))
    (Density.mcarlo_step Toy.Tetra Toy.Tetra_Init Toy.CellBoundsAt
       Toy.MinMaxLeg Toy.Gen Toy.RandomSample Toy.TetraIdxs_Init Toy.Intersect
       [grid4] 6%float 5 0 (toy_mcarlo Density.PropToCells) grid4_state)
  = Some [list_set 21 64%float (zeros 64)].
Proof. vm_compute. reflexivity. Qed.

(** ** Mass conservation, in exact arithmetic *)

Section MassFacts.

Import RenderGeom Density.

Local Open Scope Q_scope.

Local Abbreviation Grid := (@Density.Grid Q).
Local Abbreviation Heap := (@Density.Heap Q).
Local Abbreviation State := (@Density.State Q).
Local Abbreviation Vec := (@Density.Vec Q).

(** The sum of the elements of one array, and of all arrays of the store. *)
Definition array_sum (a : list Q) : Q := fold_right Qplus 0 a.
Definition heap_sum (h : Heap) : Q := fold_right (fun a s => array_sum a + s) 0 h.

(** A deposit: a cell and the amount offered to it. *)
Definition Deposit : Type := (Z * Z * Z * Q)%type.

Definition in_window (g : Grid) (d : Deposit) : bool :=
  let '(i, j, k, _) := d in BoundsCheck (G g) i j k.

(** The number of grids whose window holds the cell of the deposit. *)
Definition covers (gs : list Grid) (d : Deposit) : nat :=
  length (filter (fun g => in_window g d) gs).

(** What one grid takes of a list of deposits, and what the deposits add
    up to. *)
Definition taken (g : Grid) (ds : list Deposit) : Q :=
  fold_right (fun d s => (if in_window g d then snd d else 0) + s) 0 ds.
Definition offered (ds : list Deposit) : Q :=
  fold_right (fun d s => snd d + s) 0 ds.

Lemma array_sum_set (a : list Q) (n : nat) (old v : Q) :
  nth_error a n = Some old ->
  array_sum (list_set n v a) == array_sum a + (v - old).
Proof.
  revert n. induction a as [ | x a IH]; intros [ | n] H; simpl in *;
    try discriminate.
  - injection H as ->. ring.
  - rewrite (IH n H). ring.
Qed.

Lemma heap_sum_set (h : Heap) (r : nat) (a a' : list Q) :
  nth_error h r = Some a ->
  heap_sum (list_set r a' h) == heap_sum h + (array_sum a' - array_sum a).
Proof.
  revert r. induction h as [ | x h IH]; intros [ | r] H; simpl in *;
    try discriminate.
  - injection H as ->. ring.
  - rewrite (IH r H). ring.
Qed.

(** One [incr]: the store gains the amount when the cell is in the window,
    and nothing otherwise. *)
Lemma incr_sum (g : Grid) (i j k : Z) (frac : Q) (st : State) :
  grid_ok (heap st) g ->
  exists st',
    incr g i j k frac st = Some st' /\
    shape (heap st') = shape (heap st) /\
    heap_sum (heap st') ==
      heap_sum (heap st) + (if BoundsCheck (G g) i j k then frac else 0).
Proof.
  intros (a & Ha & Hl). unfold incr, IdxCheck.
  destruct (BoundsCheck (G g) i j k) eqn:Hb.
  - pose proof (Idx_in_range _ _ _ _ Hb) as Hr.
    unfold rhos_add. rewrite Ha.
    assert (Hrange : ((0 <=? Idx (G g) i j k)%Z &&
                      (Idx (G g) i j k <? Z.of_nat (length a))%Z)%bool = true).
    { apply andb_true_intro. rewrite Z.leb_le, Z.ltb_lt. lia. }
    rewrite Hrange.
    destruct (nth_error a (Z.to_nat (Idx (G g) i j k))) as [old | ] eqn:Eold.
    2:{ apply nth_error_None in Eold. lia. }
    eexists. split; [reflexivity | ]. simpl. split.
    + apply shape_list_set with (a := a); [assumption | ].
      apply list_set_length.
    + rewrite (heap_sum_set _ _ a _ Ha).
      rewrite (array_sum_set _ _ old _ Eold). ring.
  - exists st. split; [reflexivity | ]. split; [reflexivity | ]. ring.
Qed.

Lemma taken_cons (g : Grid) (d : Deposit) (ds : list Deposit) :
  taken g (d :: ds) = (if in_window g d then snd d else 0) + taken g ds.
Proof. reflexivity. Qed.

Lemma offered_cons (d : Deposit) (ds : list Deposit) :
  offered (d :: ds) = snd d + offered ds.
Proof. reflexivity. Qed.

Lemma covers_cons (g : Grid) (gs : list Grid) (d : Deposit) :
  covers (g :: gs) d =
  ((if in_window g d then 1 else 0) + covers gs d)%nat.
Proof.
  unfold covers. cbn [filter]. destruct (in_window g d); reflexivity.
Qed.

(** The loop that offers the deposits to one grid. *)
Lemma offer_sum (g : Grid) (ds : list Deposit) (st : State) :
  grid_ok (heap st) g ->
  exists st',
    forM ds (fun o : Deposit =>
               let '(i, j, k, over) := o in incr g i j k over) st = Some st' /\
    shape (heap st') = shape (heap st) /\
    heap_sum (heap st') == heap_sum (heap st) + taken g ds.
Proof.
  revert st. induction ds as [ | [[[i j] k] over] ds IH]; intros st Hok.
  - exists st. simpl. split; [reflexivity | ]. split; [reflexivity | ring].
  - destruct (incr_sum g i j k over st Hok) as (st1 & Hrun1 & Hs1 & Hsum1).
    destruct (IH st1 (grid_ok_shape _ _ _ Hs1 Hok))
      as (st2 & Hrun2 & Hs2 & Hsum2).
    exists st2. cbn [forM]. rewrite Hrun1. split; [exact Hrun2 | ].
    split; [congruence | ].
    rewrite Hsum2, Hsum1, taken_cons. cbn [in_window snd]. ring.
Qed.

(** The loop over the grids: the store gains what each grid takes. *)
Lemma offer_all_sum (gs : list Grid) (ds : list Deposit) (st : State) :
  (forall g, In g gs -> grid_ok (heap st) g) ->
  exists st',
    forM gs (fun g =>
               forM ds (fun o : Deposit =>
                          let '(i, j, k, over) := o in incr g i j k over))
         st = Some st' /\
    shape (heap st') = shape (heap st) /\
    heap_sum (heap st') ==
      heap_sum (heap st) + fold_right (fun g s => taken g ds + s) 0 gs.
Proof.
  revert st. induction gs as [ | g gs IH]; intros st Hok.
  - exists st. simpl. split; [reflexivity | ]. split; [reflexivity | ring].
  - destruct (offer_sum g ds st (Hok g (or_introl eq_refl)))
      as (st1 & Hrun1 & Hs1 & Hsum1).
    destruct (IH st1) as (st2 & Hrun2 & Hs2 & Hsum2).
    { intros g' Hg'. apply grid_ok_shape with (h := heap st); [assumption | ].
      apply Hok. right. assumption. }
    exists st2. cbn [forM]. rewrite Hrun1. split; [exact Hrun2 | ].
    split; [congruence | ].
    rewrite Hsum2, Hsum1. cbn [fold_right]. ring.
Qed.

(** What the grids take together: each deposit, once per grid that holds
    its cell. *)
Lemma taken_covers (gs : list Grid) (ds : list Deposit) :
  fold_right (fun g s => taken g ds + s) 0 gs ==
  fold_right (fun d s => snd d * inject_Z (Z.of_nat (covers gs d)) + s) 0 ds.
Proof.
  induction gs as [ | g gs IH].
  - cbn [fold_right]. induction ds as [ | d ds IHd]; cbn [fold_right].
    + reflexivity.
    + rewrite <- IHd. unfold covers. cbn [filter length Z.of_nat inject_Z].
      ring.
  - cbn [fold_right]. rewrite IH. clear IH.
    induction ds as [ | d ds IHd].
    + cbn [fold_right]. unfold taken. cbn [fold_right]. ring.
    + rewrite taken_cons. cbn [fold_right]. rewrite <- IHd, covers_cons.
      destruct (in_window g d).
      * rewrite Nat2Z.inj_add, inject_Z_plus. cbn [Z.of_nat inject_Z].
        change (inject_Z (Z.pos 1)) with 1. ring.
      * cbn [Nat.add]. ring.
Qed.

Lemma covered_once (gs : list Grid) (ds : list Deposit) :
  (forall d, In d ds -> covers gs d = 1%nat) ->
  fold_right (fun d s => snd d * inject_Z (Z.of_nat (covers gs d)) + s) 0 ds
  == offered ds.
Proof.
  induction ds as [ | d ds IH]; intros H.
  - reflexivity.
  - rewrite offered_cons. cbn [fold_right].
    rewrite IH by (intros d' Hd'; apply H; right; assumption).
    rewrite (H d (or_introl eq_refl)).
    change (inject_Z (Z.of_nat 1)) with 1. ring.
Qed.

(** Deposits whose cells no grid holds change nothing at all. *)
Lemma uncovered_unchanged (gs : list Grid) (ds : list Deposit) (st : State) :
  (forall d, In d ds -> covers gs d = 0%nat) ->
  forM gs (fun g =>
             forM ds (fun o : Deposit =>
                        let '(i, j, k, over) := o in incr g i j k over))
       st = Some st.
Proof.
  intros H. induction gs as [ | g gs IH]; [reflexivity | ].
  cbn [forM].
  assert (Hg : forall d, In d ds -> in_window g d = false).
  { intros d Hd. specialize (H d Hd). unfold covers in H. cbn [filter] in H.
    destruct (in_window g d); [discriminate H | reflexivity]. }
  assert (Hrun : forM ds (fun o : Deposit =>
                            let '(i, j, k, over) := o in incr g i j k over)
                      st = Some st).
  { clear - Hg. induction ds as [ | [[[i j] k] over] ds IHd]; [reflexivity | ].
    cbn [forM]. unfold incr at 1, IdxCheck.
    pose proof (Hg (i, j, k, over) (or_introl eq_refl)) as E.
    cbn [in_window] in E. rewrite E.
    apply IHd. intros d Hd. apply Hg. right. assumption. }
  rewrite Hrun. apply IH.
  intros d Hd. specialize (H d Hd). unfold covers in *. cbn [filter] in H.
  destruct (in_window g d); [discriminate H | exact H].
Qed.

(** The eight shares of cic.Interpolate add up to [frac]: the weights are
    a partition of unity. *)
Lemma cic_offered (g0 : Grid) (mass : Q) (pt : Vec) :
  offered (cic_overs g0 mass pt) == mass / CellVolume g0.
Proof.
  unfold cic_overs.
  destruct pt as [[px py] pz].
  destruct (cellPoints _ _ _ _) as [[xc yc] zc].
  destruct (nbrs g0 (ftoZ xc)) as [i0 i1].
  destruct (nbrs g0 (ftoZ yc)) as [j0 j1].
  destruct (nbrs g0 (ftoZ zc)) as [k0 k1].
  unfold offered. cbn [fold_right snd].
  change (@fmul Q Exact.ops) with Qmult.
  change (@fsub Q Exact.ops) with Qminus.
  change (@fdiv Q Exact.ops) with Qdiv.
  change (@fofZ Q Exact.ops 1%Z) with 1.
  set (frac := mass / CellVolume g0).
  set (dx := _ / _ - xc). set (dy := _ / _ - yc). set (dz := _ / _ - zc).
  ring.
Qed.

(** The one deposit of ngp.Interpolate for a point. *)
Definition ngp_deposit (g0 : Grid) (mass : Q) (pt : Vec) : Deposit :=
  let '(i, j, k) := cell_of (CellWidth g0) pt in
  (i, j, k, mass / CellVolume g0).

Lemma ngp_as_offer (g0 : Grid) (gs : list Grid) (mass : Q) (ids : list Z)
    (pt : Vec) (st : State) :
  ngp_Interpolate (g0 :: gs) mass ids [pt] st =
  forM (g0 :: gs)
       (fun g => forM [ngp_deposit g0 mass pt]
                      (fun o : Deposit =>
                         let '(i, j, k, over) := o in incr g i j k over)) st.
Proof.
  rewrite ngp_as_incr, forM_single. unfold ngp_deposit.
  destruct (cell_of (CellWidth g0) pt) as [[i j] k].
  apply forM_ext. intros g s. rewrite forM_single. reflexivity.
Qed.

Lemma cic_as_offer (g0 : Grid) (gs : list Grid) (mass : Q) (ids : list Z)
    (pt : Vec) (st : State) :
  cic_Interpolate (g0 :: gs) mass ids [pt] st =
  forM (g0 :: gs)
       (fun g => forM (cic_overs g0 mass pt)
                      (fun o : Deposit =>
                         let '(i, j, k, over) := o in incr g i j k over)) st.
Proof.
  unfold cic_Interpolate. rewrite forM_single. reflexivity.
Qed.

(** Deposits each of whose cells lies in the window of exactly one grid
    raise the total of the store by what they add up to. *)
Lemma offer_covered_once (gs : list Grid) (ds : list Deposit) (st : State) :
  (forall g, In g gs -> grid_ok (heap st) g) ->
  (forall d, In d ds -> covers gs d = 1%nat) ->
  exists st',
    forM gs (fun g =>
               forM ds (fun o : Deposit =>
                          let '(i, j, k, over) := o in incr g i j k over))
         st = Some st' /\
    heap_sum (heap st') == heap_sum (heap st) + offered ds.
Proof.
  intros Hok Hcov.
  destruct (offer_all_sum gs ds st Hok) as (st' & Hrun & _ & Hsum).
  exists st'. split; [exact Hrun | ].
  rewrite Hsum, taken_covers, covered_once by exact Hcov. reflexivity.
Qed.

(** C1, as the code has it, in exact arithmetic: for grids whose arrays
    are in place and a cell volume that is not zero, a single point
    deposited by ngp.Interpolate whose cell lies in the window of exactly
    one grid, and a single point deposited by cic.Interpolate each of whose
    eight neighbour cells lies in the window of exactly one grid, raise
    the sum of all Rhos elements times CellVolume by exactly [mass]; the
    eight shares of CIC add up to mass / CellVolume.  When no window holds
    the cell (NGP), respectively any of the eight neighbour cells (CIC),
    the call leaves the state as it was. *)
Theorem mass_conserved_when_covered_once (g0 : Grid) (gs : list Grid)
    (mass : Q) (ids : list Z) (pt : Vec) (st : State) :
  (forall g, In g (g0 :: gs) -> grid_ok (heap st) g) ->
  ~ CellVolume g0 == 0 ->
  (covers (g0 :: gs) (ngp_deposit g0 mass pt) = 1%nat ->
   exists st',
     ngp_Interpolate (g0 :: gs) mass ids [pt] st = Some st' /\
     heap_sum (heap st') * CellVolume g0 ==
       heap_sum (heap st) * CellVolume g0 + mass) /\
  (covers (g0 :: gs) (ngp_deposit g0 mass pt) = 0%nat ->
   ngp_Interpolate (g0 :: gs) mass ids [pt] st = Some st) /\
  offered (cic_overs g0 mass pt) * CellVolume g0 == mass /\
  ((forall d, In d (cic_overs g0 mass pt) -> covers (g0 :: gs) d = 1%nat) ->
   exists st',
     cic_Interpolate (g0 :: gs) mass ids [pt] st = Some st' /\
     heap_sum (heap st') * CellVolume g0 ==
       heap_sum (heap st) * CellVolume g0 + mass) /\
  ((forall d, In d (cic_overs g0 mass pt) -> covers (g0 :: gs) d = 0%nat) ->
   cic_Interpolate (g0 :: gs) mass ids [pt] st = Some st).
Proof.
  intros Hok Hcv.
  assert (Hfrac : mass / CellVolume g0 * CellVolume g0 == mass)
    by (field; exact Hcv).
  split.
  { intros Hcov. rewrite ngp_as_offer.
    destruct (offer_covered_once (g0 :: gs) [ngp_deposit g0 mass pt] st Hok)
      as (st' & Hrun & Hsum).
    { intros d [<- | []]. exact Hcov. }
    exists st'. split; [exact Hrun | ].
    rewrite Hsum. unfold offered, ngp_deposit.
    destruct (cell_of (CellWidth g0) pt) as [[i j] k]. cbn [fold_right snd].
    apply Qeq_trans
      with (heap_sum (heap st) * CellVolume g0
            + mass / CellVolume g0 * CellVolume g0);
      [ring | rewrite Hfrac; reflexivity]. }
  split.
  { intros Hcov. rewrite ngp_as_offer. apply uncovered_unchanged.
    intros d [<- | []]. exact Hcov. }
  split.
  { rewrite cic_offered. exact Hfrac. }
  split.
  { intros Hcov. rewrite cic_as_offer.
    destruct (offer_covered_once (g0 :: gs) (cic_overs g0 mass pt) st Hok Hcov)
      as (st' & Hrun & Hsum).
    exists st'. split; [exact Hrun | ].
    rewrite Hsum, cic_offered.
    apply Qeq_trans
      with (heap_sum (heap st) * CellVolume g0
            + mass / CellVolume g0 * CellVolume g0);
      [ring | rewrite Hfrac; reflexivity]. }
  intros Hcov. rewrite cic_as_offer. apply uncovered_unchanged. exact Hcov.
Qed.

End MassFacts.

Definition grid2_exact_state : @Density.State Q :=
  {| Density.heap := [repeat 0%Q 8]; Density.writes := [];
     Density.diags := [] |}.

Lemma mass_conserved_when_covered_once_witness :
  (forall g, In g [grid2_exact] -> grid_ok (Density.heap grid2_exact_state) g) /\
  ~ (Density.CellVolume grid2_exact == 0)%Q /\
  (forall d, In d (Density.cic_overs grid2_exact 3%Q (0, 0, 0)%Q) ->
             covers [grid2_exact] d = 1%nat) /\
  exists st',
    Density.cic_Interpolate [grid2_exact] 3%Q [] [(0, 0, 0)%Q]
      grid2_exact_state = Some st' /\
    (heap_sum (Density.heap st') * Density.CellVolume grid2_exact ==
     heap_sum (Density.heap grid2_exact_state) * Density.CellVolume grid2_exact
     + 3)%Q.
Proof.
  assert (Hok : forall g, In g [grid2_exact] ->
                          grid_ok (Density.heap grid2_exact_state) g).
  { intros g [<- | []]. exists (repeat 0%Q 8). split; reflexivity. }
  assert (Hcv : ~ (Density.CellVolume grid2_exact == 0)%Q)
    by (vm_compute; discriminate).
  assert (Hcov : forall d,
             In d (Density.cic_overs grid2_exact 3%Q (0, 0, 0)%Q) ->
             covers [grid2_exact] d = 1%nat).
  { intros d Hd. vm_compute in Hd.
    repeat (destruct Hd as [<- | Hd]; [vm_compute; reflexivity | ]).
    destruct Hd. }
  split; [exact Hok | ]. split; [exact Hcv | ]. split; [exact Hcov | ].
  destruct (mass_conserved_when_covered_once grid2_exact [] 3%Q []
              (0, 0, 0)%Q grid2_exact_state Hok Hcv)
    as (_ & _ & _ & Hcic & _).
  exact (Hcic Hcov).
Defined.

(** A target grid at the lower corner of a bounding grid of width 4:
    window [0,2)^3, cell width 0.25, cell volume 1/64. *)
Definition grid_corner : @Density.Grid float :=
  {| Density.Rhos := 0;
     Density.BoxWidth := 1%float;
     Density.CellWidth := 0.25%float;
     Density.CellVolume := 0.015625%float;
     Density.G := {| RenderGeom.Origin := (0, 0, 0); RenderGeom.Width := 2;
                     RenderGeom.Volume := 8 |};
     Density.BG := {| RenderGeom.Origin := (0, 0, 0); RenderGeom.Width := 4;
                      RenderGeom.Volume := 64 |} |}.

Definition grid_corner_state : @Density.State float :=
  {| Density.heap := [zeros 8]; Density.writes := []; Density.diags := [] |}.

Example grid_corner_is_NewGrid :
  Density.Grid_Init [zeros 8] 1%float 2 0
    {| Density.cWidth := 2; Density.cX := 0; Density.cY := 0;
       Density.cZ := 0 |} = Some grid_corner.
Proof. vm_compute. reflexivity. Qed.

(** Two single points for cic.Interpolate with mass 1 on [grid_corner],
    all densities zero.  The point (0.4375, 0.125, 0.125) lies in cell
    (1,0,0), inside the window; its share for the neighbour (2,0,0) is
    dropped, only element 1 changes, by 48, and 48 * CellVolume is 0.75,
    not the mass 1.  The point (0.5625, 0.125, 0.125) lies in cell (2,0,0),
    outside the window, and raises element 1 by 16. *)
Lemma cic_drops_mass_at_window_edge :
  cell_of (Density.CellWidth grid_corner) (0.4375, 0.125, 0.125)%float
    = (1, 0, 0) /\
  RenderGeom.BoundsCheck (Density.G grid_corner) 1 0 0 = true /\
  option_map (fun st => Density.heap st)
    (Density.cic_Interpolate [grid_corner] 1%float []
       [(0.4375, 0.125, 0.125)%float] grid_corner_state)
    = Some [[0; 48; 0; 0; 0; 0; 0; 0]%float] /\
  (48 * Density.CellVolume grid_corner)%float = 0.75%float /\
  PrimFloat.eqb 0.75%float 1%float = false /\
  cell_of (Density.CellWidth grid_corner) (0.5625, 0.125, 0.125)%float
    = (2, 0, 0) /\
  RenderGeom.BoundsCheck (Density.G grid_corner) 2 0 0 = false /\
  option_map (fun st => Density.heap st)
    (Density.cic_Interpolate [grid_corner] 1%float []
       [(0.5625, 0.125, 0.125)%float] grid_corner_state)
    = Some [[0; 16; 0; 0; 0; 0; 0; 0]%float].
Proof. vm_compute. repeat split. Qed.

(** ** What Grid.Init sets up *)

Lemma cell_window_bounds (x w gw : Z) :
  0 <= x < gw -> 0 < w -> 0 <= x * w /\ x * w + w <= w * gw.
Proof.
  intros Hx Hw. split.
  - apply Z.mul_nonneg_nonneg; lia.
  - replace (x * w + w) with ((x + 1) * w) by ring.
    rewrite (Z.mul_comm w gw). apply Z.mul_le_mono_nonneg_r; lia.
Qed.

(** X19: when Grid.Init returns (it panics when the array does not have
    one element per cell of the window), for a cell position inside the
    bounding grid and sizes within the int range, the grid keeps the array
    it was given, has its window inside the bounding grid and one array
    element per cell of the window. *)
Lemma Grid_Init_well_formed {F : Type} {FO : FloatOps F}
    (h : @Density.Heap F) (boxWidth : F) (gridWidth : Z) (rhos : nat)
    (c : Density.Cell) (g : @Density.Grid F) :
  Density.Grid_Init h boxWidth gridWidth rhos c = Some g ->
  0 <= Density.cX c < gridWidth ->
  0 <= Density.cY c < gridWidth ->
  0 <= Density.cZ c < gridWidth ->
  Density.cWidth c * gridWidth <= int_max ->
  Density.cWidth c * Density.cWidth c * Density.cWidth c <= int_max ->
  Density.Rhos g = rhos /\ window_in_bg g /\ grid_ok h g.
Proof.
  intros Hinit HX HY HZ Hbg Hvol. unfold Density.Grid_Init in Hinit.
  destruct (nth_error h rhos) as [a | ] eqn:Ea; [ | discriminate].
  destruct (negb _) eqn:Elen; [discriminate | ].
  unfold RenderGeom.Init in Hinit.
  destruct (0 <? Density.cWidth c) eqn:Ew; [ | discriminate].
  apply Z.ltb_lt in Ew.
  assert (Ebg : int_mul (Density.cWidth c) gridWidth
                = Density.cWidth c * gridWidth).
  { apply wrap_int_id. unfold in_int, int_min, int_max in *. nia. }
  rewrite Ebg in Hinit.
  destruct (0 <? Density.cWidth c * gridWidth) eqn:Ewb; [ | discriminate].
  assert (Eo : forall x, 0 <= x < gridWidth ->
                         int_mul x (Density.cWidth c) = x * Density.cWidth c).
  { intros x Hx. apply wrap_int_id. unfold in_int, int_min, int_max in *. nia. }
  rewrite (Eo _ HX), (Eo _ HY), (Eo _ HZ) in Hinit.
  injection Hinit as <-. cbn.
  split; [reflexivity | ]. split.
  - destruct (cell_window_bounds _ _ _ HX Ew) as [HX1 HX2].
    destruct (cell_window_bounds _ _ _ HY Ew) as [HY1 HY2].
    destruct (cell_window_bounds _ _ _ HZ Ew) as [HZ1 HZ2].
    unfold window_in_bg. cbn. repeat split; (assumption || lia).
  - exists a. cbn. split; [exact Ea | ].
    apply negb_false_iff, Z.eqb_eq in Elen. rewrite Elen.
    unfold int_mul.
    rewrite (wrap_int_id (Density.cWidth c * Density.cWidth c))
      by (unfold in_int, int_min, int_max in *; nia).
    apply wrap_int_id. unfold in_int, int_min, int_max in *. nia.
Qed.

Lemma Grid_Init_well_formed_witness :
  Density.Rhos grid4 = 0%nat /\ window_in_bg grid4 /\ grid_ok grid4_heap grid4.
Proof.
  apply (Grid_Init_well_formed grid4_heap 1%float 1 0
           {| Density.cWidth := 4; Density.cX := 0; Density.cY := 0;
              Density.cZ := 0 |} grid4 grid4_is_NewGrid);
    cbn [Density.cWidth Density.cX Density.cY Density.cZ];
    unfold int_max; lia.
Defined.

(** * Further properties of the sources *)

(** ** Pluecker vectors, without rounding *)

Section PluckerVecFacts.

Import LosGeom.

Local Open Scope Q_scope.

Definition dot3 (a b : @Vec Q) : Q :=
  vx a * vx b + vy a * vy b + vz a * vz b.

Definition cross (a b : @Vec Q) : @Vec Q :=
  (vy a * vz b - vz a * vy b,
   vz a * vx b - vx a * vz b,
   vx a * vy b - vy a * vx b).

Definition vsub (a b : @Vec Q) : @Vec Q :=
  (vx a - vx b, vy a - vy b, vz a - vz b).

(** Equality of vectors of rationals, coordinate by coordinate. *)
Definition veq (a b : @Vec Q) : Prop :=
  vx a == vx b /\ vy a == vy b /\ vz a == vz b.

(** The length that InitFromSegment divides by: the rounded result of
    math.Sqrt on the sum of squares, accumulated as the loop does. *)
Definition segment_len {F : Type} {FO : FloatOps F} (fsqrt : F -> F)
    (P1 P2 : @Vec F) : F :=
  let u0 := sub32 (vx P2) (vx P1) in
  let u1 := sub32 (vy P2) (vy P1) in
  let u2 := sub32 (vz P2) (vz P1) in
  f32 (fsqrt (add32 (add32 (add32 (fofZ 0) (mul32 u0 u0)) (mul32 u1 u1))
                    (mul32 u2 u2))).

Ltac vec_split :=
  repeat match goal with
         | v : @Vec Q |- _ => destruct v as [[? ?] ?]
         | v : (Q * Q * Q)%type |- _ => destruct v as [[? ?] ?]
         | p : @PluckerVec Q |- _ => destruct p as [[[? ?] ?] [[? ?] ?]]
         end.

Ltac exact_arith :=
  cbv [PluckerVec_Init InitFromSegment Dot dot_term dot3 cross vsub veq
       segment_len add32 sub32 mul32 div32 vx vy vz U V fst snd negb];
  cbn [fadd fsub fmul fdiv fneg f32 fofZ Exact.ops inject_Z].

(** X1: a vector made by PluckerVec.Init from an origin P and a direction
    L has U = L and the moment V = L x P; one made by InitFromSegment from
    P1 to P2 has the direction (P2 - P1) / len, where len is what
    math.Sqrt returned, and the moment U x P1, which is also U x P2.  In
    both the direction is perpendicular to the moment. *)
Theorem Plucker_vectors_are_moments (fsqrt : Q -> Q) (P0 L P1 P2 : @Vec Q) :
  ~ segment_len (FO := Exact.ops) fsqrt P1 P2 == 0 ->
  let p := PluckerVec_Init (FO := Exact.ops) P0 L in
  let q := InitFromSegment (FO := Exact.ops) fsqrt P1 P2 in
  let len := segment_len (FO := Exact.ops) fsqrt P1 P2 in
  U p = L /\ veq (V p) (cross L P0) /\ dot3 (U p) (V p) == 0 /\
  veq (vsub P2 P1) (len * vx (U q), len * vy (U q), len * vz (U q)) /\
  veq (V q) (cross (U q) P1) /\ veq (V q) (cross (U q) P2) /\
  dot3 (U q) (V q) == 0.
Proof.
  intros Hlen p q len. subst p q len.
  vec_split.
  revert Hlen. exact_arith.
  set (r := fsqrt _). intros Hr.
  repeat split; try reflexivity; try ring; field; exact Hr.
Qed.

(** X2: without rounding, Dot of two rays given by origin and direction
    is the triple product (P2 - P1) . (L1 x L2) when [flip] holds and its
    negation otherwise; it does not depend on the order of the two rays,
    and it is zero for two rays that leave from one point. *)
Theorem Dot_of_rays (P1 L1 P2 L2 : @Vec Q) (flip : bool) :
  let p1 := PluckerVec_Init (FO := Exact.ops) P1 L1 in
  let p2 := PluckerVec_Init (FO := Exact.ops) P2 L2 in
  Dot (FO := Exact.ops) p1 p2 true == dot3 (vsub P2 P1) (cross L1 L2) /\
  Dot (FO := Exact.ops) p1 p2 false == - dot3 (vsub P2 P1) (cross L1 L2) /\
  Dot (FO := Exact.ops) p1 p2 flip == Dot (FO := Exact.ops) p2 p1 flip /\
  Dot (FO := Exact.ops) p1 (PluckerVec_Init (FO := Exact.ops) P1 L2) flip == 0.
Proof.
  intros p1 p2. subst p1 p2. vec_split.
  repeat split; try (destruct flip); exact_arith; ring.
Qed.

Lemma Dot_sym (p1 p2 : @PluckerVec Q) (flip : bool) :
  Dot (FO := Exact.ops) p1 p2 flip == Dot (FO := Exact.ops) p2 p1 flip.
Proof. vec_split. destruct flip; exact_arith; ring. Qed.

Lemma Dot_flip (p1 p2 : @PluckerVec Q) (flip : bool) :
  Dot (FO := Exact.ops) p1 p2 (negb flip) == - Dot (FO := Exact.ops) p1 p2 flip.
Proof. vec_split. destruct flip; exact_arith; ring. Qed.

(** The sign that SignDot reports for a product [d]. *)
Definition sign_of (d : Q) : Z :=
  if Qeq_bool d 0 then 0%Z else if Exact.Qltb 0 d then 1%Z else (-1)%Z.

Lemma sign_of_spec (d : Q) :
  (sign_of d = 0%Z <-> d == 0) /\ (sign_of d = 1%Z <-> 0 < d) /\
  (sign_of d = (-1)%Z <-> d < 0).
Proof.
  unfold sign_of.
  destruct (Qeq_bool d 0) eqn:E0.
  - apply Qeq_bool_iff in E0.
    repeat split; intros H; try discriminate; try reflexivity;
      try assumption; rewrite E0 in H; exfalso; revert H; apply Qlt_irrefl.
  - assert (Hnz : ~ d == 0).
    { intros H. apply Qeq_bool_iff in H. congruence. }
    destruct (Exact.Qltb 0 d) eqn:E1.
    + apply Qltb_true in E1.
      repeat split; intros H; try discriminate; try reflexivity;
        try assumption; try contradiction; exfalso; lra.
    + apply Qltb_false in E1.
      repeat split; intros H; try discriminate; try reflexivity;
        try contradiction; try lra.
Qed.

Lemma sign_of_compat (d e : Q) : d == e -> sign_of d = sign_of e.
Proof.
  intros H. unfold sign_of.
  assert (H0 : Qeq_bool d 0 = Qeq_bool e 0).
  { destruct (Qeq_bool d 0) eqn:Ed, (Qeq_bool e 0) eqn:Ee; try reflexivity.
    - apply Qeq_bool_iff in Ed. rewrite H in Ed. apply Qeq_bool_iff in Ed. congruence.
    - apply Qeq_bool_iff in Ee. rewrite <- H in Ee. apply Qeq_bool_iff in Ee. congruence. }
  assert (H1 : Exact.Qltb 0 d = Exact.Qltb 0 e).
  { destruct (Exact.Qltb 0 d) eqn:Ed, (Exact.Qltb 0 e) eqn:Ee; try reflexivity.
    - apply Qltb_true in Ed. apply Qltb_false in Ee. lra.
    - apply Qltb_false in Ed. apply Qltb_true in Ee. lra. }
  rewrite H0, H1. reflexivity.
Qed.

Lemma sign_of_opp (d : Q) : sign_of (- d) = (- sign_of d)%Z.
Proof.
  destruct (sign_of_spec d) as (Z0 & Z1 & Z2).
  destruct (sign_of_spec (- d)) as (N0 & N1 & N2).
  destruct (Q_dec d 0) as [[Hlt | Hgt] | Heq].
  - apply Z2 in Hlt as E. rewrite E. apply N1. lra.
  - apply Z1 in Hgt as E. rewrite E. apply N2. lra.
  - apply Z0 in Heq as E. rewrite E. apply N0. lra.
Qed.

Lemma SignDot_sign_of (p1 p2 : @PluckerVec Q) (flip : bool) :
  SignDot (FO := Exact.ops) p1 p2 flip =
    (Dot (FO := Exact.ops) p1 p2 flip,
     sign_of (Dot (FO := Exact.ops) p1 p2 flip)).
Proof.
  unfold SignDot, sign_of.
  change (feqb (Dot (FO := Exact.ops) p1 p2 flip) (fofZ 0))
    with (Qeq_bool (Dot (FO := Exact.ops) p1 p2 flip) 0).
  change (fltb (fofZ 0) (Dot (FO := Exact.ops) p1 p2 flip))
    with (Exact.Qltb 0 (Dot (FO := Exact.ops) p1 p2 flip)).
  destruct (Qeq_bool _ _); [reflexivity | ].
  destruct (Exact.Qltb _ _); reflexivity.
Qed.

(** X3: without rounding, SignDot returns the value of Dot and its sign
    (0, +1 or -1 as the product is zero, positive or negative); the sign
    changes to its opposite when [flip] is negated and is the same for the
    two orders of the vectors. *)
Theorem SignDot_sign (p1 p2 : @PluckerVec Q) (flip : bool) :
  fst (SignDot (FO := Exact.ops) p1 p2 flip) = Dot (FO := Exact.ops) p1 p2 flip /\
  (snd (SignDot (FO := Exact.ops) p1 p2 flip) = 0%Z <->
   Dot (FO := Exact.ops) p1 p2 flip == 0) /\
  (snd (SignDot (FO := Exact.ops) p1 p2 flip) = 1%Z <->
   0 < Dot (FO := Exact.ops) p1 p2 flip) /\
  (snd (SignDot (FO := Exact.ops) p1 p2 flip) = (-1)%Z <->
   Dot (FO := Exact.ops) p1 p2 flip < 0) /\
  snd (SignDot (FO := Exact.ops) p1 p2 (negb flip)) =
    (- snd (SignDot (FO := Exact.ops) p1 p2 flip))%Z /\
  snd (SignDot (FO := Exact.ops) p2 p1 flip) =
    snd (SignDot (FO := Exact.ops) p1 p2 flip).
Proof.
  rewrite !SignDot_sign_of. cbn [fst snd].
  destruct (sign_of_spec (Dot (FO := Exact.ops) p1 p2 flip)) as (H0 & H1 & H2).
  repeat split; try apply H0; try apply H1; try apply H2.
  - rewrite (sign_of_compat _ _ (Dot_flip p1 p2 flip)). apply sign_of_opp.
  - apply sign_of_compat, Dot_sym.
Qed.

End PluckerVecFacts.

(** A square root that is exact on the squares of integers. *)
Definition isqrt (q : Q) : Q := inject_Z (Z.sqrt (Qfloor q)).

Lemma Plucker_vectors_are_moments_witness :
  ~ (segment_len (FO := Exact.ops) isqrt (1, 1, 1)%Q (4, 5, 1)%Q == 0)%Q /\
  LosGeom.U (LosGeom.InitFromSegment (FO := Exact.ops) isqrt
               (1, 1, 1)%Q (4, 5, 1)%Q)
    = ((4 - 1) / 5, (5 - 1) / 5, (1 - 1) / 5)%Q /\
  (dot3 (LosGeom.U (LosGeom.InitFromSegment (FO := Exact.ops) isqrt
                      (1, 1, 1)%Q (4, 5, 1)%Q))
        (LosGeom.V (LosGeom.InitFromSegment (FO := Exact.ops) isqrt
                      (1, 1, 1)%Q (4, 5, 1)%Q)) == 0)%Q.
Proof.
  assert (H : ~ (segment_len (FO := Exact.ops) isqrt (1, 1, 1)%Q (4, 5, 1)%Q
                 == 0)%Q)
    by (vm_compute; discriminate).
  split; [exact H | ].
  split; [reflexivity | ].
  pose proof (Plucker_vectors_are_moments isqrt (0, 0, 0)%Q (1, 0, 0)%Q
                (1, 1, 1)%Q (4, 5, 1)%Q H) as Hm.
  cbv zeta in Hm.
  destruct Hm as (_ & _ & _ & _ & _ & _ & Hd). exact Hd.
Defined.

(** ** The distance along a ray *)

Section DistanceFacts.

Import LosGeom.

(** The point of the triangle [a b c] with the barycentric weights [wv],
    which need not be normalised. *)
Definition bary_point (wv a b c : @Vec Q) : @Vec Q :=
  let s := (vx wv + vy wv + vz wv)%Q in
  (vx wv / s * vx a + vy wv / s * vx b + vz wv / s * vx c,
   vx wv / s * vy a + vy wv / s * vy b + vz wv / s * vy c,
   vx wv / s * vz a + vy wv / s * vz b + vz wv / s * vz c)%Q.

(** The point at parameter [tau] on the ray. *)
Definition ray_point (ap : @AnchoredPluckerVec Q) (tau : Q) : @Vec Q :=
  (vx (P ap) + tau * vx (U (pv ap)),
   vy (P ap) + tau * vy (U (pv ap)),
   vz (P ap) + tau * vz (U (pv ap)))%Q.

Lemma Qeq_bool_false (x y : Q) : Qeq_bool x y = false -> ~ (x == y)%Q.
Proof. intros H E. apply Qeq_bool_iff in E. congruence. Qed.

(** X4: without rounding, if the point of face [bary.face] with the
    barycentric weights [bary.w] is the point of the ray at parameter
    [tau], the weights do not sum to zero and the direction of the ray is
    not the zero vector, then Distance returns [tau]. *)
Theorem Distance_solves_ray (t : @Tetra Q) (ap : @AnchoredPluckerVec Q)
    (bary : @TetraFaceBary Q) (a b c : @Vec Q) (tau : Q) :
  face_vertex t (face bary) 0 = Some a ->
  face_vertex t (face bary) 1 = Some b ->
  face_vertex t (face bary) 2 = Some c ->
  ~ (vx (w bary) + vy (w bary) + vz (w bary) == 0)%Q ->
  ~ ((vx (U (pv ap)) == 0)%Q /\ (vy (U (pv ap)) == 0)%Q /\
     (vz (U (pv ap)) == 0)%Q) ->
  veq (bary_point (w bary) a b c) (ray_point ap tau) ->
  exists r, Distance (FO := Exact.ops) t ap bary = Some r /\ (r == tau)%Q.
Proof.
  intros Ha Hb Hc Hs Hu (Hx & Hy & Hz).
  unfold Distance, face_coord. rewrite Ha, Hb, Hc.
  destruct ap as [[[[ux uy] uz] m] [[px py] pz]].
  destruct bary as [[[w0 w1] w2] f].
  destruct a as [[ax ay] az], b as [[bx by'] bz], c as [[cx cy] cz].
  cbv [bary_point ray_point vx vy vz U V pv P w fst snd] in *.
  unfold first_dim.
  cbv [vx vy vz fst snd].
  change (feqb (FloatOps := Exact.ops) ?x (fofZ 0)) with (Qeq_bool x 0).
  assert (Hs' : ~ (inject_Z 0 + w0 + w1 + w2 == 0)%Q).
  { intros E. apply Hs. rewrite <- E. change (inject_Z 0) with 0%Q. ring. }
  destruct (Qeq_bool ux 0) eqn:E0; cbn [negb].
  - destruct (Qeq_bool uy 0) eqn:E1; cbn [negb].
    + destruct (Qeq_bool uz 0) eqn:E2; cbn [negb].
      * exfalso. apply Hu.
        repeat split; apply Qeq_bool_iff; assumption.
      * apply Qeq_bool_false in E2.
        cbv [coord vx vy vz fst snd nth_error].
        eexists; split; [reflexivity | ].
        cbv [add32 sub32 mul32 div32].
        cbn [fadd fsub fmul fdiv f32 fofZ Exact.ops].
        apply Qeq_trans with ((pz + tau * uz - pz) / uz)%Q;
          [ | field; exact E2].
        rewrite <- Hz. field. split; assumption.
      + apply Qeq_bool_false in E1.
        cbv [coord vx vy vz fst snd nth_error].
        eexists; split; [reflexivity | ].
        cbv [add32 sub32 mul32 div32].
        cbn [fadd fsub fmul fdiv f32 fofZ Exact.ops].
        apply Qeq_trans with ((py + tau * uy - py) / uy)%Q;
          [ | field; exact E1].
        rewrite <- Hy. field. split; assumption.
  - apply Qeq_bool_false in E0.
    cbv [coord vx vy vz fst snd nth_error].
    eexists; split; [reflexivity | ].
    cbv [add32 sub32 mul32 div32].
    cbn [fadd fsub fmul fdiv f32 fofZ Exact.ops].
    apply Qeq_trans with ((px + tau * ux - px) / ux)%Q;
      [ | field; exact E0].
    rewrite <- Hx. field. split; assumption.
Qed.

Lemma face_vertex_some {F : Type} (t : @Tetra F) (f : Z) (n : nat) :
  (0 <= f < 4)%Z -> (n < 3)%nat -> exists v, face_vertex t f n = Some v.
Proof.
  intros Hf Hn. unfold face_vertex.
  destruct (f <? 0)%Z eqn:E; [apply Z.ltb_lt in E; lia | ].
  destruct t as [[[t0 t1] t2] t3].
  assert (Hfc : (f = 0 \/ f = 1 \/ f = 2 \/ f = 3)%Z) by lia.
  assert (Hnc : (n = 0 \/ n = 1 \/ n = 2)%nat) by lia.
  destruct Hfc as [-> | [-> | [-> | ->]]];
    destruct Hnc as [-> | [-> | ->]]; cbn; eexists; reflexivity.
Qed.

Lemma face_vertex_none {F : Type} (t : @Tetra F) (f : Z) (n : nat) :
  (f < 0 \/ 4 <= f)%Z -> face_vertex t f n = None.
Proof.
  intros Hf. unfold face_vertex.
  destruct (f <? 0)%Z eqn:E; [reflexivity | ].
  apply Z.ltb_ge in E.
  assert (H4 : (4 <= Z.to_nat f)%nat) by lia.
  unfold VertexIdx.
  destruct (nth_error tetraIdxs (Z.to_nat f)) eqn:En; [ | reflexivity].
  assert (Hlt : (Z.to_nat f < length tetraIdxs)%nat)
    by (apply nth_error_Some; congruence).
  cbn in Hlt. lia.
Qed.

Lemma coord_some {F : Type} {FO : FloatOps F} (v : @Vec F) (dim : nat) :
  (dim < 3)%nat -> exists x, coord v dim = Some x.
Proof.
  intros H. unfold coord.
  destruct dim as [ | [ | [ | ]]]; try lia; cbn; eexists; reflexivity.
Qed.

Lemma first_dim_le {F : Type} {FO : FloatOps F} (u : @Vec F) :
  (first_dim u <= 3)%nat.
Proof.
  unfold first_dim.
  repeat match goal with |- context [if ?b then _ else _] => destruct b end; lia.
Qed.

Lemma first_dim_3 {F : Type} {FO : FloatOps F} (u : @Vec F) :
  first_dim u = 3%nat <->
  feqb (vx u) (fofZ 0) && feqb (vy u) (fofZ 0) && feqb (vz u) (fofZ 0) = true.
Proof.
  unfold first_dim.
  destruct (feqb (vx u) (fofZ 0)), (feqb (vy u) (fofZ 0)),
    (feqb (vz u) (fofZ 0)); cbn; split; intros H; congruence.
Qed.

(** X5: in any arithmetic, Distance panics exactly when the face is not
    one of 0..3 or every coordinate of the direction of the ray compares
    equal to zero: the loop over the coordinates then ends with [dim = 3],
    which indexes a three-element vector. *)
Theorem Distance_panics_iff {F : Type} {FO : FloatOps F} (t : @Tetra F)
    (ap : @AnchoredPluckerVec F) (bary : @TetraFaceBary F) :
  Distance t ap bary = None <->
  (face bary < 0 \/ 4 <= face bary)%Z \/
  feqb (vx (U (pv ap))) (fofZ 0) && feqb (vy (U (pv ap))) (fofZ 0) &&
  feqb (vz (U (pv ap))) (fofZ 0) = true.
Proof.
  rewrite <- first_dim_3. unfold Distance, face_coord.
  pose proof (first_dim_le (U (pv ap))) as Hle.
  set (dim := first_dim (U (pv ap))) in *. clearbody dim.
  destruct (Z_lt_ge_dec (face bary) 0) as [Hneg | Hnn].
  - rewrite (face_vertex_none t) by lia. split; [intros _; left; lia | reflexivity].
  - destruct (Z_lt_ge_dec (face bary) 4) as [Hlt | Hge].
    + destruct (face_vertex_some t (face bary) 0) as [a ->]; [lia | lia | ].
      destruct (face_vertex_some t (face bary) 1) as [b ->]; [lia | lia | ].
      destruct (face_vertex_some t (face bary) 2) as [c ->]; [lia | lia | ].
      destruct (Nat.eq_dec dim 3) as [-> | Hd].
      * cbn. split; [intros _; right; reflexivity | reflexivity].
      * destruct (coord_some a dim) as [xa ->]; [lia | ].
        destruct (coord_some b dim) as [xb ->]; [lia | ].
        destruct (coord_some c dim) as [xc ->]; [lia | ].
        destruct (coord_some (P ap) dim) as [xp ->]; [lia | ].
        destruct (coord_some (U (pv ap)) dim) as [xu ->]; [lia | ].
        split; [discriminate | intros [H | H]; [lia | contradiction]].
    + rewrite (face_vertex_none t) by lia.
      split; [intros _; left; lia | reflexivity].
Qed.

End DistanceFacts.

(** The unit corner tetrahedron, and the ray from its corner at the origin
    along (1, 1, 1), which meets face 0 at its centroid. *)
Definition corner_tetra : @LosGeom.Tetra Q :=
  ((0, 0, 0), (1, 0, 0), (0, 1, 0), (0, 0, 1))%Q.

Definition diagonal_ray : @LosGeom.AnchoredPluckerVec Q :=
  LosGeom.AnchoredPluckerVec_Init (FO := Exact.ops) (0, 0, 0)%Q (1, 1, 1)%Q.

Definition centroid_bary : @LosGeom.TetraFaceBary Q :=
  {| LosGeom.w := (2, 2, 2)%Q; LosGeom.face := 0 |}.

Lemma Distance_solves_ray_witness :
  exists r,
    LosGeom.Distance (FO := Exact.ops) corner_tetra diagonal_ray centroid_bary
      = Some r /\ (r == 1 # 3)%Q.
Proof.
  apply (Distance_solves_ray corner_tetra diagonal_ray centroid_bary
           (0, 0, 1)%Q (0, 1, 0)%Q (1, 0, 0)%Q (1 # 3)).
  - reflexivity.
  - reflexivity.
  - reflexivity.
  - vm_compute. discriminate.
  - intros (H & _). vm_compute in H. discriminate H.
  - vm_compute. repeat split.
Defined.

(** ** The face and edge tables *)

Section TableFacts.

Import LosGeom.

(** X6: face [f] of the vertex table lists the three vertices other than
    [f], each once, and every face is wound the same way about the vertex
    it leaves out: the triple product of the face's three vertices and the
    opposite vertex, in this order, is that of the tetrahedron. *)
Theorem faces_wound_alike (t : @Tetra Q) (f : nat) :
  (f < 4)%nat ->
  exists a b c pa pb pc pf,
    VertexIdx f 0 = Some a /\ VertexIdx f 1 = Some b /\
    VertexIdx f 2 = Some c /\ VertexIdx f 3 = None /\
    NoDup [f; a; b; c] /\ (a < 4 /\ b < 4 /\ c < 4)%nat /\
    vertex t a = Some pa /\ vertex t b = Some pb /\ vertex t c = Some pc /\
    vertex t f = Some pf /\
    (triple (pa, pb, pc, pf) == triple t)%Q.
Proof.
  intros Hf.
  destruct t as [[[[[x0 y0] z0] [[x1 y1] z1]] [[x2 y2] z2]] [[x3 y3] z3]].
  assert (Hfc : (f = 0 \/ f = 1 \/ f = 2 \/ f = 3)%nat) by lia.
  destruct Hfc as [-> | [-> | [-> | ->]]]; cbn;
    do 7 eexists;
    (repeat (split; [reflexivity | ]));
    (split; [repeat constructor; cbn; intuition lia | ]);
    (split; [lia | ]);
    (repeat (split; [reflexivity | ]));
    unfold triple; ring.
Qed.

(** The entries of the edge tables that name the raw edge [idx]: the face,
    the position on it, and the flip flag. *)
Definition edge_uses (idx : nat) : list (nat * nat * bool) :=
  flat_map (fun f =>
    flat_map (fun e =>
      match EdgeIdx f e with
      | Some (i, flip) => if Nat.eqb i idx then [(f, e, flip)] else []
      | None => []
      end) [0; 1; 2]%nat) [0; 1; 2; 3]%nat.

(** X7: every raw edge is named by exactly two entries of the edge tables,
    on the two faces opposite to the other two vertices, with one flip
    flag set and the other clear. *)
Theorem raw_edge_on_two_faces (idx : nat) :
  (idx < 6)%nat ->
  exists r1 r2 f1 e1 f2 e2 flip,
    nth_error raw_edges idx = Some (r1, r2) /\
    edge_uses idx = [(f1, e1, flip); (f2, e2, negb flip)] /\
    NoDup [r1; r2; f1; f2] /\ (f1 < 4 /\ f2 < 4)%nat.
Proof.
  intros Hi.
  assert (Hc : (idx = 0 \/ idx = 1 \/ idx = 2 \/ idx = 3 \/ idx = 4 \/
                idx = 5)%nat) by lia.
  destruct Hc as [-> | [-> | [-> | [-> | [-> | ->]]]]]; cbn;
    do 6 eexists;
    match goal with
    | |- exists flip, _ /\ (_, _, ?b) :: _ = _ /\ _ => exists b
    end;
    (split; [reflexivity | ]);
    (split; [reflexivity | ]);
    (split; [repeat constructor; cbn; intuition lia | lia]).
Qed.

End TableFacts.

Lemma faces_wound_alike_witness :
  exists a b c,
    LosGeom.VertexIdx 1 0 = Some a /\ LosGeom.VertexIdx 1 1 = Some b /\
    LosGeom.VertexIdx 1 2 = Some c /\ NoDup [1%nat; a; b; c].
Proof.
  destruct (faces_wound_alike corner_tetra 1%nat) as
    (a & b & c & pa & pb & pc & pf & Ha & Hb & Hc & _ & Hnd & _); [lia | ].
  exists a, b, c. repeat split; assumption.
Defined.

Lemma raw_edge_on_two_faces_witness :
  exists f1 e1 f2 e2 flip,
    edge_uses 4 = [(f1, e1, flip); (f2, e2, negb flip)] /\ f1 <> f2.
Proof.
  destruct (raw_edge_on_two_faces 4%nat) as
    (r1 & r2 & f1 & e1 & f2 & e2 & flip & _ & Hu & Hnd & _); [lia | ].
  exists f1, e1, f2, e2, flip. split; [exact Hu | ].
  intros E. subst f2.
  inversion Hnd as [ | ? ? _ Hnd1]. inversion Hnd1 as [ | ? ? _ Hnd2].
  inversion Hnd2 as [ | ? ? Hin _]. apply Hin. left. reflexivity.
Defined.

(** ** Cell coordinates and linear indices *)

Lemma int_mul_id (a b : Z) : in_int (a * b) -> int_mul a b = a * b.
Proof. intros H. apply wrap_int_id, H. Qed.

Lemma int_add_id (a b : Z) : in_int (a + b) -> int_add a b = a + b.
Proof. intros H. apply wrap_int_id, H. Qed.

Lemma in_int_nonneg (z : Z) : 0 <= z <= int_max -> in_int z.
Proof. unfold in_int, int_min, int_max. lia. Qed.

(** Division of a non-negative index by the square of the width, in two
    steps. *)
Lemma split_index (a c : Z) :
  0 <= a -> 0 < c ->
  a mod c + (a / c) mod c * c + (a / c / c) * c * c = a /\
  a mod (c * c) = a mod c + c * ((a / c) mod c) /\
  a / (c * c) = a / c / c.
Proof.
  intros Ha Hc.
  assert (H1 : a = c * (a / c) + a mod c) by (apply Z.div_mod; lia).
  assert (H2 : a / c = c * (a / c / c) + (a / c) mod c) by (apply Z.div_mod; lia).
  split; [ | split].
  - set (q := a / c) in *. set (x := a mod c) in *.
    set (y := q mod c) in *. set (z := q / c) in *. clearbody q x y z. nia.
  - apply Z.rem_mul_r; lia.
  - symmetry. apply Z.div_div; lia.
Qed.

Lemma coords_spec (idx cells : Z) :
  0 <= idx <= int_max -> 0 < cells -> cells * cells <= int_max ->
  exists x y z,
    Los.coords idx cells = Some (x, y, z) /\
    Los.index x y z cells = idx /\
    0 <= x < cells /\ 0 <= y < cells /\ 0 <= z /\
    (z < cells <-> idx < cells * cells * cells).
Proof.
  intros Hidx Hc Hcc.
  destruct (split_index idx cells) as (Hsum & Hmod & Hdiv); [lia | lia | ].
  pose proof (Z.mod_pos_bound idx cells Hc) as Bx.
  pose proof (Z.mod_pos_bound (idx / cells) cells Hc) as By.
  assert (Bq : 0 <= idx / cells) by (apply Z.div_pos; lia).
  assert (Bz : 0 <= idx / cells / cells) by (apply Z.div_pos; lia).
  assert (Bcc : 0 < cells * cells) by nia.
  exists (idx mod cells), ((idx / cells) mod cells), (idx / cells / cells).
  assert (Ecc : int_mul cells cells = cells * cells)
    by (apply int_mul_id, in_int_nonneg; lia).
  assert (Er : Z.rem idx (cells * cells)
               = idx mod cells + cells * ((idx / cells) mod cells)).
  { rewrite Z.rem_mod_nonneg by lia. exact Hmod. }
  assert (Ey : Z.quot (idx mod cells + cells * ((idx / cells) mod cells)) cells
               = (idx / cells) mod cells).
  { rewrite Z.quot_div_nonneg by nia.
    rewrite Z.add_comm, Z.mul_comm, Z.div_add_l by lia.
    rewrite (Z.div_small (idx mod cells)) by lia. lia. }
  split.
  - unfold Los.coords, int_rem, int_quot. rewrite Ecc.
    destruct (cells =? 0) eqn:E0; [apply Z.eqb_eq in E0; lia | ].
    destruct (cells * cells =? 0) eqn:E1; [apply Z.eqb_eq in E1; lia | ].
    rewrite Er, Ey.
    rewrite Z.rem_mod_nonneg by lia.
    rewrite Z.quot_div_nonneg by lia. rewrite Hdiv.
    rewrite !wrap_int_id; [reflexivity | | ]; apply in_int_nonneg; nia.
  - split.
    + unfold Los.index.
      assert (Hyz : 0 <= idx / cells / cells * cells <=
                    idx / cells / cells * cells * cells) by nia.
      rewrite (int_mul_id ((idx / cells) mod cells))
        by (apply in_int_nonneg; nia).
      rewrite (int_mul_id (idx / cells / cells))
        by (apply in_int_nonneg; nia).
      rewrite (int_mul_id (idx / cells / cells * cells))
        by (apply in_int_nonneg; nia).
      rewrite (int_add_id (idx mod cells)) by (apply in_int_nonneg; nia).
      rewrite int_add_id by (apply in_int_nonneg; nia).
      exact Hsum.
    + repeat split; try lia.
      * intros Hz. nia.
      * intros Hlt.
        apply Z.div_lt_upper_bound; [lia | ].
        apply Z.div_lt_upper_bound; [lia | ]. nia.
Qed.

(** X8: for a width [cells] whose square fits an int64 and an index
    [idx >= 0], coords does not panic, its three results are non-negative
    with x and y below [cells] (and z below [cells] exactly when
    [idx < cells^3]), and index maps them back to [idx]. *)
Theorem index_of_coords (idx cells : Z) :
  0 <= idx <= int_max -> 0 < cells -> cells * cells <= int_max ->
  exists x y z,
    Los.coords idx cells = Some (x, y, z) /\
    Los.index x y z cells = idx /\
    0 <= x < cells /\ 0 <= y < cells /\ 0 <= z /\
    (z < cells <-> idx < cells * cells * cells).
Proof. apply coords_spec. Qed.

Lemma index_of_coords_witness :
  exists x y z,
    Los.coords 57 4 = Some (x, y, z) /\ Los.index x y z 4 = 57 /\
    0 <= x < 4 /\ 0 <= y < 4 /\ 0 <= z /\ (z < 4 <-> 57 < 4 * 4 * 4).
Proof.
  apply (index_of_coords 57 4); unfold int_max; lia.
Defined.

(** X9: for coordinates in [0, cells) and a width whose cube fits an
    int64, index gives a value in [0, cells^3) and coords maps it back to
    the coordinates. *)
Theorem coords_of_index (x y z cells : Z) :
  0 <= x < cells -> 0 <= y < cells -> 0 <= z < cells ->
  cells * cells * cells <= int_max ->
  0 <= Los.index x y z cells < cells * cells * cells /\
  Los.coords (Los.index x y z cells) cells = Some (x, y, z).
Proof.
  intros Hx Hy Hz Hccc.
  assert (Hc : 0 < cells) by lia.
  assert (Hcc : cells * cells <= int_max) by nia.
  assert (Hyc : 0 <= y * cells <= (cells - 1) * cells) by nia.
  assert (Hzc : 0 <= z * cells <= (cells - 1) * cells) by nia.
  assert (Hzcc : 0 <= z * cells * cells <= (cells - 1) * cells * cells) by nia.
  assert (Ei : Los.index x y z cells = x + y * cells + z * cells * cells).
  { unfold Los.index.
    rewrite (int_mul_id y) by (apply in_int_nonneg; nia).
    rewrite (int_mul_id z) by (apply in_int_nonneg; nia).
    rewrite (int_mul_id (z * cells)) by (apply in_int_nonneg; nia).
    rewrite (int_add_id x) by (apply in_int_nonneg; nia).
    rewrite int_add_id by (apply in_int_nonneg; nia).
    reflexivity. }
  assert (Hrange : 0 <= x + y * cells + z * cells * cells
                   < cells * cells * cells) by nia.
  rewrite Ei. split; [exact Hrange | ].
  destruct (coords_spec (x + y * cells + z * cells * cells) cells)
    as (x' & y' & z' & Hco & Hidx & Bx & By & Bz & Hlt); [lia | lia | lia | ].
  rewrite Hco.
  assert (Bz' : z' < cells) by (apply Hlt; lia).
  assert (Ei' : Los.index x' y' z' cells = x' + y' * cells + z' * cells * cells).
  { unfold Los.index.
    rewrite (int_mul_id y') by (apply in_int_nonneg; nia).
    rewrite (int_mul_id z') by (apply in_int_nonneg; nia).
    rewrite (int_mul_id (z' * cells)) by (apply in_int_nonneg; nia).
    rewrite (int_add_id x') by (apply in_int_nonneg; nia).
    rewrite int_add_id by (apply in_int_nonneg; nia).
    reflexivity. }
  rewrite Ei' in Hidx.
  assert (Ez : z' = z) by nia.
  subst z'.
  assert (Eyy : y' = y) by nia.
  subst y'.
  assert (Ex : x' = x) by lia.
  subst x'. reflexivity.
Qed.

Lemma coords_of_index_witness :
  0 <= Los.index 1 2 3 4 < 4 * 4 * 4 /\
  Los.coords (Los.index 1 2 3 4) 4 = Some (1, 2, 3).
Proof.
  apply (coords_of_index 1 2 3 4); unfold int_max; lia.
Defined.

(** ** Unpacking a sheet segment *)

Lemma foldO_ext {A S : Type} (l : list A) (f g : A -> S -> option S) (s : S) :
  (forall x s', In x l -> f x s' = g x s') -> foldO l f s = foldO l g s.
Proof.
  revert s. induction l as [ | x l IH]; intros s H; [reflexivity | ].
  cbn. rewrite (H x s) by (left; reflexivity).
  destruct (g x s) as [s1 | ]; [ | reflexivity].
  apply IH. intros y s' Hy. apply H. right. exact Hy.
Qed.

Lemma foldO_app {A S : Type} (l1 l2 : list A) (f : A -> S -> option S) (s : S) :
  foldO (l1 ++ l2) f s =
    match foldO l1 f s with
    | Some s1 => foldO l2 f s1
    | None => None
    end.
Proof.
  revert s. induction l1 as [ | x l1 IH]; intros s; [reflexivity | ].
  cbn. destruct (f x s) as [s1 | ]; [apply IH | reflexivity].
Qed.

Lemma foldO_list_prod {A B S : Type} (l : list A) (l' : list B)
    (f : A -> B -> S -> option S) (s : S) :
  foldO l (fun a => foldO l' (f a)) s =
    foldO (list_prod l l') (fun ab => f (fst ab) (snd ab)) s.
Proof.
  revert s. induction l as [ | a l IH]; intros s; [reflexivity | ].
  cbn [foldO list_prod]. rewrite foldO_app.
  assert (E : foldO (map (fun y : B => (a, y)) l')
                    (fun ab => f (fst ab) (snd ab)) s = foldO l' (f a) s).
  { clear IH. revert s. induction l' as [ | b l' IH']; intros s; [reflexivity | ].
    cbn. destruct (f a b s) as [s1 | ]; [apply IH' | reflexivity]. }
  rewrite E. destruct (foldO l' (f a) s) as [s1 | ]; [apply IH | reflexivity].
Qed.

Lemma nth_int_set_eq {A : Type} (l l' : list A) (i : Z) (v : A) :
  set_int l i v = Some l' -> nth_int l' i = Some v /\ length l' = length l.
Proof.
  unfold set_int, nth_int. intros H.
  destruct ((0 <=? i) && (i <? Z.of_nat (length l))) eqn:E; [ | discriminate].
  apply andb_true_iff in E. destruct E as [E1 E2].
  apply Z.leb_le in E1. apply Z.ltb_lt in E2.
  injection H as <-.
  destruct (i <? 0) eqn:E3; [apply Z.ltb_lt in E3; lia | ].
  split; [apply list_set_nth_eq; lia | apply list_set_length].
Qed.

Lemma nth_int_set_neq {A : Type} (l l' : list A) (i j : Z) (v : A) :
  set_int l i v = Some l' -> j <> i -> nth_int l' j = nth_int l j.
Proof.
  unfold set_int, nth_int. intros H Hne.
  destruct ((0 <=? i) && (i <? Z.of_nat (length l))) eqn:E; [ | discriminate].
  apply andb_true_iff in E. destruct E as [E1 E2].
  apply Z.leb_le in E1. apply Z.ltb_lt in E2.
  injection H as <-.
  destruct (j <? 0) eqn:E3; [reflexivity | ].
  apply Z.ltb_ge in E3. apply list_set_nth_neq. lia.
Qed.

(** A loop whose step [k] stores [val k] at the index [pos k], the
    indices being in range and pairwise different. *)
Lemma foldO_set_spec {K A : Type} (pos : K -> Z) (val : K -> option A)
    (l : list K) (ts : list A) :
  NoDup (map pos l) ->
  (forall k, In k l -> 0 <= pos k < Z.of_nat (length ts) /\ val k <> None) ->
  exists ts',
    foldO l (fun k s => match val k with
                        | Some v => set_int s (pos k) v
                        | None => None
                        end) ts = Some ts' /\
    length ts' = length ts /\
    (forall k, In k l -> nth_int ts' (pos k) = val k) /\
    (forall i, ~ In i (map pos l) -> nth_int ts' i = nth_int ts i).
Proof.
  revert ts. induction l as [ | k l IH]; intros ts Hnd Hok.
  - exists ts. cbn.
    split; [reflexivity | ]. split; [reflexivity | ].
    split; [intros k [] | reflexivity].
  - inversion Hnd as [ | ? ? Hnin Hnd']; subst.
    destruct (Hok k (or_introl eq_refl)) as [Hpos Hval].
    destruct (val k) as [v | ] eqn:Ev; [ | congruence].
    assert (Hset : set_int ts (pos k) v
                   = Some (list_set (Z.to_nat (pos k)) v ts)).
    { unfold set_int.
      destruct ((0 <=? pos k) && (pos k <? Z.of_nat (length ts))) eqn:E;
        [reflexivity | ].
      apply andb_false_iff in E.
      destruct E as [E | E]; [apply Z.leb_gt in E | apply Z.ltb_ge in E]; lia. }
    destruct (nth_int_set_eq _ _ _ _ Hset) as [Hget Hlen].
    destruct (IH (list_set (Z.to_nat (pos k)) v ts) Hnd') as
      (ts' & Hrun & Hlen' & Hin & Hout).
    { intros k' Hk'. rewrite Hlen. apply Hok. right. exact Hk'. }
    exists ts'. cbn [foldO]. rewrite Ev, Hset.
    split; [exact Hrun | ].
    split; [congruence | ].
    split.
    + intros k' [<- | Hk'].
      * rewrite Hout by exact Hnin. rewrite Ev. exact Hget.
      * apply Hin, Hk'.
    + intros i Hi. rewrite Hout.
      * apply (nth_int_set_neq _ _ _ _ _ Hset).
        intros ->. apply Hi. left. reflexivity.
      * intros Hi'. apply Hi. right. exact Hi'.
Qed.

Lemma zrange_NoDup (lo hi : Z) : NoDup (zrange lo hi).
Proof.
  unfold zrange. apply NoDup_map_NoDup_ForallPairs; [ | apply seq_NoDup].
  intros a b _ _ H. lia.
Qed.

(** The buffer positions [6 * w + dir] of the pairs of [l] and the six
    directions are pairwise different. *)
Lemma tetra_slots_NoDup (l : list Z) :
  NoDup l ->
  NoDup (map (fun wd => 6 * fst wd + snd wd)
             (list_prod l [0; 1; 2; 3; 4; 5])).
Proof.
  intros Hnd. apply NoDup_map_NoDup_ForallPairs.
  - intros [w d] [w' d'] H1 H2 E. cbn [fst snd] in E.
    apply in_prod_iff in H1. apply in_prod_iff in H2.
    destruct H1 as [_ H1], H2 as [_ H2].
    assert (B1 : 0 <= d < 6) by (cbn in H1; lia).
    assert (B2 : 0 <= d' < 6) by (cbn in H2; lia).
    f_equal; lia.
  - induction Hnd as [ | w l Hnin Hnd IH]; [constructor | ].
    cbn [list_prod]. apply NoDup_app.
    + apply NoDup_map_NoDup_ForallPairs.
      * intros a b _ _ E. congruence.
      * repeat constructor; cbn; lia.
    + exact IH.
    + intros [w' d'] H1 H2. apply in_map_iff in H1.
      destruct H1 as (d & E & _). injection E as -> ->.
      apply in_prod_iff in H2. apply Hnin, H2.
Qed.

Section UnpackFacts.

Context {F : Type} {FO : FloatOps F}.
Variable TetraIdxs_Init : Z -> Z -> Z -> Z -> Z * Z * Z * Z.

(** The tetrahedron that UnpackTetrahedra stores for the point [w] of the
    segment and the direction [dir]. *)
Definition unpacked (xs : list (@Los.Vec F)) (hd : @Los.SheetHeader F)
    (w dir : Z) : option (@LosGeom.Tetra F) :=
  option_map (fun t => LosGeom.Orient t 1)
    (Los.unpackTetra
       (TetraIdxs_Init w (int_add (Los.GridWidth hd) 1) 1 dir) xs).

(** X10: when six times the cube of SegmentWidth fits an int64, the buffer
    has that many elements and every particle that TetraIdxs.Init names is
    an index of [xs], UnpackTetrahedra does not panic; it keeps the
    length of the buffer, stores at [6 * w + dir] the tetrahedron of the
    particles named for the point [w] itself (the point read is the point
    written) after Orient(+1), and leaves the rest of the buffer as it
    was. *)
Theorem UnpackTetrahedra_spec (xs : list (@Los.Vec F))
    (hd : @Los.SheetHeader F) (tsBuf : list (@LosGeom.Tetra F)) :
  let sw := Los.SegmentWidth hd in
  let n := sw * sw * sw in
  0 <= sw -> 6 * n <= int_max ->
  6 * n <= Z.of_nat (length tsBuf) ->
  (forall w dir, 0 <= w < n -> 0 <= dir < 6 -> unpacked xs hd w dir <> None) ->
  exists ts',
    Los.UnpackTetrahedra TetraIdxs_Init xs hd tsBuf = Some ts' /\
    length ts' = length tsBuf /\
    (forall w dir, 0 <= w < n -> 0 <= dir < 6 ->
       nth_int ts' (6 * w + dir) = unpacked xs hd w dir) /\
    (forall i, 6 * n <= i -> nth_int ts' i = nth_int tsBuf i).
Proof.
  intros sw n Hsw Hmax Hlen Hin.
  assert (Hn0 : 0 <= n) by (subst n; nia).
  assert (Hsw2 : n = 0 \/ (0 < sw /\ sw * sw <= n)) by (subst n; nia).
  assert (En : int_mul (int_mul sw sw) sw = n).
  { subst n. rewrite (int_mul_id sw sw) by (apply in_int_nonneg; nia).
    apply int_mul_id, in_int_nonneg. nia. }
  unfold Los.UnpackTetrahedra. fold sw. rewrite En.
  set (dirs6 := [0; 1; 2; 3; 4; 5]).
  assert (Hbody :
    foldO (zrange 0 (n - 1))
      (fun writeIdx ts =>
         match Los.coords writeIdx sw with
         | Some (x, y, z) =>
             foldO dirs6
               (fun dir => Los.unpack_dir TetraIdxs_Init xs hd
                             (Los.index x y z sw) writeIdx dir) ts
         | None => None
         end) tsBuf =
    foldO (list_prod (zrange 0 (n - 1)) dirs6)
      (fun wd s => match unpacked xs hd (fst wd) (snd wd) with
                   | Some v => set_int s (6 * fst wd + snd wd) v
                   | None => None
                   end) tsBuf).
  { rewrite <- (foldO_list_prod (zrange 0 (n - 1)) dirs6
                  (fun w d s => match unpacked xs hd w d with
                                | Some v => set_int s (6 * w + d) v
                                | None => None
                                end)).
    apply foldO_ext. intros w s Hw. apply in_zrange in Hw.
    destruct Hsw2 as [Hz | [Hpos Hle]]; [lia | ].
    destruct (coords_spec w sw) as (x & y & z & Hco & Hidx & _);
      [lia | lia | lia | ].
    rewrite Hco, Hidx.
    apply foldO_ext. intros d s' Hd.
    assert (Bd : 0 <= d < 6) by (subst dirs6; cbn in Hd; lia).
    unfold Los.unpack_dir, unpacked.
    rewrite (int_mul_id 6 w) by (apply in_int_nonneg; lia).
    rewrite (int_add_id (6 * w) d) by (apply in_int_nonneg; lia).
    destruct (Los.unpackTetra _ xs); reflexivity. }
  rewrite Hbody.
  destruct (foldO_set_spec (fun wd => 6 * fst wd + snd wd)
              (fun wd => unpacked xs hd (fst wd) (snd wd))
              (list_prod (zrange 0 (n - 1)) dirs6) tsBuf) as
    (ts' & Hrun & Hlen' & Hset & Hout).
  - apply tetra_slots_NoDup, zrange_NoDup.
  - intros [w d] Hwd. apply in_prod_iff in Hwd. destruct Hwd as [Hw Hd].
    apply in_zrange in Hw.
    assert (Bd : 0 <= d < 6) by (subst dirs6; cbn in Hd; lia).
    cbn [fst snd]. split; [lia | apply Hin; lia].
  - exists ts'. split; [exact Hrun | ]. split; [exact Hlen' | ]. split.
    + intros w d Hw Hd.
      apply (Hset (w, d)). apply in_prod_iff. split.
      * apply in_zrange. lia.
      * subst dirs6. cbn. lia.
    + intros i Hi. apply Hout. intros Hi'.
      apply in_map_iff in Hi'. destruct Hi' as ([w d] & E & Hwd).
      apply in_prod_iff in Hwd. destruct Hwd as [Hw Hd].
      apply in_zrange in Hw.
      assert (Bd : 0 <= d < 6) by (subst dirs6; cbn in Hd; lia).
      cbn [fst snd] in E. lia.
Qed.

End UnpackFacts.

(** A segment of one point in IEEE binary64: four particles, and the six
    tetrahedra of the point all named (0, 1, 2, 3). *)
Definition one_point_header : @Los.SheetHeader float :=
  {| Los.SegmentWidth := 1; Los.GridWidth := 1; Los.TotalWidth := 1%float;
     Los.Count := 1; Los.Origin := (0, 0, 0)%float |}.

Definition one_point_xs : list (@Los.Vec float) :=
  [ (0, 0, 0); (0, 1, 0); (1, 0, 0); (0, 0, 1) ]%float.

Definition one_point_buf : list (@LosGeom.Tetra float) :=
  repeat ((0, 0, 0), (0, 0, 0), (0, 0, 0), (0, 0, 0))%float 6.

Lemma UnpackTetrahedra_spec_witness :
  exists ts',
    Los.UnpackTetrahedra (fun _ _ _ _ => (0, 1, 2, 3)) one_point_xs
      one_point_header one_point_buf = Some ts' /\
    length ts' = 6%nat /\
    nth_int ts' 5 =
      Some ((0, 1, 0), (0, 0, 0), (1, 0, 0), (0, 0, 1))%float.
Proof.
  destruct (UnpackTetrahedra_spec (fun _ _ _ _ => (0, 1, 2, 3)) one_point_xs
              one_point_header one_point_buf) as (ts' & Hrun & Hlen & Hset & _).
  - cbn. lia.
  - cbn. unfold int_max. lia.
  - cbn. lia.
  - intros w dir _ _. vm_compute. discriminate.
  - exists ts'. split; [exact Hrun | ]. split; [exact Hlen | ].
    change (nth_int ts' 5) with (nth_int ts' (6 * 0 + 5)).
    rewrite (Hset 0 5) by (cbn; lia). vm_compute. reflexivity.
Defined.

(** ** The density of the tetrahedra of a sheet *)

Section TetraDensityFacts.

Variable Volume : @LosGeom.Tetra Q -> Q.

(** The mass held by tetrahedra [ts] of densities [rhos]. *)
Fixpoint tetra_mass (ts : list (@LosGeom.Tetra Q)) (rhos : list Q) : Q :=
  match ts, rhos with
  | t :: ts', r :: rhos' => (r * Volume t + tetra_mass ts' rhos')%Q
  | _, _ => 0%Q
  end.

Lemma tetra_mass_pointwise (u : Q) (ts : list (@LosGeom.Tetra Q))
    (rhos : list Q) :
  (length ts <= length rhos)%nat ->
  (forall i t r, nth_error ts i = Some t -> nth_error rhos i = Some r ->
                 (r * Volume t == u)%Q) ->
  (tetra_mass ts rhos == inject_Z (Z.of_nat (length ts)) * u)%Q.
Proof.
  revert rhos. induction ts as [ | t ts IH]; intros rhos Hlen Hpt.
  - cbn. ring.
  - destruct rhos as [ | r rhos]; [cbn in Hlen; lia | ].
    cbn [tetra_mass length].
    rewrite (Hpt 0%nat t r eq_refl eq_refl).
    rewrite IH.
    + rewrite Nat2Z.inj_succ. unfold Z.succ. rewrite inject_Z_plus. ring.
    + cbn in Hlen. lia.
    + intros i t' r' Ht Hr. apply (Hpt (S i) t' r'); assumption.
Qed.

(** X11: without rounding, when [rhos] has room for the tetrahedra and
    none of them has volume zero, TetraDensity does not panic, writes the
    first [len(ts)] densities and nothing else, and gives every
    tetrahedron the mass TotalWidth^3 / (6 Count); so the 6 Count
    tetrahedra of a sheet hold the mass TotalWidth^3 between them. *)
Theorem TetraDensity_mass (hd : @Los.SheetHeader Q)
    (ts : list (@LosGeom.Tetra Q)) (rhos : list Q) :
  (length ts <= length rhos)%nat ->
  (forall t, In t ts -> ~ (Volume t == 0)%Q) ->
  (0 < Los.Count hd)%Z ->
  exists rhos',
    Los.TetraDensity (FO := Exact.ops) Volume hd ts rhos = Some rhos' /\
    length rhos' = length rhos /\
    (forall i t, nth_error ts i = Some t ->
       exists r, nth_error rhos' i = Some r /\
         (r * Volume t ==
          Los.TotalWidth hd * Los.TotalWidth hd * Los.TotalWidth hd /
          (6 * inject_Z (Los.Count hd)))%Q) /\
    (forall i, (length ts <= i)%nat -> nth_error rhos' i = nth_error rhos i) /\
    (Z.of_nat (length ts) = 6 * Los.Count hd ->
     (tetra_mass ts rhos' ==
      Los.TotalWidth hd * Los.TotalWidth hd * Los.TotalWidth hd)%Q).
Proof.
  intros Hlen Hvol Hcount.
  set (tw := Los.TotalWidth hd).
  set (u := (tw * tw * tw / (6 * inject_Z (Los.Count hd)))%Q).
  assert (Hc : ~ (inject_Z (Los.Count hd) == 0)%Q).
  { intros E. assert (H : (0 < inject_Z (Los.Count hd))%Q).
    { change 0%Q with (inject_Z 0). rewrite <- Zlt_Qlt. exact Hcount. }
    rewrite E in H. revert H. apply Qlt_irrefl. }
  destruct (foldO_set_spec (fun i : nat => Z.of_nat i)
              (fun i => option_map (fun t => u / Volume t)%Q (nth_error ts i))
              (seq 0 (length ts)) rhos) as
    (rhos' & Hrun & Hlen' & Hset & Hout).
  - apply NoDup_map_NoDup_ForallPairs; [ | apply seq_NoDup].
    intros a b _ _ E. lia.
  - intros i Hi. apply in_seq in Hi. split; [lia | ].
    destruct (nth_error ts i) eqn:E; [discriminate | ].
    apply nth_error_None in E. lia.
  - exists rhos'.
    assert (Hpt : forall i t, nth_error ts i = Some t ->
              exists r, nth_error rhos' i = Some r /\ (r * Volume t == u)%Q).
    { intros i t Ht.
      assert (Hi : (i < length ts)%nat) by (apply nth_error_Some; congruence).
      assert (Hin : In i (seq 0 (length ts))) by (apply in_seq; lia).
      specialize (Hset _ Hin). rewrite Ht in Hset. cbn [option_map] in Hset.
      unfold nth_int in Hset.
      destruct (Z.of_nat i <? 0) eqn:E; [apply Z.ltb_lt in E; lia | ].
      rewrite Nat2Z.id in Hset.
      eexists. split; [exact Hset | ].
      field. apply Hvol. apply nth_error_In with i. exact Ht. }
    split.
    { unfold Los.TetraDensity. fold tw.
      rewrite <- Hrun. apply foldO_ext. intros i rs _.
      destruct (nth_error ts i); reflexivity. }
    split; [exact Hlen' | ]. split; [exact Hpt | ].
    split.
    + intros i Hi.
      assert (Hni : ~ In (Z.of_nat i)
                      (map (fun i : nat => Z.of_nat i) (seq 0 (length ts)))).
      { intros Hin. apply in_map_iff in Hin. destruct Hin as (k & E & Hin).
        apply in_seq in Hin. lia. }
      specialize (Hout _ Hni). unfold nth_int in Hout.
      destruct (Z.of_nat i <? 0) eqn:E; [apply Z.ltb_lt in E; lia | ].
      rewrite Nat2Z.id in Hout. exact Hout.
    + intros Hsix.
      rewrite (tetra_mass_pointwise u) by
        (try lia; intros i t r Ht Hr; destruct (Hpt i t Ht) as (r' & Hr' & E);
         rewrite Hr in Hr'; injection Hr' as <-; exact E).
      rewrite Hsix. unfold u. rewrite inject_Z_mult.
      change (inject_Z 6) with 6%Q. field. exact Hc.
Qed.

End TetraDensityFacts.

Lemma TetraDensity_mass_witness :
  exists rhos',
    Los.TetraDensity (FO := Exact.ops) (fun t => Qabs (triple t) / 6)%Q
      {| Los.SegmentWidth := 1; Los.GridWidth := 1; Los.TotalWidth := 2%Q;
         Los.Count := 1; Los.Origin := (0, 0, 0)%Q |}
      [corner_tetra; corner_tetra_neg] [0; 0; 7]%Q = Some rhos' /\
    length rhos' = 3%nat /\ nth_error rhos' 2 = Some 7%Q.
Proof.
  destruct (TetraDensity_mass (fun t => Qabs (triple t) / 6)%Q
              {| Los.SegmentWidth := 1; Los.GridWidth := 1;
                 Los.TotalWidth := 2%Q;
                 Los.Count := 1; Los.Origin := (0, 0, 0)%Q |}
              [corner_tetra; corner_tetra_neg] [0; 0; 7]%Q)
    as (rhos' & Hrun & Hlen & _ & Hout & _).
  - cbn. lia.
  - intros t [<- | [<- | []]]; vm_compute; discriminate.
  - cbn. lia.
  - exists rhos'. split; [exact Hrun | ]. split; [exact Hlen | ].
    rewrite Hout by (cbn; lia). reflexivity.
Defined.

(** ** Shifting by one period *)

Section WrapPeriodFacts.

Import Los.

Local Open Scope Q_scope.

Lemma shift_once (tw o c r : Q) :
  o - tw <= c + r ->
  let c' := if Exact.Qltb (c + r) o then c + tw else c in
  o <= c' + r /\ (if Exact.Qltb (c' + r) o then c' + tw else c') = c'.
Proof.
  intros H c'. subst c'.
  destruct (Exact.Qltb (c + r) o) eqn:E.
  - assert (E' : Exact.Qltb (c + tw + r) o = false) by (apply Qltb_false; lra).
    rewrite E'. split; [lra | reflexivity].
  - rewrite E. apply Qltb_false in E. split; [lra | reflexivity].
Qed.

Lemma shift_once_0 (tw o c : Q) :
  o - tw <= c ->
  let c' := if Exact.Qltb c o then c + tw else c in
  o <= c' /\ (if Exact.Qltb c' o then c' + tw else c') = c'.
Proof.
  intros H c'. subst c'.
  destruct (Exact.Qltb c o) eqn:E.
  - assert (E' : Exact.Qltb (c + tw) o = false) by (apply Qltb_false; lra).
    rewrite E'. split; [lra | reflexivity].
  - rewrite E. apply Qltb_false in E. split; [lra | reflexivity].
Qed.

(** X12: without rounding, on positions that lie less than one period
    below the origin of the sheet, WrapXs leaves every coordinate at or
    above the origin, and a second call changes nothing; the same holds
    for WrapHalo and the upper ends [C[j] + R] of the halos. *)
Theorem Wrap_within_one_period {Profile : Type} (xs : list (@Vec Q))
    (hps : list (@HaloProfiles Q Profile)) (hd : @SheetHeader Q) :
  (forall x j, In x xs -> axis (Origin hd) j - TotalWidth hd <= axis x j) ->
  (forall h j, In h hps ->
     axis (Origin hd) j - TotalWidth hd <= axis (C h) j + R h) ->
  (forall x j, In x (WrapXs (FO := Exact.ops) xs hd) ->
     axis (Origin hd) j <= axis x j) /\
  WrapXs (FO := Exact.ops) (WrapXs (FO := Exact.ops) xs hd) hd
    = WrapXs (FO := Exact.ops) xs hd /\
  (forall h j, In h (WrapHalo (FO := Exact.ops) hps hd) ->
     axis (Origin hd) j <= axis (C h) j + R h) /\
  WrapHalo (FO := Exact.ops) (WrapHalo (FO := Exact.ops) hps hd) hd
    = WrapHalo (FO := Exact.ops) hps hd.
Proof.
  intros Hxs Hhps.
  destruct hd as [sw gw tw cnt [[o0 o1] o2]]. cbn [Origin TotalWidth] in *.
  assert (Hx : forall x, In x xs ->
    let x' := on_axes (fun c o => if Exact.Qltb c o then c + tw else c)
                      x (o0, o1, o2) in
    (forall j, axis (o0, o1, o2) j <= axis x' j) /\
    on_axes (fun c o => if Exact.Qltb c o then c + tw else c) x' (o0, o1, o2)
      = x').
  { intros [[x0 x1] x2] Hin.
    pose proof (Hxs _ 0%nat Hin) as H0. pose proof (Hxs _ 1%nat Hin) as H1.
    pose proof (Hxs _ 2%nat Hin) as H2. cbn [axis] in H0, H1, H2.
    destruct (shift_once_0 tw o0 x0 H0) as [A0 B0].
    destruct (shift_once_0 tw o1 x1 H1) as [A1 B1].
    destruct (shift_once_0 tw o2 x2 H2) as [A2 B2].
    cbn [on_axes]. split.
    - intros [ | [ | j]]; cbn [axis]; assumption.
    - cbn [on_axes]. rewrite B0, B1, B2. reflexivity. }
  assert (Hh : forall h, In h hps ->
    let c' := on_axes (fun c o => if Exact.Qltb (c + R h) o then c + tw else c)
                      (C h) (o0, o1, o2) in
    (forall j, axis (o0, o1, o2) j <= axis c' j + R h) /\
    on_axes (fun c o => if Exact.Qltb (c + R h) o then c + tw else c)
            c' (o0, o1, o2) = c').
  { intros [[[c0 c1] c2] r p] Hin.
    pose proof (Hhps _ 0%nat Hin) as H0. pose proof (Hhps _ 1%nat Hin) as H1.
    pose proof (Hhps _ 2%nat Hin) as H2. cbn [axis C R] in H0, H1, H2.
    destruct (shift_once tw o0 c0 r H0) as [A0 B0].
    destruct (shift_once tw o1 c1 r H1) as [A1 B1].
    destruct (shift_once tw o2 c2 r H2) as [A2 B2].
    cbn [on_axes C R]. split.
    - intros [ | [ | j]]; cbn [axis]; assumption.
    - cbn [on_axes]. rewrite B0, B1, B2. reflexivity. }
  unfold WrapXs, WrapHalo.
  cbn [TotalWidth Origin f32 fadd fltb Exact.ops].
  split; [ | split; [ | split]].
  - intros x' j Hin. apply in_map_iff in Hin. destruct Hin as (x & <- & Hin).
    apply (Hx x Hin).
  - rewrite map_map. apply map_ext_in. intros x Hin. apply (Hx x Hin).
  - intros h' j Hin. apply in_map_iff in Hin. destruct Hin as (h & <- & Hin).
    cbn [C R]. apply (Hh h Hin).
  - rewrite map_map. apply map_ext_in. intros h Hin. cbn [C R profile].
    f_equal. apply (Hh h Hin).
Qed.

End WrapPeriodFacts.

Lemma Wrap_within_one_period_witness :
  Los.WrapXs (FO := Exact.ops)
    (Los.WrapXs (FO := Exact.ops) [(-1 # 2, 3, 0)%Q]
       {| Los.SegmentWidth := 1; Los.GridWidth := 1; Los.TotalWidth := 4%Q;
          Los.Count := 1; Los.Origin := (0, 0, 0)%Q |})
    {| Los.SegmentWidth := 1; Los.GridWidth := 1; Los.TotalWidth := 4%Q;
       Los.Count := 1; Los.Origin := (0, 0, 0)%Q |}
  = [((-1 # 2) + 4, 3, 0)%Q].
Proof.
  destruct (Wrap_within_one_period (Profile := unit) [(-1 # 2, 3, 0)%Q]
              [Los.Build_HaloProfiles (F := Q) (0, 0, 0)%Q 1%Q tt]
              {| Los.SegmentWidth := 1; Los.GridWidth := 1;
                 Los.TotalWidth := 4%Q;
                 Los.Count := 1; Los.Origin := (0, 0, 0)%Q |})
    as (_ & Hidem & _).
  - intros x j [<- | []]. destruct j as [ | [ | j]]; vm_compute; discriminate.
  - intros h j [<- | []]. destruct j as [ | [ | j]]; vm_compute; discriminate.
  - rewrite Hidem. reflexivity.
Defined.

(** ** Balls in the bounds configuration *)

Section BallFacts.

Import String.
Import Config.

Context {F : Type} {FO : FloatOps F}.
Variable ToUpper : string -> string.
Variable ReadFileInto : string -> @BoundsConfig F * option (@error F).

(** The balls of a configuration as CheckInit leaves them, when it accepts
    every one of them. *)
Definition checked_balls (totalWidth : F)
    (balls : list (string * @BallConfig F)) (checked : list (@BallConfig F)) :
    Prop :=
  Forall2 (fun nb ball' =>
             BallConfig_CheckInit (snd nb) (fst nb) totalWidth = (ball', None))
          balls checked.

Lemma range_balls_spec (balls : list (string * @BallConfig F)) (totalWidth : F)
    (boxes0 boxes : list (@BoxConfig F)) :
  range_balls balls totalWidth boxes0 = inl boxes <->
  exists checked,
    checked_balls totalWidth balls checked /\
    boxes = boxes0 ++ map (fun b => BallConfig_Box b totalWidth) checked.
Proof.
  revert boxes0. induction balls as [ | [name ball] rest IH]; intros boxes0.
  - cbn. split.
    + intros H. injection H as <-. exists []. split; [constructor | ].
      cbn. rewrite app_nil_r. reflexivity.
    + intros (checked & Hc & ->). inversion Hc. cbn. rewrite app_nil_r.
      reflexivity.
  - cbn [range_balls].
    destruct (BallConfig_CheckInit ball name totalWidth) as [ball' [err | ]] eqn:E.
    + split; [discriminate | ].
      intros (checked & Hc & _). inversion Hc as [ | ? b ? ? H1 _]; subst.
      cbn [fst snd] in H1. congruence.
    + rewrite IH. split.
      * intros (checked & Hc & ->). exists (ball' :: checked). split.
        -- constructor; [exact E | exact Hc].
        -- cbn. rewrite <- app_assoc. reflexivity.
      * intros (checked & Hc & ->).
        inversion Hc as [ | ? b ? checked' H1 H2]; subst.
        cbn [fst snd] in H1. rewrite E in H1. injection H1 as <-.
        exists checked'. split; [exact H2 | ].
        cbn. rewrite <- app_assoc. reflexivity.
Qed.

Lemma CheckInit_names (ball ball' : @BallConfig F) (name : string)
    (totalWidth : F) :
  BallConfig_CheckInit ball name totalWidth = (ball', None) ->
  ball_Name ball' = name.
Proof.
  unfold BallConfig_CheckInit.
  repeat match goal with
         | |- context [if ?c then _ else _] => destruct c
         end;
    cbv zeta; intros H; try discriminate; injection H as <-; reflexivity.
Qed.

(** X13: ReadBoundsConfig returns boxes exactly when the file was read
    without error, has no Box section at all, and CheckInit accepts every
    Ball section; the result is then the box of each ball, in the order in
    which the balls were visited.  Each returned box carries the name of
    its ball and an empty ProjectionAxis, so IsProjection is false for
    it. *)
Theorem ReadBoundsConfig_returns_ball_boxes (fname : string) (totalWidth : F)
    (boxes : list (@BoxConfig F)) :
  (ReadBoundsConfig ToUpper ReadFileInto fname totalWidth = inl boxes <->
   exists bc checked,
     ReadFileInto fname = (bc, None) /\ Box bc = [] /\
     checked_balls totalWidth (Ball bc) checked /\
     boxes = map (fun b => BallConfig_Box b totalWidth) checked) /\
  (ReadBoundsConfig ToUpper ReadFileInto fname totalWidth = inl boxes ->
   map Name boxes = map fst (Ball (fst (ReadFileInto fname))) /\
   Forall (fun box => IsProjection box = false) boxes).
Proof.
  assert (Hiff :
    ReadBoundsConfig ToUpper ReadFileInto fname totalWidth = inl boxes <->
    exists bc checked,
      ReadFileInto fname = (bc, None) /\ Box bc = [] /\
      checked_balls totalWidth (Ball bc) checked /\
      boxes = map (fun b => BallConfig_Box b totalWidth) checked).
  { unfold ReadBoundsConfig.
    destruct (ReadFileInto fname) as [bc [err | ]] eqn:Er.
    - split; [discriminate | ].
      intros (bc' & checked & H & _). discriminate H.
    - destruct (range_balls (Ball bc) totalWidth []) as [bs | err] eqn:Eb.
      + apply range_balls_spec in Eb. destruct Eb as (checked & Hc & ->).
        cbn [app].
        destruct (Box bc) as [ | b rest] eqn:Ebox.
        * cbn. split.
          -- intros H. injection H as <-. exists bc, checked.
             repeat split; assumption.
          -- intros (bc' & checked' & H & _ & Hc' & ->).
             injection H as <-.
             f_equal. f_equal.
             clear - Hc Hc'. revert checked' Hc'.
             induction Hc as [ | nb b' l l' H1 _ IH]; intros checked' Hc';
               inversion Hc' as [ | ? b'' ? l'' H2 H3]; subst; [reflexivity | ].
             rewrite H1 in H2. injection H2 as <-. f_equal. apply IH, H3.
        * destruct (range_boxes_errors ToUpper (b :: rest) totalWidth
                      (map (fun b0 => BallConfig_Box b0 totalWidth) checked))
            as [err Herr]; [discriminate | ].
          rewrite Herr. split; [discriminate | ].
          intros (bc' & checked' & H & Hnil & _). injection H as <-.
          rewrite Ebox in Hnil. discriminate Hnil.
      + split; [discriminate | ].
        intros (bc' & checked & H & _ & Hc & _). injection H as <-.
        assert (Hb : range_balls (Ball bc) totalWidth []
                     = inl ([] ++ map (fun b => BallConfig_Box b totalWidth)
                                      checked)).
        { apply range_balls_spec. exists checked. split; [exact Hc | reflexivity]. }
        congruence. }
  split; [exact Hiff | ].
  intros H. apply Hiff in H. destruct H as (bc & checked & Er & _ & Hc & ->).
  rewrite Er. cbn [fst]. clear Hiff Er. split.
  - rewrite map_map. cbn [BallConfig_Box Name].
    induction Hc as [ | nb b' l l' H1 _ IH]; [reflexivity | ].
    cbn [map]. f_equal; [ | exact IH].
    apply CheckInit_names in H1. exact H1.
  - apply Forall_forall. intros box Hin. apply in_map_iff in Hin.
    destruct Hin as (b & <- & _). reflexivity.
Qed.

End BallFacts.

Section BallExact.

Import String.
Import Config.

Local Open Scope Q_scope.

(** The lower end of a box on one axis, for a centre [c], a radius [rad]
    and the width [tw] of the simulation box. *)
Definition ball_lo (rad tw c : Q) : Q :=
  if Exact.Qltb rad c then c - rad else c - rad + tw.

Lemma ball_lo_range (rad tw c : Q) :
  0 < rad < tw -> 0 <= c < tw ->
  0 < ball_lo rad tw c <= tw /\
  (ball_lo rad tw c == tw <-> c == rad) /\
  (ball_lo rad tw c == c - rad \/ ball_lo rad tw c == c - rad + tw).
Proof.
  intros Hr Hc. unfold ball_lo.
  destruct (Exact.Qltb rad c) eqn:E.
  - apply Qltb_true in E. split; [lra | ]. split.
    + split; intros H; lra.
    + left. reflexivity.
  - apply Qltb_false in E. split; [lra | ]. split.
    + split; intros H; lra.
    + right. reflexivity.
Qed.

(** X14: without rounding, for a ball whose centre is in [0, totalWidth)
    on each axis and whose radius times multiplier [rad] is in
    (0, totalWidth), Box returns widths 2 rad and an origin that is, on
    each axis, the centre minus [rad] or that plus totalWidth, and lies
    in (0, totalWidth]: it is totalWidth, not 0, exactly when the centre
    coordinate equals [rad]. *)
Theorem Ball_Box_origin (ball : @BallConfig Q) (totalWidth : Q) :
  let rad := ball_Radius ball * ball_RadiusMultiplier ball in
  let box := BallConfig_Box (FO := Exact.ops) ball totalWidth in
  0 < rad < totalWidth ->
  0 <= ball_X ball < totalWidth ->
  0 <= ball_Y ball < totalWidth ->
  0 <= ball_Z ball < totalWidth ->
  Forall2 (fun c lo =>
             0 < lo <= totalWidth /\ (lo == totalWidth <-> c == rad) /\
             (lo == c - rad \/ lo == c - rad + totalWidth))
          [ball_X ball; ball_Y ball; ball_Z ball] [X box; Y box; Z box] /\
  XWidth box == 2 * rad /\ YWidth box == 2 * rad /\ ZWidth box == 2 * rad /\
  Name box = ball_Name ball.
Proof.
  intros rad box Hr HX HY HZ. subst box.
  unfold BallConfig_Box. cbn [X Y Z XWidth YWidth ZWidth Name].
  cbn [fmul fsub fadd fltb fofZ Exact.ops]. fold rad.
  split.
  - apply Forall2_cons; [apply (ball_lo_range rad totalWidth _ Hr HX) | ].
    apply Forall2_cons; [apply (ball_lo_range rad totalWidth _ Hr HY) | ].
    apply Forall2_cons; [apply (ball_lo_range rad totalWidth _ Hr HZ) | ].
    apply Forall2_nil.
  - repeat split; reflexivity.
Qed.

(** X15: without rounding, a ball with a negative radius, a centre in
    [0, totalWidth) and a multiplier that is not negative passes
    CheckInit (the multiplier 0 becoming 1), and ReadBoundsConfig on a file
    with that single ball returns one box, whose three widths are
    negative. *)
Theorem negative_radius_is_accepted (ToUpper : string -> string)
    (ReadFileInto : string -> @BoundsConfig Q * option (@error Q))
    (ball : @BallConfig Q) (name fname : string) (totalWidth : Q) :
  ball_Radius ball < 0 ->
  0 <= ball_X ball < totalWidth ->
  0 <= ball_Y ball < totalWidth ->
  0 <= ball_Z ball < totalWidth ->
  0 <= ball_RadiusMultiplier ball ->
  ReadFileInto fname = ({| Ball := [(name, ball)]; Box := [] |}, None) ->
  exists ball' box,
    BallConfig_CheckInit (FO := Exact.ops) ball name totalWidth = (ball', None) /\
    ball_Radius ball' = ball_Radius ball /\
    ball_RadiusMultiplier ball' =
      (if Qeq_bool (ball_RadiusMultiplier ball) 0 then 1
       else ball_RadiusMultiplier ball) /\
    ReadBoundsConfig (FO := Exact.ops) ToUpper ReadFileInto fname totalWidth
      = inl [box] /\
    box = BallConfig_Box (FO := Exact.ops) ball' totalWidth /\
    XWidth box < 0 /\ YWidth box < 0 /\ ZWidth box < 0.
Proof.
  intros Hr HX HY HZ Hm Hread.
  assert (Hcheck :
    BallConfig_CheckInit (FO := Exact.ops) ball name totalWidth =
      ({| ball_X := ball_X ball; ball_Y := ball_Y ball; ball_Z := ball_Z ball;
          ball_Radius := ball_Radius ball;
          ball_RadiusMultiplier :=
            (if Qeq_bool (ball_RadiusMultiplier ball) 0 then 1
             else ball_RadiusMultiplier ball);
          ball_Name := name |}, None)).
  { unfold BallConfig_CheckInit.
    cbn [feqb fleb fltb fofZ Exact.ops].
    change (inject_Z 0) with 0. change (inject_Z 1) with 1.
    assert (E0 : Qeq_bool (ball_Radius ball) 0 = false).
    { destruct (Qeq_bool (ball_Radius ball) 0) eqn:E; [ | reflexivity].
      apply Qeq_bool_iff in E. lra. }
    assert (Ein : forall c, 0 <= c < totalWidth ->
                  Qle_bool totalWidth c || Exact.Qltb c 0 = false).
    { intros c Hc. apply orb_false_iff. split.
      - destruct (Qle_bool totalWidth c) eqn:E; [ | reflexivity].
        apply Qle_bool_iff in E. lra.
      - apply Qltb_false. lra. }
    rewrite E0, (Ein _ HX), (Ein _ HY), (Ein _ HZ). cbv zeta.
    destruct (Qeq_bool (ball_RadiusMultiplier ball) 0) eqn:Em; [reflexivity | ].
    assert (En : Exact.Qltb (ball_RadiusMultiplier ball) 0 = false)
      by (apply Qltb_false; lra).
    rewrite En. reflexivity. }
  eexists. eexists.
  split; [exact Hcheck | ].
  split; [reflexivity | ]. split; [reflexivity | ].
  split.
  { unfold ReadBoundsConfig. rewrite Hread. cbn [Ball Box range_balls].
    rewrite Hcheck. cbn [app range_balls range_boxes]. reflexivity. }
  split; [reflexivity | ].
  cbn [BallConfig_Box XWidth YWidth ZWidth ball_Radius ball_RadiusMultiplier].
  cbn [fmul fofZ Exact.ops]. change (inject_Z 2) with 2.
  assert (Hneg : 2 * (ball_Radius ball *
                      (if Qeq_bool (ball_RadiusMultiplier ball) 0 then 1
                       else ball_RadiusMultiplier ball)) < 0).
  { destruct (Qeq_bool (ball_RadiusMultiplier ball) 0) eqn:Em.
    - lra.
    - assert (Hpos : 0 < ball_RadiusMultiplier ball).
      { destruct (Qlt_le_dec 0 (ball_RadiusMultiplier ball)) as [H | H];
          [exact H | ].
        exfalso. assert (E : ball_RadiusMultiplier ball == 0) by lra.
        apply Qeq_bool_iff in E. congruence. }
      assert (H : 0 < (- ball_Radius ball) * ball_RadiusMultiplier ball).
      { apply Qmult_lt_0_compat; lra. }
      lra. }
  repeat split; exact Hneg.
Qed.

End BallExact.

(** The ball of the example bounds file, with its radius negated, and a
    ball that touches the lower faces of the simulation box. *)
Definition negative_ball : @Config.BallConfig Q :=
  {| Config.ball_X := (4602 # 1000)%Q; Config.ball_Y := (1007 # 10)%Q;
     Config.ball_Z := (807 # 10)%Q; Config.ball_Radius := (- (217 # 100))%Q;
     Config.ball_RadiusMultiplier := 3%Q;
     Config.ball_Name := String.EmptyString |}.

Definition touching_ball : @Config.BallConfig Q :=
  {| Config.ball_X := 6%Q; Config.ball_Y := 100%Q; Config.ball_Z := 2%Q;
     Config.ball_Radius := 2%Q; Config.ball_RadiusMultiplier := 3%Q;
     Config.ball_Name := String.EmptyString |}.

Lemma Ball_Box_origin_witness :
  (Config.X (Config.BallConfig_Box (FO := Exact.ops) touching_ball 125%Q) == 125)%Q /\
  (Config.Y (Config.BallConfig_Box (FO := Exact.ops) touching_ball 125%Q) == 94)%Q /\
  (Config.Z (Config.BallConfig_Box (FO := Exact.ops) touching_ball 125%Q) == 121)%Q.
Proof.
  destruct (Ball_Box_origin touching_ball 125%Q) as (Ho & _);
    try (vm_compute; split; discriminate || reflexivity).
  inversion Ho as [ | ? ? ? ? (_ & HX & _) Ho1]; subst.
  split; [apply HX; reflexivity | ].
  split; reflexivity.
Defined.

Lemma negative_radius_is_accepted_witness :
  exists box,
    Config.ReadBoundsConfig (FO := Exact.ops) (fun s => s)
      (fun _ => ({| Config.Ball := [(String.EmptyString, negative_ball)];
                    Config.Box := [] |}, None))
      String.EmptyString 125%Q = inl [box] /\
    (Config.XWidth box < 0)%Q.
Proof.
  destruct (negative_radius_is_accepted (fun s => s)
              (fun _ => ({| Config.Ball := [(String.EmptyString, negative_ball)];
                            Config.Box := [] |}, None))
              negative_ball String.EmptyString String.EmptyString 125%Q)
    as (ball' & box & _ & _ & _ & Hread & _ & HX & _);
    try (vm_compute; reflexivity);
    try (vm_compute; split; discriminate || reflexivity).
  - vm_compute. discriminate.
  - exists box. split; [exact Hread | exact HX].
Defined.

(** ** Neighbours and periodic wrapping *)

(** X16: for a bounding grid of width W in the int range, nbrs maps every
    cell coordinate i with -1 <= i < W to (i mod W, (i + 1) mod W), both in
    [0, W); a coordinate outside that range is not wrapped: its
    neighbours are i and i + 1. *)
Theorem nbrs_wrap_once {F : Type} (g : @Density.Grid F) (i : Z) :
  0 < RenderGeom.Width (Density.BG g) <= int_max ->
  in_int i -> i < int_max ->
  (-1 <= i < RenderGeom.Width (Density.BG g) ->
   Density.nbrs g i =
     (i mod RenderGeom.Width (Density.BG g),
      (i + 1) mod RenderGeom.Width (Density.BG g)) /\
   0 <= fst (Density.nbrs g i) < RenderGeom.Width (Density.BG g) /\
   0 <= snd (Density.nbrs g i) < RenderGeom.Width (Density.BG g)) /\
  (i < -1 \/ RenderGeom.Width (Density.BG g) <= i ->
   Density.nbrs g i = (i, i + 1)).
Proof.
  intros HW Hi Hmax.
  set (W := RenderGeom.Width (Density.BG g)) in *.
  assert (Hc : Density.nbrs g i =
               if i =? -1 then (W - 1, 0)
               else if i + 1 =? W then (i, 0) else (i, i + 1)).
  { apply nbrs_cases; try assumption;
      unfold in_int, int_min, int_max in *; fold W; lia. }
  rewrite Hc. split.
  - intros Hr.
    destruct (i =? -1) eqn:E1.
    + apply Z.eqb_eq in E1. subst i. cbn [fst snd].
      replace (-1 + 1) with 0 by lia. rewrite Z.mod_0_l by lia.
      replace (-1 mod W) with (W - 1).
      * repeat split; lia.
      * apply Z.mod_unique with (-1); [left; lia | lia].
    + apply Z.eqb_neq in E1.
      destruct (i + 1 =? W) eqn:E2.
      * apply Z.eqb_eq in E2. cbn [fst snd]. rewrite E2.
        rewrite Z.mod_same by lia. rewrite Z.mod_small by lia.
        repeat split; lia.
      * apply Z.eqb_neq in E2. cbn [fst snd].
        rewrite !Z.mod_small by lia. repeat split; lia.
  - intros Hout.
    destruct (i =? -1) eqn:E1; [apply Z.eqb_eq in E1; lia | ].
    destruct (i + 1 =? W) eqn:E2; [apply Z.eqb_eq in E2; lia | ].
    reflexivity.
Qed.

Lemma nbrs_wrap_once_witness :
  Density.nbrs grid4 (-1) = (3, 0) /\ Density.nbrs grid4 3 = (3, 0) /\
  Density.nbrs grid4 7 = (7, 8).
Proof.
  assert (HW : 0 < RenderGeom.Width (Density.BG grid4) <= int_max)
    by (unfold grid4, int_max; cbn [Density.BG RenderGeom.Width]; lia).
  assert (Hin : forall i, -1 <= i <= 7 -> in_int i /\ i < int_max)
    by (intros i Hi; unfold in_int, int_min, int_max; lia).
  destruct (nbrs_wrap_once grid4 (-1) HW) as [H1 _]; try (apply Hin; lia).
  destruct (nbrs_wrap_once grid4 3 HW) as [H3 _]; try (apply Hin; lia).
  destruct (nbrs_wrap_once grid4 7 HW) as [_ H7]; try (apply Hin; lia).
  split; [apply H1; cbn [Density.BG RenderGeom.Width grid4]; lia | ].
  split; [apply H3; cbn [Density.BG RenderGeom.Width grid4]; lia
         | apply H7; cbn [Density.BG RenderGeom.Width grid4]; lia].
Defined.

(** ** Mass conservation for many points *)

Section ManyPointsFacts.

Import RenderGeom Density.

Local Open Scope Q_scope.

Local Abbreviation Grid := (@Density.Grid Q).
Local Abbreviation State := (@Density.State Q).
Local Abbreviation Vec := (@Density.Vec Q).

(** What a list of deposits adds to the store: each amount, once for
    every grid whose window holds its cell. *)
Definition deposits_total (gs : list Grid) (ds : list Deposit) : Q :=
  fold_right (fun d s => snd d * inject_Z (Z.of_nat (covers gs d)) + s) 0 ds.

Lemma deposits_total_app (gs : list Grid) (ds1 ds2 : list Deposit) :
  deposits_total gs (ds1 ++ ds2)
  == deposits_total gs ds1 + deposits_total gs ds2.
Proof.
  unfold deposits_total. induction ds1 as [ | d ds1 IH]; cbn [app fold_right].
  - ring.
  - rewrite IH. ring.
Qed.

(** The loop over the points, each with its list of deposits. *)
Lemma offer_points (gs : list Grid) (D : Vec -> list Deposit) (xs : list Vec)
    (st : State) :
  (forall g, In g gs -> grid_ok (heap st) g) ->
  exists st',
    forM xs (fun pt =>
      forM gs (fun g =>
        forM (D pt) (fun o : Deposit =>
                       let '(i, j, k, over) := o in incr g i j k over)))
      st = Some st' /\
    shape (heap st') = shape (heap st) /\
    heap_sum (heap st') == heap_sum (heap st)
                           + deposits_total gs (flat_map D xs).
Proof.
  revert st. induction xs as [ | pt xs IH]; intros st Hok.
  - exists st. cbn. split; [reflexivity | ]. split; [reflexivity | ring].
  - destruct (offer_all_sum gs (D pt) st Hok) as (st1 & Hrun1 & Hs1 & Hsum1).
    destruct (IH st1) as (st2 & Hrun2 & Hs2 & Hsum2).
    { intros g Hg. apply grid_ok_shape with (h := heap st); [exact Hs1 | ].
      apply Hok, Hg. }
    exists st2. cbn [forM]. rewrite Hrun1.
    split; [exact Hrun2 | ]. split; [congruence | ].
    rewrite Hsum2, Hsum1, taken_covers. cbn [flat_map].
    rewrite deposits_total_app. unfold deposits_total. ring.
Qed.

Lemma ngp_as_offers (g0 : Grid) (gs : list Grid) (mass : Q) (ids : list Z)
    (xs : list Vec) (st : State) :
  ngp_Interpolate (g0 :: gs) mass ids xs st =
  forM xs (fun pt =>
    forM (g0 :: gs) (fun g =>
      forM [ngp_deposit g0 mass pt]
           (fun o : Deposit =>
              let '(i, j, k, over) := o in incr g i j k over))) st.
Proof.
  rewrite ngp_as_incr. apply forM_ext. intros pt s.
  unfold ngp_deposit.
  destruct (cell_of (CellWidth g0) pt) as [[i j] k].
  apply forM_ext. intros g s'. rewrite forM_single. reflexivity.
Qed.

(** X17: in exact arithmetic, when every grid has its array in place,
    ngp.Interpolate and cic.Interpolate return for any list of points,
    and the sum of all density arrays grows by the deposits made (one per
    point for NGP, eight for CIC), each counted once for every grid whose
    window holds its cell: a cell outside every window loses its deposit,
    a cell inside overlapping windows receives it in each. *)
Theorem deposits_counted_per_window (g0 : Grid) (gs : list Grid) (mass : Q)
    (ids : list Z) (xs : list Vec) (st : State) :
  (forall g, In g (g0 :: gs) -> grid_ok (heap st) g) ->
  (exists st',
     ngp_Interpolate (g0 :: gs) mass ids xs st = Some st' /\
     heap_sum (heap st') ==
       heap_sum (heap st)
       + deposits_total (g0 :: gs) (map (ngp_deposit g0 mass) xs)) /\
  (exists st',
     cic_Interpolate (g0 :: gs) mass ids xs st = Some st' /\
     heap_sum (heap st') ==
       heap_sum (heap st)
       + deposits_total (g0 :: gs) (flat_map (cic_overs g0 mass) xs)).
Proof.
  intros Hok. split.
  - destruct (offer_points (g0 :: gs) (fun pt => [ngp_deposit g0 mass pt])
                xs st Hok) as (st' & Hrun & _ & Hsum).
    exists st'. rewrite ngp_as_offers. split; [exact Hrun | ].
    rewrite Hsum.
    assert (E : flat_map (fun pt => [ngp_deposit g0 mass pt]) xs
                = map (ngp_deposit g0 mass) xs).
    { clear. induction xs as [ | pt xs IH]; [reflexivity | ].
      cbn. rewrite IH. reflexivity. }
    rewrite E. reflexivity.
  - destruct (offer_points (g0 :: gs) (cic_overs g0 mass) xs st Hok)
      as (st' & Hrun & _ & Hsum).
    exists st'. split; [exact Hrun | exact Hsum].
Qed.

(** The conversions of the exact model: the integer part of a floor. *)
Lemma exact_cell (x : Q) :
  ftoZ (FloatOps := Exact.ops) (ffloor (FloatOps := Exact.ops) x) = Qfloor x.
Proof.
  cbn [ftoZ ffloor Exact.ops]. unfold Exact.trunc.
  destruct (Qle_bool 0 (inject_Z (Qfloor x)));
    [apply Qfloor_Z | apply Qceiling_Z].
Qed.

Lemma floor_range (x : Q) (lo hi : Z) :
  inject_Z lo <= x -> x < inject_Z hi -> (lo <= Qfloor x < hi)%Z.
Proof.
  intros Hlo Hhi. split.
  - rewrite <- (Qfloor_Z lo). apply Qfloor_resp_le, Hlo.
  - rewrite Zlt_Qlt. apply Qle_lt_trans with x; [apply Qfloor_le | exact Hhi].
Qed.

(** The cell of a point of the box, for NGP, and the cell of the point
    moved by half a cell, for CIC. *)
Lemma ngp_cell_range (cw p : Q) (W : Z) :
  0 < cw -> 0 <= p -> p < inject_Z W * cw ->
  (0 <= Qfloor (p / cw) < W)%Z.
Proof.
  intros Hcw Hp0 Hp1. apply floor_range.
  - change (inject_Z 0) with 0. apply Qle_shift_div_l; [exact Hcw | lra].
  - apply Qlt_shift_div_r; [exact Hcw | exact Hp1].
Qed.

Lemma cic_cell_range (cw p : Q) (W : Z) :
  0 < cw -> 0 <= p -> p < inject_Z W * cw ->
  (-1 <= Qfloor ((p - cw / inject_Z 2) / cw) < W)%Z.
Proof.
  intros Hcw Hp0 Hp1.
  assert (H2 : cw / inject_Z 2 == cw * (1 # 2)).
  { change (inject_Z 2) with 2. field. }
  apply floor_range.
  - change (inject_Z (-1)) with (-1). apply Qle_shift_div_l; [exact Hcw | ].
    rewrite H2. lra.
  - apply Qlt_shift_div_r; [exact Hcw | ]. rewrite H2. lra.
Qed.

(** A point of the box [0, W cw)^3. *)
Definition in_box (g0 : Grid) (pt : Vec) : Prop :=
  let '(px, py, pz) := pt in
  let top := inject_Z (Width (BG g0)) * CellWidth g0 in
  0 <= px /\ px < top /\ 0 <= py /\ py < top /\ 0 <= pz /\ pz < top.

(** The windows of the grids hold every cell of the bounding grid exactly
    once. *)
Definition tiles (gs : list Grid) (W : Z) : Prop :=
  forall i j k over,
    (0 <= i < W)%Z -> (0 <= j < W)%Z -> (0 <= k < W)%Z ->
    covers gs (i, j, k, over) = 1%nat.

Lemma nbrs_in_range (g0 : Grid) (i : Z) :
  (0 < Width (BG g0) <= int_max)%Z -> (-1 <= i < Width (BG g0))%Z ->
  (0 <= fst (nbrs g0 i) < Width (BG g0))%Z /\
  (0 <= snd (nbrs g0 i) < Width (BG g0))%Z.
Proof.
  intros HW Hi.
  assert (Hc : nbrs g0 i =
               if (i =? -1)%Z then (Width (BG g0) - 1, 0)%Z
               else if (i + 1 =? Width (BG g0))%Z then (i, 0%Z)
                    else (i, (i + 1)%Z)).
  { apply nbrs_cases; unfold in_int, int_min, int_max in *; lia. }
  rewrite Hc.
  destruct (i =? -1)%Z eqn:E1; [cbn [fst snd]; lia | ].
  apply Z.eqb_neq in E1.
  destruct (i + 1 =? Width (BG g0))%Z eqn:E2; cbn [fst snd];
    [lia | apply Z.eqb_neq in E2; lia].
Qed.

Lemma cic_overs_in_range (g0 : Grid) (mass : Q) (pt : Vec) :
  (0 < Width (BG g0) <= int_max)%Z -> 0 < CellWidth g0 -> in_box g0 pt ->
  forall d, In d (cic_overs g0 mass pt) ->
    let '(i, j, k, _) := d in
    (0 <= i < Width (BG g0))%Z /\ (0 <= j < Width (BG g0))%Z /\
    (0 <= k < Width (BG g0))%Z.
Proof.
  intros HW Hcw Hin. destruct pt as [[px py] pz].
  destruct Hin as (Hx0 & Hx1 & Hy0 & Hy1 & Hz0 & Hz1).
  unfold cic_overs, cellPoints.
  rewrite !exact_cell.
  cbn [fsub fdiv fofZ Exact.ops].
  pose proof (cic_cell_range _ _ _ Hcw Hx0 Hx1) as Rx.
  pose proof (cic_cell_range _ _ _ Hcw Hy0 Hy1) as Ry.
  pose proof (cic_cell_range _ _ _ Hcw Hz0 Hz1) as Rz.
  destruct (nbrs_in_range g0 _ HW Rx) as [Rx0 Rx1].
  destruct (nbrs_in_range g0 _ HW Ry) as [Ry0 Ry1].
  destruct (nbrs_in_range g0 _ HW Rz) as [Rz0 Rz1].
  destruct (nbrs g0 (Qfloor ((px - CellWidth g0 / inject_Z 2) / CellWidth g0)))
    as [i0 i1].
  destruct (nbrs g0 (Qfloor ((py - CellWidth g0 / inject_Z 2) / CellWidth g0)))
    as [j0 j1].
  destruct (nbrs g0 (Qfloor ((pz - CellWidth g0 / inject_Z 2) / CellWidth g0)))
    as [k0 k1].
  cbn [fst snd] in *.
  intros d Hd. cbn [In] in Hd.
  repeat (destruct Hd as [<- | Hd]; [repeat split; lia | ]).
  destruct Hd.
Qed.

Lemma ngp_deposit_in_range (g0 : Grid) (mass : Q) (pt : Vec) :
  0 < CellWidth g0 -> in_box g0 pt ->
  let '(i, j, k, _) := ngp_deposit g0 mass pt in
  (0 <= i < Width (BG g0))%Z /\ (0 <= j < Width (BG g0))%Z /\
  (0 <= k < Width (BG g0))%Z.
Proof.
  intros Hcw Hin. destruct pt as [[px py] pz].
  destruct Hin as (Hx0 & Hx1 & Hy0 & Hy1 & Hz0 & Hz1).
  unfold ngp_deposit, cell_of, cellPoints. rewrite !exact_cell.
  cbn [fdiv Exact.ops].
  pose proof (ngp_cell_range _ _ _ Hcw Hx0 Hx1).
  pose proof (ngp_cell_range _ _ _ Hcw Hy0 Hy1).
  pose proof (ngp_cell_range _ _ _ Hcw Hz0 Hz1).
  repeat split; lia.
Qed.

Lemma offered_app (ds1 ds2 : list Deposit) :
  offered (ds1 ++ ds2) == offered ds1 + offered ds2.
Proof.
  unfold offered. induction ds1 as [ | d ds1 IH]; cbn [app fold_right].
  - ring.
  - rewrite IH. ring.
Qed.

(** X18: in exact arithmetic, for grids with their arrays in place whose
    windows hold every cell of the bounding grid exactly once, a positive
    cell width and a cell volume that is not zero: ngp.Interpolate and
    cic.Interpolate, called with any points of the box [0, W cw)^3,
    return, and the sum of all densities times the cell volume grows by
    [mass] for every point.  For CIC this includes the points within half
    a cell of the faces of the box, whose shares wrap around. *)
Theorem mass_conserved_on_tiled_box (g0 : Grid) (gs : list Grid) (mass : Q)
    (ids : list Z) (xs : list Vec) (st : State) :
  (forall g, In g (g0 :: gs) -> grid_ok (heap st) g) ->
  (0 < Width (BG g0) <= int_max)%Z ->
  0 < CellWidth g0 -> ~ CellVolume g0 == 0 ->
  tiles (g0 :: gs) (Width (BG g0)) ->
  (forall pt, In pt xs -> in_box g0 pt) ->
  (exists st',
     ngp_Interpolate (g0 :: gs) mass ids xs st = Some st' /\
     heap_sum (heap st') * CellVolume g0 ==
       heap_sum (heap st) * CellVolume g0
       + inject_Z (Z.of_nat (length xs)) * mass) /\
  (exists st',
     cic_Interpolate (g0 :: gs) mass ids xs st = Some st' /\
     heap_sum (heap st') * CellVolume g0 ==
       heap_sum (heap st) * CellVolume g0
       + inject_Z (Z.of_nat (length xs)) * mass).
Proof.
  intros Hok HW Hcw Hcv Htile Hbox.
  assert (Hfrac : mass / CellVolume g0 * CellVolume g0 == mass)
    by (field; exact Hcv).
  assert (Hn : forall (D : Vec -> list Deposit),
            (forall pt, In pt xs ->
               (forall d, In d (D pt) -> covers (g0 :: gs) d = 1%nat) /\
               offered (D pt) == mass / CellVolume g0) ->
            deposits_total (g0 :: gs) (flat_map D xs) * CellVolume g0
            == inject_Z (Z.of_nat (length xs)) * mass).
  { intros D HD. clear Hok Hbox.
    induction xs as [ | pt xs IH].
    - cbn. ring.
    - cbn [flat_map length]. rewrite deposits_total_app.
      rewrite Nat2Z.inj_succ. unfold Z.succ. rewrite inject_Z_plus.
      destruct (HD pt (or_introl eq_refl)) as [Hcov Hoff].
      unfold deposits_total at 1. rewrite (covered_once _ _ Hcov), Hoff.
      apply Qeq_trans
        with (mass / CellVolume g0 * CellVolume g0
              + deposits_total (g0 :: gs) (flat_map D xs) * CellVolume g0);
        [ring | ].
      rewrite Hfrac, IH.
      + change (inject_Z 1) with 1. ring.
      + intros pt' Hpt'. apply HD. right. exact Hpt'. }
  assert (Hngp :
    deposits_total (g0 :: gs) (map (ngp_deposit g0 mass) xs) * CellVolume g0
    == inject_Z (Z.of_nat (length xs)) * mass).
  { assert (E : map (ngp_deposit g0 mass) xs
                = flat_map (fun pt => [ngp_deposit g0 mass pt]) xs).
    { clear. induction xs as [ | pt xs IH]; [reflexivity | ].
      cbn. rewrite IH. reflexivity. }
    rewrite E. apply Hn. intros pt Hpt. split.
    - intros d [<- | []].
      pose proof (ngp_deposit_in_range g0 mass pt Hcw (Hbox pt Hpt)) as Hr.
      destruct (ngp_deposit g0 mass pt) as [[[i j] k] over].
      destruct Hr as (Hi & Hj & Hk). apply Htile; assumption.
    - unfold offered, ngp_deposit.
      destruct (cell_of (CellWidth g0) pt) as [[i j] k].
      cbn [fold_right snd]. ring. }
  assert (Hcic :
    deposits_total (g0 :: gs) (flat_map (cic_overs g0 mass) xs) * CellVolume g0
    == inject_Z (Z.of_nat (length xs)) * mass).
  { apply Hn. intros pt Hpt. split.
    - intros d Hd.
      pose proof (cic_overs_in_range g0 mass pt HW Hcw (Hbox pt Hpt) d Hd) as Hr.
      destruct d as [[[i j] k] over].
      destruct Hr as (Hi & Hj & Hk). apply Htile; assumption.
    - apply cic_offered. }
  destruct (offer_points (g0 :: gs) (fun pt => [ngp_deposit g0 mass pt])
              xs st Hok) as (st1 & Hrun1 & _ & Hsum1).
  destruct (offer_points (g0 :: gs) (cic_overs g0 mass) xs st Hok)
    as (st2 & Hrun2 & _ & Hsum2).
  split.
  - exists st1. rewrite ngp_as_offers. split; [exact Hrun1 | ].
    rewrite Hsum1.
    assert (E : flat_map (fun pt => [ngp_deposit g0 mass pt]) xs
                = map (ngp_deposit g0 mass) xs).
    { clear. induction xs as [ | pt xs IH]; [reflexivity | ].
      cbn. rewrite IH. reflexivity. }
    rewrite E, Qmult_plus_distr_l, Hngp. reflexivity.
  - exists st2. split; [exact Hrun2 | ].
    rewrite Hsum2, Qmult_plus_distr_l, Hcic. reflexivity.
Qed.

End ManyPointsFacts.

Lemma grid2_exact_ok (g : @Density.Grid Q) :
  In g [grid2_exact] -> grid_ok (Density.heap grid2_exact_state) g.
Proof. intros [<- | []]. exists (repeat 0%Q 8). split; reflexivity. Qed.

Lemma deposits_counted_per_window_witness :
  exists st',
    Density.ngp_Interpolate [grid2_exact] 3%Q []
      [(0, 0, 0)%Q; (3 # 2, 0, 0)%Q] grid2_exact_state = Some st' /\
    (heap_sum (Density.heap st') ==
     heap_sum (Density.heap grid2_exact_state) + 24)%Q.
Proof.
  destruct (deposits_counted_per_window grid2_exact [] 3%Q []
              [(0, 0, 0)%Q; (3 # 2, 0, 0)%Q] grid2_exact_state grid2_exact_ok)
    as [(st' & Hrun & Hsum) _].
  exists st'. split; [exact Hrun | ].
  rewrite Hsum. vm_compute. reflexivity.
Defined.

Lemma mass_conserved_on_tiled_box_witness :
  exists st',
    Density.cic_Interpolate [grid2_exact] 3%Q []
      [(0, 0, 0)%Q; (3 # 4, 1 # 4, 1 # 2)%Q] grid2_exact_state = Some st' /\
    (heap_sum (Density.heap st') * Density.CellVolume grid2_exact ==
     heap_sum (Density.heap grid2_exact_state) * Density.CellVolume grid2_exact
     + inject_Z (Z.of_nat 2) * 3)%Q.
Proof.
  destruct (mass_conserved_on_tiled_box grid2_exact [] 3%Q []
              [(0, 0, 0)%Q; (3 # 4, 1 # 4, 1 # 2)%Q] grid2_exact_state)
    as [_ Hcic].
  - exact grid2_exact_ok.
  - unfold grid2_exact, int_max. cbn [Density.BG RenderGeom.Width]. lia.
  - vm_compute. reflexivity.
  - vm_compute. discriminate.
  - intros i j k over Hi Hj Hk.
    unfold grid2_exact in Hi, Hj, Hk.
    cbn [Density.BG RenderGeom.Width] in Hi, Hj, Hk.
    assert (Ei : i = 0 \/ i = 1) by lia.
    assert (Ej : j = 0 \/ j = 1) by lia.
    assert (Ek : k = 0 \/ k = 1) by lia.
    destruct Ei as [-> | ->], Ej as [-> | ->], Ek as [-> | ->]; reflexivity.
  - intros pt [<- | [<- | []]]; vm_compute; repeat split; discriminate.
  - exact Hcic.
Defined.

(** ** Tetrahedra that meet no grid *)

Section NoGridFacts.

Import RenderGeom Density.

Context {F : Type} {FO : FloatOps F}.

Local Abbreviation Grid := (@Density.Grid F).
Local Abbreviation State := (@Density.State F).
Local Abbreviation Vec := (@Density.Vec F).

Variable Tetra : Type.
Variable Tetra_Init : Vec -> Vec -> Vec -> Vec -> F -> Tetra.
Variable CellBoundsAt : Tetra -> F -> CellBounds.
Variable MinMaxLeg : Tetra -> F * F.
Variable Distribute : Tetra -> list F -> list F -> list F -> list Vec.
Variable Gen : Type.
Variable RandomSample : Tetra -> Gen -> nat -> Gen * list Vec.
Variable TetraIdxs_Init : Z -> Z -> Z -> Z -> Z * Z * Z * Z.
Variable Intersect : RenderGeom.Grid -> CellBounds -> RenderGeom.Grid -> bool.

Local Abbreviation mc_step :=
  (mcarlo_step Tetra Tetra_Init CellBoundsAt MinMaxLeg Gen RandomSample
     TetraIdxs_Init Intersect).
Local Abbreviation sb_step :=
  (sobol_step Tetra Tetra_Init CellBoundsAt Distribute TetraIdxs_Init
     Intersect).

(** The four particles of the tetrahedron (id, dir) are in the manager,
    and its cell bounds, taken with the box and cell width of the first
    grid, pass the Intersect test of none of the grids. *)
Definition meets_no_grid (man : @ParticleManager F) (countWidth : Z)
    (gs : list Grid) (id dir : Z) : Prop :=
  let '(a0, a1, a2, a3) := TetraIdxs_Init id countWidth 1 dir in
  exists g0 p0 p1 p2 p3,
    hd_error gs = Some g0 /\
    man a0 = Some p0 /\ man a1 = Some p1 /\ man a2 = Some p2 /\
    man a3 = Some p3 /\
    forall g, In g gs ->
      Intersect (G g)
        (CellBoundsAt (Tetra_Init p0 p1 p2 p3 (BoxWidth g0)) (CellWidth g0))
        (BG g) = false.

Lemma intersecting_none (cb : CellBounds) (gs : list Grid) :
  (forall g, In g gs -> Intersect (G g) cb (BG g) = false) ->
  intersecting Intersect cb gs = [].
Proof.
  intros H. rewrite intersecting_filter.
  induction gs as [ | g gs IH]; [reflexivity | ].
  cbn [filter]. rewrite (H g (or_introl eq_refl)).
  apply IH. intros g' Hg'. apply H. right. exact Hg'.
Qed.

(** A loop stops with a panic when one of its steps panics in every state
    that the earlier steps can leave. *)
Lemma foldM_doomed {A B : Type} (l : list A)
    (f : A -> B -> State -> option (B * State)) (I : B -> Prop) (x : A) :
  In x l ->
  (forall y b st b' st', I b -> f y b st = Some (b', st') -> I b') ->
  (forall b st, I b -> f x b st = None) ->
  forall b st, I b -> foldM l f b st = None.
Proof.
  intros Hin Hkeep Hx. induction l as [ | y l IH]; [destruct Hin | ].
  intros b st Hb. cbn [foldM].
  destruct Hin as [-> | Hin].
  - rewrite (Hx b st Hb). reflexivity.
  - destruct (f y b st) as [[b1 st1] | ] eqn:E; [ | reflexivity].
    apply (IH Hin). apply (Hkeep y b st b1 st1 Hb E).
Qed.

Lemma sobol_step_keeps_all (gs : list Grid) (ptMass : F) (id dir : Z)
    (intr intr' : sobol) (st st' : State) :
  sb_step gs ptMass id dir intr st = Some (intr', st') ->
  sb_man intr' = sb_man intr /\ sb_countWidth intr' = sb_countWidth intr /\
  sb_subIntr intr' = sb_subIntr intr.
Proof.
  unfold sobol_step.
  destruct (TetraIdxs_Init id (sb_countWidth intr) 1 dir)
    as [[[a0 a1] a2] a3].
  destruct (sb_man intr a0), (sb_man intr a1), (sb_man intr a2),
    (sb_man intr a3);
    try (intros H; injection H as <- _; repeat split; reflexivity).
  destruct gs as [ | g0 gs0]; [discriminate | ]. cbv zeta.
  destruct (sb_subIntr intr _ _ _ _ st); [ | discriminate].
  intros H; injection H as <- _; repeat split; reflexivity.
Qed.

Lemma mcarlo_step_keeps_all (gs : list Grid) (mass : F) (id dir : Z)
    (intr intr' : mcarlo Tetra Gen) (st st' : State) :
  mc_step gs mass id dir intr st = Some (intr', st') ->
  mc_man _ _ intr' = mc_man _ _ intr /\
  mc_countWidth _ _ intr' = mc_countWidth _ _ intr /\
  mc_subIntr _ _ intr' = mc_subIntr _ _ intr /\
  mc_steps _ _ intr' = mc_steps _ _ intr /\
  mc_pointSelect _ _ intr' = mc_pointSelect _ _ intr.
Proof.
  unfold mcarlo_step.
  destruct (TetraIdxs_Init id (mc_countWidth _ _ intr) 1 dir)
    as [[[a0 a1] a2] a3].
  destruct (mc_man _ _ intr a0), (mc_man _ _ intr a1), (mc_man _ _ intr a2),
    (mc_man _ _ intr a3);
    try (intros H; injection H as <- _; repeat split; reflexivity).
  destruct gs as [ | g0 gs0]; [discriminate | ]. cbv zeta.
  destruct (_ =? 0).
  - intros H; injection H as <- _; repeat split; reflexivity.
  - destruct (_ && _); [ | discriminate].
    destruct (RandomSample _ _ _) as [gen' vs].
    destruct (mc_subIntr _ _ intr _ _ _ _ st); [ | discriminate].
    intros H; injection H as <- _; repeat split; reflexivity.
Qed.

Lemma sobol_step_doomed (gs : list Grid) (ptMass : F) (id dir : Z)
    (intr : sobol) (st : State) :
  sb_subIntr intr = ngp_Interpolate ->
  meets_no_grid (sb_man intr) (sb_countWidth intr) gs id dir ->
  sb_step gs ptMass id dir intr st = None.
Proof.
  intros Hsub Hno. unfold meets_no_grid in Hno. unfold sobol_step.
  destruct (TetraIdxs_Init id (sb_countWidth intr) 1 dir)
    as [[[a0 a1] a2] a3].
  destruct Hno as (g0 & p0 & p1 & p2 & p3 & Hg0 & H0 & H1 & H2 & H3 & Hno).
  rewrite H0, H1, H2, H3.
  destruct gs as [ | g gs0]; [reflexivity | ].
  cbn [hd_error] in Hg0. injection Hg0 as ->. cbv zeta.
  rewrite (intersecting_none _ _ Hno), Hsub. reflexivity.
Qed.

Lemma mcarlo_step_doomed (gs : list Grid) (mass : F) (id dir : Z)
    (intr : mcarlo Tetra Gen) (st : State) :
  mc_subIntr _ _ intr = ngp_Interpolate ->
  mc_pointSelect _ _ intr = Flat -> mc_steps _ _ intr <> 0 ->
  meets_no_grid (mc_man _ _ intr) (mc_countWidth _ _ intr) gs id dir ->
  mc_step gs mass id dir intr st = None.
Proof.
  intros Hsub Hflat Hsteps Hno. unfold meets_no_grid in Hno.
  unfold mcarlo_step.
  destruct (TetraIdxs_Init id (mc_countWidth _ _ intr) 1 dir)
    as [[[a0 a1] a2] a3].
  destruct Hno as (g0 & p0 & p1 & p2 & p3 & Hg0 & H0 & H1 & H2 & H3 & Hno).
  rewrite H0, H1, H2, H3.
  destruct gs as [ | g gs0]; [reflexivity | ].
  cbn [hd_error] in Hg0. injection Hg0 as ->. cbv zeta.
  unfold pointSelect. cbn [mc_pointSelect]. rewrite Hflat.
  unfold flat. cbn [mc_steps].
  destruct (mc_steps _ _ intr =? 0) eqn:E; [apply Z.eqb_eq in E; contradiction | ].
  destruct (_ && _); [ | reflexivity].
  destruct (RandomSample _ _ _) as [gen' vs].
  rewrite (intersecting_none _ _ Hno), Hsub. reflexivity.
Qed.

(** X20: a tetrahedron whose four particles are present and whose cell
    bounds pass the Intersect test of none of the grids makes
    sobol.Interpolate panic, and mcarlo.Interpolate too when the Flat
    selector gives a number of points that is not zero: the NGP
    sub-interpolator is then called with an empty slice of grids and reads
    [gs[0]].  This holds wherever the tetrahedron stands among the ids and
    directions, and whatever the other tetrahedra do. *)
Theorem no_intersecting_grid_panics (mc : mcarlo Tetra Gen) (sb : sobol)
    (gs : list Grid) (mass : F) (ids : list Z) (xs : list Vec) (id dir : Z)
    (st : State) :
  In (id, dir) (work ids) ->
  (sb_subIntr sb = ngp_Interpolate ->
   meets_no_grid (sb_man sb) (sb_countWidth sb) gs id dir ->
   sobol_Interpolate Tetra Tetra_Init CellBoundsAt Distribute TetraIdxs_Init
     Intersect sb gs mass ids xs st = None) /\
  (mc_subIntr _ _ mc = ngp_Interpolate ->
   mc_pointSelect _ _ mc = Flat -> mc_steps _ _ mc <> 0 ->
   meets_no_grid (mc_man _ _ mc) (mc_countWidth _ _ mc) gs id dir ->
   mcarlo_Interpolate Tetra Tetra_Init CellBoundsAt MinMaxLeg Gen RandomSample
     TetraIdxs_Init Intersect mc gs mass ids xs st = None).
Proof.
  intros Hin. split.
  - intros Hsub Hno. unfold sobol_Interpolate. rewrite foldM_work.
    apply (foldM_doomed (work ids)
             (fun w => sb_step gs _ (fst w) (snd w))
             (fun b => sb_man b = sb_man sb /\
                       sb_countWidth b = sb_countWidth sb /\
                       sb_subIntr b = sb_subIntr sb) (id, dir) Hin).
    + intros y b s b' s' (I1 & I2 & I3) E.
      destruct (sobol_step_keeps_all _ _ _ _ _ _ _ _ E) as (K1 & K2 & K3).
      repeat split; congruence.
    + intros b s (I1 & I2 & I3). cbn [fst snd].
      apply sobol_step_doomed;
        first [congruence | rewrite I1, I2; exact Hno].
    + repeat split.
  - intros Hsub Hflat Hsteps Hno. unfold mcarlo_Interpolate.
    rewrite foldM_work.
    apply (foldM_doomed (work ids)
             (fun w => mc_step gs mass (fst w) (snd w))
             (fun b => mc_man _ _ b = mc_man _ _ mc /\
                       mc_countWidth _ _ b = mc_countWidth _ _ mc /\
                       mc_subIntr _ _ b = mc_subIntr _ _ mc /\
                       mc_steps _ _ b = mc_steps _ _ mc /\
                       mc_pointSelect _ _ b = mc_pointSelect _ _ mc)
             (id, dir) Hin).
    + intros y b s b' s' (I1 & I2 & I3 & I4 & I5) E.
      destruct (mcarlo_step_keeps_all _ _ _ _ _ _ _ _ E)
        as (K1 & K2 & K3 & K4 & K5).
      repeat split; congruence.
    + intros b s (I1 & I2 & I3 & I4 & I5). cbn [fst snd].
      apply mcarlo_step_doomed;
        first [congruence | rewrite I1, I2; exact Hno].
    + repeat split.
Qed.

End NoGridFacts.

(** The sample sequence of the examples between grids that the
    tetrahedra miss: the run panics at the first tetrahedron. *)
Lemma no_intersecting_grid_panics_witness :
  Density.sobol_Interpolate Toy.Tetra Toy.Tetra_Init Toy.CellBoundsAt
    Toy.Distribute Toy.TetraIdxs_Init (fun _ _ _ => false)
    toy_sobol [grid4] 2%float [5] [] grid4_state = None /\
  Density.mcarlo_Interpolate Toy.Tetra Toy.Tetra_Init Toy.CellBoundsAt
    Toy.MinMaxLeg Toy.Gen Toy.RandomSample Toy.TetraIdxs_Init
    (fun _ _ _ => false)
    (toy_mcarlo Density.Flat) [grid4] 2%float [5] [] grid4_state = None.
Proof.
  assert (Hin : In (5, 3) (work [5])) by (cbn; tauto).
  assert (Hno : forall cw,
            meets_no_grid Toy.Tetra Toy.Tetra_Init Toy.CellBoundsAt
              Toy.TetraIdxs_Init (fun _ _ _ => false) Toy.man cw [grid4] 5 3).
  { intros cw. unfold meets_no_grid, Toy.TetraIdxs_Init.
    exists grid4, (0, 0, 0)%float, (0, 0, 0)%float, (0, 0, 0)%float,
      (0, 0, 0)%float.
    repeat split; reflexivity. }
  destruct (no_intersecting_grid_panics Toy.Tetra Toy.Tetra_Init
              Toy.CellBoundsAt Toy.MinMaxLeg Toy.Distribute Toy.Gen
              Toy.RandomSample Toy.TetraIdxs_Init (fun _ _ _ => false)
              (toy_mcarlo Density.Flat) toy_sobol [grid4] 2%float [5] []
              5 3 grid4_state Hin) as [Hsb Hmc].
  split.
  - apply Hsb; [reflexivity | apply Hno].
  - apply Hmc; [reflexivity | reflexivity | discriminate | apply Hno].
Defined.

(** ** The single-grid revision and the multi-grid one *)

Section SingleGridFacts.

Context {F : Type} {FO : FloatOps F}.

(** The Grid value of the multi-grid revision that holds what a
    single-grid interpolator holds. *)
Definition grid_of_cic (intr : @DensitySingle.cic F) (boxWidth : F) :
    @Density.Grid F :=
  {| Density.Rhos := DensitySingle.cic_rhos intr;
     Density.BoxWidth := boxWidth;
     Density.CellWidth := DensitySingle.cic_cellWidth intr;
     Density.CellVolume := DensitySingle.cic_cellVolume intr;
     Density.G := DensitySingle.cic_g intr;
     Density.BG := DensitySingle.cic_bg intr |}.

Definition grid_of_ngp (intr : @DensitySingle.ngp F) (bg : RenderGeom.Grid)
    (boxWidth : F) : @Density.Grid F :=
  {| Density.Rhos := DensitySingle.ngp_rhos intr;
     Density.BoxWidth := boxWidth;
     Density.CellWidth := DensitySingle.ngp_cellWidth intr;
     Density.CellVolume := DensitySingle.ngp_cellVolume intr;
     Density.G := DensitySingle.ngp_g intr;
     Density.BG := bg |}.

(** X21: the Interpolate methods of the single-grid revision do what the
    multi-grid revision does on the list of one grid that holds the same
    array, window, bounding grid, cell width and cell volume (whatever its
    BoxWidth, and for NGP whatever its bounding grid), panics included; and
    whenever Grid.Init of the multi-grid revision returns, Bounds returns
    the same window and bounding grid. *)
Theorem single_grid_revision_agrees :
  (forall (intr : @DensitySingle.cic F) boxWidth mass ids xs st,
     DensitySingle.cic_Interpolate intr mass ids xs st =
     Density.cic_Interpolate [grid_of_cic intr boxWidth] mass ids xs st) /\
  (forall (intr : @DensitySingle.ngp F) bg boxWidth mass ids xs st,
     DensitySingle.ngp_Interpolate intr mass ids xs st =
     Density.ngp_Interpolate [grid_of_ngp intr bg boxWidth] mass ids xs st) /\
  (forall (h : @Density.Heap F) boxWidth gridWidth rhos c g,
     Density.Grid_Init h boxWidth gridWidth rhos c = Some g ->
     DensitySingle.Bounds (Density.cWidth c) gridWidth (Density.cX c)
       (Density.cY c) (Density.cZ c) = Some (Density.G g, Density.BG g)).
Proof.
  split; [ | split].
  - intros intr bw mass ids xs st.
    unfold DensitySingle.cic_Interpolate, Density.cic_Interpolate.
    apply forM_ext. intros [[px py] pz] s.
    unfold Density.cic_overs.
    cbn [grid_of_cic Density.CellWidth Density.CellVolume].
    destruct (Density.cellPoints _ _ _ _) as [[xc yc] zc].
    change (Density.nbrs (grid_of_cic intr bw)) with (DensitySingle.nbrs intr).
    destruct (DensitySingle.nbrs intr (ftoZ xc)) as [i0 i1].
    destruct (DensitySingle.nbrs intr (ftoZ yc)) as [j0 j1].
    destruct (DensitySingle.nbrs intr (ftoZ zc)) as [k0 k1].
    rewrite forM_single. reflexivity.
  - intros intr bg bw mass ids xs st.
    unfold DensitySingle.ngp_Interpolate, Density.ngp_Interpolate.
    apply forM_ext. intros [[xp yp] zp] s.
    cbn [grid_of_ngp Density.CellWidth Density.CellVolume].
    destruct (Density.cellPoints _ _ _ _) as [[xc yc] zc].
    rewrite forM_single. reflexivity.
  - intros h bw gw rhos c g H. unfold Density.Grid_Init in H.
    destruct (nth_error h rhos) as [a | ]; [ | discriminate].
    destruct (negb _); [discriminate | ].
    unfold DensitySingle.Bounds.
    destruct (RenderGeom.Init _ (Density.cWidth c)) as [g1 | ]; [ | discriminate].
    destruct (RenderGeom.Init (0, 0, 0) _) as [bg1 | ]; [ | discriminate].
    injection H as <-. reflexivity.
Qed.

End SingleGridFacts.

Lemma cic_single_as_multi (intr : @DensitySingle.cic Q) (boxWidth mass : Q)
    (ids : list Z) (xs : list (@Density.Vec Q)) (st : @Density.State Q) :
  DensitySingle.cic_Interpolate (FO := Exact.ops) intr mass ids xs st =
  Density.cic_Interpolate (FO := Exact.ops) [grid_of_cic intr boxWidth]
    mass ids xs st.
Proof.
  unfold DensitySingle.cic_Interpolate, Density.cic_Interpolate.
  apply forM_ext. intros [[px py] pz] s.
  unfold Density.cic_overs.
  cbn [grid_of_cic Density.CellWidth Density.CellVolume].
  destruct (Density.cellPoints _ _ _ _) as [[xc yc] zc].
  change (Density.nbrs (grid_of_cic intr boxWidth))
    with (DensitySingle.nbrs intr).
  destruct (DensitySingle.nbrs intr (ftoZ xc)) as [i0 i1].
  destruct (DensitySingle.nbrs intr (ftoZ yc)) as [j0 j1].
  destruct (DensitySingle.nbrs intr (ftoZ zc)) as [k0 k1].
  rewrite forM_single. reflexivity.
Qed.

Lemma ngp_single_as_multi (intr : @DensitySingle.ngp Q) (bg : RenderGeom.Grid)
    (boxWidth mass : Q) (ids : list Z) (xs : list (@Density.Vec Q))
    (st : @Density.State Q) :
  DensitySingle.ngp_Interpolate (FO := Exact.ops) intr mass ids xs st =
  Density.ngp_Interpolate (FO := Exact.ops) [grid_of_ngp intr bg boxWidth]
    mass ids xs st.
Proof.
  unfold DensitySingle.ngp_Interpolate, Density.ngp_Interpolate.
  apply forM_ext. intros [[xp yp] zp] s.
  cbn [grid_of_ngp Density.CellWidth Density.CellVolume].
  destruct (Density.cellPoints _ _ _ _) as [[xc yc] zc].
  rewrite forM_single. reflexivity.
Qed.

(** The deposits of an interpolator of the single-grid revision. *)
Definition single_deposits (intr : @DensitySingle.Interpolator Q)
    (bg : RenderGeom.Grid) (mass : Q) (xs : list (@Density.Vec Q)) :
    list Deposit :=
  match intr with
  | DensitySingle.of_cic c =>
      flat_map (Density.cic_overs (FO := Exact.ops) (grid_of_cic c 0%Q) mass) xs
  | DensitySingle.of_ngp n => map (ngp_deposit (grid_of_ngp n bg 0%Q) mass) xs
  end.

Definition single_grid (intr : @DensitySingle.Interpolator Q)
    (bg : RenderGeom.Grid) : @Density.Grid Q :=
  match intr with
  | DensitySingle.of_cic c => grid_of_cic c 0%Q
  | DensitySingle.of_ngp n => grid_of_ngp n bg 0%Q
  end.

(** X22: in exact arithmetic, an interpolator that NewInterpolator made
    for the grids of Bounds does not panic in Interpolate, whatever the
    points: the array has one element per cell of the window.  The sum of
    the array grows by the deposits whose cells are in the window, and the
    shape of the store stays as it is.  NewInterpolator itself panics
    exactly when the array does not have the length of the window's
    volume or the flag is neither CloudInCell nor NearestGridPoint. *)
Theorem single_grid_interpolator_works (h : @Density.Heap Q)
    (cells gridWidth gx gy gz flag : Z) (g bg : RenderGeom.Grid)
    (width : Q) (rhos : nat) (a : list Q) :
  DensitySingle.Bounds cells gridWidth gx gy gz = Some (g, bg) ->
  nth_error h rhos = Some a ->
  (DensitySingle.NewInterpolator (FO := Exact.ops) h flag g bg width rhos
     = None <->
   Z.of_nat (length a) <> cells * cells * cells \/
   (flag <> DensitySingle.CloudInCell /\
    flag <> DensitySingle.NearestGridPoint)) /\
  (forall intr mass ids xs st,
     DensitySingle.NewInterpolator (FO := Exact.ops) h flag g bg width rhos
       = Some intr ->
     Density.heap st = h ->
     exists st',
       DensitySingle.Interpolate (FO := Exact.ops) intr mass ids xs st
         = Some st' /\
       shape (Density.heap st') = shape h /\
       (heap_sum (Density.heap st') ==
        heap_sum h
        + deposits_total [single_grid intr bg]
            (single_deposits intr bg mass xs))%Q).
Proof.
  intros Hb Ha.
  assert (Hg : RenderGeom.Width g = cells /\
               RenderGeom.Volume g = cells * cells * cells).
  { unfold DensitySingle.Bounds, RenderGeom.Init in Hb.
    destruct (0 <? cells); [ | discriminate].
    destruct (0 <? int_mul cells gridWidth); [ | discriminate].
    injection Hb as <- _. cbn. split; reflexivity. }
  destruct Hg as [HW HV].
  unfold DensitySingle.NewInterpolator. rewrite Ha, HV.
  split.
  - destruct (cells * cells * cells =? Z.of_nat (length a)) eqn:E; cbn [negb].
    + apply Z.eqb_eq in E.
      unfold DensitySingle.CloudInCell, DensitySingle.NearestGridPoint.
      destruct (flag =? 0) eqn:E0.
      * apply Z.eqb_eq in E0. split; [discriminate | ]. intros [H | [H _]]; lia.
      * apply Z.eqb_neq in E0. destruct (flag =? 1) eqn:E1.
        -- apply Z.eqb_eq in E1. split; [discriminate | ].
           intros [H | [_ H]]; lia.
        -- apply Z.eqb_neq in E1. split; [intros _; right; lia | reflexivity].
    + apply Z.eqb_neq in E. split; [intros _; left; lia | reflexivity].
  - intros intr mass ids xs st Hnew Hst.
    destruct (cells * cells * cells =? Z.of_nat (length a)) eqn:E;
      cbn [negb] in Hnew; [ | discriminate].
    apply Z.eqb_eq in E.
    assert (Hok : forall g', In g' [single_grid intr bg] ->
                             grid_ok (Density.heap st) g').
    { intros g' [<- | []]. rewrite Hst. exists a.
      destruct (flag =? DensitySingle.CloudInCell);
        [ | destruct (flag =? DensitySingle.NearestGridPoint);
            [ | discriminate]];
        injection Hnew as <-; cbn; rewrite HW; split; (exact Ha || lia). }
    rewrite <- Hst.
    destruct intr as [c | n]; cbn [DensitySingle.Interpolate single_grid
                                   single_deposits] in *.
    + rewrite (cic_single_as_multi c 0%Q).
      destruct (offer_points [grid_of_cic c 0%Q]
                  (Density.cic_overs (FO := Exact.ops) (grid_of_cic c 0%Q) mass)
                  xs st Hok) as (st' & Hrun & Hshape & Hsum).
      exists st'. repeat split; assumption.
    + rewrite (ngp_single_as_multi n bg 0%Q), ngp_as_offers.
      destruct (offer_points [grid_of_ngp n bg 0%Q]
                  (fun pt => [ngp_deposit (grid_of_ngp n bg 0%Q) mass pt])
                  xs st Hok) as (st' & Hrun & Hshape & Hsum).
      exists st'. split; [exact Hrun | ]. split; [exact Hshape | ].
      rewrite Hsum.
      assert (Eq : flat_map (fun pt => [ngp_deposit (grid_of_ngp n bg 0%Q)
                                          mass pt]) xs
                   = map (ngp_deposit (grid_of_ngp n bg 0%Q) mass) xs).
      { clear. induction xs as [ | pt xs IH]; [reflexivity | ].
        cbn. rewrite IH. reflexivity. }
      rewrite Eq. reflexivity.
Qed.

Lemma single_grid_interpolator_works_witness :
  exists intr st',
    DensitySingle.NewInterpolator (FO := Exact.ops) [repeat 0%Q 8]
      DensitySingle.CloudInCell (Density.G grid2_exact) (Density.BG grid2_exact)
      1%Q 0 = Some intr /\
    DensitySingle.Interpolate (FO := Exact.ops) intr 3%Q []
      [(0, 0, 0)%Q] grid2_exact_state = Some st' /\
    shape (Density.heap st') = [8%nat].
Proof.
  destruct (single_grid_interpolator_works [repeat 0%Q 8] 2 1 0 0 0
              DensitySingle.CloudInCell (Density.G grid2_exact)
              (Density.BG grid2_exact) 1%Q 0 (repeat 0%Q 8))
    as [_ Hrun]; [reflexivity | reflexivity | ].
  eexists.
  destruct (Hrun _ 3%Q [] [(0, 0, 0)%Q] grid2_exact_state eq_refl eq_refl)
    as (st' & Hst' & Hshape & _).
  exists st'. split; [reflexivity | ]. split; [exact Hst' | exact Hshape].
Defined.

(** ** Smoothing: the cached kernels *)

Section SmoothFacts.

Import Analyze.

Context {F : Type} {FO : FloatOps F}.
Variable Kernel : Type.
Variable NewSavGolKernel : Z -> Z -> Kernel.
Variable NewSavGolDerivKernel : F -> Z -> Z -> Z -> Kernel.
Variable ConvolveAt :
  Kernel -> list (list F) -> nat -> nat -> option (list (list F)).

Local Abbreviation get :=
  (getSmoothingKernel Kernel NewSavGolKernel NewSavGolDerivKernel).
Local Abbreviation smooth :=
  (Smooth Kernel NewSavGolKernel NewSavGolDerivKernel ConvolveAt).

Lemma map_set_same (m : Z -> option Kernel) (k : Z) (v : Kernel) :
  map_set Kernel m k v k = Some v.
Proof. unfold map_set. rewrite Z.eqb_refl. reflexivity. Qed.

Lemma map_set_other (m : Z -> option Kernel) (k k' : Z) (v : Kernel) :
  k' <> k -> map_set Kernel m k v k' = m k'.
Proof.
  intros H. unfold map_set.
  destruct (k' =? k) eqn:E; [apply Z.eqb_eq in E; contradiction | reflexivity].
Qed.

(** X23: when Smooth smooths a series with a window for which no kernel
    is cached yet, it caches the kernel and the derivative kernel made
    for the spacing [dx] of that series; every later request for the same
    window, whatever its spacing, returns these two kernels and leaves the
    maps as they are, so a later series with another spacing is
    differentiated with the kernel of the first.  The entries of the other
    windows stay as they were. *)
Theorem Smooth_caches_first_spacing (xs : list F) (ys : nat) (window : Z)
    (opts : list (@SmoothOption)) (st st' : @State F Kernel)
    (vs ds : option nat) :
  kernels Kernel (cache Kernel st) window = None ->
  smooth xs ys window opts st = Some (vs, ds, true, st') ->
  exists dx,
    smooth_dx xs = Some dx /\
    (forall dx',
       get window dx' (cache Kernel st') =
         (Some (NewSavGolKernel 4 window),
          Some (NewSavGolDerivKernel dx 1 4 window), cache Kernel st')) /\
    (forall w, w <> window ->
       kernels Kernel (cache Kernel st') w = kernels Kernel (cache Kernel st) w /\
       derivKernels Kernel (cache Kernel st') w
         = derivKernels Kernel (cache Kernel st) w).
Proof.
  intros Hnone Hrun. unfold Smooth in Hrun.
  destruct (nth_error (heap Kernel st) ys) as [ysv | ]; [ | discriminate].
  destruct (negb _); [discriminate | ].
  destruct (Z.of_nat (length xs) <=? window); [discriminate | ].
  destruct (or_make (vals _) _ _) as [v h1].
  destruct (or_make (derivs _) _ _) as [d h2].
  destruct (smooth_dx xs) as [dx | ]; [ | discriminate].
  unfold getSmoothingKernel in Hrun. rewrite Hnone in Hrun.
  destruct (ConvolveAt _ h2 ys v) as [h3 | ]; [ | discriminate].
  destruct (ConvolveAt _ h3 ys d) as [h4 | ]; [ | discriminate].
  injection Hrun as _ _ <-. cbn [cache].
  exists dx. split; [reflexivity | ]. split.
  - intros dx'. unfold getSmoothingKernel. cbn [kernels derivKernels].
    rewrite !map_set_same. reflexivity.
  - intros w Hw. cbn [kernels derivKernels].
    rewrite !map_set_other by exact Hw. split; reflexivity.
Qed.

End SmoothFacts.

(** An evenly spaced series: [x0, x0 + h, ..., x0 + (n - 1) h]. *)
Definition even_xs (x0 h : Q) (n : nat) : list Q :=
  map (fun i => (x0 + inject_Z (Z.of_nat i) * h)%Q) (seq 0 n).

(** X24: without rounding, the spacing that Smooth computes for an evenly
    spaced series of at least two points with step [h] (and a length that
    is an int) is [- h]: the first point minus the last, over the number
    of steps. *)
Theorem smooth_dx_is_minus_step (x0 h : Q) (n : nat) :
  Z.of_nat n + 2 <= int_max ->
  exists dx,
    Analyze.smooth_dx (FO := Exact.ops) (even_xs x0 h (S (S n))) = Some dx /\
    (dx == - h)%Q.
Proof.
  intros Hlen.
  unfold Analyze.smooth_dx, even_xs.
  rewrite length_map, length_seq.
  rewrite !nth_error_map, !nth_error_seq.
  replace (S (S n) - 1)%nat with (S n) by lia.
  assert (E0 : Nat.ltb 0 (S (S n)) = true) by (apply Nat.ltb_lt; lia).
  assert (E1 : Nat.ltb (S n) (S (S n)) = true) by (apply Nat.ltb_lt; lia).
  rewrite E0, E1. cbn [option_map Nat.add].
  eexists. split; [reflexivity | ].
  cbn [fsub fdiv fofZ Exact.ops].
  assert (Ei : int_sub (Z.of_nat (S (S n))) 1 = Z.of_nat (S n)).
  { unfold int_sub. rewrite wrap_int_id; [lia | ].
    unfold in_int, int_min, int_max in *. lia. }
  rewrite Ei.
  assert (Hn : ~ (inject_Z (Z.of_nat (S n)) == 0)%Q).
  { intros E. assert (H : (0 < inject_Z (Z.of_nat (S n)))%Q).
    { change 0%Q with (inject_Z 0). rewrite <- Zlt_Qlt. lia. }
    rewrite E in H. revert H. apply Qlt_irrefl. }
  change (inject_Z (Z.of_nat 0)) with 0%Q.
  field. exact Hn.
Qed.

Lemma smooth_dx_is_minus_step_witness :
  exists dx,
    Analyze.smooth_dx (FO := Exact.ops) (even_xs 1 (1 # 2) 3) = Some dx /\
    (dx == - (1 # 2))%Q.
Proof.
  apply (smooth_dx_is_minus_step 1 (1 # 2) 1). unfold int_max. cbn. lia.
Defined.

(** Kernels that only record what they were made for, and a ConvolveAt
    that fills the output with the spacing of the kernel. *)
Definition toy_convolve (k : option Q) (h : list (list Q)) (ys out : nat) :
    option (list (list Q)) :=
  match nth_error h ys, nth_error h out with
  | Some ysv, Some _ =>
      Some (list_set out
              (map (fun _ => match k with Some dx => dx | None => 0%Q end) ysv)
              h)
  | _, _ => None
  end.

Definition toy_smooth :=
  Analyze.Smooth (FO := Exact.ops) (option Q) (fun _ _ => None)
    (fun dx _ _ _ => Some dx) toy_convolve.

Lemma Smooth_caches_first_spacing_witness :
  exists vs ds st',
    toy_smooth [0; 1; 2]%Q 0 2 []
      {| Analyze.heap := [[5; 6; 7]%Q]; Analyze.cache := Analyze.no_kernels _ |}
      = Some (vs, ds, true, st') /\
    forall dx',
      Analyze.getSmoothingKernel (option Q) (fun _ _ => None)
        (fun dx _ _ _ => Some dx) 2 dx' (Analyze.cache _ st')
      = (Some None, Some (Some ((0 - 2) / inject_Z 2)%Q), Analyze.cache _ st').
Proof.
  destruct (toy_smooth [0; 1; 2]%Q 0 2 []
              {| Analyze.heap := [[5; 6; 7]%Q];
                 Analyze.cache := Analyze.no_kernels _ |})
    as [[[[vs ds] [ | ]] st'] | ] eqn:E;
    try (vm_compute in E; discriminate E).
  exists vs, ds, st'. split; [reflexivity | ].
  destruct (Smooth_caches_first_spacing (FO := Exact.ops) (option Q)
              (fun _ _ => None) (fun dx _ _ _ => Some dx) toy_convolve
              [0; 1; 2]%Q 0%nat 2 []
              {| Analyze.heap := [[5; 6; 7]%Q];
                 Analyze.cache := Analyze.no_kernels _ |} st' vs ds eq_refl E)
    as (dx & Hdx & Hget & _).
  injection Hdx as <-. exact Hget.
Defined.

(** ** Matrices: the factorisation and what it solves *)

(** ** LU factorisation: what always holds *)

Lemma foldO_inv {A S : Type} (I : S -> Prop) (l : list A)
    (body : A -> S -> option S) (s : S) :
  I s ->
  (forall x s0, In x l -> I s0 -> exists s1, body x s0 = Some s1 /\ I s1) ->
  exists s', foldO l body s = Some s' /\ I s'.
Proof.
  revert s. induction l as [ | x l IH]; intros s Hs Hbody.
  - exists s. split; [reflexivity | exact Hs].
  - destruct (Hbody x s (or_introl eq_refl) Hs) as (s1 & E & Hs1).
    cbn [foldO]. rewrite E. apply IH; [exact Hs1 | ].
    intros y s0 Hy. apply Hbody. right. exact Hy.
Qed.

Lemma nth_int_some {A : Type} (l : list A) (i : Z) :
  0 <= i < Z.of_nat (length l) -> exists x, nth_int l i = Some x.
Proof.
  intros H. unfold nth_int.
  destruct (i <? 0) eqn:E; [apply Z.ltb_lt in E; lia | ].
  destruct (nth_error l (Z.to_nat i)) as [x | ] eqn:En; [eauto | ].
  apply nth_error_None in En. lia.
Qed.

Lemma nth_int_range {A : Type} (l : list A) (i : Z) (x : A) :
  nth_int l i = Some x -> 0 <= i < Z.of_nat (length l).
Proof.
  unfold nth_int. destruct (i <? 0) eqn:E; [discriminate | ].
  apply Z.ltb_ge in E. intros H.
  assert (Hlt : (Z.to_nat i < length l)%nat)
    by (apply nth_error_Some; congruence).
  lia.
Qed.

Lemma set_int_some {A : Type} (l : list A) (i : Z) (v : A) :
  0 <= i < Z.of_nat (length l) ->
  exists l', set_int l i v = Some l' /\ length l' = length l.
Proof.
  intros H. unfold set_int.
  destruct ((0 <=? i) && (i <? Z.of_nat (length l))) eqn:E.
  - eexists. split; [reflexivity | apply list_set_length].
  - apply andb_false_iff in E.
    destruct E as [E | E]; [apply Z.leb_gt in E | apply Z.ltb_ge in E]; lia.
Qed.

(** The index of the element (i, j) of an n x n matrix. *)
Lemma cell_index (n i j : Z) :
  0 <= i < n -> 0 <= j < n -> n * n <= int_max ->
  int_add (int_mul i n) j = i * n + j /\
  int_add (int_mul n i) j = i * n + j /\
  0 <= i * n + j < n * n.
Proof.
  intros Hi Hj Hn.
  assert (Hin : 0 <= i * n <= (n - 1) * n) by nia.
  assert (Hr : 0 <= i * n + j < n * n) by nia.
  unfold int_add, int_mul.
  rewrite (Z.mul_comm n i).
  rewrite (wrap_int_id (i * n)) by (apply in_int_nonneg; lia).
  rewrite wrap_int_id by (apply in_int_nonneg; lia).
  repeat split; lia.
Qed.

(** A list of the row indices 0..n-1, each at exactly one place. *)
Definition is_perm (n : Z) (pv : list Z) : Prop :=
  Z.of_nat (length pv) = n /\
  (forall i, 0 <= i < n -> exists p, nth_int pv i = Some p /\ 0 <= p < n) /\
  forall v, 0 <= v < n ->
    exists i, nth_int pv i = Some v /\
              forall i', nth_int pv i' = Some v -> i' = i.

(** [pv[a], pv[b] = pv[b], pv[a]]. *)
Lemma swap_get (pv pv1 pv2 : list Z) (a b pa pb : Z) :
  nth_int pv a = Some pa -> nth_int pv b = Some pb ->
  set_int pv a pb = Some pv1 -> set_int pv1 b pa = Some pv2 ->
  length pv2 = length pv /\
  forall i, nth_int pv2 i =
              if i =? b then Some pa
              else if i =? a then Some pb else nth_int pv i.
Proof.
  intros Ha Hb H1 H2.
  destruct (nth_int_set_eq _ _ _ _ H1) as [G1 L1].
  destruct (nth_int_set_eq _ _ _ _ H2) as [G2 L2].
  split; [congruence | ].
  intros i. destruct (i =? b) eqn:Eb.
  - apply Z.eqb_eq in Eb. subst i. exact G2.
  - apply Z.eqb_neq in Eb.
    rewrite (nth_int_set_neq _ _ _ _ _ H2) by exact Eb.
    destruct (i =? a) eqn:Ea.
    + apply Z.eqb_eq in Ea. subst i. exact G1.
    + apply Z.eqb_neq in Ea. apply (nth_int_set_neq _ _ _ _ _ H1). exact Ea.
Qed.

Lemma swap_is_perm (n : Z) (pv pv1 pv2 : list Z) (a b pa pb : Z) :
  is_perm n pv ->
  nth_int pv a = Some pa -> nth_int pv b = Some pb ->
  set_int pv a pb = Some pv1 -> set_int pv1 b pa = Some pv2 ->
  is_perm n pv2.
Proof.
  intros (Hlen & Hrange & Hperm) Ha Hb H1 H2.
  destruct (swap_get pv pv1 pv2 a b pa pb Ha Hb H1 H2) as [Hlen2 Hget].
  assert (Ra : 0 <= a < n) by (rewrite <- Hlen; apply nth_int_range with pa, Ha).
  assert (Rb : 0 <= b < n) by (rewrite <- Hlen; apply nth_int_range with pb, Hb).
  split; [congruence | ]. split.
  - intros i Hi. rewrite Hget.
    destruct (Hrange a Ra) as (pa' & Ea & Rpa).
    destruct (Hrange b Rb) as (pb' & Eb & Rpb).
    destruct (i =? b); [exists pa; split; [reflexivity | congruence] | ].
    destruct (i =? a); [exists pb; split; [reflexivity | congruence] | ].
    apply Hrange, Hi.
  - intros v Hv. destruct (Hperm v Hv) as (i0 & Hi0 & Huniq).
    exists (if i0 =? a then b else if i0 =? b then a else i0). split.
    + rewrite Hget.
      destruct (Z.eqb_spec i0 a) as [-> | Ea].
      * rewrite Z.eqb_refl. congruence.
      * destruct (Z.eqb_spec i0 b) as [-> | Eb].
        -- destruct (Z.eqb_spec a b); [lia | ].
           rewrite Z.eqb_refl. congruence.
        -- destruct (Z.eqb_spec i0 b); [lia | ].
           destruct (Z.eqb_spec i0 a); [lia | ]. exact Hi0.
    + intros i' Hi'. rewrite Hget in Hi'.
      destruct (i' =? b) eqn:Eb.
      * apply Z.eqb_eq in Eb. subst i'.
        assert (E : a = i0) by (apply Huniq; congruence). subst i0.
        rewrite Z.eqb_refl. reflexivity.
      * apply Z.eqb_neq in Eb. destruct (i' =? a) eqn:Ea.
        -- apply Z.eqb_eq in Ea. subst i'.
           assert (E : b = i0) by (apply Huniq; congruence). subst i0.
           destruct (Z.eqb_spec b a); [lia | ].
           rewrite Z.eqb_refl. reflexivity.
        -- apply Z.eqb_neq in Ea. apply Huniq in Hi'. subst i0.
           destruct (Z.eqb_spec i' a); [lia | ].
           destruct (Z.eqb_spec i' b); [lia | ]. reflexivity.
Qed.

(** The pivot as the factorisation starts: 0, 1, ..., n-1. *)
Lemma init_pivot_spec (n : Z) :
  0 <= n ->
  exists pv0,
    Mat.init_pivot n (repeat 0 (Z.to_nat n)) = Some pv0 /\
    is_perm n pv0 /\ forall i, 0 <= i < n -> nth_int pv0 i = Some i.
Proof.
  intros Hn.
  destruct (foldO_set_spec (fun i : Z => i) (fun i : Z => Some i)
              (zrange 0 (n - 1)) (repeat 0 (Z.to_nat n)))
    as (pv0 & Hpv0 & Lpv0 & Gpv0 & _).
  { rewrite map_id. apply zrange_NoDup. }
  { intros i Hi. apply in_zrange in Hi. rewrite repeat_length.
    split; [lia | discriminate]. }
  exists pv0. split; [exact Hpv0 | ].
  assert (Hget : forall i, 0 <= i < n -> nth_int pv0 i = Some i).
  { intros i Hi. apply Gpv0. apply in_zrange. lia. }
  split; [ | exact Hget].
  split; [rewrite Lpv0, repeat_length; lia | ]. split.
  - intros i Hi. exists i. split; [apply Hget, Hi | exact Hi].
  - intros v Hv. exists v. split; [apply Hget, Hv | ].
    intros i' Hi'.
    assert (Ri : 0 <= i' < Z.of_nat (length pv0))
      by (apply nth_int_range with v; exact Hi').
    rewrite Lpv0, repeat_length in Ri.
    rewrite Hget in Hi' by lia. congruence.
Qed.

Section MatFacts.

Import Mat.

Context {F : Type} {FO : FloatOps F}.
Variable fabs : F -> F.

Lemma findMaxRow_range (n : Z) (m : list F) (col : Z) :
  0 <= col -> n * n <= int_max -> Z.of_nat (length m) = n * n ->
  exists r, findMaxRow fabs n m col = Some r /\ (r = 0 \/ col <= r < n).
Proof.
  intros Hcol Hn Hlen. unfold findMaxRow.
  match goal with
  | |- context [foldO ?l ?b ?s] =>
      destruct (foldO_inv (fun acc : F * Z => snd acc = 0 \/ col <= snd acc < n)
                  l b s) as (acc & Hrun & Hacc)
  end.
  - left. reflexivity.
  - intros i [mx r] Hi Hr. apply in_zrange in Hi.
    destruct (cell_index n i col) as (E1 & _ & Hrange); [lia | lia | lia | ].
    rewrite E1.
    destruct (nth_int_some m (i * n + col)) as [x Hx]; [lia | ].
    rewrite Hx. cbv zeta.
    destruct (fltb mx (fabs x)); eexists; (split; [reflexivity | ]).
    + right. cbn [snd]. lia.
    + exact Hr.
  - rewrite Hrun. exists (snd acc). split; [reflexivity | exact Hacc].
Qed.

Lemma swapRows_length (i1 i2 n : Z) (l : list F) :
  0 <= i1 < n -> 0 <= i2 < n -> n * n <= int_max ->
  Z.of_nat (length l) = n * n ->
  exists l', swapRows i1 i2 n l = Some l' /\ length l' = length l.
Proof.
  intros H1 H2 Hn Hlen. unfold swapRows.
  apply (foldO_inv (fun l' : list F => length l' = length l)); [reflexivity | ].
  intros j l0 Hj Hl0. apply in_zrange in Hj.
  destruct (cell_index n i1 j) as (_ & E1 & R1); [lia | lia | lia | ].
  destruct (cell_index n i2 j) as (_ & E2 & R2); [lia | lia | lia | ].
  rewrite E1, E2.
  destruct (nth_int_some l0 (i1 * n + j)) as [a Ha]; [lia | ].
  destruct (nth_int_some l0 (i2 * n + j)) as [b Hb]; [lia | ].
  rewrite Ha, Hb.
  destruct (set_int_some l0 (i1 * n + j) b) as (l1 & S1 & L1); [lia | ].
  rewrite S1.
  destruct (set_int_some l1 (i2 * n + j) a) as (l2 & S2 & L2); [lia | ].
  exists l2. split; [exact S2 | congruence].
Qed.

Lemma elim_step_length (n k : Z) (l : list F) :
  0 <= k < n -> n * n <= int_max -> Z.of_nat (length l) = n * n ->
  exists l', elim_step n k l = Some l' /\ length l' = length l.
Proof.
  intros Hk Hn Hlen. unfold elim_step.
  assert (Ek : int_add k 1 = k + 1).
  { unfold int_add. apply wrap_int_id, in_int_nonneg. nia. }
  rewrite Ek.
  apply (foldO_inv (fun l' : list F => length l' = length l)); [reflexivity | ].
  intros i l0 Hi Hl0. apply in_zrange in Hi.
  destruct (cell_index n i k) as (Eik & _ & Rik); [lia | lia | lia | ].
  destruct (cell_index n k k) as (Ekk & _ & Rkk); [lia | lia | lia | ].
  rewrite Eik, Ekk.
  destruct (nth_int_some l0 (i * n + k)) as [a Ha]; [lia | ].
  destruct (nth_int_some l0 (k * n + k)) as [b Hb]; [lia | ].
  rewrite Ha, Hb.
  destruct (set_int_some l0 (i * n + k) (fdiv a b)) as (l1 & S1 & L1); [lia | ].
  rewrite S1.
  destruct (nth_int_some l1 (i * n + k)) as [tmp Htmp]; [lia | ].
  rewrite Htmp. unfold elim_row. rewrite Ek.
  match goal with
  | |- context [foldO ?r ?b ?s] =>
      destruct (foldO_inv (fun l' : list F => length l' = length l) r b s)
        as (l2 & Hrun & L2)
  end.
  - congruence.
  - intros j l2 Hj Hl2. apply in_zrange in Hj.
    destruct (cell_index n i j) as (Eij & _ & Rij); [lia | lia | lia | ].
    destruct (cell_index n k j) as (Ekj & _ & Rkj); [lia | lia | lia | ].
    rewrite Eij, Ekj.
    destruct (nth_int_some l2 (i * n + j)) as [a0 Ha0]; [lia | ].
    destruct (nth_int_some l2 (k * n + j)) as [b0 Hb0]; [lia | ].
    rewrite Ha0, Hb0.
    destruct (set_int_some l2 (i * n + j) (fsub a0 (fmul tmp b0)))
      as (l3 & S3 & L3); [lia | ].
    exists l3. split; [exact S3 | congruence].
  - exists l2. split; [exact Hrun | exact L2].
Qed.

Lemma pivot_step_inv (n : Z) (mat l : list F) (pv : list Z) (sign : F)
    (s : nat) (k : Z) :
  0 <= k < n -> n * n <= int_max ->
  Z.of_nat (length mat) = n * n -> Z.of_nat (length l) = n * n ->
  is_perm n pv -> sign = Nat.iter s fneg (fofZ 1) ->
  exists l' pv' sign' s',
    pivot_step fabs n mat k (l, pv, sign) = Some (l', pv', sign') /\
    length l' = length l /\ is_perm n pv' /\
    sign' = Nat.iter s' fneg (fofZ 1).
Proof.
  intros Hk Hn Hmat Hl Hpv Hsign. unfold pivot_step.
  destruct (findMaxRow_range n mat k) as (r & Hr & Rr); [lia | lia | lia | ].
  rewrite Hr.
  assert (Rr' : 0 <= r < n) by lia.
  assert (Hplen : Z.of_nat (length pv) = n) by apply Hpv.
  destruct (nth_int_some pv k) as [pk Hpk]; [lia | ].
  destruct (nth_int_some pv r) as [pm Hpm]; [lia | ].
  rewrite Hpk, Hpm.
  destruct (set_int_some pv k pm) as (pv1 & S1 & L1); [lia | ].
  rewrite S1.
  destruct (set_int_some pv1 r pk) as (pv2 & S2 & L2); [lia | ].
  rewrite S2.
  assert (Hperm2 : is_perm n pv2).
  { apply (swap_is_perm n pv pv1 pv2 k r pk pm); assumption. }
  destruct (negb (k =? r)).
  - destruct (swapRows_length k r n l) as (l' & Hsw & Ll'); try lia.
    rewrite Hsw. exists l', pv2, (fneg sign), (S s).
    repeat split; try assumption; try apply Hperm2.
    cbn [Nat.iter]. rewrite Hsign. reflexivity.
  - exists l, pv2, sign, s. repeat split; try assumption; apply Hperm2.
Qed.

(** X25: for a square matrix made by NewMatrix whose size fits an int, LU
    does not panic (a zero pivot gives an infinity or a NaN, not a panic);
    the factors have the width, height and number of values of the matrix,
    their pivot holds each row index 0..n-1 exactly once, and their sign
    [d] is 1 with its sign changed some number of times. *)
Theorem LU_returns_a_row_permutation (vals : list F) (n : Z) (m : Matrix) :
  NewMatrix vals n n = Some m -> n * n <= int_max ->
  exists luf s,
    LU fabs m = Some luf /\
    Width (lu luf) = n /\ Height (lu luf) = n /\
    length (Vals (lu luf)) = length vals /\
    is_perm n (pivot luf) /\
    d luf = Nat.iter s fneg (fofZ 1).
Proof.
  intros Hnew Hn. unfold NewMatrix in Hnew.
  destruct (n <=? 0) eqn:E0; [discriminate | ]. apply Z.leb_gt in E0.
  destruct (negb _) eqn:El; [discriminate | ].
  apply negb_false_iff, Z.eqb_eq in El.
  injection Hnew as <-.
  assert (Enn : int_mul n n = n * n).
  { apply int_mul_id, in_int_nonneg. nia. }
  rewrite Enn in El.
  unfold LU. cbn [Width Height Vals]. rewrite Z.eqb_refl. cbn [negb].
  unfold NewLUFactors. rewrite Enn.
  destruct ((n * n <? 0) || (n <? 0)) eqn:Eneg.
  { apply orb_true_iff in Eneg.
    destruct Eneg as [E | E]; apply Z.ltb_lt in E; nia. }
  unfold LUFactorsAt. cbn [lu Width Height Vals pivot d].
  rewrite Z.eqb_refl. cbn [negb orb].
  (* the pivot starts as 0, 1, ..., n-1 *)
  destruct (init_pivot_spec n) as (pv0 & Hpv0 & Hperm0 & _); [lia | ].
  rewrite Hpv0.
  set (l0 := copy_slice (repeat (fofZ 0) (Z.to_nat (n * n))) vals).
  assert (Ll0 : Z.of_nat (length l0) = n * n).
  { unfold l0, copy_slice. rewrite length_firstn, length_app, length_skipn,
      repeat_length. lia. }
  (* the loop that swaps rows *)
  destruct (foldO_inv
              (fun s : list F * list Z * F =>
                 length (fst (fst s)) = length l0 /\ is_perm n (snd (fst s)) /\
                 exists c, snd s = Nat.iter c fneg (fofZ 1))
              (zrange 0 (n - 1)) (pivot_step fabs n vals) (l0, pv0, fofZ 1))
    as ([[l1 pv1] sign] & Hswap & Ll1 & Hperm1 & c & Hsign).
  { cbn [fst snd]. split; [reflexivity | ]. split; [exact Hperm0 | ].
    exists 0%nat. reflexivity. }
  { intros k [[l pv] sg] Hk (Ll & Hp & c & Hc). cbn [fst snd] in *.
    apply in_zrange in Hk.
    destruct (pivot_step_inv n vals l pv sg c k) as
      (l' & pv' & sg' & c' & Hstep & Ll' & Hp' & Hc'); try lia; try assumption.
    exists (l', pv', sg'). cbn [fst snd].
    split; [exact Hstep | ]. split; [congruence | ]. split; [exact Hp' | ].
    exists c'. exact Hc'. }
  cbn [fst snd] in *. rewrite Hswap.
  (* the elimination *)
  destruct (foldO_inv (fun l : list F => length l = length l0)
              (zrange 0 (n - 1)) (elim_step n) l1) as (l2 & Helim & Ll2).
  { exact Ll1. }
  { intros k l Hk Ll. apply in_zrange in Hk.
    destruct (elim_step_length n k l) as (l' & Hl' & Ll'); try lia.
    exists l'. split; [exact Hl' | congruence]. }
  rewrite Helim. eexists. exists c. split; [reflexivity | ].
  cbn [lu Width Height Vals pivot d].
  repeat split; try assumption; try lia; apply Hperm1.
Qed.

End MatFacts.

Lemma zrange_nil (lo hi : Z) : hi < lo -> zrange lo hi = [].
Proof.
  intros H. unfold zrange. replace (Z.to_nat (hi + 1 - lo)) with 0%nat by lia.
  reflexivity.
Qed.

Lemma zrange_cons (lo hi : Z) :
  lo <= hi -> zrange lo hi = lo :: zrange (lo + 1) hi.
Proof.
  intros H. unfold zrange.
  replace (Z.to_nat (hi + 1 - lo)) with (S (Z.to_nat (hi + 1 - (lo + 1))))
    by lia.
  cbn [seq map]. f_equal; [lia | ].
  rewrite <- seq_shift, map_map. apply map_ext. intros a. lia.
Qed.

Lemma zrange_snoc (lo hi : Z) :
  lo <= hi -> zrange lo hi = zrange lo (hi - 1) ++ [hi].
Proof.
  intros H. unfold zrange.
  replace (Z.to_nat (hi + 1 - lo)) with (Z.to_nat (hi - 1 + 1 - lo) + 1)%nat
    by lia.
  rewrite seq_app, map_app. cbn [seq map]. f_equal. f_equal. lia.
Qed.

(** A loop [for k := lo; k <= hi; k++] that keeps an invariant [I k] of
    the state before the round [k]. *)
Lemma foldO_zrange_inv {S : Type} (I : Z -> S -> Prop) (lo hi : Z)
    (body : Z -> S -> option S) (s : S) :
  lo <= hi + 1 -> I lo s ->
  (forall k s0, lo <= k <= hi -> I k s0 ->
     exists s1, body k s0 = Some s1 /\ I (k + 1) s1) ->
  exists s', foldO (zrange lo hi) body s = Some s' /\ I (hi + 1) s'.
Proof.
  intros Hle. remember (Z.to_nat (hi + 1 - lo)) as len eqn:El.
  revert lo s Hle El. induction len as [ | len IH]; intros lo s Hle El Hs Hbody.
  - rewrite zrange_nil by lia. exists s. split; [reflexivity | ].
    replace (hi + 1) with lo by lia. exact Hs.
  - rewrite zrange_cons by lia. cbn [foldO].
    destruct (Hbody lo s) as (s1 & E1 & Hs1); [lia | exact Hs | ].
    rewrite E1. apply IH; [lia | lia | exact Hs1 | ].
    intros k s0 Hk. apply Hbody. lia.
Qed.

(** A loop [for k := hi; k >= lo; k--]. *)
Lemma foldO_zrange_rev_inv {S : Type} (I : Z -> S -> Prop) (lo hi : Z)
    (body : Z -> S -> option S) (s : S) :
  lo <= hi + 1 -> I hi s ->
  (forall k s0, lo <= k <= hi -> I k s0 ->
     exists s1, body k s0 = Some s1 /\ I (k - 1) s1) ->
  exists s', foldO (rev (zrange lo hi)) body s = Some s' /\ I (lo - 1) s'.
Proof.
  intros Hle. remember (Z.to_nat (hi + 1 - lo)) as len eqn:El.
  revert hi s Hle El. induction len as [ | len IH]; intros hi s Hle El Hs Hbody.
  - rewrite zrange_nil by lia. exists s. split; [reflexivity | ].
    replace (lo - 1) with hi by lia. exact Hs.
  - rewrite zrange_snoc by lia. rewrite rev_app_distr. cbn [rev app foldO].
    destruct (Hbody hi s) as (s1 & E1 & Hs1); [lia | exact Hs | ].
    rewrite E1. apply IH; [lia | lia | exact Hs1 | ].
    intros k s0 Hk. apply Hbody. lia.
Qed.

Section FindMaxRowFacts.

Import Mat.

Local Open Scope Q_scope.

(** X26: without rounding, findMaxRow for a column [col] of an n x n
    array returns the first row at or below the diagonal whose entry of this
    column is largest in absolute value. *)
Theorem findMaxRow_first_largest (n : Z) (m : list Q) (col : Z) :
  (0 <= col < n)%Z -> (n * n <= int_max)%Z ->
  Z.of_nat (length m) = (n * n)%Z ->
  exists r x,
    findMaxRow (FO := Exact.ops) Qabs n m col = Some r /\
    (col <= r < n)%Z /\
    nth_int m (r * n + col) = Some x /\
    forall i y, (col <= i < n)%Z -> nth_int m (i * n + col) = Some y ->
      Qabs y <= Qabs x /\ ((i < r)%Z -> Qabs y < Qabs x).
Proof.
  intros Hcol Hn Hlen. unfold findMaxRow.
  match goal with
  | |- context [foldO (zrange ?lo ?hi) ?b ?s] =>
      destruct (foldO_zrange_inv
        (fun k (acc : Q * Z) =>
           (k = col /\ fst acc == - (1) /\ snd acc = 0%Z) \/
           ((col <= snd acc < k)%Z /\
            exists x, nth_int m (snd acc * n + col) = Some x /\
              fst acc = Qabs x /\
              forall i y, (col <= i < k)%Z ->
                nth_int m (i * n + col) = Some y ->
                Qabs y <= Qabs x /\ ((i < snd acc)%Z -> Qabs y < Qabs x)))
        lo hi b s) as ([mx r] & Hrun & Hinv)
  end.
  - lia.
  - left. cbn. repeat split; reflexivity.
  - intros k [mx r] Hk Hinv. cbn [fst snd] in Hinv.
    destruct (cell_index n k col) as (E1 & _ & Hrange); [lia | lia | lia | ].
    rewrite E1.
    destruct (nth_int_some m (k * n + col)) as [x Hx]; [lia | ].
    rewrite Hx. cbv zeta.
    change (fltb mx (Qabs x)) with (Exact.Qltb mx (Qabs x)).
    destruct (Exact.Qltb mx (Qabs x)) eqn:Elt.
    + apply Qltb_true in Elt. eexists. split; [reflexivity | ].
      right. cbn [fst snd]. split; [lia | ].
      exists x. split; [exact Hx | ]. split; [reflexivity | ].
      intros i y Hi Hy.
      destruct (Z.eq_dec i k) as [-> | Hne].
      * split; [ | lia]. assert (y = x) by congruence. subst y. apply Qle_refl.
      * destruct Hinv as [(-> & _ & _) | (Hr & x0 & Hx0 & -> & Hall)]; [lia | ].
        destruct (Hall i y) as [Hle _]; [lia | exact Hy | ].
        split; [ | intros _]; lra.
    + apply Qltb_false in Elt.
      destruct Hinv as [(_ & Hmx & _) | (Hr & x0 & Hx0 & -> & Hall)].
      { exfalso. assert (H0 := Qabs_nonneg x). rewrite Hmx in Elt. lra. }
      eexists. split; [reflexivity | ].
      right. cbn [fst snd]. split; [lia | ].
      exists x0. split; [exact Hx0 | ]. split; [reflexivity | ].
      intros i y Hi Hy.
      destruct (Z.eq_dec i k) as [-> | Hne].
      * assert (y = x) by congruence. subst y. split; [exact Elt | lia].
      * apply Hall; [lia | exact Hy].
  - rewrite Hrun. cbn [option_map snd fst] in *.
    destruct Hinv as [(Hk & _ & _) | (Hr & x & Hx & _ & Hall)]; [lia | ].
    exists r, x. split; [reflexivity | ]. split; [lia | ].
    split; [exact Hx | ].
    intros i y Hi Hy. apply Hall; [lia | exact Hy].
Qed.

End FindMaxRowFacts.

Lemma findMaxRow_first_largest_witness :
  exists r x,
    Mat.findMaxRow (FO := Exact.ops) Qabs 2 [1; -3; 2; 4]%Q 0 = Some r /\
    0 <= r < 2 /\
    nth_int [1; -3; 2; 4]%Q (r * 2 + 0) = Some x /\
    forall i y, 0 <= i < 2 -> nth_int [1; -3; 2; 4]%Q (i * 2 + 0) = Some y ->
      (Qabs y <= Qabs x)%Q /\ (i < r -> (Qabs y < Qabs x)%Q).
Proof.
  apply (findMaxRow_first_largest 2 [1; -3; 2; 4]%Q 0);
    [lia | vm_compute; discriminate | reflexivity].
Defined.

Lemma LU_returns_a_row_permutation_witness :
  exists m,
    Mat.NewMatrix [1; 2; 3; 4]%Q 2 2 = Some m /\ 2 * 2 <= int_max /\
    exists luf s,
      Mat.LU (FO := Exact.ops) Qabs m = Some luf /\
      Mat.Width (Mat.lu luf) = 2 /\ Mat.Height (Mat.lu luf) = 2 /\
      length (Mat.Vals (Mat.lu luf)) = 4%nat /\
      is_perm 2 (Mat.pivot luf) /\
      Mat.d luf = Nat.iter s (fneg (FloatOps := Exact.ops)) (fofZ 1).
Proof.
  eexists. split; [reflexivity | ].
  split; [vm_compute; discriminate | ].
  apply (LU_returns_a_row_permutation (FO := Exact.ops) Qabs [1; 2; 3; 4]%Q 2 _
           eq_refl).
  vm_compute; discriminate.
Defined.

Ltac mat_compute :=
  cbv - [Qabs Qplus Qmult Qminus Qdiv Qopp Qinv Qle_bool Qeq Qle Qlt].

Section SmallMatrices.

Import Mat.

Local Open Scope Q_scope.

Lemma Qabs_above_minus_one (x : Q) : Qle_bool (Qabs x) (- (1)) = false.
Proof.
  destruct (Qle_bool (Qabs x) (- (1))) eqn:E; [ | reflexivity].
  apply Qle_bool_iff in E. assert (H := Qabs_nonneg x). lra.
Qed.

Lemma Qabs_zero (x : Q) : Qabs x <= 0 -> x == 0.
Proof.
  intros H. apply Qabs_Qle_condition in H. lra.
Qed.

Lemma findMaxRow_2x2 (a b c d : Q) :
  findMaxRow (FO := Exact.ops) Qabs 2 [a; b; c; d] 0 =
    Some (if Exact.Qltb (Qabs a) (Qabs c) then 1%Z else 0%Z) /\
  findMaxRow (FO := Exact.ops) Qabs 2 [a; b; c; d] 1 = Some 1%Z.
Proof.
  split; mat_compute; change (- (1 # 1)) with (- (1));
    rewrite !Qabs_above_minus_one; [ | reflexivity].
  destruct (Qle_bool (Qabs c) (Qabs a)); reflexivity.
Qed.

(** The factors of a 2 x 2 matrix. *)
Lemma LU_2x2 (a b c d : Q) :
  LU (FO := Exact.ops) Qabs {| Vals := [a; b; c; d]; Width := 2; Height := 2 |} =
  Some (if Exact.Qltb (Qabs a) (Qabs c)
        then {| lu := {| Vals := [c; d; a / c; b - a / c * d];
                         Width := 2; Height := 2 |};
                pivot := [1%Z; 0%Z]; d := - (1) |}
        else {| lu := {| Vals := [a; b; c / a; d - c / a * b];
                         Width := 2; Height := 2 |};
                pivot := [0%Z; 1%Z]; d := 1 |}).
Proof.
  destruct (findMaxRow_2x2 a b c d) as [E0 E1].
  unfold LU, NewLUFactors, LUFactorsAt. cbn [Width Height Vals lu pivot].
  change (zrange 0 (2 - 1)) with [0%Z; 1%Z].
  cbn [negb Z.eqb Pos.eqb orb].
  change (int_mul 2 2) with 4%Z. cbn [Z.ltb Z.compare orb].
  change (init_pivot 2 (repeat 0%Z (Z.to_nat 2))) with (Some [0%Z; 1%Z]).
  cbn [foldO]. unfold pivot_step. rewrite E0, E1.
  destruct (Exact.Qltb (Qabs a) (Qabs c)).
  - mat_compute. reflexivity.
  - mat_compute. reflexivity.
Qed.

(** X27: for a 2 x 2 matrix whose determinant is not zero, without
    rounding: LU returns factors, Determinant of them is a d - b c, and
    SolveVector leaves in [xs] the solution of M x = b. *)
Theorem LU_solves_2x2 (a b c d b0 b1 y0 y1 : Q) :
  ~ a * d - b * c == 0 ->
  exists m luf dt x0 x1,
    NewMatrix [a; b; c; d] 2 2 = Some m /\
    LU (FO := Exact.ops) Qabs m = Some luf /\
    Determinant (FO := Exact.ops) luf = Some dt /\
    dt == a * d - b * c /\
    SolveVector (FO := Exact.ops) luf [b0; b1] [y0; y1] = Some [x0; x1] /\
    a * x0 + b * x1 == b0 /\ c * x0 + d * x1 == b1.
Proof.
  intros Hdet.
  assert (HLU := LU_2x2 a b c d).
  destruct (Exact.Qltb (Qabs a) (Qabs c)) eqn:E;
    (eexists; eexists; eexists; eexists; eexists;
     split; [reflexivity | ]; split; [exact HLU | ]); clear HLU.
  - apply Qltb_true in E.
    assert (Hc : ~ c == 0).
    { intros Hc. rewrite Hc in E. assert (H := Qabs_nonneg a).
      change (Qabs 0) with 0 in E. lra. }
    assert (Hu : ~ b - a / c * d == 0).
    { intros H. apply Hdet.
      setoid_replace (a * d - b * c) with (- c * (b - a / c * d))
        by (field; exact Hc).
      rewrite H. ring. }
    mat_compute.
    split; [reflexivity | ]. split; [field; exact Hc | ].
    split; [reflexivity | ].
    split; field; repeat split; try assumption;
      intros H; apply Hdet; nra.
  - apply Qltb_false in E.
    assert (Ha : ~ a == 0).
    { intros Ha. apply Hdet. rewrite Ha in E. change (Qabs 0) with 0 in E.
      apply Qabs_zero in E. rewrite Ha, E. ring. }
    assert (Hu : ~ d - c / a * b == 0).
    { intros H. apply Hdet.
      setoid_replace (a * d - b * c) with (a * (d - c / a * b))
        by (field; exact Ha).
      rewrite H. ring. }
    mat_compute.
    split; [reflexivity | ]. split; [field; exact Ha | ].
    split; [reflexivity | ].
    split; field; repeat split; try assumption;
      intros H; apply Hdet; nra.
Qed.

End SmallMatrices.

Lemma LU_solves_2x2_witness :
  (~ 1 * 4 - 2 * 3 == 0)%Q /\
  exists m luf dt x0 x1,
    Mat.NewMatrix [1; 2; 3; 4]%Q 2 2 = Some m /\
    Mat.LU (FO := Exact.ops) Qabs m = Some luf /\
    Mat.Determinant (FO := Exact.ops) luf = Some dt /\
    (dt == 1 * 4 - 2 * 3)%Q /\
    Mat.SolveVector (FO := Exact.ops) luf [5; 6]%Q [0; 0]%Q = Some [x0; x1] /\
    (1 * x0 + 2 * x1 == 5)%Q /\ (3 * x0 + 4 * x1 == 6)%Q.
Proof.
  split; [vm_compute; discriminate | ].
  apply (LU_solves_2x2 1 2 3 4 5 6 0 0). vm_compute. discriminate.
Defined.

(** ** Sums over a range of indices, as the loops accumulate them *)

Section SumFacts.

Local Open Scope Q_scope.

(** [sum := 0; for j := lo; j <= hi; j++ { sum += f j }]. *)
Definition sumZ (lo hi : Z) (f : Z -> Q) : Q :=
  fold_left (fun acc j => acc + f j) (zrange lo hi) 0.

Lemma range_ind (lo : Z) (P : Z -> Prop) :
  (forall hi, (hi < lo)%Z -> P hi) ->
  (forall hi, (lo <= hi)%Z -> P (hi - 1)%Z -> P hi) ->
  forall hi, P hi.
Proof.
  intros H0 HS hi. remember (Z.to_nat (hi + 1 - lo)) as len eqn:E.
  revert hi E. induction len as [ | len IH]; intros hi E.
  - apply H0. lia.
  - apply HS; [lia | ]. apply IH. lia.
Qed.

Lemma sumZ_nil (lo hi : Z) (f : Z -> Q) : (hi < lo)%Z -> sumZ lo hi f = 0.
Proof. intros H. unfold sumZ. rewrite zrange_nil by exact H. reflexivity. Qed.

Lemma sumZ_snoc (lo hi : Z) (f : Z -> Q) :
  (lo <= hi)%Z -> sumZ lo hi f = sumZ lo (hi - 1) f + f hi.
Proof.
  intros H. unfold sumZ. rewrite (zrange_snoc lo hi) by exact H.
  rewrite fold_left_app. reflexivity.
Qed.

Lemma sumZ_ext (lo hi : Z) (f g : Z -> Q) :
  (forall j, (lo <= j <= hi)%Z -> f j == g j) -> sumZ lo hi f == sumZ lo hi g.
Proof.
  induction hi as [hi Hhi | hi Hhi IH] using (range_ind lo); intros H.
  - rewrite !sumZ_nil by exact Hhi. reflexivity.
  - rewrite (sumZ_snoc lo hi f), (sumZ_snoc lo hi g) by exact Hhi.
    rewrite IH by (intros j Hj; apply H; lia).
    rewrite (H hi) by lia. reflexivity.
Qed.

Lemma sumZ_zero (lo hi : Z) (f : Z -> Q) :
  (forall j, (lo <= j <= hi)%Z -> f j == 0) -> sumZ lo hi f == 0.
Proof.
  induction hi as [hi Hhi | hi Hhi IH] using (range_ind lo); intros H.
  - rewrite sumZ_nil by exact Hhi. reflexivity.
  - rewrite sumZ_snoc by exact Hhi.
    rewrite IH by (intros j Hj; apply H; lia).
    rewrite (H hi) by lia. ring.
Qed.

Lemma sumZ_plus (lo hi : Z) (f g : Z -> Q) :
  sumZ lo hi (fun j => f j + g j) == sumZ lo hi f + sumZ lo hi g.
Proof.
  induction hi as [hi Hhi | hi Hhi IH] using (range_ind lo).
  - rewrite !sumZ_nil by exact Hhi. ring.
  - rewrite (sumZ_snoc lo hi f), (sumZ_snoc lo hi g),
      (sumZ_snoc lo hi (fun j => f j + g j)) by exact Hhi.
    rewrite IH. ring.
Qed.

Lemma sumZ_scale (lo hi : Z) (c : Q) (f : Z -> Q) :
  sumZ lo hi (fun j => c * f j) == c * sumZ lo hi f.
Proof.
  induction hi as [hi Hhi | hi Hhi IH] using (range_ind lo).
  - rewrite !sumZ_nil by exact Hhi. ring.
  - rewrite (sumZ_snoc lo hi f), (sumZ_snoc lo hi (fun j => c * f j))
      by exact Hhi.
    rewrite IH. ring.
Qed.

Lemma sumZ_split (lo mid hi : Z) (f : Z -> Q) :
  (lo <= mid <= hi + 1)%Z ->
  sumZ lo hi f == sumZ lo (mid - 1) f + sumZ mid hi f.
Proof.
  induction hi as [hi Hhi | hi Hhi IH] using (range_ind mid); intros H.
  - replace (mid - 1)%Z with hi by lia.
    rewrite (sumZ_nil mid hi) by exact Hhi. ring.
  - rewrite (sumZ_snoc lo hi), (sumZ_snoc mid hi) by lia.
    rewrite IH by lia. ring.
Qed.

Lemma sumZ_swap (lo1 hi1 lo2 hi2 : Z) (f : Z -> Z -> Q) :
  sumZ lo1 hi1 (fun a => sumZ lo2 hi2 (fun b => f a b)) ==
  sumZ lo2 hi2 (fun b => sumZ lo1 hi1 (fun a => f a b)).
Proof.
  induction hi1 as [hi1 Hhi | hi1 Hhi IH] using (range_ind lo1).
  - rewrite sumZ_nil by exact Hhi. symmetry. apply sumZ_zero.
    intros j _. rewrite sumZ_nil by exact Hhi. reflexivity.
  - rewrite sumZ_snoc by exact Hhi. rewrite IH.
    rewrite <- sumZ_plus. apply sumZ_ext. intros j _.
    rewrite (sumZ_snoc lo1 hi1) by exact Hhi. reflexivity.
Qed.

(** A sum whose terms vanish from [cut] on. *)
Lemma sumZ_cut_above (lo hi cut : Z) (f : Z -> Q) :
  sumZ lo hi (fun t => if (t <? cut)%Z then f t else 0) ==
  sumZ lo (Z.min hi (cut - 1)) f.
Proof.
  induction hi as [hi Hhi | hi Hhi IH] using (range_ind lo).
  - rewrite !sumZ_nil by lia. reflexivity.
  - rewrite sumZ_snoc by exact Hhi. rewrite IH.
    destruct (hi <? cut)%Z eqn:E.
    + apply Z.ltb_lt in E.
      replace (Z.min hi (cut - 1)) with hi by lia.
      replace (Z.min (hi - 1) (cut - 1)) with (hi - 1)%Z by lia.
      rewrite (sumZ_snoc lo hi) by exact Hhi. reflexivity.
    + apply Z.ltb_ge in E.
      replace (Z.min (hi - 1) (cut - 1)) with (Z.min hi (cut - 1)) by lia.
      ring.
Qed.

(** A sum whose terms vanish up to [cut]. *)
Lemma sumZ_cut_below (lo hi cut : Z) (f : Z -> Q) :
  (lo - 1 <= cut)%Z ->
  sumZ lo hi (fun j => if (cut <? j)%Z then f j else 0) ==
  sumZ (cut + 1) hi f.
Proof.
  intros Hcut.
  destruct (Z_le_gt_dec (cut + 1) (hi + 1)) as [Hle | Hgt].
  - rewrite (sumZ_split lo (cut + 1) hi) by lia.
    rewrite sumZ_zero.
    + rewrite Qplus_0_l. apply sumZ_ext. intros j Hj.
      destruct (cut <? j)%Z eqn:E; [reflexivity | ].
      apply Z.ltb_ge in E. lia.
    + intros j Hj. destruct (cut <? j)%Z eqn:E; [ | reflexivity].
      apply Z.ltb_lt in E. lia.
  - rewrite (sumZ_nil (cut + 1) hi) by lia. apply sumZ_zero.
    intros j Hj. destruct (cut <? j)%Z eqn:E; [ | reflexivity].
    apply Z.ltb_lt in E. lia.
Qed.

(** A loop that adds one term a round returns the sum. *)
Lemma foldO_sum (l : list Z) (body : Z -> Q -> option Q) (f : Z -> Q) (s : Q) :
  (forall j acc, In j l -> body j acc = Some (acc + f j)) ->
  foldO l body s = Some (fold_left (fun acc j => acc + f j) l s).
Proof.
  revert s. induction l as [ | j l IH]; intros s H; [reflexivity | ].
  cbn [foldO fold_left]. rewrite H by (left; reflexivity).
  apply IH. intros j' acc Hj'. apply H. right. exact Hj'.
Qed.

(** ** Square arrays *)

Variable n : Z.

(** The element (i, j) of an n x n array, and the element i of a
    vector; 0 outside. *)
Definition entry (l : list Q) (i j : Z) : Q :=
  match nth_int l (i * n + j) with Some x => x | None => 0 end.

Definition vec (l : list Q) (i : Z) : Q :=
  match nth_int l i with Some x => x | None => 0 end.

Lemma vec_get (l : list Q) (i : Z) :
  (0 <= i < Z.of_nat (length l))%Z -> nth_int l i = Some (vec l i).
Proof.
  intros H. unfold vec. destruct (nth_int_some l i H) as [x ->]. reflexivity.
Qed.

Lemma vec_set (l l' : list Q) (i i' : Z) (v : Q) :
  set_int l i v = Some l' ->
  vec l' i' = if (i' =? i)%Z then v else vec l i'.
Proof.
  intros H. unfold vec. destruct (i' =? i)%Z eqn:E.
  - apply Z.eqb_eq in E. subst i'.
    destruct (nth_int_set_eq _ _ _ _ H) as [-> _]. reflexivity.
  - apply Z.eqb_neq in E. rewrite (nth_int_set_neq _ _ _ _ _ H) by exact E.
    reflexivity.
Qed.

Hypothesis n_fits : (n * n <= int_max)%Z.

Lemma entry_get (l : list Q) (i j : Z) :
  Z.of_nat (length l) = (n * n)%Z -> (0 <= i < n)%Z -> (0 <= j < n)%Z ->
  nth_int l (i * n + j) = Some (entry l i j).
Proof.
  intros Hl Hi Hj.
  destruct (cell_index n i j Hi Hj n_fits) as (_ & _ & R).
  unfold entry. destruct (nth_int_some l (i * n + j)) as [x ->]; [lia | ].
  reflexivity.
Qed.

Lemma entry_set (l : list Q) (i j : Z) (v : Q) :
  Z.of_nat (length l) = (n * n)%Z -> (0 <= i < n)%Z -> (0 <= j < n)%Z ->
  exists l',
    set_int l (i * n + j) v = Some l' /\
    length l' = length l /\
    forall i' j', (0 <= i' < n)%Z -> (0 <= j' < n)%Z ->
      entry l' i' j' = if (i' =? i)%Z && (j' =? j)%Z then v else entry l i' j'.
Proof.
  intros Hl Hi Hj.
  destruct (cell_index n i j Hi Hj n_fits) as (_ & _ & R).
  destruct (set_int_some l (i * n + j) v) as (l' & Hset & Hlen); [lia | ].
  exists l'. split; [exact Hset | ]. split; [exact Hlen | ].
  intros i' j' Hi' Hj'. unfold entry.
  destruct ((i' =? i)%Z && (j' =? j)%Z) eqn:E.
  - apply andb_true_iff in E. destruct E as [E1 E2].
    apply Z.eqb_eq in E1, E2. subst i' j'.
    destruct (nth_int_set_eq _ _ _ _ Hset) as [-> _]. reflexivity.
  - rewrite (nth_int_set_neq _ _ _ _ _ Hset); [reflexivity | ].
    intros Heq. apply andb_false_iff in E.
    assert (i' = i) by (destruct (Z.lt_trichotomy i' i) as [? | [? | ?]]; nia).
    subst i'. assert (j' = j) by lia. subst j'.
    rewrite !Z.eqb_refl in E. destruct E; discriminate.
Qed.

End SumFacts.

(** ** The loops of the factorisation, element by element *)

Ltac zcases :=
  repeat (match goal with
          | |- context [(?a =? ?b)%Z] => destruct (Z.eqb_spec a b)
          | |- context [(?a <? ?b)%Z] => destruct (Z.ltb_spec a b)
          end; try lia; cbn [andb orb negb]);
  try reflexivity.

Section LoopFacts.

Import Mat.

Local Open Scope Q_scope.

Variable n : Z.
Hypothesis n_fits : (n * n <= int_max)%Z.

Abbreviation square l := (Z.of_nat (length l) = (n * n)%Z).

Lemma row_index (i j : Z) :
  (0 <= i < n)%Z -> (0 <= j < n)%Z ->
  int_add (int_mul i n) j = (i * n + j)%Z /\
  int_add (int_mul n i) j = (i * n + j)%Z.
Proof.
  intros Hi Hj. destruct (cell_index n i j Hi Hj n_fits) as (E1 & E2 & _).
  split; assumption.
Qed.

Lemma next_index (k : Z) : (0 <= k < n)%Z -> int_add k 1 = (k + 1)%Z.
Proof. intros H. apply int_add_id, in_int_nonneg. nia. Qed.

Lemma swapRows_spec (i1 i2 : Z) (l : list Q) :
  (0 <= i1 < n)%Z -> (0 <= i2 < n)%Z -> square l ->
  exists l',
    swapRows i1 i2 n l = Some l' /\ square l' /\
    forall i j, (0 <= i < n)%Z -> (0 <= j < n)%Z ->
      entry n l' i j =
        if (i =? i1)%Z then entry n l i2 j
        else if (i =? i2)%Z then entry n l i1 j else entry n l i j.
Proof.
  intros H1 H2 Hl. unfold swapRows.
  match goal with
  | |- context [foldO (zrange ?lo ?hi) ?b ?s] =>
      destruct (foldO_zrange_inv
        (fun J (l' : list Q) =>
           square l' /\
           forall i j, (0 <= i < n)%Z -> (0 <= j < n)%Z ->
             entry n l' i j =
               if (j <? J)%Z then
                 if (i =? i1)%Z then entry n l i2 j
                 else if (i =? i2)%Z then entry n l i1 j else entry n l i j
               else entry n l i j)
        lo hi b s) as (l' & Hrun & Hl' & Hget)
  end.
  - lia.
  - split; [exact Hl | ]. intros i j Hi Hj. zcases.
  - intros J l0 HJ [Hl0 Hget].
    destruct (row_index i1 J) as [_ E1]; [lia | lia | ].
    destruct (row_index i2 J) as [_ E2]; [lia | lia | ].
    rewrite E1, E2.
    rewrite (entry_get n n_fits l0 i1 J), (entry_get n n_fits l0 i2 J)
      by (assumption || lia).
    destruct (entry_set n n_fits l0 i1 J (entry n l0 i2 J))
      as (l1 & S1 & L1 & G1); [assumption | lia | lia | ].
    rewrite S1.
    destruct (entry_set n n_fits l1 i2 J (entry n l0 i1 J))
      as (l2 & S2 & L2 & G2); [congruence | lia | lia | ].
    exists l2. split; [exact S2 | ]. split; [congruence | ].
    intros i j Hi Hj. rewrite G2, G1 by assumption.
    rewrite !Hget by (assumption || lia).
    zcases; subst; zcases.
  - exists l'. split; [exact Hrun | ]. split; [exact Hl' | ].
    intros i j Hi Hj. rewrite Hget by assumption.
    replace (n - 1 + 1)%Z with n by lia. zcases.
Qed.

Lemma elim_row_spec (k i : Z) (tmp : Q) (l : list Q) :
  (0 <= k < n)%Z -> (0 <= i < n)%Z -> i <> k -> square l ->
  exists l',
    elim_row (FO := Exact.ops) n k (int_mul k n) (int_mul i n) tmp l = Some l' /\
    square l' /\
    forall i' j', (0 <= i' < n)%Z -> (0 <= j' < n)%Z ->
      entry n l' i' j' =
        if (i' =? i)%Z && (k <? j')%Z
        then entry n l i j' - tmp * entry n l k j'
        else entry n l i' j'.
Proof.
  intros Hk Hi Hik Hl. unfold elim_row. rewrite (next_index k Hk).
  match goal with
  | |- context [foldO (zrange ?lo ?hi) ?b ?s] =>
      destruct (foldO_zrange_inv
        (fun J (l' : list Q) =>
           square l' /\
           forall i' j', (0 <= i' < n)%Z -> (0 <= j' < n)%Z ->
             entry n l' i' j' =
               if (i' =? i)%Z && (k <? j')%Z && (j' <? J)%Z
               then entry n l i j' - tmp * entry n l k j'
               else entry n l i' j')
        lo hi b s) as (l' & Hrun & Hl' & Hget)
  end.
  - lia.
  - split; [exact Hl | ]. intros i' j' Hi' Hj'. zcases.
  - intros J l0 HJ [Hl0 Hget].
    destruct (row_index i J) as [E1 _]; [lia | lia | ].
    destruct (row_index k J) as [E2 _]; [lia | lia | ].
    rewrite E1, E2.
    rewrite (entry_get n n_fits l0 i J), (entry_get n n_fits l0 k J)
      by (assumption || lia).
    destruct (entry_set n n_fits l0 i J
                (entry n l0 i J - tmp * entry n l0 k J))
      as (l1 & S1 & L1 & G1); [assumption | lia | lia | ].
    exists l1. split; [exact S1 | ]. split; [congruence | ].
    intros i' j' Hi' Hj'. rewrite G1 by assumption.
    rewrite !Hget by (assumption || lia).
    zcases; subst; zcases.
  - exists l'. split; [exact Hrun | ]. split; [exact Hl' | ].
    intros i' j' Hi' Hj'. rewrite Hget by assumption.
    replace (n - 1 + 1)%Z with n by lia. zcases.
Qed.

(** The row [i] below the pivot row [k] after the round [k] of the
    elimination. *)
Definition eliminated (l : list Q) (k i j : Z) : Q :=
  if (j =? k)%Z then entry n l i k / entry n l k k
  else if (k <? j)%Z
       then entry n l i j - entry n l i k / entry n l k k * entry n l k j
       else entry n l i j.

Lemma elim_step_spec (k : Z) (l : list Q) :
  (0 <= k < n)%Z -> square l ->
  exists l',
    elim_step (FO := Exact.ops) n k l = Some l' /\ square l' /\
    forall i j, (0 <= i < n)%Z -> (0 <= j < n)%Z ->
      entry n l' i j = if (k <? i)%Z then eliminated l k i j else entry n l i j.
Proof.
  intros Hk Hl. unfold elim_step. rewrite (next_index k Hk).
  match goal with
  | |- context [foldO (zrange ?lo ?hi) ?b ?s] =>
      destruct (foldO_zrange_inv
        (fun I (l' : list Q) =>
           square l' /\
           forall i j, (0 <= i < n)%Z -> (0 <= j < n)%Z ->
             entry n l' i j =
               if (k <? i)%Z && (i <? I)%Z then eliminated l k i j
               else entry n l i j)
        lo hi b s) as (l' & Hrun & Hl' & Hget)
  end.
  - lia.
  - split; [exact Hl | ]. intros i j Hi Hj. zcases.
  - intros I l0 HI [Hl0 Hget].
    destruct (row_index I k) as [E1 _]; [lia | lia | ].
    destruct (row_index k k) as [E2 _]; [lia | lia | ].
    rewrite E1, E2.
    rewrite (entry_get n n_fits l0 I k), (entry_get n n_fits l0 k k)
      by (assumption || lia).
    destruct (entry_set n n_fits l0 I k (entry n l0 I k / entry n l0 k k))
      as (l1 & S1 & L1 & G1); [assumption | lia | lia | ].
    cbn [fdiv Exact.ops]. rewrite S1.
    rewrite (entry_get n n_fits l1 I k) by (congruence || lia).
    destruct (elim_row_spec k I (entry n l1 I k) l1)
      as (l2 & S2 & L2 & G2); [lia | lia | lia | congruence | ].
    exists l2. split; [exact S2 | ]. split; [exact L2 | ].
    intros i j Hi Hj. rewrite G2 by assumption.
    rewrite !G1 by (assumption || lia).
    rewrite !Hget by (assumption || lia).
    unfold eliminated. zcases; subst; zcases.
  - exists l'. split; [exact Hrun | ]. split; [exact Hl' | ].
    intros i j Hi Hj. rewrite Hget by assumption.
    replace (n - 1 + 1)%Z with n by lia. zcases.
Qed.

(** What the array holds after [K] rounds of the elimination: the
    multipliers below the diagonal in the columns before [K], the reduced
    rows elsewhere.  [lower_upper l K i j] is the element (i, j) of the
    array the elimination started from, rebuilt from [l]. *)
Definition lower_upper (l : list Q) (K i j : Z) : Q :=
  sumZ 0 (Z.min K (Z.min i j) - 1) (fun t => entry n l i t * entry n l t j) +
  (if (j <? i)%Z && (j <? K)%Z then entry n l i j * entry n l j j
   else entry n l i j).

Lemma elim_round_keeps (B l l' : list Q) (K : Z) :
  (0 <= K < n)%Z ->
  (forall i j, (0 <= i < n)%Z -> (0 <= j < n)%Z ->
     entry n l' i j = if (K <? i)%Z then eliminated l K i j else entry n l i j) ->
  ~ entry n l K K == 0 ->
  (forall i j, (0 <= i < n)%Z -> (0 <= j < n)%Z ->
     entry n B i j == lower_upper l K i j) ->
  forall i j, (0 <= i < n)%Z -> (0 <= j < n)%Z ->
    entry n B i j == lower_upper l' (K + 1) i j.
Proof.
  intros HK Hspec Hp Hinv i j Hi Hj.
  rewrite (Hinv i j Hi Hj). unfold lower_upper.
  assert (Hrow : forall i' j', (0 <= i' <= K)%Z -> (0 <= j' < n)%Z ->
                   entry n l' i' j' = entry n l i' j').
  { intros i' j' Hi' Hj'. rewrite Hspec by lia. zcases. }
  assert (Hleft : forall i' j', (0 <= i' < n)%Z -> (0 <= j' < K)%Z ->
                    entry n l' i' j' = entry n l i' j').
  { intros i' j' Hi' Hj'. rewrite Hspec by lia. unfold eliminated. zcases. }
  destruct (Z_le_gt_dec i K) as [HiK | HiK].
  - (* a row that the round leaves alone *)
    replace (Z.min (K + 1) (Z.min i j)) with (Z.min K (Z.min i j)) by lia.
    rewrite (sumZ_ext _ _ (fun t => entry n l' i t * entry n l' t j)
                          (fun t => entry n l i t * entry n l t j)).
    2:{ intros t Ht. rewrite !Hrow by lia. reflexivity. }
    rewrite (Hrow i j) by lia.
    destruct (Z.ltb_spec j i) as [Hji | Hji]; cbn [andb].
    + rewrite (Hrow j j) by lia. zcases.
    + reflexivity.
  - destruct (Z.lt_trichotomy j K) as [HjK | [HjK | HjK]].
    + (* a column before the pivot *)
      replace (Z.min (K + 1) (Z.min i j)) with (Z.min K (Z.min i j)) by lia.
      rewrite (sumZ_ext _ _ (fun t => entry n l' i t * entry n l' t j)
                            (fun t => entry n l i t * entry n l t j)).
      2:{ intros t Ht. rewrite (Hleft i t), (Hrow t j) by lia. reflexivity. }
      rewrite (Hleft i j), (Hrow j j) by lia. zcases.
    + (* the column of the pivot: the multiplier *)
      subst j.
      replace (Z.min (K + 1) (Z.min i K)) with (Z.min K (Z.min i K)) by lia.
      rewrite (sumZ_ext _ _ (fun t => entry n l' i t * entry n l' t K)
                            (fun t => entry n l i t * entry n l t K)).
      2:{ intros t Ht. rewrite (Hleft i t), (Hrow t K) by lia. reflexivity. }
      rewrite (Hrow K K) by lia.
      rewrite (Hspec i K) by lia. unfold eliminated.
      zcases; field; exact Hp.
    + (* a column after the pivot: the reduced element *)
      replace (Z.min (K + 1) (Z.min i j)) with (K + 1)%Z by lia.
      replace (Z.min K (Z.min i j)) with K by lia.
      rewrite (sumZ_snoc 0 (K + 1 - 1)) by lia.
      replace (K + 1 - 1 - 1)%Z with (K - 1)%Z by lia.
      replace (K + 1 - 1)%Z with K by lia.
      rewrite (sumZ_ext _ _ (fun t => entry n l' i t * entry n l' t j)
                            (fun t => entry n l i t * entry n l t j)).
      2:{ intros t Ht. rewrite (Hleft i t), (Hrow t j) by lia. reflexivity. }
      rewrite (Hrow K j) by lia.
      rewrite (Hspec i K), (Hspec i j) by lia. unfold eliminated.
      zcases; ring.
Qed.

(** The elimination: it returns, and if no pivot is zero the array it
    leaves holds the factors of the array it started from. *)
Lemma elimination_spec (l0 : list Q) :
  (0 < n)%Z -> square l0 ->
  exists l',
    foldO (zrange 0 (n - 1)) (elim_step (FO := Exact.ops) n) l0 = Some l' /\
    square l' /\
    ((forall t, (0 <= t < n)%Z -> ~ entry n l' t t == 0) ->
     forall i j, (0 <= i < n)%Z -> (0 <= j < n)%Z ->
       entry n l0 i j == lower_upper l' n i j).
Proof.
  intros Hn Hl0.
  destruct (foldO_zrange_inv
    (fun K (l : list Q) =>
       square l /\
       ((forall t, (0 <= t < K)%Z -> ~ entry n l t t == 0) ->
        forall i j, (0 <= i < n)%Z -> (0 <= j < n)%Z ->
          entry n l0 i j == lower_upper l K i j))
    0%Z (n - 1)%Z (elim_step (FO := Exact.ops) n) l0) as (l' & Hrun & Hl' & Hinv).
  - lia.
  - split; [exact Hl0 | ]. intros _ i j Hi Hj. unfold lower_upper.
    rewrite sumZ_nil by lia. zcases; ring.
  - intros K l HK [Hl Hinv].
    destruct (elim_step_spec K l) as (l1 & Hstep & Hl1 & Hspec); [lia | exact Hl | ].
    exists l1. split; [exact Hstep | ]. split; [exact Hl1 | ].
    intros Hnz.
    assert (Hdiag : forall t, (0 <= t <= K)%Z -> ~ entry n l t t == 0).
    { intros t Ht. specialize (Hnz t). rewrite Hspec in Hnz by lia.
      destruct (Z.ltb_spec K t); [lia | ]. apply Hnz. lia. }
    apply (elim_round_keeps l0 l l1 K); [lia | exact Hspec | apply Hdiag; lia | ].
    apply Hinv. intros t Ht. apply Hdiag. lia.
  - exists l'. split; [exact Hrun | ]. split; [exact Hl' | ].
    replace (n - 1 + 1)%Z with n in Hinv by lia.
    intros Hnz. apply Hinv. intros t Ht. apply Hnz. exact Ht.
Qed.

End LoopFacts.

(** ** The factors of a matrix and the solution of a system *)

Section SolveFacts.

Import Mat.

Local Open Scope Q_scope.

Variable n : Z.
Hypothesis n_fits : (n * n <= int_max)%Z.
Hypothesis n_pos : (0 < n)%Z.

Abbreviation square l := (Z.of_nat (length l) = (n * n)%Z).

Lemma copy_slice_same {A : Type} (dst src : list A) :
  length dst = length src -> copy_slice dst src = src.
Proof.
  intros H. unfold copy_slice.
  rewrite skipn_all2 by lia. rewrite app_nil_r.
  apply firstn_all2. lia.
Qed.

(** The rows of the array and the pivot after the loop that swaps rows:
    the row [i] is the row [pivot[i]] of the matrix. *)
Definition rows_of (A l : list Q) (pv : list Z) : Prop :=
  forall i, (0 <= i < n)%Z ->
    exists p, nth_int pv i = Some p /\ (0 <= p < n)%Z /\
              forall j, (0 <= j < n)%Z -> entry n l i j = entry n A p j.

Lemma pivot_step_spec (A l : list Q) (pv : list Z) (sign : Q) (k : Z) :
  (0 <= k < n)%Z -> square A -> square l -> is_perm n pv -> rows_of A l pv ->
  exists l' pv' sign',
    pivot_step (FO := Exact.ops) Qabs n A k (l, pv, sign) =
      Some (l', pv', sign') /\
    square l' /\ is_perm n pv' /\ rows_of A l' pv'.
Proof.
  intros Hk HA Hl Hpv Hrows. unfold pivot_step.
  destruct (findMaxRow_range (FO := Exact.ops) Qabs n A k)
    as (r & Hr & Rr); [lia | lia | lia | ].
  rewrite Hr.
  assert (Rr' : (0 <= r < n)%Z) by lia.
  assert (Hplen : Z.of_nat (length pv) = n) by apply Hpv.
  destruct (nth_int_some pv k) as [pk Hpk]; [lia | ].
  destruct (nth_int_some pv r) as [pm Hpm]; [lia | ].
  rewrite Hpk, Hpm.
  destruct (set_int_some pv k pm) as (pv1 & S1 & L1); [lia | ].
  rewrite S1.
  destruct (set_int_some pv1 r pk) as (pv2 & S2 & L2); [lia | ].
  rewrite S2.
  assert (Hperm2 : is_perm n pv2)
    by (apply (swap_is_perm n pv pv1 pv2 k r pk pm); assumption).
  destruct (swap_get pv pv1 pv2 k r pk pm Hpk Hpm S1 S2) as [_ Hget].
  destruct (Hrows k Hk) as (pk' & Epk & Rpk & Hrowk).
  destruct (Hrows r Rr') as (pm' & Epm & Rpm & Hrowr).
  assert (pk' = pk) by congruence. assert (pm' = pm) by congruence.
  subst pk' pm'.
  destruct (Z.eqb_spec k r) as [Ekr | Ekr]; cbn [negb].
  - exists l, pv2, sign. split; [reflexivity | ].
    split; [exact Hl | ]. split; [exact Hperm2 | ].
    intros i Hi. rewrite Hget. subst r.
    destruct (Z.eqb_spec i k) as [-> | Hik].
    + exists pk. split; [reflexivity | ]. split; assumption.
    + apply Hrows, Hi.
  - destruct (swapRows_spec n n_fits k r l) as (l' & Hsw & Hl' & Gl');
      [lia | lia | exact Hl | ].
    rewrite Hsw. exists l', pv2, (fneg sign). split; [reflexivity | ].
    split; [exact Hl' | ]. split; [exact Hperm2 | ].
    intros i Hi. rewrite Hget.
    destruct (Z.eqb_spec i r) as [-> | Hir].
    + exists pk. split; [reflexivity | ]. split; [exact Rpk | ].
      intros j Hj. rewrite Gl' by assumption.
      destruct (Z.eqb_spec r k); [lia | ].
      destruct (Z.eqb_spec r r); [ | lia]. apply Hrowk, Hj.
    + destruct (Z.eqb_spec i k) as [-> | Hik].
      * exists pm. split; [reflexivity | ]. split; [exact Rpm | ].
        intros j Hj. rewrite Gl' by assumption.
        destruct (Z.eqb_spec k k); [ | lia]. apply Hrowr, Hj.
      * destruct (Hrows i Hi) as (p & Ep & Rp & Hrowi).
        exists p. split; [exact Ep | ]. split; [exact Rp | ].
        intros j Hj. rewrite Gl' by assumption.
        destruct (Z.eqb_spec i k); [lia | ].
        destruct (Z.eqb_spec i r); [lia | ]. apply Hrowi, Hj.
Qed.

(** LU, for a matrix of rationals: it returns; the pivot is a
    permutation; and if no pivot element is zero, the row [pivot[i]] of the
    matrix is the row [i] of the product of the two factors. *)
Lemma LU_factors (vals : list Q) (m : Matrix) :
  NewMatrix vals n n = Some m ->
  exists luf,
    LU (FO := Exact.ops) Qabs m = Some luf /\
    Width (lu luf) = n /\ square (Vals (lu luf)) /\ is_perm n (pivot luf) /\
    ((forall t, (0 <= t < n)%Z -> ~ entry n (Vals (lu luf)) t t == 0) ->
     forall i, (0 <= i < n)%Z ->
       exists p, nth_int (pivot luf) i = Some p /\ (0 <= p < n)%Z /\
         forall j, (0 <= j < n)%Z ->
           entry n vals p j == lower_upper n (Vals (lu luf)) n i j).
Proof.
  intros Hnew. unfold NewMatrix in Hnew.
  destruct (n <=? 0)%Z eqn:E0; [discriminate | ].
  destruct (negb _) eqn:El; [discriminate | ].
  apply negb_false_iff, Z.eqb_eq in El.
  injection Hnew as <-.
  assert (Enn : int_mul n n = (n * n)%Z).
  { apply int_mul_id, in_int_nonneg. nia. }
  rewrite Enn in El.
  unfold LU. cbn [Width Height Vals]. rewrite Z.eqb_refl. cbn [negb].
  unfold NewLUFactors. rewrite Enn.
  destruct ((n * n <? 0) || (n <? 0))%Z eqn:Eneg.
  { apply orb_true_iff in Eneg.
    destruct Eneg as [E | E]; apply Z.ltb_lt in E; nia. }
  unfold LUFactorsAt. cbn [lu Width Height Vals pivot d].
  rewrite Z.eqb_refl. cbn [negb orb].
  destruct (init_pivot_spec n) as (pv0 & Hpv0 & Hperm0 & Hid); [lia | ].
  rewrite Hpv0.
  rewrite copy_slice_same by (rewrite repeat_length; lia).
  destruct (foldO_inv
              (fun s : list Q * list Z * Q =>
                 square (fst (fst s)) /\ is_perm n (snd (fst s)) /\
                 rows_of vals (fst (fst s)) (snd (fst s)))
              (zrange 0 (n - 1)) (pivot_step (FO := Exact.ops) Qabs n vals)
              (vals, pv0, fofZ 1))
    as ([[l1 pv1] sign] & Hswap & Hl1 & Hperm1 & Hrows1).
  { cbn [fst snd]. split; [lia | ]. split; [exact Hperm0 | ].
    intros i Hi. exists i. split; [apply Hid, Hi | ]. split; [exact Hi | ].
    reflexivity. }
  { intros k [[l pv] sg] Hk (Hl & Hp & Hrows). cbn [fst snd] in *.
    apply in_zrange in Hk.
    destruct (pivot_step_spec vals l pv sg k) as
      (l' & pv' & sg' & Hstep & Hl' & Hp' & Hrows'); try assumption; try lia.
    exists (l', pv', sg'). cbn [fst snd].
    split; [exact Hstep | ]. split; [exact Hl' | ]. split; assumption. }
  cbn [fst snd] in *. rewrite Hswap.
  destruct (elimination_spec n n_fits l1 n_pos Hl1) as (l2 & Helim & Hl2 & Hfact).
  rewrite Helim. eexists. split; [reflexivity | ].
  cbn [lu Width Height Vals pivot d].
  split; [reflexivity | ]. split; [exact Hl2 | ]. split; [exact Hperm1 | ].
  intros Hnz i Hi.
  destruct (Hrows1 i Hi) as (p & Ep & Rp & Hrow).
  exists p. split; [exact Ep | ]. split; [exact Rp | ].
  intros j Hj. rewrite <- (Hrow j Hj). apply Hfact; assumption.
Qed.

Lemma sumZ_cons (lo hi : Z) (f : Z -> Q) :
  (lo <= hi)%Z -> sumZ lo hi f == f lo + sumZ (lo + 1) hi f.
Proof.
  intros H. rewrite (sumZ_split lo (lo + 1) hi) by lia.
  replace (lo + 1 - 1)%Z with lo by lia.
  rewrite (sumZ_snoc lo lo) by lia. rewrite (sumZ_nil lo (lo - 1)) by lia.
  ring.
Qed.

(** The first loop of forwardSubst, [ys[pivot[i]] = bs[i]]. *)
Lemma permute_spec (pv : list Z) (bs ys : list Q) :
  is_perm n pv -> Z.of_nat (length bs) = n -> Z.of_nat (length ys) = n ->
  exists ys1,
    foldO (zrange 0 (n - 1))
      (fun i ys => match nth_int pv i, nth_int bs i with
                   | Some p, Some b => set_int ys p b
                   | _, _ => None
                   end) ys = Some ys1 /\
    Z.of_nat (length ys1) = n /\
    forall i, (0 <= i < n)%Z ->
      exists p, nth_int pv i = Some p /\ vec ys1 p = vec bs i.
Proof.
  intros (Hplen & Hrange & Huniq) Hbs Hys.
  match goal with
  | |- context [foldO (zrange ?lo ?hi) ?b ?s] =>
      destruct (foldO_zrange_inv
        (fun I (y : list Q) =>
           Z.of_nat (length y) = n /\
           forall i, (0 <= i < I)%Z ->
             exists p, nth_int pv i = Some p /\ vec y p = vec bs i)
        lo hi b s) as (ys1 & Hrun & Hlen & Hget)
  end.
  - lia.
  - split; [exact Hys | ]. intros i Hi. lia.
  - intros I y HI [Hy Hget].
    destruct (Hrange I) as (p & Ep & Rp); [lia | ].
    rewrite Ep. rewrite (vec_get bs I) by lia.
    destruct (set_int_some y p (vec bs I)) as (y' & Hset & Hlen'); [lia | ].
    exists y'. split; [exact Hset | ]. split; [lia | ].
    intros i Hi. destruct (Z.eq_dec i I) as [-> | Hne].
    + exists p. split; [exact Ep | ]. rewrite (vec_set _ _ _ _ _ Hset).
      rewrite Z.eqb_refl. reflexivity.
    + destruct (Hget i) as (q & Eq & Hq); [lia | ].
      exists q. split; [exact Eq | ]. rewrite (vec_set _ _ _ _ _ Hset).
      destruct (Z.eqb_spec q p) as [-> | Hqp]; [ | exact Hq].
      exfalso. destruct (Huniq p Rp) as (i0 & _ & Hi0).
      apply Hne. rewrite (Hi0 i Eq), (Hi0 I Ep). reflexivity.
  - exists ys1. split; [exact Hrun | ]. split; [exact Hlen | ].
    intros i Hi. apply Hget. lia.
Qed.

(** forwardSubst: it solves L y = c, where c is [bs] as the first loop
    stores it and L has the elements of [l] below the diagonal and 1 on
    it. *)
Lemma forwardSubst_spec (pv : list Z) (l bs ys : list Q) :
  is_perm n pv -> square l ->
  Z.of_nat (length bs) = n -> Z.of_nat (length ys) = n ->
  exists ys1 ys2,
    forwardSubst (FO := Exact.ops) n pv l bs ys = Some ys2 /\
    Z.of_nat (length ys2) = n /\
    (forall i, (0 <= i < n)%Z ->
       exists p, nth_int pv i = Some p /\ vec ys1 p = vec bs i) /\
    forall i, (0 <= i < n)%Z ->
      vec ys2 i + sumZ 0 (i - 1) (fun j => entry n l i j * vec ys2 j) ==
      vec ys1 i.
Proof.
  intros Hpv Hl Hbs Hys. unfold forwardSubst.
  destruct (permute_spec pv bs ys Hpv Hbs Hys) as (ys1 & Hrun1 & Hlen1 & Hget1).
  rewrite Hrun1. exists ys1.
  match goal with
  | |- context [foldO (zrange ?lo ?hi) ?b ?s] =>
      destruct (foldO_zrange_inv
        (fun I (y : list Q) =>
           Z.of_nat (length y) = n /\
           (forall i, (0 <= i < I)%Z ->
              vec y i + sumZ 0 (i - 1) (fun j => entry n l i j * vec y j) ==
              vec ys1 i) /\
           forall i, (I <= i < n)%Z -> vec y i = vec ys1 i)
        lo hi b s) as (ys2 & Hrun & Hlen & Hdone & _)
  end.
  - lia.
  - split; [exact Hlen1 | ]. split; [intros i Hi; lia | reflexivity].
  - intros I y HI (Hy & Hdone & Hrest).
    rewrite (foldO_sum _ _ (fun j => entry n l I j * vec y j)).
    2:{ intros j acc Hj. apply in_zrange in Hj.
        destruct (row_index n n_fits I j) as [E _]; [lia | lia | ].
        rewrite E, (entry_get n n_fits l I j) by (assumption || lia).
        rewrite (vec_get y j) by lia. reflexivity. }
    change (fold_left _ (zrange 0 (I - 1)) (fofZ 0))
      with (sumZ 0 (I - 1) (fun j => entry n l I j * vec y j)).
    rewrite (vec_get y I) by lia.
    destruct (set_int_some y I
                (vec y I - sumZ 0 (I - 1) (fun j => entry n l I j * vec y j)))
      as (y' & Hset & Hlen'); [lia | ].
    exists y'. split; [exact Hset | ]. split; [lia | ].
    assert (Hsame : forall i, i <> I -> vec y' i = vec y i).
    { intros i Hi. rewrite (vec_set _ _ _ _ _ Hset).
      destruct (Z.eqb_spec i I); [lia | reflexivity]. }
    split.
    + intros i Hi.
      rewrite (sumZ_ext 0 (i - 1) (fun j => entry n l i j * vec y' j)
                                  (fun j => entry n l i j * vec y j)).
      2:{ intros j Hj. rewrite Hsame by lia. reflexivity. }
      destruct (Z.eq_dec i I) as [-> | Hne].
      * rewrite (vec_set _ _ _ _ _ Hset), Z.eqb_refl.
        rewrite <- (Hrest I) by lia. ring.
      * rewrite Hsame by exact Hne. apply Hdone. lia.
    + intros i Hi. rewrite Hsame by lia. apply Hrest. lia.
  - exists ys2. split; [exact Hrun | ]. split; [exact Hlen | ].
    split; [exact Hget1 | ].
    intros i Hi. apply Hdone. lia.
Qed.

(** backSubst: it solves U x = y, where U has the elements of [l] on
    and above the diagonal. *)
Lemma backSubst_spec (l ys : list Q) :
  square l -> Z.of_nat (length ys) = n ->
  (forall t, (0 <= t < n)%Z -> ~ entry n l t t == 0) ->
  exists xs,
    backSubst (FO := Exact.ops) n l ys = Some xs /\
    Z.of_nat (length xs) = n /\
    forall i, (0 <= i < n)%Z ->
      sumZ i (n - 1) (fun j => entry n l i j * vec xs j) == vec ys i.
Proof.
  intros Hl Hys Hnz. unfold backSubst.
  match goal with
  | |- context [foldO (rev (zrange ?lo ?hi)) ?b ?s] =>
      destruct (foldO_zrange_rev_inv
        (fun I (x : list Q) =>
           Z.of_nat (length x) = n /\
           (forall i, (I < i < n)%Z ->
              sumZ i (n - 1) (fun j => entry n l i j * vec x j) == vec ys i) /\
           forall i, (0 <= i <= I)%Z -> vec x i = vec ys i)
        lo hi b s) as (xs & Hrun & Hlen & Hdone & _)
  end.
  - lia.
  - split; [exact Hys | ]. split; [intros i Hi; lia | reflexivity].
  - intros I x HI (Hx & Hdone & Hrest).
    rewrite (next_index n n_fits I) by lia.
    rewrite (foldO_sum _ _ (fun j => entry n l I j * vec x j)).
    2:{ intros j acc Hj. apply in_zrange in Hj.
        destruct (row_index n n_fits I j) as [E _]; [lia | lia | ].
        rewrite E, (entry_get n n_fits l I j) by (assumption || lia).
        rewrite (vec_get x j) by lia. reflexivity. }
    change (fold_left _ (zrange (I + 1) (n - 1)) (fofZ 0))
      with (sumZ (I + 1) (n - 1) (fun j => entry n l I j * vec x j)).
    rewrite (vec_get x I) by lia.
    destruct (row_index n n_fits I I) as [E _]; [lia | lia | ].
    rewrite E, (entry_get n n_fits l I I) by (assumption || lia).
    destruct (set_int_some x I
                ((vec x I -
                  sumZ (I + 1) (n - 1) (fun j => entry n l I j * vec x j)) /
                 entry n l I I))
      as (x' & Hset & Hlen'); [lia | ].
    exists x'. split; [exact Hset | ]. split; [lia | ].
    assert (Hsame : forall i, i <> I -> vec x' i = vec x i).
    { intros i Hi. rewrite (vec_set _ _ _ _ _ Hset).
      destruct (Z.eqb_spec i I); [lia | reflexivity]. }
    split.
    + intros i Hi. destruct (Z.eq_dec i I) as [-> | Hne].
      * rewrite sumZ_cons by lia.
        rewrite (sumZ_ext (I + 1) (n - 1) (fun j => entry n l I j * vec x' j)
                                          (fun j => entry n l I j * vec x j)).
        2:{ intros j Hj. rewrite Hsame by lia. reflexivity. }
        rewrite (vec_set _ _ _ _ _ Hset), Z.eqb_refl.
        rewrite <- (Hrest I) by lia. field. apply Hnz. lia.
      * rewrite (sumZ_ext i (n - 1) (fun j => entry n l i j * vec x' j)
                                    (fun j => entry n l i j * vec x j)).
        2:{ intros j Hj. rewrite Hsame by lia. reflexivity. }
        apply Hdone. lia.
    + intros i Hi. rewrite Hsame by lia. apply Hrest. lia.
  - exists xs. split; [exact Hrun | ]. split; [exact Hlen | ].
    intros i Hi. apply Hdone. lia.
Qed.

(** The row [r] of the product of the factors, applied to the solution
    of U x = y. *)
Lemma factored_row (l x y : list Q) (r : Z) :
  (0 <= r < n)%Z ->
  (forall t, (0 <= t < n)%Z ->
     sumZ t (n - 1) (fun j => entry n l t j * vec x j) == vec y t) ->
  sumZ 0 (n - 1) (fun j => lower_upper n l n r j * vec x j) ==
  vec y r + sumZ 0 (r - 1) (fun t => entry n l r t * vec y t).
Proof.
  intros Hr HU.
  set (g := fun t j => entry n l r t * (entry n l t j * vec x j)).
  rewrite (sumZ_ext 0 (n - 1) (fun j => lower_upper n l n r j * vec x j)
             (fun j => sumZ 0 (r - 1) (fun t => if (t <? j)%Z then g t j else 0) +
                       (if (j <? r)%Z then g j j else entry n l r j * vec x j))).
  2:{ intros j Hj. unfold lower_upper.
      replace (Z.min n (Z.min r j)) with (Z.min r j) by lia.
      rewrite sumZ_cut_above.
      replace (Z.min (r - 1) (j - 1)) with (Z.min r j - 1)%Z by lia.
      rewrite (sumZ_ext 0 (Z.min r j - 1) (fun t => g t j)
                 (fun t => vec x j * (entry n l r t * entry n l t j)))
        by (intros t _; unfold g; ring).
      rewrite sumZ_scale. unfold g. zcases; ring. }
  rewrite sumZ_plus, sumZ_swap.
  rewrite (sumZ_ext 0 (r - 1)
             (fun t => sumZ 0 (n - 1) (fun j => if (t <? j)%Z then g t j else 0))
             (fun t => entry n l r t *
                       sumZ (t + 1) (n - 1) (fun j => entry n l t j * vec x j))).
  2:{ intros t Ht. rewrite sumZ_cut_below by lia. unfold g.
      apply sumZ_scale. }
  rewrite (sumZ_split 0 r (n - 1)) by lia.
  rewrite (sumZ_ext 0 (r - 1)
             (fun j => if (j <? r)%Z then g j j else entry n l r j * vec x j)
             (fun j => g j j)) by (intros j Hj; zcases).
  rewrite (sumZ_ext r (n - 1)
             (fun j => if (j <? r)%Z then g j j else entry n l r j * vec x j)
             (fun j => entry n l r j * vec x j)) by (intros j Hj; zcases).
  rewrite <- (HU r Hr).
  rewrite (sumZ_ext 0 (r - 1) (fun t => entry n l r t * vec y t)
             (fun t => g t t + entry n l r t *
                         sumZ (t + 1) (n - 1) (fun j => entry n l t j * vec x j))).
  2:{ intros t Ht. rewrite <- (HU t) by lia. rewrite sumZ_cons by lia.
      unfold g. ring. }
  rewrite sumZ_plus. ring.
Qed.

(** The product of the row [q] of an n x n array and a vector. *)
Definition row_dot (A : list Q) (q : Z) (x : list Q) : Q :=
  sumZ 0 (n - 1) (fun j => entry n A q j * vec x j).

(** SolveVector after LU, row by row. *)
Lemma SolveVector_rows (vals bs xs : list Q) (m : Matrix) (luf : LUFactors) :
  NewMatrix vals n n = Some m ->
  LU (FO := Exact.ops) Qabs m = Some luf ->
  Z.of_nat (length bs) = n -> Z.of_nat (length xs) = n ->
  (forall t, (0 <= t < n)%Z -> ~ entry n (Vals (lu luf)) t t == 0) ->
  exists x,
    SolveVector (FO := Exact.ops) luf bs xs = Some x /\
    Z.of_nat (length x) = n /\
    forall i, (0 <= i < n)%Z ->
      exists p q, nth_int (pivot luf) i = Some p /\
                  nth_int (pivot luf) p = Some q /\
                  row_dot vals q x == vec bs i.
Proof.
  intros Hnew HLU Hbs Hxs Hnz.
  destruct (LU_factors vals m Hnew) as (luf' & HLU' & Hw & Hl & Hperm & Hfact).
  assert (luf' = luf) by congruence. subst luf'. clear HLU'.
  specialize (Hfact Hnz).
  unfold SolveVector. rewrite Hw, Hbs, Hxs, Z.eqb_refl. cbn [negb].
  destruct bs as [ | b0 bs']; [cbn in Hbs; lia | ].
  destruct (forwardSubst_spec (pivot luf) (Vals (lu luf)) (b0 :: bs') xs
              Hperm Hl Hbs Hxs) as (ys1 & ys2 & Hfwd & Hlen2 & Hperm1 & HL).
  rewrite Hfwd.
  destruct (backSubst_spec (Vals (lu luf)) ys2 Hl Hlen2 Hnz)
    as (x & Hback & Hlenx & HU).
  exists x. split; [exact Hback | ]. split; [exact Hlenx | ].
  intros i Hi.
  destruct (Hperm1 i Hi) as (p & Ep & Hp).
  assert (Rp : (0 <= p < n)%Z).
  { destruct Hperm as (_ & Hrange & _).
    destruct (Hrange i Hi) as (p' & Ep' & Rp'). congruence. }
  destruct (Hfact p Rp) as (q & Eq & Rq & Hrow).
  exists p, q. split; [exact Ep | ]. split; [exact Eq | ].
  rewrite <- Hp, <- (HL p Rp). unfold row_dot.
  rewrite (sumZ_ext 0 (n - 1) (fun j => entry n vals q j * vec x j)
             (fun j => lower_upper n (Vals (lu luf)) n p j * vec x j)).
  2:{ intros j Hj. rewrite Hrow by lia. reflexivity. }
  apply factored_row; assumption.
Qed.

(** X28: without rounding, for the factors that LU returns for an n x n
    matrix M, when no element of their diagonal is zero: SolveVector
    returns, and what it leaves in [xs] satisfies, for every i,
    (row pivot[pivot[i]] of M) . xs = bs[i], since forwardSubst stores
    bs[i] at the place pivot[i].  So xs solves M xs = bs when the pivot
    exchanges rows in pairs (pivot[pivot[i]] = i); otherwise it solves the
    system with the right side permuted. *)
Theorem SolveVector_solves_permuted (vals bs xs : list Q) (m : Matrix)
    (luf : LUFactors) :
  NewMatrix vals n n = Some m ->
  LU (FO := Exact.ops) Qabs m = Some luf ->
  Z.of_nat (length bs) = n -> Z.of_nat (length xs) = n ->
  (forall t, (0 <= t < n)%Z -> ~ entry n (Vals (lu luf)) t t == 0) ->
  exists x,
    SolveVector (FO := Exact.ops) luf bs xs = Some x /\
    Z.of_nat (length x) = n /\
    (forall i, (0 <= i < n)%Z ->
       exists p q, nth_int (pivot luf) i = Some p /\
                   nth_int (pivot luf) p = Some q /\
                   row_dot vals q x == vec bs i) /\
    ((forall i, (0 <= i < n)%Z ->
        exists p, nth_int (pivot luf) i = Some p /\
                  nth_int (pivot luf) p = Some i) ->
     forall i, (0 <= i < n)%Z -> row_dot vals i x == vec bs i).
Proof.
  intros Hnew HLU Hbs Hxs Hnz.
  destruct (SolveVector_rows vals bs xs m luf Hnew HLU Hbs Hxs Hnz)
    as (x & Hrun & Hlen & Hmain).
  exists x. split; [exact Hrun | ]. split; [exact Hlen | ].
  split; [exact Hmain | ].
  intros Hinv i Hi.
  destruct (Hmain i Hi) as (p & q & Ep & Eq & Hq).
  destruct (Hinv i Hi) as (p' & Ep' & Eq').
  assert (q = i) by congruence. subst q. exact Hq.
Qed.

End SolveFacts.

(** A matrix whose rows LU moves in a cycle: the pivot is 2, 0, 1. *)
Definition cycled_rows : list Q := [1; 2; 3; 4; 5; 6; 7; 8; 10]%Q.

Lemma SolveVector_solves_permuted_witness :
  exists m luf,
    Mat.NewMatrix cycled_rows 3 3 = Some m /\
    Mat.LU (FO := Exact.ops) Qabs m = Some luf /\
    Mat.pivot luf = [2; 0; 1] /\
    exists x,
      Mat.SolveVector (FO := Exact.ops) luf [1; 4; 7]%Q [0; 0; 0]%Q = Some x /\
      Z.of_nat (length x) = 3 /\
      (forall i, 0 <= i < 3 ->
         exists p q, nth_int (Mat.pivot luf) i = Some p /\
                     nth_int (Mat.pivot luf) p = Some q /\
                     (row_dot 3 cycled_rows q x == vec [1; 4; 7]%Q i)%Q) /\
      ((forall i, 0 <= i < 3 ->
          exists p, nth_int (Mat.pivot luf) i = Some p /\
                    nth_int (Mat.pivot luf) p = Some i) ->
       forall i, 0 <= i < 3 ->
         (row_dot 3 cycled_rows i x == vec [1; 4; 7]%Q i)%Q).
Proof.
  eexists. eexists.
  split; [reflexivity | ].
  split; [vm_compute; reflexivity | ].
  split; [reflexivity | ].
  eapply (SolveVector_solves_permuted 3).
  - vm_compute. discriminate.
  - lia.
  - reflexivity.
  - vm_compute. reflexivity.
  - reflexivity.
  - reflexivity.
  - intros t Ht.
    assert (Ht' : t = 0 \/ t = 1 \/ t = 2) by lia.
    destruct Ht' as [-> | [-> | ->]]; vm_compute; discriminate.
Defined.

Section Determinant3.

Import Mat.

Local Open Scope Q_scope.

Ltac mat_compute_in H :=
  cbv - [Qabs Qplus Qmult Qminus Qdiv Qopp Qinv Qle_bool Qeq Qle Qlt] in H.

(** X29: without rounding, for the factors that LU returns for a 3 x 3
    matrix, when the two pivot elements the elimination divides by (the
    first two of the diagonal of the factors) are not zero, Determinant
    returns the determinant of the matrix, whichever rows were swapped. *)
Theorem Determinant_3x3 (a b c d e f g h k : Q) (m : Matrix) (luf : LUFactors) :
  NewMatrix [a; b; c; d; e; f; g; h; k] 3 3 = Some m ->
  LU (FO := Exact.ops) Qabs m = Some luf ->
  ~ entry 3 (Vals (lu luf)) 0 0 == 0 ->
  ~ entry 3 (Vals (lu luf)) 1 1 == 0 ->
  exists dt,
    Determinant (FO := Exact.ops) luf = Some dt /\
    dt == a * (e * k - f * h) - b * (d * k - f * g) + c * (d * h - e * g).
Proof.
  intros Hnew HLU H0 H1.
  injection Hnew as <-.
  assert (Hfits : (3 * 3 <= int_max)%Z) by (vm_compute; discriminate).
  destruct (findMaxRow_range (FO := Exact.ops) Qabs 3
              [a; b; c; d; e; f; g; h; k] 0) as (r0 & E0 & R0);
    [lia | exact Hfits | reflexivity | ].
  destruct (findMaxRow_range (FO := Exact.ops) Qabs 3
              [a; b; c; d; e; f; g; h; k] 1) as (r1 & E1 & R1);
    [lia | exact Hfits | reflexivity | ].
  destruct (findMaxRow_range (FO := Exact.ops) Qabs 3
              [a; b; c; d; e; f; g; h; k] 2) as (r2 & E2 & R2);
    [lia | exact Hfits | reflexivity | ].
  unfold LU, NewLUFactors, LUFactorsAt in HLU.
  cbn [Width Height Vals lu pivot] in HLU.
  change (zrange 0 (3 - 1)) with [0%Z; 1%Z; 2%Z] in HLU.
  change (int_mul 3 3) with 9%Z in HLU.
  cbn [negb Z.eqb Pos.eqb orb Z.ltb Z.compare] in HLU.
  change (init_pivot 3 (repeat 0%Z (Z.to_nat 3))) with (Some [0%Z; 1%Z; 2%Z])
    in HLU.
  cbn [foldO] in HLU. unfold pivot_step in HLU. rewrite E0, E1, E2 in HLU.
  clear E0 E1 E2.
  assert (C0 : r0 = 0%Z \/ r0 = 1%Z \/ r0 = 2%Z) by lia.
  assert (C1 : r1 = 0%Z \/ r1 = 1%Z \/ r1 = 2%Z) by lia.
  assert (C2 : r2 = 0%Z \/ r2 = 2%Z) by lia.
  clear R0 R1 R2.
  destruct C0 as [-> | [-> | ->]]; destruct C1 as [-> | [-> | ->]];
    destruct C2 as [-> | ->];
    mat_compute_in HLU; injection HLU as <-;
    mat_compute_in H0; mat_compute_in H1; mat_compute;
    (eexists; split; [reflexivity | ]).
  all: field.
  all: (split; [exact H0 | ]).
  all: intros Hc; apply H1.
  all: field_simplify_eq; [ | exact H0].
  all: rewrite <- Hc; ring.
Qed.

End Determinant3.

Lemma Determinant_3x3_witness :
  exists m luf,
    Mat.NewMatrix [1; 2; 3; 4; 5; 6; 7; 8; 10]%Q 3 3 = Some m /\
    Mat.LU (FO := Exact.ops) Qabs m = Some luf /\
    (~ entry 3 (Mat.Vals (Mat.lu luf)) 0 0 == 0)%Q /\
    (~ entry 3 (Mat.Vals (Mat.lu luf)) 1 1 == 0)%Q /\
    exists dt,
      Mat.Determinant (FO := Exact.ops) luf = Some dt /\
      (dt == 1 * (5 * 10 - 6 * 8) - 2 * (4 * 10 - 6 * 7) + 3 * (4 * 8 - 5 * 7))%Q.
Proof.
  eexists. eexists.
  split; [reflexivity | ].
  split; [vm_compute; reflexivity | ].
  split; [vm_compute; discriminate | ].
  split; [vm_compute; discriminate | ].
  eapply (Determinant_3x3 1 2 3 4 5 6 7 8 10).
  - reflexivity.
  - vm_compute. reflexivity.
  - vm_compute. discriminate.
  - vm_compute. discriminate.
Defined.

(** ** Systems with a matrix on the right, and the inverse *)

Section InvertFacts.

Import Mat.

Local Open Scope Q_scope.

Variable n : Z.
Hypothesis n_fits : (n * n <= int_max)%Z.
Hypothesis n_pos : (0 < n)%Z.

Abbreviation square l := (Z.of_nat (length l) = (n * n)%Z).

Lemma entry_zeros (l : list Q) (i j : Z) :
  entry n (map (fun _ => 0) l) i j = 0.
Proof.
  unfold entry, nth_int. destruct (i * n + j <? 0)%Z; [reflexivity | ].
  rewrite nth_error_map. destruct (nth_error l _); reflexivity.
Qed.

(** The loop of Invert that writes the diagonal. *)
Lemma identity_spec (ovals : list Q) :
  square ovals ->
  exists id,
    foldO (zrange 0 (n - 1))
      (fun i vs => set_int vs (int_add (int_mul i n) i) (fofZ (FloatOps := Exact.ops) 1))
      (map (fun _ => fofZ (FloatOps := Exact.ops) 0) ovals) = Some id /\
    square id /\
    forall i j, (0 <= i < n)%Z -> (0 <= j < n)%Z ->
      entry n id i j = if (i =? j)%Z then 1 else 0.
Proof.
  intros Ho.
  match goal with
  | |- context [foldO (zrange ?lo ?hi) ?b ?s] =>
      destruct (foldO_zrange_inv
        (fun I (vs : list Q) =>
           square vs /\
           forall i j, (0 <= i < n)%Z -> (0 <= j < n)%Z ->
             entry n vs i j = if (i =? j)%Z && (i <? I)%Z then 1 else 0)
        lo hi b s) as (id & Hrun & Hid & Hget)
  end.
  - lia.
  - split; [rewrite length_map; exact Ho | ].
    intros i j Hi Hj. change (fofZ 0) with 0. rewrite entry_zeros. zcases.
  - intros I vs HI [Hvs Hget].
    destruct (row_index n n_fits I I) as [E _]; [lia | lia | ].
    rewrite E.
    destruct (entry_set n n_fits vs I I 1) as (vs' & Hset & Hlen & Hget');
      [exact Hvs | lia | lia | ].
    exists vs'. split; [exact Hset | ]. split; [congruence | ].
    intros i j Hi Hj. rewrite Hget', Hget by assumption. zcases.
  - exists id. split; [exact Hrun | ]. split; [exact Hid | ].
    intros i j Hi Hj. rewrite Hget by assumption.
    replace (n - 1 + 1)%Z with n by lia. zcases.
Qed.

(** [col[i] = xs[i*n + j]] for every i. *)
Lemma read_column (xs col : list Q) (J : Z) :
  square xs -> Z.of_nat (length col) = n -> (0 <= J < n)%Z ->
  exists col1,
    foldO (zrange 0 (n - 1))
      (fun i col => match nth_int xs (int_add (int_mul i n) J) with
                    | Some v => set_int col i v
                    | None => None
                    end) col = Some col1 /\
    Z.of_nat (length col1) = n /\
    forall i, (0 <= i < n)%Z -> vec col1 i = entry n xs i J.
Proof.
  intros Hxs Hcol HJ.
  match goal with
  | |- context [foldO (zrange ?lo ?hi) ?b ?s] =>
      destruct (foldO_zrange_inv
        (fun I (c : list Q) =>
           Z.of_nat (length c) = n /\
           forall i, (0 <= i < I)%Z -> vec c i = entry n xs i J)
        lo hi b s) as (col1 & Hrun & Hlen & Hget)
  end.
  - lia.
  - split; [exact Hcol | ]. intros i Hi. lia.
  - intros I c HI [Hc Hget].
    destruct (row_index n n_fits I J) as [E _]; [lia | lia | ].
    rewrite E, (entry_get n n_fits xs I J) by (assumption || lia).
    destruct (set_int_some c I (entry n xs I J)) as (c' & Hset & Hlen); [lia | ].
    exists c'. split; [exact Hset | ]. split; [lia | ].
    intros i Hi. rewrite (vec_set _ _ _ _ _ Hset).
    destruct (Z.eqb_spec i I) as [-> | Hne]; [reflexivity | ].
    apply Hget. lia.
  - exists col1. split; [exact Hrun | ]. split; [exact Hlen | ].
    intros i Hi. apply Hget. lia.
Qed.

(** [xs[i*n + j] = col[i]] for every i. *)
Lemma write_column (xs col : list Q) (J : Z) :
  square xs -> Z.of_nat (length col) = n -> (0 <= J < n)%Z ->
  exists xs',
    foldO (zrange 0 (n - 1))
      (fun i xs => match nth_int col i with
                   | Some v => set_int xs (int_add (int_mul i n) J) v
                   | None => None
                   end) xs = Some xs' /\
    square xs' /\
    forall i j, (0 <= i < n)%Z -> (0 <= j < n)%Z ->
      entry n xs' i j = if (j =? J)%Z then vec col i else entry n xs i j.
Proof.
  intros Hxs Hcol HJ.
  match goal with
  | |- context [foldO (zrange ?lo ?hi) ?b ?s] =>
      destruct (foldO_zrange_inv
        (fun I (y : list Q) =>
           square y /\
           forall i j, (0 <= i < n)%Z -> (0 <= j < n)%Z ->
             entry n y i j =
               if (j =? J)%Z && (i <? I)%Z then vec col i else entry n xs i j)
        lo hi b s) as (xs' & Hrun & Hlen & Hget)
  end.
  - lia.
  - split; [exact Hxs | ]. intros i j Hi Hj. zcases.
  - intros I y HI [Hy Hget].
    rewrite (vec_get col I) by lia.
    destruct (row_index n n_fits I J) as [E _]; [lia | lia | ].
    rewrite E.
    destruct (entry_set n n_fits y I J (vec col I)) as (y' & Hset & Hlen & Hget');
      [exact Hy | lia | lia | ].
    exists y'. split; [exact Hset | ]. split; [congruence | ].
    intros i j Hi Hj. rewrite Hget', Hget by assumption.
    zcases; subst; zcases.
  - exists xs'. split; [exact Hrun | ]. split; [exact Hlen | ].
    intros i j Hi Hj. rewrite Hget by assumption.
    replace (n - 1 + 1)%Z with n by lia. zcases.
Qed.

(** The element (i, j) of the product of two n x n arrays. *)
Definition product (A B : list Q) (i j : Z) : Q :=
  sumZ 0 (n - 1) (fun k => entry n A i k * entry n B k j).

(** SolveMatrix after LU: every column of [x] is replaced by the
    solution for that column. *)
Lemma SolveMatrix_columns (vals : list Q) (m b x : Matrix) (luf : LUFactors) :
  NewMatrix vals n n = Some m ->
  LU (FO := Exact.ops) Qabs m = Some luf ->
  (forall t, (0 <= t < n)%Z -> ~ entry n (Vals (lu luf)) t t == 0) ->
  Width b = n -> Height b = n -> Width x = n -> Height x = n ->
  square (Vals x) ->
  exists r,
    SolveMatrix (FO := Exact.ops) luf b x = Some r /\
    Width r = n /\ Height r = n /\ square (Vals r) /\
    forall i j, (0 <= i < n)%Z -> (0 <= j < n)%Z ->
      exists p q, nth_int (pivot luf) i = Some p /\
                  nth_int (pivot luf) p = Some q /\
                  product vals (Vals r) q j == entry n (Vals x) i j.
Proof.
  intros Hnew HLU Hnz Hbw Hbh Hxw Hxh Hx.
  destruct (LU_factors n n_fits n_pos vals m Hnew) as (luf' & HLU' & Hw & _).
  assert (luf' = luf) by congruence. subst luf'. clear HLU'.
  unfold SolveMatrix. rewrite Hw, Hbw, Hbh, Hxw, Hxh, Z.eqb_refl. cbn [negb].
  destruct (Z.ltb_spec n 0); [lia | ].
  destruct (foldO_zrange_inv
    (fun J (s : list Q * list Q) =>
       square (fst s) /\ Z.of_nat (length (snd s)) = n /\
       forall i j, (0 <= i < n)%Z -> (0 <= j < n)%Z ->
         if (j <? J)%Z
         then exists p q, nth_int (pivot luf) i = Some p /\
                          nth_int (pivot luf) p = Some q /\
                          product vals (fst s) q j == entry n (Vals x) i j
         else entry n (fst s) i j = entry n (Vals x) i j)
    0%Z (n - 1)%Z (solve_column (FO := Exact.ops) luf n)
    (Vals x, repeat (fofZ (FloatOps := Exact.ops) 0) (Z.to_nat n)))
    as ([xs col] & Hrun & Hxs & _ & Hcols).
  - lia.
  - cbn [fst snd]. split; [exact Hx | ]. split; [rewrite repeat_length; lia | ].
    intros i j Hi Hj. destruct (Z.ltb_spec j 0); [lia | reflexivity].
  - intros J [xs col] HJ (Hxs & Hcol & Hcols). cbn [fst snd] in *.
    unfold solve_column.
    destruct (read_column xs col J Hxs Hcol) as (col1 & Hread & Hlen1 & Hget1);
      [lia | ].
    rewrite Hread.
    destruct (SolveVector_rows n n_fits n_pos vals col1 col1 m luf
                Hnew HLU Hlen1 Hlen1 Hnz) as (col2 & Hsolve & Hlen2 & Hrows).
    rewrite Hsolve.
    destruct (write_column xs col2 J Hxs Hlen2) as (xs' & Hwrite & Hxs' & Hget');
      [lia | ].
    rewrite Hwrite. exists (xs', col2). split; [reflexivity | ].
    cbn [fst snd]. split; [exact Hxs' | ]. split; [exact Hlen2 | ].
    intros i j Hi Hj.
    destruct (Z.ltb_spec j (J + 1)) as [Hlt | Hge].
    + destruct (Z.eq_dec j J) as [-> | Hne].
      * destruct (Hrows i Hi) as (p & q & Ep & Eq & Hq).
        exists p, q. split; [exact Ep | ]. split; [exact Eq | ].
        unfold product.
        rewrite (sumZ_ext 0 (n - 1) (fun k => entry n vals q k * entry n xs' k J)
                   (fun k => entry n vals q k * vec col2 k)).
        2:{ intros k Hk. rewrite Hget' by lia. rewrite Z.eqb_refl. reflexivity. }
        unfold row_dot in Hq. rewrite Hq, Hget1 by exact Hi.
        specialize (Hcols i J Hi Hj).
        destruct (Z.ltb_spec J J); [lia | ]. rewrite Hcols. reflexivity.
      * specialize (Hcols i j Hi Hj).
        destruct (Z.ltb_spec j J); [ | lia].
        destruct Hcols as (p & q & Ep & Eq & Hq).
        exists p, q. split; [exact Ep | ]. split; [exact Eq | ].
        rewrite <- Hq. unfold product. apply sumZ_ext.
        intros k Hk. rewrite Hget' by lia.
        destruct (Z.eqb_spec j J); [lia | reflexivity].
    + specialize (Hcols i j Hi Hj).
      destruct (Z.ltb_spec j J); [lia | ].
      rewrite Hget' by assumption.
      destruct (Z.eqb_spec j J); [lia | exact Hcols].
  - cbn [fst snd] in *. rewrite Hrun. eexists. split; [reflexivity | ].
    cbn [Width Height Vals]. split; [reflexivity | ]. split; [reflexivity | ].
    split; [exact Hxs | ].
    intros i j Hi Hj. specialize (Hcols i j Hi Hj).
    destruct (Z.ltb_spec j (n - 1 + 1)); [exact Hcols | lia].
Qed.

Lemma NewMatrix_square (v : list Q) (x : Matrix) :
  NewMatrix v n n = Some x ->
  x = {| Vals := v; Width := n; Height := n |} /\ square v.
Proof.
  unfold NewMatrix. destruct (n <=? 0)%Z; [discriminate | ].
  destruct (negb _) eqn:El; [discriminate | ].
  apply negb_false_iff, Z.eqb_eq in El.
  rewrite int_mul_id in El by (apply in_int_nonneg; nia).
  intros H. injection H as <-. split; [reflexivity | lia].
Qed.

(** X30: without rounding, for the factors that LU returns for an n x n
    matrix M, when no element of their diagonal is zero.  SolveMatrix(b, x)
    returns and replaces every column of [x] by what SolveVector gives for
    that column: with X the result, (row pivot[pivot[i]] of M) . (column j
    of X) is the element (i, j) that [x] held before; the values of [b] are
    not read.  Invert(out) returns, and the X it leaves has
    (row pivot[pivot[i]] of M) . (column j of X) equal to 1 for i = j and
    to 0 otherwise: X is the inverse of M when the pivot exchanges rows in
    pairs. *)
Theorem SolveMatrix_and_Invert (vals bvals xvals : list Q) (m b x : Matrix)
    (luf : LUFactors) :
  NewMatrix vals n n = Some m ->
  LU (FO := Exact.ops) Qabs m = Some luf ->
  (forall t, (0 <= t < n)%Z -> ~ entry n (Vals (lu luf)) t t == 0) ->
  NewMatrix bvals n n = Some b -> NewMatrix xvals n n = Some x ->
  (exists r,
     SolveMatrix (FO := Exact.ops) luf b x = Some r /\ square (Vals r) /\
     forall i j, (0 <= i < n)%Z -> (0 <= j < n)%Z ->
       exists p q, nth_int (pivot luf) i = Some p /\
                   nth_int (pivot luf) p = Some q /\
                   product vals (Vals r) q j == entry n xvals i j) /\
  (exists inv,
     Invert (FO := Exact.ops) luf x = Some inv /\ square (Vals inv) /\
     (forall i j, (0 <= i < n)%Z -> (0 <= j < n)%Z ->
        exists p q, nth_int (pivot luf) i = Some p /\
                    nth_int (pivot luf) p = Some q /\
                    product vals (Vals inv) q j == if (i =? j)%Z then 1 else 0) /\
     ((forall i, (0 <= i < n)%Z ->
         exists p, nth_int (pivot luf) i = Some p /\
                   nth_int (pivot luf) p = Some i) ->
      forall i j, (0 <= i < n)%Z -> (0 <= j < n)%Z ->
        product vals (Vals inv) i j == if (i =? j)%Z then 1 else 0)).
Proof.
  intros Hnew HLU Hnz Hb Hx.
  destruct (NewMatrix_square bvals b Hb) as [-> Hbsq].
  destruct (NewMatrix_square xvals x Hx) as [-> Hxsq].
  split.
  - destruct (SolveMatrix_columns vals m
                {| Vals := bvals; Width := n; Height := n |}
                {| Vals := xvals; Width := n; Height := n |} luf
                Hnew HLU Hnz eq_refl eq_refl eq_refl eq_refl Hxsq)
      as (r & Hrun & _ & _ & Hr & Hcols).
    exists r. split; [exact Hrun | ]. split; [exact Hr | exact Hcols].
  - destruct (LU_factors n n_fits n_pos vals m Hnew) as (luf' & HLU' & Hw & _).
    assert (luf' = luf) by congruence. subst luf'. clear HLU'.
    unfold Invert. cbn [Width Height Vals]. rewrite Hw, Z.eqb_refl. cbn [negb].
    destruct (identity_spec xvals Hxsq) as (id & Hid & Hidsq & Hget).
    rewrite Hid. cbv zeta.
    destruct (SolveMatrix_columns vals m
                {| Vals := id; Width := n; Height := n |}
                {| Vals := id; Width := n; Height := n |} luf
                Hnew HLU Hnz eq_refl eq_refl eq_refl eq_refl Hidsq)
      as (inv & Hrun & _ & _ & Hinv & Hcols).
    exists inv. split; [exact Hrun | ]. split; [exact Hinv | ].
    assert (Hmain : forall i j, (0 <= i < n)%Z -> (0 <= j < n)%Z ->
              exists p q, nth_int (pivot luf) i = Some p /\
                          nth_int (pivot luf) p = Some q /\
                          product vals (Vals inv) q j ==
                            if (i =? j)%Z then 1 else 0).
    { intros i j Hi Hj. destruct (Hcols i j Hi Hj) as (p & q & Ep & Eq & Hq).
      exists p, q. split; [exact Ep | ]. split; [exact Eq | ].
      rewrite Hq. cbn [Vals]. rewrite Hget by assumption. reflexivity. }
    split; [exact Hmain | ].
    intros Hpairs i j Hi Hj.
    destruct (Hmain i j Hi Hj) as (p & q & Ep & Eq & Hq).
    destruct (Hpairs i Hi) as (p' & Ep' & Eq').
    assert (q = i) by congruence. subst q. exact Hq.
Qed.

End InvertFacts.

Lemma SolveMatrix_and_Invert_witness :
  exists m luf b x,
    Mat.NewMatrix [1; 2; 3; 4]%Q 2 2 = Some m /\
    Mat.LU (FO := Exact.ops) Qabs m = Some luf /\
    Mat.NewMatrix [9; 9; 9; 9]%Q 2 2 = Some b /\
    Mat.NewMatrix [5; 6; 7; 8]%Q 2 2 = Some x /\
    (exists r,
       Mat.SolveMatrix (FO := Exact.ops) luf b x = Some r /\
       Z.of_nat (length (Mat.Vals r)) = 2 * 2 /\
       forall i j, 0 <= i < 2 -> 0 <= j < 2 ->
         exists p q, nth_int (Mat.pivot luf) i = Some p /\
                     nth_int (Mat.pivot luf) p = Some q /\
                     (product 2 [1; 2; 3; 4]%Q (Mat.Vals r) q j ==
                      entry 2 [5; 6; 7; 8]%Q i j)%Q) /\
    (exists inv,
       Mat.Invert (FO := Exact.ops) luf x = Some inv /\
       Z.of_nat (length (Mat.Vals inv)) = 2 * 2 /\
       (forall i j, 0 <= i < 2 -> 0 <= j < 2 ->
          exists p q, nth_int (Mat.pivot luf) i = Some p /\
                      nth_int (Mat.pivot luf) p = Some q /\
                      (product 2 [1; 2; 3; 4]%Q (Mat.Vals inv) q j ==
                       if i =? j then 1 else 0)%Q) /\
       ((forall i, 0 <= i < 2 ->
           exists p, nth_int (Mat.pivot luf) i = Some p /\
                     nth_int (Mat.pivot luf) p = Some i) ->
        forall i j, 0 <= i < 2 -> 0 <= j < 2 ->
          (product 2 [1; 2; 3; 4]%Q (Mat.Vals inv) i j ==
           if i =? j then 1 else 0)%Q)).
Proof.
  eexists. eexists. eexists. eexists.
  split; [reflexivity | ].
  split; [vm_compute; reflexivity | ].
  split; [reflexivity | ].
  split; [reflexivity | ].
  assert (Hfits : 2 * 2 <= int_max) by (vm_compute; discriminate).
  eapply (SolveMatrix_and_Invert 2 Hfits eq_refl [1; 2; 3; 4]%Q [9; 9; 9; 9]%Q
            [5; 6; 7; 8]%Q).
  - reflexivity.
  - vm_compute. reflexivity.
  - intros t Ht.
    assert (Ht' : t = 0 \/ t = 1) by lia.
    destruct Ht' as [-> | ->]; vm_compute; discriminate.
  - reflexivity.
  - reflexivity.
Defined.
